(* ===== verification/_CoqProject ===== *)
-Q . S2P
Prelude.v
Bytes.v
Errors.v
Epochs.v
Proto.v
BTree.v
Slices.v
SliceTheory.v
Segments.v
Messages.v
MessageTheory.v
Transfer.v
Network.v
Fifo.v
Clock.v
Address.v
Base64Codec.v
Outside.v
Channels.v
Tcp.v
TcpTheory.v
EntryReader.v
LinkTraits.v
Peekable.v
Pipe.v
PipeTheory.v
UnitTests.v
Connectors.v
Common.v
Links.v
States.v
Hoare.v
Wire.v
Handlers.v
StateTraits.v
Notify.v
LinkSafety.v
Safety.v
Pairs.v
Timers.v
Handshake.v
Controller.v
CoreTask.v
Serde.v
Session.v
Sample.v
Findings.v
Witnesses.v
LinkWitnesses.v
