(* ===== verification/Prelude.v ===== *)
(** * A verification development of the [link_set] crate

    A link set is one connection between two members of a network, carried by
    any number of links (TCP, pipes, ...).  It frames the application's messages
    into slices, acknowledges and retransmits them, agrees with its peer on an
    epoch that names the connection, and reconnects when all links are lost.

    ** The program and its parts

    The application holds a [LinkSet] ([src/link_set/controller.rs]) or its
    [LinkSetReader] ([src/link_set/reader.rs]).  Commands travel over a channel to
    the core ([src/core.rs]), an event loop that owns a [CommonState]
    ([src/state/common.rs]) and one of six states ([src/state/states/]).  Each
    state handles control commands, packets from links, its timer and debug
    commands, and returns the next state.  The connected states own a
    [LinkManager] ([src/links/link_manager.rs]) and a [MessageManager]
    ([src/message_manager.rs]), which keeps one [SliceManager]
    ([src/slice_manager.rs]) per message.  The states that look for a connection
    own a [ConnectorManager] ([src/connector_manager.rs]), whose tasks ask
    connectors for links and send them to the core as commands.  What the core
    has to say goes back to the application over a second channel.  A link is any
    implementation of the trait [Link] ([src/links/link.rs]); the crate brings one
    over TCP and one over in-memory pipes ([src/link_impls/]).

    ** The files

    Foundations.
    - [Prelude] (this file): outcomes (a Rust computation returns, panics, or has
      not finished within its fuel), results, machine arithmetic under a
      [BuildProfile] (with overflow checks a wrapping operation panics, without
      them it wraps), lists indexed by [Z], tactics and hint databases.
    - [Bytes]: big-endian integers.  [BTree]: [BTreeMap<u64, _>] as its sorted
      list of entries.  [Clock]: instants and durations in nanoseconds, and
      [src/deadline.rs] in its module [Deadline].
    - [Errors]: [src/error.rs].  [Epochs]: [src/epoch.rs].

    Messages and their transfer.
    - [Proto]: [src/protocol.rs], the packets, their encoding and decoder.
    - [Slices]: [src/slice_manager.rs]; [SliceTheory] its invariant and the effect
      of each operation on the set of present bytes; [Segments] one message cut
      into slices and put together again.
    - [Messages]: [src/message_manager.rs]; [MessageTheory] its invariant and
      absence of panics.
    - [Transfer], [Network]: a sender, a receiver and the network between them.
      [Fifo]: the same over one ordered, lossless link.

    Links.
    - [Address]: [src/links/address.rs]; [Base64Codec] an instance of the codec it
      takes from outside.  [Outside]: what the core sees of links, connectors and
      the clock.
    - [Channels]: bounded channels as the runtime has them, and [Poll].
    - [Tcp]: [src/link_impls/tcp_link.rs]: framing, the resumable reader, the
      reading task, the listener, socket addresses.  [TcpTheory]: two ends and the
      stream between them.
    - [EntryReader]: the task of [LinkEntry::take_reader], which decodes what a
      link's reader returns; composed with the TCP link.
    - [LinkTraits]: the traits of [src/links/link.rs] and
      [src/links/connector.rs]: the class [Link], its boxed form, and how an
      instance becomes an [Outside].  [Peekable]: [src/adaptors/peekable.rs].
    - [Pipe]: [src/link_impls/pipe_link.rs]: both ends, the reader with its
      suspension points, cancelers, the hub.  The two ends of a pair and all copies
      of a canceler share channels, so these live in a heap.  [PipeTheory]: one
      direction of a pipe, and pairs.
    - [UnitTests]: the crate's unit tests, run on the model.

    The core.
    - [Connectors]: [src/connector_manager.rs].
    - [Common]: the messages between application and core, [CommonState], and the
      monad the handlers run in: the state is the [World] (common state, what was
      sent to the application, what was handed to links, replies to debug
      commands, and the number of interactions with the outside).
    - [Links]: [src/links/link_entry.rs] and [src/links/link_manager.rs].
    - [States]: the records of the six states and every transition between them.
    - [Handlers]: the four handlers of each state, the dispatch of [src/core.rs]
      and the runs of its event loop ([run]).  [StateTraits]: the traits
      ([src/state/mod.rs], [src/state/transition.rs]) behind which the program
      keeps them.
    - [Controller]: [src/link_set/controller.rs], [src/link_set/reader.rs].
      [Serde]: [src/link_set/serde.rs].
    - [CoreTask]: the spawned task, its channels, the handles that hold them and
      the debug handle ([src/debug.rs]).

    Theorems about the core.
    - [Hoare]: the program logic.  [Wire]: what reaches the links.  [Notify]: the
      specification of the stream of
      notifications and that every run meets it.  [LinkSafety], [Safety]: total
      correctness.  [Pairs]: two cores that talk to each other.  [Timers]: when the
      timer runs.  [Handshake]: agreement on the epoch.  [Session]: how the
      handlers use their message manager.
    - [Findings]: behaviours that contradict what the code says.
    - [Sample], [Witnesses], [LinkWitnesses]: concrete environments and runs, and
      for every property with hypotheses an input at which they hold.

    ** What the theorems show

    - Transfer: the receiver releases a prefix of what was sent, in order and
      byte for byte (C1); nothing undelivered is lost (C3) and resending the
      earliest kept message, as the timer does, completes the transfer after any
      losses (C2); over an ordered, lossless link nothing has to be resent (C4);
      one message survives slicing and reassembly (C19); retransmission sends
      exactly the missing rest (C22); the slice sets are exact unions (C23); queued
      messages are numbered and sent in order (C24); the message manager is total
      (C21).  The handler of the connected state does to its
      message manager what the transfer model does (C12).
    - Wire format: decoding inverts encoding (C17) and accepts only encodings
      (C18).
    - Core: it never panics on well-formed events (C5), and two cores whose
      applications keep to the same bounds never bring each other down (C6),
      because what a core sends is well-typed and within the bounds its peer needs
      (C7); it hands no link too large a packet (C20), notifies the application by
      the rules (C9), never lets its epoch decrease (C25), keeps [is_active] true
      exactly while connected (C26), and its timer armed, which repeats requests and
      resends the earliest message (C27).
    - The task around it: commands are executed in order and once (C8), so what
      holds of runs holds of the task; debug requests are answered (C33); it ends
      only by a panic (C34).
    - Handshake: the handlers answer exactly as an abstract peer does (C11); two
      such peers are never connected under different epochs, whatever the network
      loses, repeats or reorders and however often they start again, and can always
      reach agreement (C10).
    - TCP links: the chunks sent before the first failed write arrive first and as
      they were sent, whatever the segmentation, wherever the connection fails and
      whatever is sent after that (C13); while it is up all of them arrive
      (C14); an abandoned read loses nothing (C15); packets of one core become
      events of the other (C16); socket addresses round trip (C37).
    - Pipe links keep their order (C31) and the hub connects its callers (C32).
    - Controller: the epoch it shows is the session's (C28); messages survive the
      serializer (C38).
    - Connection attempts: when they are stopped, exactly the permits of completed
      attempts are gone (C29), and each attempt uses up a permit (C30).
    - Addresses: the binary form round trips (C35) and is exact (C36).
    - Input that brings the receiver down or corrupts a message: C39, C40.

    ** Bounds, fuel and assumptions

    Machine integers are [Z] with their operations at width; lengths of vectors
    are at most [isize::MAX].  The loops over slice sets get one unit of fuel
    more than the set has entries, the loop that cuts slices one more than it has
    bytes to cut; running out is the outcome [Diverge], which no theorem that
    states [= Ret _] allows, so the fuel is proved sufficient where it matters.
    The loops of the TCP reader recurse on the reads of the socket and return
    [Pending] when these are used up.

    C1 to C3 deliver a slice only when it does not start beyond the bytes the
    receiver already has of that message.  This is a condition on the links, which
    C40 shows to be needed; one ordered, lossless link meets it, which is how C4 is
    proved.  C5 is about packets within [event_ok]: a slice announces a nonempty
    message, no index exceeds 64 bits, timeouts can be added to the clock; and
    about counters that have room ([room]).  The packets of another core are
    within these bounds (C6); that the application's events are is assumed, since
    the controller accepts any timeout.  [OutsideLaws] says that a link's maximal size is a
    [u32] that never changes, and that the clock's readings stay within a bound far
    above any uptime.  Connector tasks interleave with events freely.

    The TCP theorems are about chunks of at most [CHUNK_LIMIT] bytes, 1 KiB less
    than 4 GiB: beyond, the comparison of the buffer's length as a [u32] wraps.  A
    socket is the list of its completed reads, of at most 1024 bytes each, and what
    was written to it; a failing write leaves any prefix of its bytes.

    ** What is not modelled

    The scheduling of the asynchronous runtime: an event's handler runs to
    completion before the next, as in the event loop, and a handler that waits for
    room in the channel to the application counts as running (that channel is a log
    of what was sent).  Poisoned locks; tracing; [Debug] output; the boxing of
    futures; module files.  The sockets, the random generator, the base64 crate,
    bincode and the parser of textual socket addresses are parameters, with the
    laws the code relies on where a theorem needs them.  The integration tests
    need a scheduler and a clock; the unit tests are run on the model.  The
    iteration order of hash tables is fixed to that of the model's maps, which only
    the debug snapshots show. *)

From stdpp Require Export base tactics list option strings gmap relations sorting.
From Stdlib Require Export ZArith Lia.

#[export] Set Default Goal Selector "!".
Open Scope Z_scope.

(** ** Outcomes

    A Rust computation returns, panics, or (for a loop given too little fuel)
    has not finished.  Theorems that state [... = Ret _] therefore include both
    the absence of panics and termination. *)

Inductive outcome (A : Type) : Type :=
  | Ret (a : A)
  | Panic
  | Diverge.
Arguments Ret {_} _ : assert.
Arguments Panic {_} : assert.
Arguments Diverge {_} : assert.

#[export] Instance outcome_ret : MRet outcome := fun A => @Ret A.
#[export] Instance outcome_bind : MBind outcome := fun A B f m =>
  match m with
  | Ret a => f a
  | Panic => Panic
  | Diverge => Diverge
  end.

#[export] Instance outcome_eq_dec `{EqDecision A} : EqDecision (outcome A).
Proof. solve_decision. Defined.

(** [returns m] holds when [m] neither panics nor runs out of fuel. *)
Definition returns {A} (m : outcome A) : Prop := exists a, m = Ret a.

Lemma bind_Ret {A B} (a : A) (f : A -> outcome B) : (Ret a ≫= f) = f a.
Proof. reflexivity. Qed.

Lemma bind_Ret_inv {A B} (m : outcome A) (f : A -> outcome B) b :
  (m ≫= f) = Ret b -> exists a, m = Ret a /\ f a = Ret b.
Proof. destruct m; [eauto | discriminate | discriminate]. Qed.

Lemma bind_assoc {A B C} (m : outcome A) (f : A -> outcome B) (g : B -> outcome C) :
  ((m ≫= f) ≫= g) = (m ≫= fun a => f a ≫= g).
Proof. by destruct m. Qed.

(** [Option::unwrap] and [Option::expect]. *)
Definition unwrap {A} (o : option A) : outcome A :=
  match o with Some a => Ret a | None => Panic end.

(** ** Results

    [Result<A, E>]; [?] is the monadic bind. *)

Inductive result (E A : Type) : Type :=
  | Ok (a : A)
  | Err (e : E).
Arguments Ok {_ _} _ : assert.
Arguments Err {_ _} _ : assert.

#[export] Instance result_ret {E} : MRet (result E) := fun A => @Ok E A.
#[export] Instance result_bind {E} : MBind (result E) := fun A B f m =>
  match m with Ok a => f a | Err e => Err e end.
#[export] Instance result_eq_dec `{EqDecision E, EqDecision A} : EqDecision (result E A).
Proof. solve_decision. Defined.

(** [Option::ok_or]. *)
Definition ok_or {E A} (e : E) (o : option A) : result E A :=
  match o with Some a => Ok a | None => Err e end.

(** [Result::map_err]. *)
Definition map_err {E E' A} (f : E -> E') (r : result E A) : result E' A :=
  match r with Ok a => Ok a | Err e => Err (f e) end.

(** ** Machine integers

    [u64], [u32] and (on the 64-bit targets we model) [usize] values are [Z]s
    in range.  What [+] and [-] do on overflow depends on the build profile:
    with overflow checks they panic, without them they wrap. *)

Class BuildProfile := overflow_checks : bool.

Abbreviation U64_MOD := (2 ^ 64)%Z.
Abbreviation U64_MAX := (2 ^ 64 - 1)%Z.
Abbreviation ISIZE_MAX := (2 ^ 63 - 1)%Z.
Abbreviation U32_MAX := (2 ^ 32 - 1)%Z.
Abbreviation is_u64 z := (0 <= z <= U64_MAX).
Abbreviation is_u32 z := (0 <= z <= U32_MAX).

Section Arith.
Context {P : BuildProfile}.

Definition u64_norm (z : Z) : outcome Z :=
  if (0 <=? z) && (z <? U64_MOD) then Ret z
  else if overflow_checks then Panic else Ret (z mod U64_MOD).

Definition u64_add (a b : Z) : outcome Z := u64_norm (a + b).
Definition u64_sub (a b : Z) : outcome Z := u64_norm (a - b).

Lemma u64_norm_ok z : is_u64 z -> u64_norm z = Ret z.
Proof.
  intros H. unfold u64_norm.
  destruct (0 <=? z) eqn:E1, (z <? U64_MOD) eqn:E2; simpl; try reflexivity; lia.
Qed.

Lemma u64_add_ok a b : is_u64 (a + b) -> u64_add a b = Ret (a + b).
Proof. apply u64_norm_ok. Qed.

Lemma u64_sub_ok a b : is_u64 (a - b) -> u64_sub a b = Ret (a - b).
Proof. apply u64_norm_ok. Qed.

(** Whatever the profile, a value that comes out is a [u64]. *)
Lemma u64_norm_range z r : u64_norm z = Ret r -> is_u64 r.
Proof.
  unfold u64_norm.
  destruct (0 <=? z) eqn:E1, (z <? U64_MOD) eqn:E2; simpl; intros H;
    try (destruct overflow_checks; [discriminate|]);
    injection H as <-; try lia;
    pose proof (Z.mod_pos_bound z U64_MOD ltac:(lia)); lia.
Qed.
End Arith.

(** Rewrites every [u64] operation in the goal whose operands are known to be
    in range, and runs the binds this exposes. *)
Ltac u64_steps :=
  repeat first
    [ rewrite bind_Ret
    | match goal with
      | |- context [u64_add ?a ?b] => rewrite (u64_add_ok a b) by lia
      | |- context [u64_sub ?a ?b] => rewrite (u64_sub_ok a b) by lia
      end ].

(** [saturating_sub] on unsigned integers. *)
Definition saturating_sub (a b : Z) : Z := Z.max 0 (a - b).

(** ** Vectors *)

(** [Vec::len], as a [u64]. *)
Definition len {A} (l : list A) : Z := Z.of_nat (length l).

Lemma len_nonneg {A} (l : list A) : 0 <= len l.
Proof. unfold len; lia. Qed.

Lemma len_nil {A} : len (@nil A) = 0.
Proof. reflexivity. Qed.

Lemma len_cons {A} (x : A) l : len (x :: l) = 1 + len l.
Proof. unfold len; simpl; lia. Qed.

Lemma len_app {A} (l k : list A) : len (l ++ k) = len l + len k.
Proof. unfold len; rewrite length_app; lia. Qed.

Lemma len_zero_nil {A} (l : list A) : len l = 0 -> l = [].
Proof. destruct l; [done | rewrite len_cons; pose proof (len_nonneg l); lia]. Qed.

Lemma len_pos {A} (l : list A) : l <> [] <-> 1 <= len l.
Proof. unfold len. destruct l; simpl; split; intros; try done; lia. Qed.

Create Rewrite HintDb lens.
#[export] Hint Rewrite @len_app @len_cons @len_nil : lens.

Definition takeZ {A} (n : Z) (l : list A) : list A := take (Z.to_nat n) l.
Definition dropZ {A} (n : Z) (l : list A) : list A := drop (Z.to_nat n) l.

(** [&v[a..=b]]: panics when the range does not lie inside the vector. *)
Definition index_incl {A} (a b : Z) (l : list A) : outcome (list A) :=
  if (a <=? b + 1) && (b + 1 <=? len l)
  then Ret (takeZ (b + 1 - a) (dropZ a l)) else Panic.

(** [dst[a..=b].copy_from_slice(src)]: panics when the range does not lie
    inside [dst] or has another length than [src]. *)
Definition splice_incl {A} (a b : Z) (src dst : list A) : outcome (list A) :=
  if (a <=? b + 1) && (b + 1 <=? len dst) && (len src =? b + 1 - a)
  then Ret (takeZ a dst ++ src ++ dropZ (b + 1) dst) else Panic.

Lemma len_takeZ {A} n (l : list A) : 0 <= n <= len l -> len (takeZ n l) = n.
Proof. unfold len, takeZ; intros; rewrite length_take; lia. Qed.

Lemma len_dropZ {A} n (l : list A) : 0 <= n <= len l -> len (dropZ n l) = len l - n.
Proof. unfold len, dropZ; intros; rewrite length_drop; lia. Qed.

(** The element at a [u64] index. *)
Definition atZ {A} (l : list A) (i : Z) : option A := l !! Z.to_nat i.

Lemma atZ_splice {A} a b (src dst r : list A) i :
  0 <= a -> splice_incl a b src dst = Ret r -> 0 <= i ->
  atZ r i = if (a <=? i) && (i <=? b) then atZ src (i - a) else atZ dst i.
Proof.
  unfold splice_incl, atZ. intros Ha H Hi.
  destruct (Z.leb_spec a (b + 1)), (Z.leb_spec (b + 1) (len dst)),
    (Z.eqb_spec (len src) (b + 1 - a)); simpl in H; try discriminate.
  injection H as <-. unfold takeZ, dropZ, len in *.
  assert (length (take (Z.to_nat a) dst) = Z.to_nat a) as Hl by (rewrite length_take; lia).
  destruct (Z.leb_spec a i), (Z.leb_spec i b); simpl.
  - rewrite lookup_app_r, lookup_app_l by lia. f_equal. lia.
  - rewrite !lookup_app_r, lookup_drop by lia. f_equal. lia.
  - rewrite lookup_app_l, lookup_take_lt by lia. done.
  - rewrite lookup_app_l, lookup_take_lt by lia. done.
Qed.

Lemma splice_incl_ok {A} a b (src dst : list A) :
  0 <= a <= b + 1 -> b + 1 <= len dst -> len src = b + 1 - a ->
  exists r, splice_incl a b src dst = Ret r /\ len r = len dst.
Proof.
  intros. unfold splice_incl.
  rewrite (proj2 (Z.leb_le a (b + 1))), (proj2 (Z.leb_le (b + 1) (len dst))),
    (proj2 (Z.eqb_eq _ _)) by lia.
  simpl. eexists. split; [done|]. rewrite !len_app, len_takeZ, len_dropZ by lia. lia.
Qed.

Lemma index_incl_ok {A} a b (l : list A) :
  0 <= a <= b + 1 -> b + 1 <= len l -> index_incl a b l = Ret (takeZ (b + 1 - a) (dropZ a l)).
Proof.
  intros. unfold index_incl.
  by rewrite (proj2 (Z.leb_le a (b + 1))), (proj2 (Z.leb_le (b + 1) (len l))) by lia.
Qed.

Lemma atZ_takeZ {A} n (l : list A) i : 0 <= i < n -> atZ (takeZ n l) i = atZ l i.
Proof. intros. unfold atZ, takeZ. apply lookup_take_lt. lia. Qed.

Lemma atZ_dropZ {A} n (l : list A) i : 0 <= n -> 0 <= i -> atZ (dropZ n l) i = atZ l (n + i).
Proof. intros. unfold atZ, dropZ. rewrite lookup_drop. f_equal. lia. Qed.

Lemma dropZ_0 {A} (l : list A) : dropZ 0 l = l.
Proof. reflexivity. Qed.

Lemma takeZ_all {A} n (l : list A) : len l <= n -> takeZ n l = l.
Proof. intros. apply take_ge. unfold len in *. lia. Qed.

Lemma dropZ_all {A} n (l : list A) : len l <= n -> dropZ n l = [].
Proof. intros. apply drop_ge. unfold len in *. lia. Qed.

Lemma dropZ_dropZ {A} a b (l : list A) : 0 <= a -> 0 <= b -> dropZ a (dropZ b l) = dropZ (b + a) l.
Proof. intros. unfold dropZ. rewrite drop_drop. f_equal. lia. Qed.

Lemma takeZ_dropZ {A} n (l : list A) : takeZ n l ++ dropZ n l = l.
Proof. apply take_drop. Qed.

Lemma takeZ_app {A} n (l k : list A) : n = len l -> takeZ n (l ++ k) = l.
Proof. intros ->. unfold takeZ, len. rewrite Nat2Z.id. apply take_app_length. Qed.

Lemma dropZ_app {A} n (l k : list A) : n = len l -> dropZ n (l ++ k) = k.
Proof. intros ->. unfold dropZ, len. rewrite Nat2Z.id. apply drop_app_length. Qed.

Lemma takeZ_app_le {A} n (l k : list A) : n <= len l -> takeZ n (l ++ k) = takeZ n l.
Proof. intros. unfold takeZ, len in *. apply take_app_le. lia. Qed.

Lemma dropZ_app_le {A} n (l k : list A) : n <= len l -> dropZ n (l ++ k) = dropZ n l ++ k.
Proof. intros. unfold dropZ, len in *. apply drop_app_le. lia. Qed.

Lemma takeZ_split {A} a n (l : list A) :
  0 <= a <= n -> takeZ n l = takeZ a l ++ takeZ (n - a) (dropZ a l).
Proof.
  intros. unfold takeZ, dropZ. rewrite take_take_drop. f_equal. lia.
Qed.

(** Lists of the same length that agree at every index are equal. *)
Lemma atZ_ext {A} (l k : list A) :
  len l = len k -> (forall i, 0 <= i < len l -> atZ l i = atZ k i) -> l = k.
Proof.
  unfold len, atZ. intros Hl H. apply list_eq. intros i.
  destruct (decide (i < length l)%nat).
  - specialize (H (Z.of_nat i)). rewrite Nat2Z.id in H. apply H. lia.
  - rewrite !lookup_ge_None_2 by lia. done.
Qed.
