(* ===== verification/Bytes.v ===== *)
(** * Bytes and big-endian integers

    [u64::to_be_bytes], [u64::from_be_bytes] and their 16- and 32-bit
    counterparts, as one pair of functions indexed by the number of bytes, with
    the round trips between integers and bytes. *)

From stdpp Require Import base tactics list.
From Stdlib Require Export Strings.Byte.
From S2P Require Import Prelude.

Abbreviation bytes := (list byte).

#[export] Instance byte_eq_dec : EqDecision byte := Byte.byte_eq_dec.

Definition byte_to_Z (b : byte) : Z := Z.of_N (Byte.to_N b).

(** [z as u8]: the low eight bits. *)
Definition byte_of_Z (z : Z) : byte :=
  match Byte.of_N (Z.to_N (z mod 256)) with Some b => b | None => x00 end.

Lemma byte_to_Z_range b : 0 <= byte_to_Z b < 256.
Proof. unfold byte_to_Z. pose proof (Byte.to_N_bounded b). lia. Qed.

Lemma byte_to_of_Z z : byte_to_Z (byte_of_Z z) = z mod 256.
Proof.
  pose proof (Z.mod_pos_bound z 256 ltac:(lia)).
  unfold byte_to_Z, byte_of_Z. destruct (Byte.of_N _) as [b|] eqn:E.
  - apply Byte.to_of_N in E. rewrite E. lia.
  - apply Byte.of_N_None_iff in E. lia.
Qed.

Lemma byte_of_to_Z b : byte_of_Z (byte_to_Z b) = b.
Proof.
  pose proof (byte_to_Z_range b). unfold byte_of_Z.
  rewrite Z.mod_small by lia. unfold byte_to_Z.
  by rewrite N2Z.id, Byte.of_to_N.
Qed.

(** The [n] low-order bytes of [z], most significant first. *)
Fixpoint to_be_bytes (n : nat) (z : Z) : bytes :=
  match n with
  | O => []
  | S n => to_be_bytes n (Z.shiftr z 8) ++ [byte_of_Z z]
  end.

Definition from_be_bytes (l : bytes) : Z :=
  foldl (fun acc b => Z.lor (Z.shiftl acc 8) (byte_to_Z b)) 0 l.

Lemma length_to_be_bytes n z : length (to_be_bytes n z) = n.
Proof.
  revert z; induction n as [|n IH]; intros z; simpl; [done|].
  rewrite length_app, IH; simpl; lia.
Qed.

Lemma len_to_be_bytes n z : len (to_be_bytes n z) = Z.of_nat n.
Proof. unfold len; by rewrite length_to_be_bytes. Qed.

Lemma lor_shift_byte acc b :
  Z.lor (Z.shiftl acc 8) (byte_to_Z b) = acc * 256 + byte_to_Z b.
Proof.
  pose proof (byte_to_Z_range b) as Hb.
  assert (Z.land (Z.shiftl acc 8) (byte_to_Z b) = 0) as Hland.
  { apply Z.bits_inj'; intros i Hi.
    rewrite Z.land_spec, Z.bits_0, Z.shiftl_spec by lia.
    destruct (decide (i < 8)); [by rewrite Z.testbit_neg_r by lia|].
    rewrite (Z.bits_above_log2 (byte_to_Z b)); [apply andb_false_r | lia |].
    destruct (decide (byte_to_Z b = 0)) as [->|]; [simpl; lia|].
    apply Z.log2_lt_pow2; [lia|].
    apply Z.lt_le_trans with (2 ^ 8); [lia|]. apply Z.pow_le_mono_r; lia. }
  rewrite <- (Z.lxor_lor _ _ Hland), <- (Z.add_nocarry_lxor _ _ Hland).
  by rewrite Z.shiftl_mul_pow2 by lia.
Qed.

Lemma from_be_bytes_app l b : from_be_bytes (l ++ [b]) = from_be_bytes l * 256 + byte_to_Z b.
Proof. unfold from_be_bytes. rewrite foldl_app. simpl. apply lor_shift_byte. Qed.

Lemma from_be_bytes_range l : 0 <= from_be_bytes l < 256 ^ len l.
Proof.
  induction l as [|b l IH] using rev_ind; [by compute|].
  rewrite from_be_bytes_app, len_app. change (len [b]) with 1.
  pose proof (byte_to_Z_range b). pose proof (len_nonneg l).
  rewrite Z.pow_add_r by lia. change (256 ^ 1) with 256. nia.
Qed.

(** Encoding then decoding keeps the low-order bytes. *)
Lemma from_to_be_bytes n z : from_be_bytes (to_be_bytes n z) = z mod 256 ^ Z.of_nat n.
Proof.
  revert z; induction n as [|n IH]; intros z; simpl to_be_bytes.
  { by rewrite Z.mod_1_r. }
  rewrite from_be_bytes_app, IH, byte_to_of_Z, Z.shiftr_div_pow2 by lia.
  rewrite Nat2Z.inj_succ, Z.pow_succ_r by lia. change (2 ^ 8) with 256.
  rewrite Z.rem_mul_r by lia. lia.
Qed.

Lemma from_to_be_bytes_id n z : 0 <= z < 256 ^ Z.of_nat n -> from_be_bytes (to_be_bytes n z) = z.
Proof. intros. rewrite from_to_be_bytes. by apply Z.mod_small. Qed.

Lemma to_from_be_bytes l : to_be_bytes (length l) (from_be_bytes l) = l.
Proof.
  induction l as [|b l IH] using rev_ind; [done|].
  rewrite length_app, Nat.add_1_r. simpl.
  rewrite from_be_bytes_app, Z.shiftr_div_pow2 by lia. change (2 ^ 8) with 256.
  pose proof (byte_to_Z_range b).
  rewrite Z.div_add_l, (Z.div_small (byte_to_Z b)), Z.add_0_r, IH by lia.
  f_equal. f_equal. rewrite <- (byte_of_to_Z b) at 2. unfold byte_of_Z.
  by rewrite Z.add_comm, Z_mod_plus_full.
Qed.

(** The two widths the crate uses most. *)
Definition u64_to_be_bytes (z : Z) : bytes := to_be_bytes 8 z.
Definition u32_to_be_bytes (z : Z) : bytes := to_be_bytes 4 z.
Definition u16_to_be_bytes (z : Z) : bytes := to_be_bytes 2 z.

Lemma u64_be_roundtrip z : is_u64 z -> from_be_bytes (u64_to_be_bytes z) = z.
Proof. intros. apply from_to_be_bytes_id. lia. Qed.

Lemma u32_be_roundtrip z : is_u32 z -> from_be_bytes (u32_to_be_bytes z) = z.
Proof. intros. apply from_to_be_bytes_id. lia. Qed.

Arguments to_be_bytes : simpl never.
Arguments u64_to_be_bytes : simpl never.
