(* ===== verification/Errors.v ===== *)
(** * The crate's error type ([src/error.rs]). *)

From S2P Require Import Prelude Bytes.

(** A [Box<dyn Error + Send + Sync>]: the boxed error, by its rendering. *)
Abbreviation BoxError := string.

Inductive LinkSetError : Type :=
  | IncorrectAddrType (expected found : string)
  | DeserializeEOF
  | DeserializeInvalid (b : byte)
  | DeserializeInvalidLen
  | TaskTerminated (e : BoxError)
  | SendableSerialization (e : BoxError)
  | SendableDeserialization (e : BoxError)
  | LinkError (e : BoxError)
  | Implementation_ (size required_size : Z)
  | ReceiverTaken
  | Closed
  | Terminated.

#[export] Instance LinkSetError_eq_dec : EqDecision LinkSetError.
Proof. solve_decision. Defined.

Abbreviation LinkSetResult := (result LinkSetError).
