(* ===== verification/Epochs.v ===== *)
(** * Epochs ([src/epoch.rs])

    An epoch is a [NonZero<u64>]: the record carries the proof that its value
    is a nonzero [u64], so the type has exactly the values of the Rust type. *)

From S2P Require Import Prelude.

Module Epoch.

Definition nonzero_u64 (z : Z) : bool := (0 <? z) && (z <? U64_MOD).

Record Epoch : Type := mk_epoch {
  epoch_value : Z;
  epoch_nonzero : nonzero_u64 epoch_value = true;
}.

Lemma nonzero_u64_spec z : nonzero_u64 z = true <-> 1 <= z <= U64_MAX.
Proof. unfold nonzero_u64. rewrite andb_true_iff, Z.ltb_lt, Z.ltb_lt. lia. Qed.

Lemma epoch_eq (a b : Epoch) : epoch_value a = epoch_value b -> a = b.
Proof.
  destruct a as [x Hx], b as [y Hy]; simpl; intros ->. f_equal.
  apply (proof_irrel Hx Hy).
Qed.

#[export] Instance Epoch_eq_dec : EqDecision Epoch.
Proof.
  intros a b. destruct (decide (epoch_value a = epoch_value b)) as [E|E].
  - left. by apply epoch_eq.
  - right. congruence.
Defined.

Lemma epoch_range (e : Epoch) : 1 <= epoch_value e <= U64_MAX.
Proof. apply nonzero_u64_spec, epoch_nonzero. Qed.

Definition ONE : Epoch := mk_epoch 1 eq_refl.

(** [NonZero::new(value).map(Epoch)], on a [u64]. *)
Definition from_int (value : Z) : option Epoch :=
  match decide (nonzero_u64 value = true) with
  | left H => Some (mk_epoch value H)
  | right _ => None
  end.

Definition to_int (e : Epoch) : Z := epoch_value e.

(** [int] is the [u64] drawn from the random number generator. *)
Definition random {P : BuildProfile} (int : Z) : outcome Epoch :=
  int ← (if int =? 0 then u64_add int 1 else Ret int);
  unwrap (from_int int).

(** [self.0.saturating_add(1)] *)
Definition saturating_succ (z : Z) : Z := Z.min (z + 1) U64_MAX.

Lemma saturating_succ_nonzero (e : Epoch) :
  nonzero_u64 (saturating_succ (epoch_value e)) = true.
Proof.
  apply nonzero_u64_spec. pose proof (epoch_range e). unfold saturating_succ. lia.
Qed.

Definition increment (e : Epoch) : Epoch :=
  mk_epoch (saturating_succ (epoch_value e)) (saturating_succ_nonzero e).

Definition opt_epoch_to_int (epoch : option Epoch) : Z :=
  match epoch with
  | Some epoch => to_int epoch
  | None => 0
  end.

Definition opt_epoch_increment (epoch : option Epoch) : option Epoch :=
  increment <$> epoch.

Definition compare_epochs (a b : option Epoch) : comparison :=
  match a with
  | Some epoch_a =>
      match b with
      | Some epoch_b => to_int epoch_a ?= to_int epoch_b
      | None => Gt
      end
  | None => Lt
  end.

(** ** Properties *)

Lemma from_to_int e : from_int (to_int e) = Some e.
Proof.
  unfold from_int. destruct (decide _) as [H|H].
  - f_equal. by apply epoch_eq.
  - by destruct H, e.
Qed.

Lemma from_int_Some z e : from_int z = Some e -> to_int e = z.
Proof. unfold from_int. destruct (decide _); [by intros [= <-] | done]. Qed.

Lemma from_int_zero : from_int 0 = None.
Proof. reflexivity. Qed.

Lemma from_opt_epoch_to_int e : from_int (opt_epoch_to_int e) = e.
Proof. destruct e; [apply from_to_int | apply from_int_zero]. Qed.

Lemma opt_epoch_to_from_int z : is_u64 z -> opt_epoch_to_int (from_int z) = z.
Proof.
  intros Hz. destruct (from_int z) as [e|] eqn:E; simpl.
  - by apply from_int_Some.
  - unfold from_int in E. destruct (decide _) as [|n]; [done|].
    destruct (decide (z = 0)); [done|].
    destruct n. apply nonzero_u64_spec. lia.
Qed.

Lemma increment_value e : to_int (increment e) = Z.min (to_int e + 1) U64_MAX.
Proof. reflexivity. Qed.

Lemma opt_epoch_u64 e : is_u64 (opt_epoch_to_int e).
Proof. destruct e as [e|]; simpl; [pose proof (epoch_range e); unfold to_int |]; lia. Qed.

(** Equal comparison only ever happens between two present, equal epochs. *)
Lemma compare_epochs_Eq a b : compare_epochs a b = Eq -> exists e, a = Some e /\ b = Some e.
Proof.
  destruct a as [x|], b as [y|]; simpl; try discriminate.
  rewrite Z.compare_eq_iff. intros H. exists x. split; [done|]. f_equal.
  symmetry. by apply epoch_eq.
Qed.

Lemma compare_epochs_refl e : compare_epochs (Some e) (Some e) = Eq.
Proof. apply Z.compare_refl. Qed.

End Epoch.
Export Epoch (Epoch).
