(* ===== verification/Proto.v ===== *)
(** * The wire protocol ([src/protocol.rs])

    The messages two link sets exchange, their byte encoding and its decoder.
    The decoder consumes a [VecDeque<u8>]; it is a reader in a state and error
    monad that returns what it leaves in the queue on every path, errors
    included. *)

From S2P Require Import Prelude Bytes Errors Epochs.

Module Protocol.
Import Epoch.

Inductive LinkProtocol : Type :=
  | Reset (epoch : option Epoch) (request : bool)
  | Ack (epoch seq last_index : Z)
  | MsgSlice (epoch seq seq_len first_index : Z) (data : bytes)
  | Ping
  | Pong.

#[export] Instance LinkProtocol_eq_dec : EqDecision LinkProtocol.
Proof. solve_decision. Defined.

(** [reply as u8] *)
Definition bool_as_u8 (b : bool) : byte := if b then x01 else x00.

Definition serialize (p : LinkProtocol) : bytes :=
  match p with
  | Reset epoch reply =>
      [x00] ++ u64_to_be_bytes (opt_epoch_to_int epoch) ++ [bool_as_u8 reply]
  | Ack epoch seq last_index =>
      [x01] ++ u64_to_be_bytes epoch ++ u64_to_be_bytes seq ++ u64_to_be_bytes last_index
  | MsgSlice epoch seq seq_len first_index data =>
      [x02] ++ u64_to_be_bytes epoch ++ u64_to_be_bytes seq
        ++ u64_to_be_bytes seq_len ++ u64_to_be_bytes first_index
        ++ u64_to_be_bytes (len data) ++ data
  | Ping => [x03]
  | Pong => [x04]
  end.

(** ** Reading from a [VecDeque<u8>] *)

Definition Reader (A : Type) : Type := bytes -> LinkSetResult A * bytes.

#[export] Instance Reader_ret : MRet Reader := fun A a q => (Ok a, q).
#[export] Instance Reader_bind : MBind Reader := fun A B f m q =>
  match m q with
  | (Ok a, q) => f a q
  | (Err e, q) => (Err e, q)
  end.

Definition fail {A} (e : LinkSetError) : Reader A := fun q => (Err e, q).

(** [data.pop_front().ok_or(DeserializeEOF)?] *)
Definition pop_front : Reader byte := fun q =>
  match q with
  | [] => (Err DeserializeEOF, [])
  | b :: q => (Ok b, q)
  end.

(** [data.read_exact(&mut buf).map_err(|_| DeserializeEOF)?] with an [n]-byte
    buffer.  A queue that is too short is emptied by the failing read. *)
Definition read_exact (n : nat) : Reader bytes := fun q =>
  if (length q <? n)%nat then (Err DeserializeEOF, [])
  else (Ok (take n q), drop n q).

(** [if data.len() < n { return Err(DeserializeEOF) }] *)
Definition require_len (n : Z) : Reader unit := fun q =>
  if len q <? n then (Err DeserializeEOF, q) else (Ok tt, q).

(** [data.take(n).read_to_end(&mut buf)]: at most [n] bytes. *)
Definition take_to_end (n : Z) : Reader bytes := fun q => (Ok (takeZ n q), dropZ n q).

Definition read_u64 : Reader Z :=
  buf ← read_exact 8; mret (from_be_bytes buf).

Definition deserialize : Reader LinkProtocol :=
  variant ← pop_front;
  match variant with
  | x00 =>
      epoch ← read_u64;
      reply ← pop_front;
      mret (Reset (from_int epoch) (negb (bool_decide (reply = x00))))
  | x01 =>
      epoch ← read_u64;
      _ ← require_len 8;
      seq ← read_u64;
      _ ← require_len 8;
      last_index ← read_u64;
      mret (Ack epoch seq last_index)
  | x02 =>
      epoch ← read_u64;
      _ ← require_len 8;
      seq ← read_u64;
      _ ← require_len 8;
      seq_len ← read_u64;
      _ ← require_len 8;
      first_index ← read_u64;
      _ ← require_len 8;
      data_len ← read_u64;
      if data_len =? 0 then fail DeserializeInvalidLen
      else
        _ ← require_len data_len;
        data ← take_to_end data_len;
        mret (MsgSlice epoch seq seq_len first_index data)
  | x03 => mret Ping
  | x04 => mret Pong
  | _ => fail (DeserializeInvalid variant)
  end.

(** ** Well-formed messages

    What the Rust types guarantee (64-bit fields, a vector within [isize::MAX])
    plus what the decoder additionally insists on (a slice is not empty). *)
Definition proto_wf (p : LinkProtocol) : Prop :=
  match p with
  | Reset _ _ => True
  | Ack epoch seq last_index => is_u64 epoch /\ is_u64 seq /\ is_u64 last_index
  | MsgSlice epoch seq seq_len first_index data =>
      is_u64 epoch /\ is_u64 seq /\ is_u64 seq_len /\ is_u64 first_index
      /\ 1 <= len data <= ISIZE_MAX
  | Ping | Pong => True
  end.

(** ** Reader lemmas *)

Lemma Reader_bind_Ok {A B} (m : Reader A) (f : A -> Reader B) a q q' :
  m q = (Ok a, q') -> (m ≫= f) q = f a q'.
Proof. unfold mbind, Reader_bind. by intros ->. Qed.

Lemma Reader_bind_Err {A B} (m : Reader A) (f : A -> Reader B) e q q' :
  m q = (Err e, q') -> (m ≫= f) q = (Err e, q').
Proof. unfold mbind, Reader_bind. by intros ->. Qed.

Lemma Reader_bind_inv {A B} (m : Reader A) (f : A -> Reader B) b q r :
  (m ≫= f) q = (Ok b, r) -> exists a q', m q = (Ok a, q') /\ f a q' = (Ok b, r).
Proof. unfold mbind, Reader_bind. destruct (m q) as [[a|e] q'] eqn:E; [eauto | done]. Qed.

Lemma read_u64_app z q : is_u64 z -> read_u64 (u64_to_be_bytes z ++ q) = (Ok z, q).
Proof.
  intros Hz. unfold read_u64, mbind, Reader_bind, read_exact.
  pose proof (length_to_be_bytes 8 z) as Hl. fold (u64_to_be_bytes z) in Hl.
  rewrite (proj2 (Nat.ltb_ge _ _)) by (rewrite length_app; lia).
  rewrite take_app_length', drop_app_length' by done.
  unfold mret, Reader_ret. by rewrite u64_be_roundtrip.
Qed.

Lemma read_u64_inv q z r : read_u64 q = (Ok z, r) -> is_u64 z /\ q = u64_to_be_bytes z ++ r.
Proof.
  unfold read_u64, mbind, Reader_bind, read_exact.
  destruct (length q <? 8)%nat eqn:E; [done|]. intros [= <- <-].
  apply Nat.ltb_ge in E.
  assert (length (take 8 q) = 8%nat) as Hl by (rewrite length_take; lia).
  pose proof (from_be_bytes_range (take 8 q)) as Hr. unfold len in Hr. rewrite Hl in Hr.
  split; [lia|].
  pose proof (to_from_be_bytes (take 8 q)) as Ht. rewrite Hl in Ht.
  unfold u64_to_be_bytes. by rewrite Ht, take_drop.
Qed.

Lemma read_u64_short q : len q < 8 -> read_u64 q = (Err DeserializeEOF, []).
Proof.
  intros H. unfold read_u64, mbind, Reader_bind, read_exact.
  destruct (length q <? 8)%nat eqn:E; [done|]. apply Nat.ltb_ge in E. unfold len in H. lia.
Qed.

Lemma require_len_ok n q : n <= len q -> require_len n q = (Ok tt, q).
Proof. unfold require_len. intros. by rewrite (proj2 (Z.ltb_ge _ _)). Qed.

Lemma require_len_inv n q u r : require_len n q = (Ok u, r) -> n <= len r /\ q = r.
Proof. unfold require_len. destruct (len q <? n) eqn:E; [done|]. intros [= <- <-]. split; [lia | done]. Qed.

Lemma pop_front_inv q b r : pop_front q = (Ok b, r) -> q = b :: r.
Proof. destruct q; [done|]. by intros [= -> ->]. Qed.

Lemma take_to_end_app d q : take_to_end (len d) (d ++ q) = (Ok d, q).
Proof.
  unfold take_to_end, takeZ, dropZ, len. rewrite Nat2Z.id.
  by rewrite take_app_length, drop_app_length.
Qed.

Lemma len_u64 z : len (u64_to_be_bytes z) = 8.
Proof. apply len_to_be_bytes. Qed.

#[local] Hint Rewrite len_u64 : lens.

(** Runs the reader at the head of the goal over the encoded field in front of
    the queue. *)
Ltac read_step :=
  first
    [ erewrite Reader_bind_Ok by (apply read_u64_app; tauto)
    | erewrite Reader_bind_Ok by
        (apply require_len_ok; autorewrite with lens;
         repeat match goal with |- context [len ?l] =>
           lazymatch goal with
           | _ : 0 <= len l |- _ => fail
           | _ => pose proof (len_nonneg l)
           end
         end; lia)
    | erewrite Reader_bind_Ok by apply take_to_end_app
    | erewrite Reader_bind_Ok by reflexivity ].

Lemma deserialize_roundtrip p rest :
  proto_wf p -> deserialize (serialize p ++ rest) = (Ok p, rest).
Proof.
  intros Hwf. unfold deserialize.
  destruct p as [e r|e s l|e s sl fi d| |]; simpl in Hwf; cbn [serialize]; rewrite <- ?app_assoc;
    erewrite Reader_bind_Ok by reflexivity; cbv match.
  - pose proof (opt_epoch_u64 e). repeat read_step.
    unfold mret, Reader_ret. rewrite from_opt_epoch_to_int. by destruct r.
  - repeat read_step. done.
  - destruct Hwf as (? & ? & ? & ? & ?). assert (is_u64 (len d)) by lia.
    do 9 read_step. rewrite (proj2 (Z.eqb_neq _ _)) by lia. repeat read_step. done.
  - done.
  - done.
Qed.

(** C17. Decoding the encoding of a well-formed message gives the message back
    and leaves exactly the bytes that followed it. *)
Theorem deserialize_serialize p rest :
  proto_wf p -> deserialize (serialize p ++ rest) = (Ok p, rest).
Proof. apply deserialize_roundtrip. Qed.

(** ** Soundness of the decoder *)

Ltac reader_inv :=
  repeat match goal with
  | H : (_ ≫= _) _ = (Ok _, _) |- _ =>
      apply Reader_bind_inv in H as (? & ? & ? & H)
  | H : read_u64 _ = (Ok _, _) |- _ => apply read_u64_inv in H as [? ->]
  | H : pop_front _ = (Ok _, _) |- _ => apply pop_front_inv in H as ->
  | H : require_len _ _ = (Ok _, _) |- _ => apply require_len_inv in H as [? ->]
  | H : mret _ _ = (Ok _, _) |- _ => injection H as <- <-
  end.

(** The decoder accepts any nonzero byte as a true [request] flag; every other
    field has one encoding. *)
Definition encodes (q : bytes) (p : LinkProtocol) (r : bytes) : Prop :=
  q = serialize p ++ r \/
  exists e b, p = Reset e true /\ b <> x00 /\
    q = [x00] ++ u64_to_be_bytes (opt_epoch_to_int e) ++ [b] ++ r.

(** C18. Whatever bytes arrive, a message the decoder accepts is well formed (its
    slice is not empty, its integers are in range) and the bytes consumed are
    an encoding of it. *)
Theorem deserialize_sound q p r :
  len q <= ISIZE_MAX -> deserialize q = (Ok p, r) -> proto_wf p /\ encodes q p r.
Proof.
  unfold deserialize, encodes. intros Hq H.
  reader_inv. destruct x; try discriminate; reader_inv; cbn [proto_wf serialize];
    rewrite <- ?app_assoc; auto.
  - rename x2 into b. split; [done|]. rewrite opt_epoch_to_from_int by done.
    destruct (decide (b = x00)) as [->|Hb]; [by left|].
    rewrite bool_decide_eq_false_2 by done. right. exists (from_int x), b.
    by rewrite opt_epoch_to_from_int.
  - match goal with H : (if ?c then _ else _) _ = _ |- _ => destruct c eqn:E; [done|] end.
    reader_inv.
    match goal with H : take_to_end _ _ = _ |- _ => injection H as <- <- end.
    match goal with H : ?n <= len ?q |- context [takeZ ?n ?q] =>
      pose proof (len_takeZ n q ltac:(lia)) as Hlt end.
    cbn [proto_wf serialize]; rewrite <- ?app_assoc, Hlt. autorewrite with lens in Hq.
    split; [repeat split; lia|]. left. unfold takeZ, dropZ. by rewrite take_drop.
Qed.

(** ** Truncated input *)

Definition eofs {A} (m : Reader A) (q : bytes) : Prop := fst (m q) = Err DeserializeEOF.

Lemma eofs_bind_l {A B} (m : Reader A) (f : A -> Reader B) q : eofs m q -> eofs (m ≫= f) q.
Proof.
  unfold eofs, mbind, Reader_bind. destruct (m q) as [[a|e] q']; simpl; congruence.
Qed.

Lemma eofs_u64 {B} (f : Z -> Reader B) z k rest :
  is_u64 z -> ((8 <= k)%nat -> eofs (f z) (take (k - 8) rest)) ->
  eofs (read_u64 ≫= f) (take k (u64_to_be_bytes z ++ rest)).
Proof.
  intros Hz Hf. destruct (decide (8 <= k)%nat) as [Hk|Hk].
  - rewrite take_app_ge by (unfold u64_to_be_bytes; rewrite length_to_be_bytes; lia).
    unfold u64_to_be_bytes at 2; rewrite length_to_be_bytes.
    unfold eofs. erewrite Reader_bind_Ok by (by apply read_u64_app). by apply Hf.
  - apply eofs_bind_l. unfold eofs. rewrite read_u64_short; [done|].
    unfold len. rewrite length_take. lia.
Qed.

Lemma eofs_require {B} (f : unit -> Reader B) n q :
  (n <= len q -> eofs (f tt) q) -> eofs (require_len n ≫= f) q.
Proof.
  intros Hf. unfold eofs, mbind, Reader_bind, require_len.
  destruct (len q <? n) eqn:E; [done|]. apply Hf. lia.
Qed.

Lemma eofs_pop {B} (f : byte -> Reader B) b k q :
  ((1 <= k)%nat -> eofs (f b) (take (k - 1) q)) -> eofs (pop_front ≫= f) (take k (b :: q)).
Proof. destruct k as [|k]; [done|]. simpl. rewrite Nat.sub_0_r. intros H. apply H. lia. Qed.

Ltac eofs_step :=
  cbv beta;
  lazymatch goal with
  | |- eofs (read_u64 ≫= _) _ => apply eofs_u64; [assumption|]; intros ?
  | |- eofs (require_len _ ≫= _) _ => apply eofs_require; intros ?
  end.

(** A message cut short anywhere is refused with [DeserializeEOF], never
    misread as another message. *)
Theorem deserialize_truncated p k :
  proto_wf p -> (k < length (serialize p))%nat ->
  fst (deserialize (take k (serialize p))) = Err DeserializeEOF.
Proof.
  intros Hwf Hk%inj_lt. fold (len (serialize p)) in Hk.
  change (eofs deserialize (take k (serialize p))).
  rewrite <- (app_nil_r (serialize p)) in *.
  unfold deserialize.
  destruct p as [e r|e s l|e s sl fi d| |]; simpl in Hwf; cbn [serialize] in *;
    rewrite <- ?app_assoc in *; autorewrite with lens in Hk;
    apply (eofs_pop _ _ k); intros ?; cbv match; try lia.
  - pose proof (opt_epoch_u64 e). apply eofs_u64; [done|]. intros ?.
    apply eofs_pop. intros ?. lia.
  - destruct Hwf as (? & ? & ?). repeat eofs_step. lia.
  - destruct Hwf as (? & ? & ? & ? & ?). assert (is_u64 (len d)) by lia.
    repeat eofs_step. rewrite (proj2 (Z.eqb_neq _ _)) by lia. apply eofs_require. intros Hd.
    rewrite app_nil_r in Hd. unfold len in Hd, Hk. rewrite length_take in Hd. lia.
Qed.
End Protocol.
