(* ===== verification/BTree.v ===== *)
(** * [std::collections::BTreeMap] with [u64] keys

    The crate keeps its slices and messages in [BTreeMap<u64, _>].  A map is
    the list of its entries in key order; the operations are the ones the crate
    calls, and keep the keys strictly increasing ([bt_sorted]). *)

From stdpp Require Import base tactics list sorting.
From S2P Require Import Prelude.

Module BTreeMap.
Section map.
Context {V : Type}.
Implicit Types (m : list (Z * V)) (k c : Z) (v : V).

(** [get] *)
Fixpoint get k m : option V :=
  match m with
  | [] => None
  | (k', v) :: m => if k =? k' then Some v else get k m
  end.

(** [insert]: replaces the value of a key already present. *)
Fixpoint insert k v m : list (Z * V) :=
  match m with
  | [] => [(k, v)]
  | (k', v') :: m' =>
      if k <? k' then (k, v) :: m
      else if k =? k' then (k, v) :: m'
      else (k', v') :: insert k v m'
  end.

(** [remove] *)
Definition remove k m : list (Z * V) := filter (fun kv => kv.1 <> k) m.

(** The entries of [range(c..)] and of [range(..c)]. *)
Definition range_from c m : list (Z * V) := filter (fun kv => c <= kv.1) m.
Definition range_to c m : list (Z * V) := filter (fun kv => kv.1 < c) m.

(** [first_key_value], also [range(..).next()] *)
Definition first m : option (Z * V) := head m.

(** [range(..).next_back()] *)
Definition next_back m : option (Z * V) := last m.

(** [retain(|k, _| f k)] *)
Definition retain (f : Z -> bool) m : list (Z * V) := filter (fun kv => f kv.1 = true) m.

Definition bt_sorted m : Prop := StronglySorted Z.lt (m.*1).

(** ** Lookup *)

Lemma get_insert_eq k v m : get k (insert k v m) = Some v.
Proof.
  induction m as [|[k' v'] m IH]; simpl; [by rewrite Z.eqb_refl|].
  destruct (Z.ltb_spec k k'), (Z.eqb_spec k k'); simpl; rewrite ?Z.eqb_refl; try done.
  by destruct (Z.eqb_spec k k').
Qed.

Lemma get_insert_ne k k' v m : k <> k' -> get k (insert k' v m) = get k m.
Proof.
  intros Hk. induction m as [|[j w] m IH]; simpl.
  { by destruct (Z.eqb_spec k k'). }
  destruct (Z.ltb_spec k' j), (Z.eqb_spec k' j); simpl; rewrite ?IH;
    destruct (Z.eqb_spec k k'), (Z.eqb_spec k j); congruence.
Qed.

Lemma get_remove_eq k m : get k (remove k m) = None.
Proof.
  unfold remove. induction m as [|[j w] m IH]; [done|]. rewrite filter_cons.
  case_decide; simpl in *; [|done]. by destruct (Z.eqb_spec k j).
Qed.

Lemma get_remove_ne k k' m : k <> k' -> get k (remove k' m) = get k m.
Proof.
  intros Hk. unfold remove. induction m as [|[j w] m IH]; [done|]. rewrite filter_cons.
  case_decide; simpl in *; destruct (Z.eqb_spec k j); subst; try done.
Qed.

Lemma get_filter_key (Q : Z -> Prop)
    `{!forall kv : Z * V, Decision (Q kv.1), !forall k, Decision (Q k)} k m :
  get k (filter (fun kv => Q kv.1) m) = if decide (Q k) then get k m else None.
Proof.
  induction m as [|[j w] m IH]; [by case_decide|]. rewrite filter_cons.
  destruct (decide (Q (j, w).1)) as [H1|H1]; cbn [get fst] in *; destruct (Z.eqb_spec k j) as [->|];
    rewrite ?IH; case_decide; done.
Qed.

Lemma get_range_from k c m : get k (range_from c m) = if decide (c <= k) then get k m else None.
Proof. exact (get_filter_key (fun k => c <= k) k m). Qed.

Lemma get_range_to k c m : get k (range_to c m) = if decide (k < c) then get k m else None.
Proof. exact (get_filter_key (fun k => k < c) k m). Qed.

Lemma get_retain k f m : get k (retain f m) = if f k then get k m else None.
Proof.
  unfold retain. rewrite (get_filter_key (fun k => f k = true) k m).
  by case_decide; destruct (f k).
Qed.

(** ** Order *)

Lemma sorted_cons kv m :
  bt_sorted (kv :: m) <-> Forall (fun kv' => kv.1 < kv'.1) m /\ bt_sorted m.
Proof.
  unfold bt_sorted. rewrite fmap_cons. split.
  - intros [H1 H2]%StronglySorted_inv. by rewrite Forall_fmap in H2.
  - intros [H1 H2]. constructor; [done|]. by rewrite Forall_fmap.
Qed.

Lemma sorted_filter (Q : Z * V -> Prop) `{!forall kv, Decision (Q kv)} m :
  bt_sorted m -> bt_sorted (filter Q m).
Proof.
  induction m as [|kv m IH]; [done|]. rewrite sorted_cons. intros [H1 H2].
  rewrite filter_cons. case_decide; [|auto]. apply sorted_cons. split; [|auto].
  apply Forall_forall. intros x [_ Hx]%list_elem_of_filter.
  rewrite Forall_forall in H1. auto.
Qed.

Lemma Forall_insert (Q : Z * V -> Prop) k v m :
  Q (k, v) -> Forall Q m -> Forall Q (insert k v m).
Proof.
  intros Hk. induction 1 as [|[j w] m Hj Hm IH]; simpl; [by repeat constructor|].
  destruct (k <? j), (k =? j); repeat constructor; auto.
Qed.

Lemma sorted_insert k v m : bt_sorted m -> bt_sorted (insert k v m).
Proof.
  induction m as [|[j w] m IH]; simpl; [by repeat constructor|].
  rewrite sorted_cons. intros [H1 H2]. simpl in H1.
  destruct (Z.ltb_spec k j), (Z.eqb_spec k j); try lia; subst.
  - apply sorted_cons. split; [|by apply sorted_cons].
    constructor; [done|]. eapply Forall_impl; [done|]. simpl; intros; lia.
  - by apply sorted_cons.
  - apply sorted_cons. split; [|auto]. apply Forall_insert; [simpl; lia | done].
Qed.

Lemma sorted_remove k m : bt_sorted m -> bt_sorted (remove k m).
Proof. apply sorted_filter. Qed.

Lemma sorted_retain f m : bt_sorted m -> bt_sorted (retain f m).
Proof. apply sorted_filter. Qed.

Lemma sorted_range_from c m : bt_sorted m -> bt_sorted (range_from c m).
Proof. apply sorted_filter. Qed.

(** In a sorted map the entries are exactly the lookups. *)
Lemma elem_of_get k v m : bt_sorted m -> (k, v) ∈ m <-> get k m = Some v.
Proof.
  induction m as [|[j w] m IH]; simpl; [by split; intros ?%not_elem_of_nil || done|].
  rewrite sorted_cons, elem_of_cons. intros [H1 H2]. simpl in H1. rewrite IH by done.
  destruct (Z.eqb_spec k j) as [->|Hkj]; split.
  - intros [?|Hg]; [by simplify_eq|]. rewrite <- IH in Hg by done.
    rewrite Forall_forall in H1. apply H1 in Hg. simpl in Hg. lia.
  - intros [= ->]. by left.
  - by intros [[= -> _]|Hg].
  - by right.
Qed.

Lemma get_None_lt k m : Forall (fun kv => k < kv.1) m -> get k m = None.
Proof.
  induction 1 as [|[j w] m Hj Hm IH]; simpl in *; [done|].
  by rewrite (proj2 (Z.eqb_neq _ _)) by lia.
Qed.

(** Sorted maps with the same lookups are equal. *)
Lemma bt_ext m1 m2 : bt_sorted m1 -> bt_sorted m2 -> (forall k, get k m1 = get k m2) -> m1 = m2.
Proof.
  revert m2. induction m1 as [|[k v] m1 IH]; intros [|[j w] m2] H1 H2 Hg; [done| | |].
  - specialize (Hg j). simpl in Hg. by rewrite Z.eqb_refl in Hg.
  - specialize (Hg k). simpl in Hg. by rewrite Z.eqb_refl in Hg.
  - apply sorted_cons in H1 as [H1 H1'], H2 as [H2 H2']. simpl in *.
    destruct (Z.lt_trichotomy k j) as [Hl|[<-|Hl]].
    + specialize (Hg k). rewrite Z.eqb_refl, (proj2 (Z.eqb_neq k j)), get_None_lt in Hg; [done| |lia].
      eapply Forall_impl; [done|]. simpl; intros; lia.
    + pose proof (Hg k) as Hk. rewrite Z.eqb_refl in Hk. simplify_eq. f_equal.
      apply IH; [done..|]. intros i. specialize (Hg i).
      destruct (Z.eqb_spec i k) as [Ei|_]; [|done]. by rewrite Ei, !get_None_lt.
    + specialize (Hg j). rewrite Z.eqb_refl, (proj2 (Z.eqb_neq j k)), get_None_lt in Hg; [done| |lia].
      eapply Forall_impl; [done|]. simpl; intros; lia.
Qed.

(** ** Splitting at a key *)

Lemma filter_all (Q : Z * V -> Prop) `{!forall kv, Decision (Q kv)} m :
  Forall Q m -> filter Q m = m.
Proof. induction 1; [done|]. rewrite filter_cons_True by done. by f_equal. Qed.

Lemma filter_none (Q : Z * V -> Prop) `{!forall kv, Decision (Q kv)} m :
  Forall (fun kv => ~ Q kv) m -> filter Q m = [].
Proof. induction 1; [done|]. by rewrite filter_cons_False by done. Qed.

Lemma range_from_app c l r :
  Forall (fun kv => kv.1 < c) l -> Forall (fun kv => c <= kv.1) r -> range_from c (l ++ r) = r.
Proof.
  intros Hl Hr. unfold range_from. induction Hl as [|kv l Hkv Hl IH]; simpl.
  - by apply filter_all.
  - rewrite filter_cons_False by lia. done.
Qed.

Lemma range_to_app c l r :
  Forall (fun kv => kv.1 < c) l -> Forall (fun kv => c <= kv.1) r -> range_to c (l ++ r) = l.
Proof.
  intros Hl Hr. unfold range_to. induction Hl as [|kv l Hkv Hl IH]; simpl.
  - apply filter_none. eapply Forall_impl; [done|]. simpl; intros; lia.
  - rewrite filter_cons_True by lia. by rewrite IH.
Qed.

Lemma range_to_none c m : Forall (fun kv => c <= kv.1) m -> range_to c m = [].
Proof. intros. by apply (range_to_app c [] m). Qed.

Lemma range_from_all c m : Forall (fun kv => c <= kv.1) m -> range_from c m = m.
Proof. intros. by apply (range_from_app c [] m). Qed.

Lemma remove_app k l r : remove k (l ++ r) = remove k l ++ remove k r.
Proof. apply filter_app. Qed.

Lemma remove_absent k m : Forall (fun kv => kv.1 <> k) m -> remove k m = m.
Proof. apply filter_all. Qed.

Lemma remove_head k v l r :
  Forall (fun kv => kv.1 <> k) l -> Forall (fun kv => kv.1 <> k) r ->
  remove k (l ++ (k, v) :: r) = l ++ r.
Proof.
  intros. rewrite remove_app. rewrite (remove_absent k l) by done. f_equal.
  unfold remove. rewrite filter_cons_False by (simpl; tauto). by apply filter_all.
Qed.

Lemma insert_middle k v l r :
  Forall (fun kv => kv.1 < k) l -> Forall (fun kv => k < kv.1) r ->
  insert k v (l ++ r) = l ++ (k, v) :: r.
Proof.
  induction 1 as [|[j w] l Hj Hl IH]; simpl in *; intros Hr.
  - destruct Hr as [|[j w] r Hj Hr]; simpl in *; [done|].
    by rewrite (proj2 (Z.ltb_lt _ _)).
  - rewrite (proj2 (Z.ltb_ge _ _)), (proj2 (Z.eqb_neq _ _)) by lia. by rewrite IH.
Qed.

Lemma insert_replace k v w l r :
  Forall (fun kv => kv.1 < k) l -> insert k v (l ++ (k, w) :: r) = l ++ (k, v) :: r.
Proof.
  induction 1 as [|[j x] l Hj Hl IH]; simpl in *.
  - by rewrite Z.ltb_irrefl, Z.eqb_refl.
  - rewrite (proj2 (Z.ltb_ge _ _)), (proj2 (Z.eqb_neq _ _)) by lia. by rewrite IH.
Qed.
End map.
End BTreeMap.
