(* ===== verification/Slices.v ===== *)
(** * Slices of one message ([src/slice_manager.rs])

    A [SliceManager] holds the bytes of one message and the set of byte ranges
    that are present: received so far on the incoming side, not yet
    acknowledged on the outgoing side.  The ranges are a [BTreeMap] from the
    first index of a range to its last index. *)

From S2P Require Import Prelude Bytes Errors Epochs Proto BTree.

Module SliceManager.
Import Epoch Protocol BTreeMap.

Record SliceManager : Type := mk_slice_manager {
  sm_epoch : Epoch;
  sm_seq : Z;
  sm_data : bytes;
  (** Maps the start of a slice to the index of its final element. *)
  sm_slices : list (Z * Z);
}.

#[export] Instance SliceManager_eq_dec : EqDecision SliceManager.
Proof. solve_decision. Defined.

Definition set_slices (m : SliceManager) (slices : list (Z * Z)) : SliceManager :=
  mk_slice_manager (sm_epoch m) (sm_seq m) (sm_data m) slices.

Definition set_data (m : SliceManager) (data : bytes) : SliceManager :=
  mk_slice_manager (sm_epoch m) (sm_seq m) data (sm_slices m).

(** [vec![0; size]]: a vector is never larger than [isize::MAX] bytes. *)
Definition zeroed (size : Z) : outcome bytes :=
  if size <=? ISIZE_MAX then Ret (replicate (Z.to_nat size) x00) else Panic.

Definition new (epoch : Epoch) (seq size : Z) : outcome SliceManager :=
  data ← zeroed size;
  Ret (mk_slice_manager epoch seq data []).

Definition from_vec (epoch : Epoch) (seq : Z) (data : bytes) : SliceManager :=
  let slices := [] in
  let slices := if bool_decide (data = []) then slices
                else insert 0 (len data - 1) slices in
  mk_slice_manager epoch seq data slices.

Section operations.
Context {P : BuildProfile}.

Definition is_full (m : SliceManager) : outcome bool :=
  if len (sm_slices m) =? 1 then
    kv ← unwrap (first (sm_slices m));
    last ← u64_sub (len (sm_data m)) 1;
    Ret (bool_decide (kv = (0, last)))
  else Ret false.

Definition is_empty (m : SliceManager) : bool := bool_decide (sm_slices m = []).

(** The data of the message, if the message is complete. *)
Definition data (m : SliceManager) : outcome (option bytes) :=
  full ← is_full m;
  Ret (if (full : bool) then Some (sm_data m) else None).

Definition last_head_index (m : SliceManager) : option Z :=
  match first (sm_slices m) with
  | Some (start, end_) => if negb (start =? 0) then None else Some end_
  | None => None
  end.

(** The loop of [add_slice]: absorbs the slices that start in the new one and,
    with its last iteration, the first slice that ends beyond it. *)
Fixpoint add_loop (fuel : nat) (cursor end_ : Z) (slices : list (Z * Z))
    : outcome (Z * list (Z * Z)) :=
  match fuel with
  | O => Diverge
  | S fuel =>
      match first (range_from cursor slices) with
      | None => Ret (end_, slices)
      | Some (next_start, next_end) =>
          let cursor := next_end in
          if next_end <=? end_ then
            let slices := remove next_start slices in
            if end_ <? cursor then Ret (end_, slices)
            else add_loop fuel cursor end_ slices
          else Ret (next_end, remove next_start slices)
      end
  end.

Definition add_slice (m : SliceManager) (start end_ : Z) : outcome SliceManager :=
  '(end_, slices) ← add_loop (S (length (sm_slices m))) start end_ (sm_slices m);
  let insert_new := Ret (set_slices m (insert start end_ slices)) in
  match next_back (range_to start slices) with
  | Some (prev_start, prev_end) =>
      if end_ <=? prev_end then Ret (set_slices m slices)
      else if saturating_sub start 1 <=? prev_end
      then Ret (set_slices m (insert prev_start end_ slices))
      else insert_new
  | None => insert_new
  end.

(** The loop of [remove_slice]. *)
Fixpoint remove_loop (fuel : nat) (cursor end_ : Z) (slices : list (Z * Z))
    : outcome (list (Z * Z)) :=
  match fuel with
  | O => Diverge
  | S fuel =>
      match first (range_from cursor slices) with
      | None => Ret slices
      | Some (next_start, next_end) =>
          let cursor := next_end in
          slices ←
            (if next_end <=? end_ then Ret (remove next_start slices)
             else
               let slices := remove next_start slices in
               new_start ← u64_add end_ 1;
               Ret (insert new_start next_end slices));
          if end_ <? cursor then Ret slices
          else remove_loop fuel cursor end_ slices
      end
  end.

Definition remove_slice (m : SliceManager) (start end_ : Z) : outcome SliceManager :=
  if start =? end_ then Ret m
  else
    let slices := sm_slices m in
    let rest slices :=
      slices ← remove_loop (S (length slices)) start end_ slices;
      Ret (set_slices m slices) in
    match next_back (range_to start slices) with
    | Some (prev_start, old_prev_end) =>
        new_prev_end ← u64_sub start 1;
        let slices := insert prev_start new_prev_end slices in
        if end_ <? old_prev_end then
          new_start ← u64_add end_ 1;
          Ret (set_slices m (insert new_start old_prev_end slices))
        else rest slices
    | None => rest slices
    end.

Definition recv_slice (m : SliceManager) (epoch : Epoch) (seq first_index : Z) (data : bytes)
    : outcome SliceManager :=
  if negb (bool_decide (epoch = sm_epoch m)) || negb (seq =? sm_seq m) then Ret m
  else
    last_index ← u64_add first_index (len data);
    last_index ← u64_sub last_index 1;
    end_of_data ← u64_sub (len (sm_data m)) 1;
    let last_index := Z.min last_index end_of_data in
    if last_index <? first_index then Ret m
    else
      length ← u64_sub last_index first_index;
      m ← add_slice m first_index last_index;
      src ← index_incl 0 length data;
      bytes ← splice_incl first_index last_index src (sm_data m);
      Ret (set_data m bytes).

Definition ack (m : SliceManager) (epoch : Epoch) (seq last_index : Z) : outcome SliceManager :=
  if negb (bool_decide (epoch = sm_epoch m)) || negb (seq =? sm_seq m) then Ret m
  else remove_slice m 0 last_index.

Fixpoint make_loop (fuel : nat) (data : bytes) (epoch : Epoch) (seq cursor size end_ : Z)
    (ret : list LinkProtocol) : outcome (list LinkProtocol) :=
  match fuel with
  | O => Diverge
  | S fuel =>
      next ← u64_add cursor size;
      next ← u64_sub next 1;
      end_of_data ← u64_sub (len data) 1;
      let slice_end := Z.min (Z.min next end_) end_of_data in
      if slice_end <? cursor then Ret ret
      else
        slice_data ← index_incl cursor slice_end data;
        let ret := ret ++ [MsgSlice (to_int epoch) seq (len data) cursor slice_data] in
        cursor ← u64_add cursor size;
        if end_ <? cursor then Ret ret
        else make_loop fuel data epoch seq cursor size end_ ret
  end.

(** Each iteration but the last moves the cursor by [size >= 1] and stops past
    [end_]: [end_ - start + 2] iterations are enough. *)
Definition make_slices (data : bytes) (epoch : Epoch) (seq start size end_ : Z)
    : outcome (list LinkProtocol) :=
  if size =? 0 then Ret []
  else make_loop (S (Z.to_nat (end_ - start + 1))) data epoch seq start size end_ [].

Fixpoint get_slices_loop (m : SliceManager) (size : Z) (slices : list (Z * Z))
    (ret : list LinkProtocol) : outcome (list LinkProtocol) :=
  match slices with
  | [] => Ret ret
  | (next_start, next_end) :: slices =>
      new ← make_slices (sm_data m) (sm_epoch m) (sm_seq m) next_start size next_end;
      get_slices_loop m size slices (ret ++ new)
  end.

Definition get_slices (m : SliceManager) (size : Z) : outcome (list LinkProtocol) :=
  get_slices_loop m size (sm_slices m) [].

End operations.
End SliceManager.
