(* ===== verification/SliceTheory.v ===== *)
(** * Theory of the slice sets

    The invariant of a [SliceManager], the exact effect of [add_slice] and of
    [remove_slice] on the set of indices that are present, and what the
    operations built on them do. *)

From S2P Require Import Prelude Bytes Errors Epochs Proto BTree Slices.

Module SliceSets.
Import Epoch Protocol BTreeMap SliceManager.

(** ** Slice lists

    In order, inside [[lo, n)], not empty, and with at least one missing index
    between any two. *)
Fixpoint separated (lo n : Z) (l : list (Z * Z)) : Prop :=
  match l with
  | [] => True
  | (s, e) :: l => lo <= s /\ s <= e /\ e < n /\ separated (e + 2) n l
  end.

(** The first index a further slice may start at. *)
Definition after (lo : Z) (l : list (Z * Z)) : Z :=
  match last l with Some (_, e) => e + 2 | None => lo end.

(** The index [i] is in one of the slices. *)
Definition covers (l : list (Z * Z)) (i : Z) : Prop :=
  exists s e, (s, e) ∈ l /\ s <= i <= e.

Lemma after_cons lo s e l : after lo ((s, e) :: l) = after (e + 2) l.
Proof. unfold after. by destruct l using rev_ind; [|rewrite app_comm_cons, !last_snoc]. Qed.

Lemma separated_weaken lo lo' n l : lo' <= lo -> separated lo n l -> separated lo' n l.
Proof. destruct l as [|[s e] l]; simpl; intuition lia. Qed.

Lemma separated_app lo n l r :
  separated lo n (l ++ r) <-> separated lo n l /\ separated (after lo l) n r.
Proof.
  revert lo. induction l as [|[s e] l IH]; intros lo; simpl; [tauto|].
  rewrite IH, after_cons. tauto.
Qed.

Lemma separated_keys lo n l : separated lo n l -> Forall (fun kv => lo <= kv.1) l.
Proof.
  revert lo. induction l as [|[s e] l IH]; intros lo; simpl; constructor; simpl; [lia|].
  eapply Forall_impl; [apply (IH (e + 2)); tauto|]. simpl; intros; lia.
Qed.

Lemma separated_ends lo n l : separated lo n l -> Forall (fun kv => kv.1 <= kv.2 < n) l.
Proof.
  revert lo. induction l as [|[s e] l IH]; intros lo; simpl; constructor; simpl; [lia|].
  apply (IH (e + 2)). tauto.
Qed.

Lemma separated_sorted lo n l : separated lo n l -> bt_sorted l.
Proof.
  revert lo. induction l as [|[s e] l IH]; intros lo; simpl; [constructor|]. intros (? & ? & ? & H).
  apply sorted_cons. split; [|by eapply IH].
  eapply Forall_impl; [by eapply separated_keys|]. simpl; intros; lia.
Qed.

Lemma after_ge lo n l : separated lo n l -> lo <= after lo l.
Proof.
  revert lo. induction l as [|[s e] l IH]; intros lo; [unfold after; simpl; lia|].
  rewrite after_cons. simpl. intros (? & ? & ? & H%IH). lia.
Qed.

(** A slice list cut at an index: the slices starting before it and the others. *)
Lemma split_at lo n l c :
  separated lo n l ->
  exists a b, l = a ++ b /\ Forall (fun kv => kv.1 < c) a /\ Forall (fun kv => c <= kv.1) b.
Proof.
  revert lo. induction l as [|[s e] l IH]; intros lo; simpl.
  { intros _. by exists [], []. }
  intros (? & ? & ? & H). destruct (decide (s < c)).
  - destruct (IH _ H) as (a & b & -> & Ha & Hb).
    exists ((s, e) :: a), b. split_and!; [done| by constructor | done].
  - exists [], ((s, e) :: l). split_and!; [done..|]. constructor; [simpl; lia|].
    eapply Forall_impl; [by eapply separated_keys|]. simpl; intros; lia.
Qed.

Lemma covers_nil i : ~ covers [] i.
Proof. intros (s & e & Hin & _). by apply not_elem_of_nil in Hin. Qed.

Lemma covers_cons s e l i : covers ((s, e) :: l) i <-> s <= i <= e \/ covers l i.
Proof.
  unfold covers. split.
  - intros (s' & e' & [[= -> ->]|Hin]%elem_of_cons & Hi); eauto.
  - intros [Hi|(s' & e' & Hin & Hi)]; [exists s, e | exists s', e']; by rewrite elem_of_cons; eauto.
Qed.

Lemma covers_app l r i : covers (l ++ r) i <-> covers l i \/ covers r i.
Proof.
  induction l as [|[s e] l IH]; simpl.
  - pose proof (covers_nil i). tauto.
  - rewrite !covers_cons, IH. tauto.
Qed.

Lemma covers_range lo n l i : separated lo n l -> covers l i -> lo <= i < n.
Proof.
  intros H (s & e & Hin & Hi).
  pose proof (separated_keys _ _ _ H) as Hk. pose proof (separated_ends _ _ _ H) as He.
  rewrite Forall_forall in Hk, He. specialize (Hk _ Hin). specialize (He _ Hin). simpl in *. lia.
Qed.

(** ** What [add_slice] absorbs

    [absorb end_ r] is the end of the slice that [add_slice] builds and the
    slices it leaves, when the slices that start at or after its start are [r]:
    every slice that ends by [end_] is dropped, and so is the first one that
    ends later, wherever it starts. *)
Fixpoint absorb (end_ : Z) (r : list (Z * Z)) : Z * list (Z * Z) :=
  match r with
  | [] => (end_, [])
  | (s, e) :: r => if e <=? end_ then absorb end_ r else (e, r)
  end.

Lemma absorb_ge end_ r : end_ <= fst (absorb end_ r).
Proof. induction r as [|[s e] r IH]; simpl; [lia|]. destruct (Z.leb_spec e end_); simpl; lia. Qed.

Lemma absorb_separated lo n end_ r :
  separated lo n r -> end_ < n ->
  end_ <= fst (absorb end_ r) < n /\ separated lo n (snd (absorb end_ r)) /\
  separated (fst (absorb end_ r) + 2) n (snd (absorb end_ r)).
Proof.
  revert lo. induction r as [|[s e] r IH]; intros lo; simpl; [intuition lia|].
  intros (? & ? & ? & H) Hn. destruct (Z.leb_spec e end_); simpl.
  - destruct (IH _ H Hn) as (? & ? & ?). split_and!; try lia; [|done].
    eapply separated_weaken; [|done]. lia.
  - split_and!; try lia; [|done]. eapply separated_weaken; [|done]. lia.
Qed.

Lemma absorb_covers start n end_ r i :
  separated start n r ->
  covers (snd (absorb end_ r)) i \/ start <= i <= fst (absorb end_ r) <->
  covers r i \/ start <= i <= fst (absorb end_ r).
Proof.
  revert start. induction r as [|[s e] r IH]; intros start; simpl; [tauto|].
  intros (? & ? & ? & H). rewrite covers_cons. destruct (Z.leb_spec e end_); simpl.
  - specialize (IH start (separated_weaken (e + 2) start _ _ ltac:(lia) H)).
    pose proof (absorb_ge end_ r).
    intuition lia.
  - intuition lia.
Qed.

Lemma add_loop_absorb fuel l r cursor end_ lo n :
  separated lo n (l ++ r) -> Forall (fun kv => kv.1 < cursor) l ->
  Forall (fun kv => cursor <= kv.1) r -> (length r < fuel)%nat ->
  add_loop fuel cursor end_ (l ++ r) =
    Ret (fst (absorb end_ r), l ++ snd (absorb end_ r)).
Proof.
  revert r cursor. induction fuel as [|fuel IH]; intros r cursor Hs Hl Hr Hf; [lia|]. simpl.
  rewrite range_from_app by done. destruct r as [|[s e] r]; [done|]. simpl in *.
  apply Forall_cons in Hr as [Hse Hr]. simpl in Hse.
  apply separated_app in Hs as [Hs1 Hs2]. simpl in Hs2. destruct Hs2 as (? & ? & ? & Hs2).
  pose proof (separated_keys _ _ _ Hs2) as Hk.
  assert (remove s (l ++ (s, e) :: r) = l ++ r) as ->.
  { apply remove_head; (eapply Forall_impl; [done|]); simpl; intros; lia. }
  destruct (Z.leb_spec e end_); [|done].
  rewrite (proj2 (Z.ltb_ge _ _)) by lia. apply IH; [| | |simpl in Hf; lia].
  - apply separated_app. split; [done|]. eapply separated_weaken; [|done]. lia.
  - eapply Forall_impl; [done|]. simpl; intros; lia.
  - eapply Forall_impl; [done|]. simpl; intros; lia.
Qed.

(** ** The invariant of a slice manager *)

Record sm_wf (m : SliceManager) : Prop := {
  wf_slices : separated 0 (len (sm_data m)) (sm_slices m);
  wf_size : len (sm_data m) <= ISIZE_MAX;
}.

(** The end of the slice that [add_slice m start end_] builds. *)
Definition merged_end (m : SliceManager) (start end_ : Z) : Z :=
  fst (absorb end_ (range_from start (sm_slices m))).

Lemma after_snoc lo l s e : after lo (l ++ [(s, e)]) = e + 2.
Proof. unfold after. by rewrite last_snoc. Qed.

(** The slice [[start, end_]] is put between the slices [l] before [start] and
    the slices [r] past [end_], merged with the last one of [l] when they
    touch. *)
Lemma add_slice_attach m l r start end_ n :
  let slices := l ++ r in
  separated 0 n slices -> separated (end_ + 2) n r -> Forall (fun kv => kv.1 < start) l ->
  0 <= start <= end_ -> end_ < n ->
  exists slices',
    (let insert_new := Ret (set_slices m (insert start end_ slices)) in
     match next_back (range_to start slices) with
     | Some (prev_start, prev_end) =>
         if end_ <=? prev_end then Ret (set_slices m slices)
         else if saturating_sub start 1 <=? prev_end
         then Ret (set_slices m (insert prev_start end_ slices))
         else insert_new
     | None => insert_new
     end) = Ret (set_slices m slices') /\
    separated 0 n slices' /\
    forall i, covers slices' i <-> covers slices i \/ start <= i <= end_.
Proof.
  intros slices Hs Hr Hl Hse Hn. subst slices.
  pose proof (separated_keys _ _ _ Hr) as Hrk.
  apply separated_app in Hs as [Hsl Hsr].
  rewrite range_to_app; [|done|eapply Forall_impl; [done|]; simpl; intros; lia].
  assert (Forall (fun kv => start < kv.1) r) as Hr'.
  { eapply Forall_impl; [done|]. simpl; intros; lia. }
  unfold next_back. destruct l as [|[ps pe] l _] using rev_ind; simpl.
  { exists ((start, end_) :: r). pose proof (insert_middle start end_ [] r) as Hi.
    simpl in Hi. rewrite Hi by done.
    split_and!; [done| simpl; intuition lia |]. intros i. rewrite covers_cons. tauto. }
  rewrite last_snoc. apply Forall_app in Hl as [Hl Hp]. rewrite Forall_singleton in Hp. simpl in Hp.
  apply separated_app in Hsl as [Hsl Hsp]. simpl in Hsp. destruct Hsp as (? & ? & ? & _).
  rewrite after_snoc in Hsr. pose proof (after_ge _ _ _ Hsl).
  assert (Forall (fun kv => kv.1 < ps) l) as Hlp.
  { pose proof (separated_sorted 0 n (l ++ [(ps, pe)])) as Hsort.
    clear -Hsl H. revert H Hsl. generalize 0. induction l as [|[s e] l IH]; intros lo; [done|].
    rewrite after_cons. simpl. intros Ha (? & ? & ? & H). constructor; [|by eapply IH].
    simpl. pose proof (after_ge _ _ _ H). lia. }
  destruct (Z.leb_spec end_ pe); [|unfold saturating_sub; destruct (Z.leb_spec (Z.max 0 (start - 1)) pe)].
  - exists ((l ++ [(ps, pe)]) ++ r). split_and!; [done| |].
    + apply separated_app. rewrite after_snoc. split; [|done]. apply separated_app. simpl. tauto.
    + intros i. rewrite !covers_app, !covers_cons.
      assert (start <= i <= end_ -> ps <= i <= pe) by lia. tauto.
  - exists (l ++ (ps, end_) :: r). rewrite <- app_assoc. simpl.
    rewrite insert_replace by done. split_and!; [done| |].
    + apply separated_app. simpl. intuition lia.
    + intros i. rewrite !covers_app, !covers_cons. pose proof (covers_nil i).
      assert (ps <= i <= end_ <-> ps <= i <= pe \/ start <= i <= end_) by lia. tauto.
  - exists ((l ++ [(ps, pe)]) ++ (start, end_) :: r).
    rewrite insert_middle; [|apply Forall_app; split; [done|]; constructor; [simpl; lia|done]|done].
    split_and!; [done| |].
    + apply separated_app. rewrite after_snoc. split; [apply separated_app; simpl; tauto|].
      simpl. intuition lia.
    + intros i. rewrite !covers_app, !covers_cons. tauto.
Qed.

(** [add_slice] terminates, keeps the invariant, and makes present exactly the
    indices that were present and those from [start] to [merged_end]. *)
Lemma add_slice_exact {P : BuildProfile} m start end_ :
  sm_wf m -> 0 <= start <= end_ -> end_ < len (sm_data m) ->
  exists slices',
    add_slice m start end_ = Ret (set_slices m slices') /\
    separated 0 (len (sm_data m)) slices' /\
    forall i, covers slices' i <->
      covers (sm_slices m) i \/ start <= i <= merged_end m start end_.
Proof.
  intros [Hs _] Hse Hn. set (n := len (sm_data m)) in *.
  destruct (split_at 0 n (sm_slices m) start Hs) as (l & r & Hlr & Hl & Hr).
  unfold add_slice, merged_end. rewrite Hlr in *. rewrite range_from_app by done.
  erewrite add_loop_absorb by (done || rewrite length_app; lia). rewrite bind_Ret.
  apply separated_app in Hs as [Hsl Hsr].
  destruct (absorb_separated _ n end_ r Hsr) as (He & Hr1 & Hr2); [done|].
  destruct (add_slice_attach m l (snd (absorb end_ r)) start (fst (absorb end_ r)) n)
    as (slices' & Heq & Hsep & Hcov); [by apply separated_app|done|done|lia|lia|].
  exists slices'. split_and!; [exact Heq|done|]. intros i. rewrite Hcov, !covers_app.
  assert (separated start n r) as Hsr'.
  { clear -Hsr Hr. destruct r as [|[s e] r]; [done|]. apply Forall_cons in Hr as [Hr _].
    simpl in *. intuition lia. }
  pose proof (absorb_covers start n end_ r i Hsr'). tauto.
Qed.

(** C23. When the slice that [add_slice] runs into touches the new one, or there is
    none, the present indices become exactly the union of the old ones and
    [[start, end_]]. *)
Theorem add_slice_union {P : BuildProfile} m start end_ :
  sm_wf m -> 0 <= start <= end_ -> end_ < len (sm_data m) ->
  (forall i, end_ < i <= merged_end m start end_ -> covers (sm_slices m) i) ->
  exists slices',
    add_slice m start end_ = Ret (set_slices m slices') /\
    separated 0 (len (sm_data m)) slices' /\
    forall i, covers slices' i <-> covers (sm_slices m) i \/ start <= i <= end_.
Proof.
  intros Hwf Hse Hn Htouch.
  destruct (add_slice_exact m start end_ Hwf Hse Hn) as (slices' & Heq & Hsep & Hcov).
  exists slices'. split_and!; [done..|]. intros i. rewrite Hcov. specialize (Htouch i).
  assert (end_ <= merged_end m start end_) by apply absorb_ge.
  assert (start <= i <= merged_end m start end_ <->
          start <= i <= end_ \/ end_ < i <= merged_end m start end_) by lia.
  tauto.
Qed.

(** [recv_slice] with a slice of another message, or one that starts past
    the end of the message, changes nothing; any other nonempty slice that does
    not wrap around the [u64] range is recorded without panic, its bytes (cut
    at the end of the message) replace the old ones and all others stay. *)
Lemma recv_slice_spec {P : BuildProfile} m epoch seq first_index d :
  sm_wf m -> 1 <= len (sm_data m) -> 0 <= first_index -> 1 <= len d ->
  first_index + len d <= U64_MAX ->
  let last_index := Z.min (first_index + len d - 1) (len (sm_data m) - 1) in
  exists m',
    recv_slice m epoch seq first_index d = Ret m' /\ sm_wf m' /\
    sm_epoch m' = sm_epoch m /\ sm_seq m' = sm_seq m /\ len (sm_data m') = len (sm_data m) /\
    if bool_decide (epoch = sm_epoch m) && (seq =? sm_seq m) && (first_index <=? last_index)
    then
      (forall i, 0 <= i -> atZ (sm_data m') i =
        if (first_index <=? i) && (i <=? last_index) then atZ d (i - first_index)
        else atZ (sm_data m) i) /\
      (forall i, covers (sm_slices m') i <-> covers (sm_slices m) i \/
        first_index <= i <= merged_end m first_index last_index)
    else m' = m.
Proof.
  intros Hwf Hn Hf Hd Hu last_index. pose proof (wf_size _ Hwf) as Hsz. unfold recv_slice.
  destruct (bool_decide (epoch = sm_epoch m)), (seq =? sm_seq m); simpl; try by eauto 10.
  u64_steps. fold last_index.
  destruct (Z.ltb_spec last_index first_index), (Z.leb_spec first_index last_index);
    try lia; [by eauto 10|].
  u64_steps.
  destruct (add_slice_exact m first_index last_index) as (sl & -> & Hsep & Hcov);
    [done|lia|lia|]. rewrite bind_Ret.
  rewrite index_incl_ok, bind_Ret by lia.
  set (src := takeZ _ _).
  assert (len src = last_index + 1 - first_index) as Hsrc.
  { unfold src. rewrite dropZ_0, len_takeZ; lia. }
  destruct (splice_incl_ok first_index last_index src (sm_data m)) as (r & Hr & Hlr); [lia..|].
  simpl. rewrite Hr, bind_Ret. eexists. split; [done|]. simpl. rewrite Hlr.
  split_and!; try done.
  - constructor; simpl; rewrite Hlr; [done|lia].
  - intros i Hi. rewrite (atZ_splice _ _ _ _ _ i Hf Hr Hi).
    destruct (Z.leb_spec first_index i), (Z.leb_spec i last_index); simpl; try done.
    unfold src. rewrite dropZ_0, atZ_takeZ by lia. done.
Qed.
End SliceSets.
