(* ===== verification/Segments.v ===== *)
(** * Sending and reassembling one message

    The outgoing side of a [SliceManager] holds a suffix of its message, cuts
    it into contiguous slices and drops what is acknowledged; the incoming side
    holds a prefix as long as no slice arrives ahead of it, and then gives the
    message back once it is full. *)

From S2P Require Import Prelude Bytes Errors Epochs Proto BTree Slices SliceTheory.

Module Segments.
Import Epoch Protocol BTreeMap SliceManager SliceSets.

(** ** Acknowledgement *)

(** What [remove_slice] leaves of the slices that start at or after its start. *)
Fixpoint retire (end_ : Z) (r : list (Z * Z)) : list (Z * Z) :=
  match r with
  | [] => []
  | (s, e) :: r => if e <=? end_ then retire end_ r else (end_ + 1, e) :: r
  end.

Section with_profile.
Context {P : BuildProfile}.

Lemma remove_loop_retire fuel l r cursor end_ lo n :
  separated lo n (l ++ r) -> n <= ISIZE_MAX -> 0 <= end_ ->
  Forall (fun kv => kv.1 < cursor /\ kv.1 <= end_) l ->
  Forall (fun kv => cursor <= kv.1) r -> (length r < fuel)%nat ->
  remove_loop fuel cursor end_ (l ++ r) = Ret (l ++ retire end_ r).
Proof.
  revert r cursor. induction fuel as [|fuel IH]; intros r cursor Hs Hn He Hl Hr Hf; [lia|]. simpl.
  rewrite range_from_app; [|by eapply Forall_impl; [done|]; simpl; intros; lia|done].
  destruct r as [|[s e] r]; [done|]. simpl in *.
  apply Forall_cons in Hr as [Hse Hr]. simpl in Hse.
  apply separated_app in Hs as [Hs1 Hs2]. simpl in Hs2. destruct Hs2 as (? & ? & ? & Hs2).
  pose proof (separated_keys _ _ _ Hs2) as Hk.
  assert (remove s (l ++ (s, e) :: r) = l ++ r) as ->.
  { apply remove_head; (eapply Forall_impl; [done|]); simpl; intros; lia. }
  destruct (Z.leb_spec e end_).
  - rewrite bind_Ret, (proj2 (Z.ltb_ge _ _)) by lia. apply IH; try done; [| | |lia].
    + apply separated_app. split; [done|]. eapply separated_weaken; [|done]. lia.
    + eapply Forall_impl; [done|]. simpl; intros; lia.
    + eapply Forall_impl; [done|]. simpl; intros; lia.
  - u64_steps. rewrite (proj2 (Z.ltb_lt _ _)) by lia.
    rewrite insert_middle; [done| |]; (eapply Forall_impl; [done|]); simpl; intros; lia.
Qed.

Lemma ack_retire m last_index :
  sm_wf m -> 0 <= last_index ->
  ack m (sm_epoch m) (sm_seq m) last_index =
    Ret (if last_index =? 0 then m else set_slices m (retire last_index (sm_slices m))).
Proof.
  intros [Hs Hn] Hl. unfold ack, remove_slice.
  rewrite bool_decide_eq_true_2, Z.eqb_refl by done. cbn [orb negb]. rewrite (Z.eqb_sym 0).
  destruct (last_index =? 0); [done|].
  rewrite range_to_none by (by eapply separated_keys). simpl.
  pose proof (remove_loop_retire (S (length (sm_slices m))) [] (sm_slices m) 0 last_index 0) as H.
  simpl in H. erewrite H; [done|done|done|done|done| by eapply separated_keys |lia].
Qed.

(** [pending m a]: exactly the bytes from [a] on are still to be acknowledged. *)
Definition pending (m : SliceManager) (a : Z) : Prop :=
  0 <= a <= len (sm_data m) /\
  sm_slices m = if a <? len (sm_data m) then [(a, len (sm_data m) - 1)] else [].

Lemma pending_wf m a : pending m a -> len (sm_data m) <= ISIZE_MAX -> sm_wf m.
Proof.
  intros [Ha Hs] Hn. constructor; [|done]. rewrite Hs.
  destruct (Z.ltb_spec a (len (sm_data m))); simpl; intuition lia.
Qed.

Lemma from_vec_pending epoch seq d : pending (from_vec epoch seq d) 0.
Proof.
  unfold pending, from_vec. simpl. pose proof (len_nonneg d). split; [lia|].
  destruct (Z.ltb_spec 0 (len d)) as [Hd|Hd]; case_bool_decide as Hb; try done.
  - subst. by compute in Hd.
  - destruct Hb. apply len_zero_nil. lia.
Qed.

(** Where the pending bytes of a manager start after an acknowledgement. *)
Definition acked (n a last_index : Z) : Z :=
  if (last_index =? 0) || (a =? n) then a else Z.min (last_index + 1) n.

(** An acknowledgement of index [last_index] leaves exactly the bytes after
    it pending (index 0 stands for "nothing" and changes nothing). *)
Lemma ack_pending m a last_index :
  pending m a -> len (sm_data m) <= ISIZE_MAX -> 0 <= last_index ->
  exists m', ack m (sm_epoch m) (sm_seq m) last_index = Ret m' /\
    pending m' (acked (len (sm_data m)) a last_index) /\
    sm_data m' = sm_data m /\ sm_epoch m' = sm_epoch m /\ sm_seq m' = sm_seq m.
Proof.
  intros Hp Hn Hl. pose proof (pending_wf _ _ Hp Hn) as Hwf. destruct Hp as [Ha Hs].
  rewrite ack_retire by done. eexists. split; [done|]. unfold acked.
  destruct (Z.eqb_spec last_index 0) as [->|Hl0]; simpl; [done|].
  split_and!; try done. unfold pending. simpl. rewrite Hs.
  destruct (Z.eqb_spec a (len (sm_data m))), (Z.ltb_spec a (len (sm_data m))); simpl; try lia.
  - split; [lia|done].
  - split; [lia|]. destruct (Z.leb_spec (len (sm_data m) - 1) last_index).
    + rewrite (proj2 (Z.ltb_ge _ _)) by lia. done.
    + rewrite (proj2 (Z.ltb_lt _ _)) by lia. by rewrite Z.min_l by lia.
Qed.

(** ** Cutting a message into slices *)

(** [contiguous epoch seq n a ps d]: the messages [ps] are nonempty slices of
    one [n]-byte message that follow each other from index [a] on and together
    carry the bytes [d]. *)
Fixpoint contiguous (epoch seq n a : Z) (ps : list LinkProtocol) (d : bytes) : Prop :=
  match ps with
  | [] => d = []
  | MsgSlice epoch' seq' seq_len first_index x :: ps =>
      epoch' = epoch /\ seq' = seq /\ seq_len = n /\ first_index = a /\ x <> [] /\
      exists d', d = x ++ d' /\ contiguous epoch seq n (a + len x) ps d'
  | _ => False
  end.

Definition slice_size (p : LinkProtocol) : Z :=
  match p with MsgSlice _ _ _ _ x => len x | _ => 0 end.

Lemma make_loop_contiguous fuel d epoch seq cursor size end_ ret :
  len d <= ISIZE_MAX -> 1 <= size <= U32_MAX -> 0 <= cursor <= end_ -> end_ < len d ->
  (Z.to_nat (end_ - cursor + 1) <= fuel)%nat ->
  exists ps, make_loop fuel d epoch seq cursor size end_ ret = Ret (ret ++ ps) /\
    contiguous (to_int epoch) seq (len d) cursor ps (takeZ (end_ + 1 - cursor) (dropZ cursor d)) /\
    Forall (fun p => slice_size p <= size) ps.
Proof.
  intros Hd Hs. revert cursor ret. induction fuel as [|fuel IH]; intros cursor ret Hc He Hf; [lia|].
  simpl. u64_steps. rewrite (Z.min_l _ (len d - 1)) by lia.
  rewrite (proj2 (Z.ltb_ge _ _)) by lia. rewrite index_incl_ok, bind_Ret by lia. u64_steps.
  set (x := takeZ _ _). assert (len (dropZ cursor d) = len d - cursor) as Hdl by (apply len_dropZ; lia).
  assert (len x = Z.min (cursor + size - 1) end_ + 1 - cursor) as Hx by (apply len_takeZ; lia).
  assert (x <> []) as Hx0 by (intros ->; rewrite len_nil in Hx; lia).
  destruct (Z.ltb_spec end_ (cursor + size)).
  - exists [MsgSlice (to_int epoch) seq (len d) cursor x].
    split_and!; [done| |constructor; [simpl; lia|done]].
    simpl. split_and!; try done. exists []. rewrite app_nil_r. split; [|done].
    unfold x. by rewrite Z.min_r by lia.
  - destruct (IH (cursor + size) (ret ++ [MsgSlice (to_int epoch) seq (len d) cursor x]))
      as (ps & Heq & Hps & Hall); [lia..|].
    exists (MsgSlice (to_int epoch) seq (len d) cursor x :: ps). rewrite Heq, <- app_assoc.
    split_and!; [done| |constructor; [simpl; lia|done]].
    assert (len x = size) as Hxs by lia.
    simpl. split_and!; try done. rewrite Hxs. eexists. split; [|exact Hps].
    rewrite (takeZ_split size) by lia. rewrite dropZ_dropZ by lia. f_equal; [|f_equal; lia].
    unfold x. f_equal. lia.
Qed.

(** [make_slices] cuts the bytes [start..=end_] into contiguous slices of at
    most [size] bytes: every byte is sent once, in order, and the loop ends. *)
Lemma make_slices_contiguous d epoch seq start size end_ :
  len d <= ISIZE_MAX -> 1 <= size <= U32_MAX -> 0 <= start <= end_ -> end_ < len d ->
  exists ps, make_slices d epoch seq start size end_ = Ret ps /\
    contiguous (to_int epoch) seq (len d) start ps (takeZ (end_ + 1 - start) (dropZ start d)) /\
    Forall (fun p => slice_size p <= size) ps.
Proof.
  intros Hd Hs Hse He. unfold make_slices. rewrite (proj2 (Z.eqb_neq _ _)) by lia.
  destruct (make_loop_contiguous (S (Z.to_nat (end_ - start + 1))) d epoch seq start size end_ [])
    as (ps & -> & Hps); [done..|lia|]. by exists ps.
Qed.

(** A packet within the bounds that keep the arithmetic of [recv] in range: a
    message of at least one byte that fits in memory. *)
Definition packet_bounds (seq first_index seq_len : Z) (d : bytes) : Prop :=
  0 <= seq < U64_MAX /\ 0 <= first_index /\ 1 <= seq_len <= ISIZE_MAX /\ 1 <= len d /\
  first_index + len d <= U64_MAX /\ first_index + seq_len <= U64_MAX.

(** What a core sends: packets with fields in the range of their types, and
    slices within the message they belong to. *)
Definition packet_ok (p : LinkProtocol) : Prop :=
  proto_wf p /\
  match p with
  | MsgSlice _ seq seq_len first_index d => packet_bounds seq first_index seq_len d
  | _ => True
  end.

Lemma contiguous_ok e seq n a ps d :
  contiguous e seq n a ps d -> is_u64 e -> 0 <= seq < U64_MAX -> n <= ISIZE_MAX -> 0 <= a -> a + len d <= n ->
  Forall packet_ok ps.
Proof.
  intros Hc He Hs Hn. revert a d Hc. induction ps as [|p ps IH]; intros a d Hc Ha Hd; [done|].
  destruct p as [| |e' seq' n' f x| |]; try done.
  destruct Hc as (-> & -> & -> & -> & Hx & d' & -> & Hc). rewrite len_app in Hd. pose proof (len_nonneg d').
  assert (1 <= len x). { pose proof (len_nonneg x). destruct (decide (len x = 0)); [|lia]. by destruct Hx; apply len_zero_nil. }
  constructor; [unfold packet_ok, packet_bounds; simpl; lia|]. eapply IH; [done|lia..].
Qed.

(** A manager whose slices can be sent. *)
Definition sendable (m : SliceManager) : Prop := sm_wf m /\ 0 <= sm_seq m < U64_MAX.

(** Whatever the gaps are, slicing returns, no slice exceeds the size, and the
    slices are well-formed. *)
Lemma get_slices_loop_wf m size l lo ret :
  separated lo (len (sm_data m)) l -> 0 <= lo -> len (sm_data m) <= ISIZE_MAX -> 0 <= sm_seq m < U64_MAX ->
  1 <= size <= U32_MAX -> Forall (fun p => slice_size p <= size /\ packet_ok p) ret ->
  exists ps, get_slices_loop m size l ret = Ret ps /\ Forall (fun p => slice_size p <= size /\ packet_ok p) ps.
Proof.
  intros Hs Hlo Hn Hq Hsz. revert lo ret Hs Hlo. induction l as [|[s e] l IH]; intros lo ret Hs Hlo Hret.
  { by exists ret. }
  simpl in Hs. destruct Hs as (? & ? & ? & Hs). simpl.
  destruct (make_slices_contiguous (sm_data m) (sm_epoch m) (sm_seq m) s size e)
    as (ps & -> & Hc & Hps); [done|lia|lia|lia|]. rewrite bind_Ret.
  apply (IH (e + 2)); [done|lia|]. apply Forall_app. split; [done|]. apply Forall_and. split; [done|].
  pose proof (epoch_range (sm_epoch m)). eapply contiguous_ok; [done|unfold to_int; lia|done|lia|lia|].
  rewrite len_takeZ; [lia|]. rewrite len_dropZ; lia.
Qed.

Lemma get_slices_wf m size :
  sendable m -> 1 <= size <= U32_MAX ->
  exists ps, get_slices m size = Ret ps /\ Forall (fun p => slice_size p <= size /\ packet_ok p) ps.
Proof. intros [[Hs Hn] Hq] Hsz. by apply (get_slices_loop_wf m size (sm_slices m) 0 []). Qed.

Lemma get_slices_pending m a size :
  pending m a -> len (sm_data m) <= ISIZE_MAX -> 1 <= size <= U32_MAX ->
  exists ps, get_slices m size = Ret ps /\
    contiguous (to_int (sm_epoch m)) (sm_seq m) (len (sm_data m)) a ps (dropZ a (sm_data m)) /\
    Forall (fun p => slice_size p <= size) ps.
Proof.
  intros [Ha Hs] Hn Hsz. unfold get_slices. rewrite Hs.
  destruct (Z.ltb_spec a (len (sm_data m))); simpl.
  - destruct (make_slices_contiguous (sm_data m) (sm_epoch m) (sm_seq m) a size
      (len (sm_data m) - 1)) as (ps & -> & Hps & Hall); [done|lia..|].
    exists ps. split_and!; [done| |done].
    rewrite takeZ_all in Hps; [done|]. rewrite len_dropZ by lia. lia.
  - exists []. split_and!; [done| |done]. simpl. by rewrite dropZ_all by lia.
Qed.

(** ** Reassembly *)

(** [received m msg k]: the manager holds the first [k] bytes of [msg]. *)
Definition received (m : SliceManager) (msg : bytes) (k : Z) : Prop :=
  len (sm_data m) = len msg /\ 0 <= k <= len msg /\
  sm_slices m = (if 0 <? k then [(0, k - 1)] else []) /\
  forall i, 0 <= i < k -> atZ (sm_data m) i = atZ msg i.

(** Slices that cover exactly a prefix are that prefix. *)
Lemma separated_prefix n l k :
  separated 0 n l -> (forall i, covers l i <-> 0 <= i < k) ->
  l = if 0 <? k then [(0, k - 1)] else [].
Proof.
  intros Hs Hc. destruct l as [|[s e] l].
  { destruct (Z.ltb_spec 0 k); [|done]. destruct (covers_nil 0). apply Hc. lia. }
  simpl in Hs. destruct Hs as (? & ? & ? & Hs).
  assert (forall i, covers l i -> e + 2 <= i) as Hl by (intros i Hi; pose proof (covers_range _ _ _ _ Hs Hi); lia).
  setoid_rewrite covers_cons in Hc.
  assert (0 <= s < k) by (apply Hc; lia).
  assert (0 <= e < k) by (apply Hc; lia).
  assert (s = 0) as -> by (destruct (proj2 (Hc 0)) as [?|?%Hl]; lia).
  assert (e = k - 1) as ->.
  { destruct (decide (e + 1 < k)); [|lia]. destruct (proj2 (Hc (e + 1))) as [?|?%Hl]; lia. }
  rewrite (proj2 (Z.ltb_lt _ _)) by lia. f_equal.
  destruct l as [|[s' e'] l]; [done|]. simpl in Hs.
  assert (0 <= s' < k); [|lia]. apply Hc. right. rewrite covers_cons. lia.
Qed.

Lemma received_wf m msg k : received m msg k -> len msg <= ISIZE_MAX -> sm_wf m.
Proof.
  intros (Hl & Hk & Hs & _) Hn. constructor; rewrite Hl; [|done]. rewrite Hs.
  destruct (Z.ltb_spec 0 k); simpl; intuition lia.
Qed.

Lemma new_received epoch seq msg :
  len msg <= ISIZE_MAX ->
  exists m, new epoch seq (len msg) = Ret m /\ received m msg 0 /\
    sm_epoch m = epoch /\ sm_seq m = seq.
Proof.
  intros Hn. unfold new, zeroed. rewrite (proj2 (Z.leb_le _ _)) by done.
  eexists. split; [done|]. unfold received. simpl. split_and!; try done.
  - unfold len. rewrite length_replicate. lia.
  - pose proof (len_nonneg msg). lia.
  - intros; lia.
Qed.

Lemma prefix_covers k i : covers (if 0 <? k then [(0, k - 1)] else []) i <-> 0 <= i < k.
Proof.
  pose proof (covers_nil i). destruct (Z.ltb_spec 0 k); rewrite ?covers_cons; intuition lia.
Qed.

(** A genuine slice of the message that starts inside or right after the
    received prefix extends the prefix to its end. *)
Lemma recv_slice_in_order m msg k f x :
  received m msg k -> len msg <= ISIZE_MAX -> 0 <= f <= k -> x <> [] ->
  f + len x <= len msg -> takeZ (len x) (dropZ f msg) = x ->
  exists m', recv_slice m (sm_epoch m) (sm_seq m) f x = Ret m' /\
    received m' msg (Z.max k (f + len x)) /\
    sm_epoch m' = sm_epoch m /\ sm_seq m' = sm_seq m.
Proof.
  intros Hrec Hn Hf Hx Hfx Hgen. pose proof (received_wf _ _ _ Hrec Hn) as Hwf.
  destruct Hrec as (Hl & Hk & Hs & Hd).
  pose proof (proj1 (len_pos x) Hx).
  destruct (recv_slice_spec m (sm_epoch m) (sm_seq m) f x) as (m' & Heq & Hwf' & He & Hsq & Hl' & Hcase);
    [done|lia..|].
  exists m'. split_and!; try done. rewrite bool_decide_eq_true_2, Z.eqb_refl in Hcase by done.
  simpl in Hcase. rewrite Z.min_l, (proj2 (Z.leb_le _ _)) in Hcase by lia.
  destruct Hcase as [Hbytes Hcov]. unfold received. rewrite Hl', Hl. split_and!; try lia.
  - apply (separated_prefix (len (sm_data m'))); [apply Hwf'|]. intros i. rewrite Hcov, Hs, prefix_covers.
    assert (f + len x - 1 <= merged_end m f (f + len x - 1)) by apply absorb_ge.
    assert (merged_end m f (f + len x - 1) <= Z.max k (f + len x) - 1).
    { unfold merged_end, range_from. rewrite Hs. destruct (Z.ltb_spec 0 k); simpl; [|lia].
      rewrite filter_cons, filter_nil. case_decide; simpl; [|lia].
      destruct (Z.leb_spec (k - 1) (f + len x - 1)); simpl; lia. }
    assert (merged_end m f (f + len x - 1) < k \/ merged_end m f (f + len x - 1) = f + len x - 1) by lia.
    lia.
  - intros i Hi. rewrite Hbytes by lia.
    destruct (Z.leb_spec f i), (Z.leb_spec i (f + len x - 1)); simpl; try (apply Hd; lia).
    rewrite <- Hgen, atZ_takeZ, atZ_dropZ by lia. f_equal. lia.
Qed.

(** A reassembled message is full exactly when all its bytes have been
    received, and is then the message that was sent. *)
Lemma data_received m msg k :
  received m msg k -> 1 <= len msg -> len msg <= ISIZE_MAX ->
  is_full m = Ret (k =? len msg) /\
  data m = Ret (if k =? len msg then Some msg else None).
Proof.
  intros (Hl & Hk & Hs & Hd) H1 Hn.
  assert (is_full m = Ret (k =? len msg)) as Hfull.
  { unfold is_full. rewrite Hs, Hl. destruct (Z.ltb_spec 0 k); simpl.
    - u64_steps. f_equal. case_bool_decide as E; destruct (Z.eqb_spec k (len msg)); try done.
      + injection E. lia.
      + destruct E. f_equal. lia.
    - destruct (Z.eqb_spec k (len msg)); [lia|done]. }
  split; [done|]. unfold data. rewrite Hfull, bind_Ret.
  destruct (Z.eqb_spec k (len msg)); [|done]. do 2 f_equal.
  apply atZ_ext; [done|]. intros i Hi. apply Hd. lia.
Qed.

Lemma last_head_index_received m msg k :
  received m msg k -> last_head_index m = if 0 <? k then Some (k - 1) else None.
Proof. intros (_ & _ & Hs & _). unfold last_head_index. rewrite Hs. by destruct (0 <? k). Qed.

(** Feeds the slices of one message to its manager, in the order given. *)
Fixpoint recv_all (m : SliceManager) (ps : list LinkProtocol) : outcome SliceManager :=
  match ps with
  | MsgSlice _ seq _ first_index x :: ps =>
      m ← recv_slice m (sm_epoch m) seq first_index x; recv_all m ps
  | _ :: ps => recv_all m ps
  | [] => Ret m
  end.

Lemma recv_all_contiguous epoch n ps m msg k a :
  received m msg k -> len msg <= ISIZE_MAX -> 0 <= a <= k ->
  contiguous epoch (sm_seq m) n a ps (dropZ a msg) ->
  exists m', recv_all m ps = Ret m' /\ received m' msg (len msg).
Proof.
  revert m k a. induction ps as [|p ps IH]; intros m k a Hrec Hn Ha Hc; simpl in Hc.
  - exists m. split; [done|]. destruct Hrec as (Hl & Hk & Hrest).
    assert (len (dropZ a msg) = len msg - a) as Hlen by (apply len_dropZ; lia).
    rewrite Hc, len_nil in Hlen. by replace (len msg) with k by lia.
  - destruct p as [| |e s sl f x| |]; try done.
    destruct Hc as (-> & -> & -> & -> & Hx & d' & Hd & Hc).
    assert (len (dropZ a msg) = len msg - a) as Hlen by (apply len_dropZ; destruct Hrec; lia).
    rewrite Hd, len_app in Hlen. pose proof (len_nonneg d').
    destruct (recv_slice_in_order m msg k a x) as (m' & Heq & Hrec' & He & Hs); try done.
    { lia. }
    { rewrite Hd. unfold takeZ, len. by rewrite Nat2Z.id, take_app_length. }
    simpl. rewrite Heq, bind_Ret. rewrite <- Hs in Hc.
    pose proof (len_nonneg x). apply (IH m' (Z.max k (a + len x)) (a + len x)); [done|done|lia|].
    replace (dropZ (a + len x) msg) with d'; [done|].
    rewrite <- dropZ_dropZ, Hd by lia. unfold dropZ, len. by rewrite Nat2Z.id, drop_app_length.
Qed.

(** C19. Sending a whole message: the slices that the sender cuts from a nonempty
    message, delivered in order to a fresh manager of the announced size, give
    exactly that message back. *)
Theorem transfer_roundtrip epoch seq msg size :
  1 <= len msg -> len msg <= ISIZE_MAX -> 1 <= size <= U32_MAX ->
  (ps ← get_slices (from_vec epoch seq msg) size;
   m ← new epoch seq (len msg);
   m ← recv_all m ps;
   data m) = Ret (Some msg).
Proof.
  intros H1 Hn Hs.
  destruct (get_slices_pending _ _ size (from_vec_pending epoch seq msg)) as (ps & -> & Hc & _);
    [done..|]. rewrite bind_Ret.
  destruct (new_received epoch seq msg Hn) as (m & -> & Hrec & He & Hsq). rewrite bind_Ret.
  destruct (recv_all_contiguous (to_int epoch) (len msg) ps m msg 0 0) as (m' & -> & Hrec');
    [done|done|lia|by rewrite Hsq|]. rewrite bind_Ret.
  destruct (data_received m' msg (len msg)) as [_ ->]; [done..|]. by rewrite Z.eqb_refl.
Qed.
End with_profile.
End Segments.
