(* ===== verification/Messages.v ===== *)
(** * Messages of one epoch ([src/message_manager.rs])

    The [MessageManager] numbers outgoing messages, keeps them until they are
    acknowledged, reassembles incoming ones and releases them in order. *)

From S2P Require Import Prelude Bytes Errors Epochs Proto BTree Slices.

Module MessageManager.
Import Epoch Protocol BTreeMap.

Record MessageManager : Type := mk_message_manager {
  (** The epoch this is managing *)
  mm_epoch : Epoch;
  (** Messages that we have sliced to send to the other side *)
  outgoing_slices : list (Z * SliceManager.SliceManager);
  (** The next sequence number to use when assigning a new slice *)
  next_seq : Z;
  (** Slices that we have received from the other side and are reassembling *)
  incoming_slices : list (Z * SliceManager.SliceManager);
  (** The last (seq_num, offset) that we have acknowledged *)
  last_ack : Z * Z;
}.

Definition new (epoch : Epoch) : MessageManager :=
  mk_message_manager epoch [] 0 [] (0, 0).

Definition set_outgoing mm out : MessageManager :=
  mk_message_manager (mm_epoch mm) out (next_seq mm) (incoming_slices mm) (last_ack mm).

Definition set_incoming mm inc : MessageManager :=
  mk_message_manager (mm_epoch mm) (outgoing_slices mm) (next_seq mm) inc (last_ack mm).

Definition set_last_ack mm a : MessageManager :=
  mk_message_manager (mm_epoch mm) (outgoing_slices mm) (next_seq mm) (incoming_slices mm) a.

Section operations.
Context {P : BuildProfile}.

(** ** Sending *)

Definition insert_msg (mm : MessageManager) (data : bytes) : outcome (Z * MessageManager) :=
  let seq := next_seq mm in
  next ← u64_add (next_seq mm) 1;
  let slice_mgr := SliceManager.from_vec (mm_epoch mm) seq data in
  Ret (seq, mk_message_manager (mm_epoch mm) (insert seq slice_mgr (outgoing_slices mm)) next
              (incoming_slices mm) (last_ack mm)).

Definition get_outgoing_slice (mm : MessageManager) (seq : Z)
    : option SliceManager.SliceManager :=
  get seq (outgoing_slices mm).

(** [self.outgoing_slices.values()] *)
Definition get_outgoing_slices (mm : MessageManager) : list SliceManager.SliceManager :=
  (outgoing_slices mm).*2.

Definition recv_ack (mm : MessageManager) (ack : Z * Z) : outcome MessageManager :=
  let (seq, last_index) := ack in
  (* remove all slices less than the ack *)
  let out := retain (fun s => seq <=? s) (outgoing_slices mm) in
  (* update the slice equal to the ack *)
  match get seq out with
  | Some x =>
      x ← SliceManager.ack x (mm_epoch mm) seq last_index;
      Ret (set_outgoing mm
             (if SliceManager.is_empty x then remove seq out else insert seq x out))
  | None => Ret (set_outgoing mm out)
  end.

(** ** Receiving *)

Definition recv_in_range (mm : MessageManager) (seq first_index seq_len : Z) : outcome bool :=
  if seq <? fst (last_ack mm) then Ret false
  else if fst (last_ack mm) <? seq then Ret true
  else
    last ← u64_add first_index seq_len;
    Ret (snd (last_ack mm) <? last).

(** The loop of [recv] over [incoming_slices.range(seq..)]. *)
Fixpoint ack_loop (entries : list (Z * SliceManager.SliceManager)) (ack : Z * Z)
    (did_change : bool) : outcome (bool * (Z * Z)) :=
  match entries with
  | [] => Ret (did_change, ack)
  | (seq, slice_mgr) :: entries =>
      if negb (seq =? fst ack) then Ret (did_change, ack)
      else
        full ← SliceManager.is_full slice_mgr;
        if (full : bool) then
          next ← u64_add seq 1;
          ack_loop entries (next, 0) true
        else
          let offset := default 0 (SliceManager.last_head_index slice_mgr) in
          Ret (did_change || bool_decide (ack = (seq, offset)), (seq, offset))
  end.

Definition recv (mm : MessageManager) (seq first_index seq_len : Z) (data : bytes)
    : outcome (bool * MessageManager) :=
  in_range ← recv_in_range mm seq first_index seq_len;
  if negb in_range then Ret (true, mm)
  else
    slice_mgr ←
      match get seq (incoming_slices mm) with
      | Some slice_mgr => Ret slice_mgr
      | None => SliceManager.new (mm_epoch mm) seq seq_len
      end;
    slice_mgr ← SliceManager.recv_slice slice_mgr (mm_epoch mm) seq first_index data;
    let mm := set_incoming mm (insert seq slice_mgr (incoming_slices mm)) in
    if fst (last_ack mm) <? seq then Ret (false, mm)
    else
      '(did_change, ack) ← ack_loop (range_from seq (incoming_slices mm)) (last_ack mm) false;
      Ret (did_change, set_last_ack mm ack).

Fixpoint take_loop (slices : list (Z * SliceManager.SliceManager)) (ret : list bytes)
    : outcome (list bytes) :=
  match slices with
  | [] => Ret ret
  | (_, slice_mgr) :: slices =>
      data ← SliceManager.data slice_mgr;
      data ← unwrap data;
      take_loop slices (ret ++ [data])
  end.

(** [split_off] keeps the entries before [last_ack.0], which are returned, and
    hands back the others, which stay. *)
Definition take_recvd (mm : MessageManager) : outcome (list bytes * MessageManager) :=
  let slices := range_to (fst (last_ack mm)) (incoming_slices mm) in
  let incoming := range_from (fst (last_ack mm)) (incoming_slices mm) in
  ret ← take_loop slices [];
  Ret (ret, set_incoming mm incoming).

End operations.
End MessageManager.
