(* ===== verification/MessageTheory.v ===== *)
(** * The invariant of the message manager

    Whatever the peer sends, within the bounds stated, the message manager does
    not panic and keeps its invariant; in particular every message that
    [take_recvd] takes out is complete. *)

From S2P Require Import Prelude Bytes Errors Epochs Proto BTree Slices SliceTheory Segments Messages.

Module MessageInvariant.
Import Epoch Protocol BTreeMap SliceSets Segments MessageManager.

Section with_profile.
Context {P : BuildProfile}.

(** A manager of the message [seq] of the epoch. *)
Record entry_wf (epoch : Epoch) (seq : Z) (m : SliceManager.SliceManager) : Prop := {
  entry_sm : sm_wf m;
  entry_epoch : SliceManager.sm_epoch m = epoch;
  entry_seq : SliceManager.sm_seq m = seq;
  entry_range : 0 <= seq < U64_MAX;
}.

Lemma entry_sendable epoch seq m : entry_wf epoch seq m -> sendable m.
Proof. intros [Hm _ <- Hr]. split; [done|lia]. Qed.

Record mm_wf (mm : MessageManager) : Prop := {
  out_sorted : bt_sorted (outgoing_slices mm);
  out_entries : forall seq m, get seq (outgoing_slices mm) = Some m ->
    entry_wf (mm_epoch mm) seq m /\ seq < next_seq mm;
  next_range : is_u64 (next_seq mm);
  in_sorted : bt_sorted (incoming_slices mm);
  in_entries : forall seq m, get seq (incoming_slices mm) = Some m ->
    entry_wf (mm_epoch mm) seq m /\ 1 <= len (SliceManager.sm_data m);
  in_full : forall seq m, get seq (incoming_slices mm) = Some m -> seq < fst (last_ack mm) ->
    SliceManager.is_full m = Ret true;
  ack_range : is_u64 (fst (last_ack mm)) /\ is_u64 (snd (last_ack mm));
}.

Lemma new_wf epoch : mm_wf (new epoch).
Proof. constructor; simpl; try done; try constructor; lia. Qed.

(** ** Sending *)

Lemma from_vec_wf epoch seq d :
  len d <= ISIZE_MAX -> 0 <= seq < U64_MAX -> entry_wf epoch seq (SliceManager.from_vec epoch seq d).
Proof.
  intros Hd Hs. constructor; try done. eapply pending_wf; [apply from_vec_pending|done].
Qed.

(** [insert_msg] gives the message the next sequence number, keeps it for
    retransmission under that number and leaves the other messages alone. *)
Lemma insert_msg_spec mm d :
  mm_wf mm -> len d <= ISIZE_MAX -> next_seq mm < U64_MAX ->
  exists mm', insert_msg mm d = Ret (next_seq mm, mm') /\ mm_wf mm' /\
    mm_epoch mm' = mm_epoch mm /\ next_seq mm' = next_seq mm + 1 /\
    get_outgoing_slice mm' (next_seq mm) =
      Some (SliceManager.from_vec (mm_epoch mm) (next_seq mm) d) /\
    (forall seq, seq <> next_seq mm -> get_outgoing_slice mm' seq = get_outgoing_slice mm seq) /\
    incoming_slices mm' = incoming_slices mm /\ last_ack mm' = last_ack mm.
Proof.
  intros Hwf Hd Hn. pose proof (next_range _ Hwf). unfold insert_msg. u64_steps.
  eexists. split; [done|]. unfold get_outgoing_slice. simpl. split_and!; try done.
  - destruct Hwf. constructor; simpl; try done; [by apply sorted_insert| |lia].
    intros seq m. destruct (decide (seq = next_seq mm)) as [->|Hne].
    + rewrite get_insert_eq. intros [= <-]. split; [|lia]. apply from_vec_wf; [done|lia].
    + rewrite get_insert_ne by done. intros [? ?]%out_entries0. split; [done|lia].
  - apply get_insert_eq.
  - intros seq Hne. by apply get_insert_ne.
Qed.

Lemma retire_separated n end_ r lo :
  separated lo n r -> 0 <= lo -> 0 <= end_ -> separated 0 n (retire end_ r).
Proof.
  revert lo. induction r as [|[s e] r IH]; intros lo; simpl; [done|].
  intros (? & ? & ? & H) ? ?. destruct (Z.leb_spec e end_); simpl; [|intuition lia].
  eapply IH; [done|lia|lia].
Qed.

Lemma ack_wf epoch seq m last_index :
  entry_wf epoch seq m -> 0 <= last_index ->
  exists m', SliceManager.ack m epoch seq last_index = Ret m' /\ entry_wf epoch seq m'.
Proof.
  intros [Hwf <- <- Hr] Hl. rewrite ack_retire by done. eexists. split; [done|].
  destruct (last_index =? 0); [by constructor|]. constructor; try done.
  destruct Hwf as [Hs Hn]. constructor; simpl; [|done]. by eapply retire_separated.
Qed.

Lemma set_outgoing_wf mm out :
  mm_wf mm -> bt_sorted out ->
  (forall seq m, get seq out = Some m -> entry_wf (mm_epoch mm) seq m /\ seq < next_seq mm) ->
  mm_wf (set_outgoing mm out).
Proof. intros [] Hs He. by constructor. Qed.

(** What an acknowledgement leaves of the message it names. *)
Definition ack_entry (mm : MessageManager) (seq last_index : Z) : option SliceManager.SliceManager :=
  match get seq (outgoing_slices mm) with
  | Some x =>
      match SliceManager.ack x (mm_epoch mm) seq last_index with
      | Ret x' => if SliceManager.is_empty x' then None else Some x'
      | _ => None
      end
  | None => None
  end.

Lemma recv_ack_out mm seq last_index :
  mm_wf mm -> 0 <= last_index ->
  exists out, recv_ack mm (seq, last_index) = Ret (set_outgoing mm out) /\ bt_sorted out /\
    forall s, get s out =
      if s <? seq then None
      else if s =? seq then ack_entry mm seq last_index
      else get s (outgoing_slices mm).
Proof.
  intros Hwf Hl. unfold recv_ack, ack_entry. rewrite get_retain, Z.leb_refl.
  set (out := retain _ _). assert (bt_sorted out) as Hout by apply sorted_retain, Hwf.
  assert (forall s, get s out = if s <? seq then None else get s (outgoing_slices mm)) as Hget.
  { intros s. unfold out. rewrite get_retain, Z.ltb_antisym. by destruct (seq <=? s). }
  destruct (get seq (outgoing_slices mm)) as [x|] eqn:Hx.
  - destruct (out_entries _ Hwf _ _ Hx) as [Hxwf Hxn].
    destruct (ack_wf _ _ _ last_index Hxwf Hl) as (x' & -> & Hx'). rewrite bind_Ret.
    eexists. split; [done|]. destruct (SliceManager.is_empty x').
    + split; [by apply sorted_remove|]. intros s. destruct (Z.eqb_spec s seq) as [->|].
      * rewrite get_remove_eq. by destruct (seq <? seq).
      * by rewrite get_remove_ne, Hget.
    + split; [by apply sorted_insert|]. intros s. destruct (Z.eqb_spec s seq) as [->|].
      * by rewrite get_insert_eq, Z.ltb_irrefl.
      * by rewrite get_insert_ne, Hget.
  - eexists. split; [done|]. split; [done|]. intros s. rewrite Hget.
    by destruct (s <? seq), (Z.eqb_spec s seq) as [->|].
Qed.

Lemma ack_entry_wf mm seq last_index m :
  mm_wf mm -> 0 <= last_index -> ack_entry mm seq last_index = Some m ->
  entry_wf (mm_epoch mm) seq m /\ seq < next_seq mm.
Proof.
  intros Hwf Hl. unfold ack_entry. destruct (get seq _) as [x|] eqn:Hx; [|done].
  destruct (out_entries _ Hwf _ _ Hx) as [Hxwf Hxn].
  destruct (ack_wf _ _ _ last_index Hxwf Hl) as (x' & -> & Hx').
  destruct (SliceManager.is_empty x'); [done|]. by intros [= <-].
Qed.

(** An acknowledgement never panics and keeps the invariant, whatever its
    numbers; it drops every message before [seq] and touches none after it. *)
Lemma recv_ack_spec mm seq last_index :
  mm_wf mm -> 0 <= last_index ->
  exists mm', recv_ack mm (seq, last_index) = Ret mm' /\ mm_wf mm' /\
    (forall s, s < seq -> get_outgoing_slice mm' s = None) /\
    (forall s, seq < s -> get_outgoing_slice mm' s = get_outgoing_slice mm s) /\
    next_seq mm' = next_seq mm /\ incoming_slices mm' = incoming_slices mm /\
    last_ack mm' = last_ack mm.
Proof.
  intros Hwf Hl. destruct (recv_ack_out mm seq last_index Hwf Hl) as (out & -> & Hs & Hget).
  eexists. split; [done|]. unfold get_outgoing_slice. simpl. split_and!; try done.
  - apply set_outgoing_wf; [done..|]. intros s m. rewrite Hget.
    destruct (s <? seq); [done|]. destruct (Z.eqb_spec s seq) as [->|]; [|apply Hwf].
    by apply ack_entry_wf.
  - intros s Hlt. by rewrite Hget, (proj2 (Z.ltb_lt _ _)).
  - intros s Hlt. rewrite Hget, (proj2 (Z.ltb_ge _ _)), (proj2 (Z.eqb_neq _ _)) by lia. done.
Qed.

(** ** Receiving *)

Lemma set_incoming_get mm seq m s :
  get s (incoming_slices (set_incoming mm (insert seq m (incoming_slices mm)))) =
    if s =? seq then Some m else get s (incoming_slices mm).
Proof.
  simpl. destruct (Z.eqb_spec s seq) as [->|]; [apply get_insert_eq | by apply get_insert_ne].
Qed.

Lemma is_full_returns m :
  sm_wf m -> 1 <= len (SliceManager.sm_data m) -> exists b, SliceManager.is_full m = Ret b.
Proof.
  intros [_ Hn] H1. unfold SliceManager.is_full. destruct (Z.eqb_spec (len (SliceManager.sm_slices m)) 1).
  - destruct (SliceManager.sm_slices m) as [|kv l]; [done|]. simpl. u64_steps. eauto.
  - eauto.
Qed.

Lemma last_head_index_range m :
  sm_wf m -> 1 <= len (SliceManager.sm_data m) -> is_u64 (default 0 (SliceManager.last_head_index m)).
Proof.
  intros [Hs Hn] H1. unfold SliceManager.last_head_index.
  destruct (SliceManager.sm_slices m) as [|[s e] l]; simpl in *; [lia|].
  destruct (negb (s =? 0)); simpl; lia.
Qed.

(** The acknowledgement loop returns, only moves forward, and every entry it
    passes is full. *)
Lemma ack_loop_spec epoch entries ack ch :
  bt_sorted entries ->
  (forall seq m, (seq, m) ∈ entries -> entry_wf epoch seq m /\ 1 <= len (SliceManager.sm_data m)) ->
  is_u64 (fst ack) -> is_u64 (snd ack) ->
  exists ch' ack', ack_loop entries ack ch = Ret (ch', ack') /\
    fst ack <= fst ack' /\ is_u64 (fst ack') /\ is_u64 (snd ack') /\
    forall seq m, (seq, m) ∈ entries -> fst ack <= seq < fst ack' ->
      SliceManager.is_full m = Ret true.
Proof.
  revert ack ch. induction entries as [|[seq m] entries IH]; intros ack ch Hs He H1 H2; simpl.
  { eexists _, _. split_and!; try (done || lia). }
  apply sorted_cons in Hs as [Hlt Hs]. rewrite Forall_forall in Hlt.
  assert (entry_wf epoch seq m /\ 1 <= len (SliceManager.sm_data m)) as [Hm Hl] by (apply He; left).
  destruct (Z.eqb_spec seq (fst ack)) as [->|Hne]; simpl.
  2:{ eexists _, _. split_and!; try (done || lia); intros; lia. }
  destruct (is_full_returns m) as [[|] Hf]; [apply Hm|done| |]; rewrite Hf, bind_Ret.
  - pose proof (entry_range _ _ _ Hm). u64_steps.
    destruct (IH (fst ack + 1, 0) true) as (ch' & ack' & -> & Hle & Hr1 & Hr2 & Hfull);
      [done| |simpl; lia|simpl; lia|].
    { intros s x Hx. apply He. by right. }
    simpl in *. eexists _, _. split_and!; try (done || lia).
    intros s x [[= -> ->]|Hx]%elem_of_cons Hsx; [done|].
    apply (Hfull s x Hx). apply Hlt in Hx. simpl in Hx. lia.
  - pose proof (last_head_index_range m (entry_sm _ _ _ Hm) Hl).
    eexists _, _. split; [done|]. cbn [fst snd]. split_and!; try (done || lia); intros; lia.
Qed.

Lemma new_entry epoch seq size :
  1 <= size <= ISIZE_MAX -> 0 <= seq < U64_MAX ->
  exists m, SliceManager.new epoch seq size = Ret m /\ entry_wf epoch seq m /\
    len (SliceManager.sm_data m) = size.
Proof.
  intros Hsz Hseq. unfold SliceManager.new, SliceManager.zeroed.
  rewrite (proj2 (Z.leb_le _ _)) by lia. eexists. split; [done|].
  assert (len (replicate (Z.to_nat size) x00) = size) as Hl
    by (unfold len; rewrite length_replicate; lia).
  split; [|done]. constructor; try done. constructor; simpl; [done|lia].
Qed.

(** The message manager's entry for [seq] after a packet was recorded. *)
Lemma recv_entry mm seq first_index seq_len d :
  mm_wf mm -> packet_bounds seq first_index seq_len d ->
  exists m0 m1,
    match get seq (incoming_slices mm) with
    | Some slice_mgr => Ret slice_mgr
    | None => SliceManager.new (mm_epoch mm) seq seq_len
    end = Ret m0 /\
    SliceManager.recv_slice m0 (mm_epoch mm) seq first_index d = Ret m1 /\
    entry_wf (mm_epoch mm) seq m1 /\ 1 <= len (SliceManager.sm_data m1).
Proof.
  intros Hwf (Hseq & Hf & Hsl & Hd & Hu1 & Hu2).
  assert (exists m0, match get seq (incoming_slices mm) with
    | Some slice_mgr => Ret slice_mgr
    | None => SliceManager.new (mm_epoch mm) seq seq_len
    end = Ret m0 /\ entry_wf (mm_epoch mm) seq m0 /\ 1 <= len (SliceManager.sm_data m0))
    as (m0 & Hm0 & Hwf0 & Hl0).
  { destruct (get seq (incoming_slices mm)) as [m0|] eqn:E.
    - exists m0. split; [done|]. by apply (in_entries _ Hwf).
    - destruct (new_entry (mm_epoch mm) seq seq_len) as (m0 & -> & H0 & Hl); [done..|].
      exists m0. rewrite Hl. split_and!; try done; lia. }
  destruct Hwf0 as [Hs0 He0 Hq0 _].
  destruct (recv_slice_spec m0 (mm_epoch mm) seq first_index d)
    as (m1 & Hm1 & Hwf1 & He1 & Hq1 & Hl1 & _); [done..|lia|].
  exists m0, m1. split_and!; [done|done| |lia]. constructor; congruence || done.
Qed.

(** Receiving any slice, in any order, within the stated bounds never panics
    and keeps the invariant; the acknowledgement position never moves back. *)
Lemma recv_safe mm seq first_index seq_len d :
  mm_wf mm -> packet_bounds seq first_index seq_len d ->
  exists b mm', recv mm seq first_index seq_len d = Ret (b, mm') /\ mm_wf mm' /\
    fst (last_ack mm) <= fst (last_ack mm') /\ outgoing_slices mm' = outgoing_slices mm /\
    next_seq mm' = next_seq mm /\ mm_epoch mm' = mm_epoch mm.
Proof.
  intros Hwf Hp. unfold recv, recv_in_range. pose proof Hp as (Hseq & Hf & Hsl & Hd & Hu1 & Hu2).
  destruct (Z.ltb_spec seq (fst (last_ack mm))) as [Hlt|Hge].
  { eexists _, _. split; [done|]. split_and!; done || lia. }
  destruct (recv_entry mm seq first_index seq_len d Hwf Hp) as (m0 & m1 & H0 & H1 & Hm1 & Hl1).
  assert (forall ack, is_u64 (fst ack) -> is_u64 (snd ack) ->
    (forall s m, get s (insert seq m1 (incoming_slices mm)) = Some m -> s < fst ack ->
      SliceManager.is_full m = Ret true) ->
    mm_wf (set_last_ack (set_incoming mm (insert seq m1 (incoming_slices mm))) ack)) as Hset.
  { intros ack Ha1 Ha2 Hfull. destruct Hwf. constructor; simpl; try done.
    - by apply sorted_insert.
    - intros s m Hg. pose proof (set_incoming_get mm seq m1 s) as Hg'. simpl in Hg'.
      rewrite Hg' in Hg. destruct (Z.eqb_spec s seq) as [->|]; [by injection Hg as <-|].
      by apply in_entries0. }
  assert (forall s m, get s (insert seq m1 (incoming_slices mm)) = Some m ->
    s < fst (last_ack mm) -> SliceManager.is_full m = Ret true) as Hold.
  { intros s m Hg Hs. rewrite get_insert_ne in Hg by lia. by eapply in_full. }
  destruct (Z.ltb_spec (fst (last_ack mm)) seq) as [Hgt|Hle].
  - rewrite bind_Ret. simpl negb. cbv match. rewrite H0, bind_Ret, H1, bind_Ret. simpl.
    rewrite (proj2 (Z.ltb_lt _ _)) by done. eexists _, _. split; [done|].
    split; [|split_and!; done || simpl; lia].
    destruct (ack_range _ Hwf). by apply (Hset (last_ack mm)).
  - assert (seq = fst (last_ack mm)) as Heq by lia. u64_steps.
    destruct (snd (last_ack mm) <? first_index + seq_len); simpl negb; cbv match.
    2:{ eexists _, _. split; [done|]. split_and!; done || lia. }
    rewrite H0, bind_Ret, H1, bind_Ret. simpl. rewrite (proj2 (Z.ltb_ge _ _)) by done.
    assert (bt_sorted (insert seq m1 (incoming_slices mm))) as Hsort by apply sorted_insert, Hwf.
    destruct (ack_range _ Hwf).
    destruct (ack_loop_spec (mm_epoch mm) (range_from seq (insert seq m1 (incoming_slices mm)))
      (last_ack mm) false) as (ch & ack & -> & Hle' & Ha1 & Ha2 & Hfull); [| |done|done|].
    { by apply sorted_range_from. }
    { intros s m Hin. apply elem_of_get in Hin; [|by apply sorted_range_from].
      rewrite get_range_from in Hin. case_decide; [|done].
      pose proof (set_incoming_get mm seq m1 s) as Hg'. simpl in Hg'. rewrite Hg' in Hin.
      destruct (Z.eqb_spec s seq) as [->|]; [by injection Hin as <-|]. by apply (in_entries _ Hwf). }
    rewrite bind_Ret. eexists _, _. split; [done|]. split; [|simpl; split_and!; done || lia].
    apply Hset; [done..|]. intros s m Hg Hs.
    destruct (decide (s < fst (last_ack mm))); [by eapply Hold|].
    apply (Hfull s m); [|lia]. apply elem_of_get; [by apply sorted_range_from|].
    rewrite get_range_from. by case_decide; [|lia].
Qed.

(** ** Releasing complete messages *)

Lemma data_full m : SliceManager.is_full m = Ret true ->
  SliceManager.data m = Ret (Some (SliceManager.sm_data m)).
Proof. unfold SliceManager.data. by intros ->. Qed.

Lemma take_loop_full l ret :
  Forall (fun kv => SliceManager.is_full kv.2 = Ret true) l ->
  take_loop l ret = Ret (ret ++ ((fun kv => SliceManager.sm_data kv.2) <$> l)).
Proof.
  intros H. revert ret. induction H as [|[seq m] l Hm Hl IH]; intros ret; simpl.
  - by rewrite app_nil_r.
  - simpl in Hm. rewrite data_full by done. simpl. rewrite IH, <- app_assoc. done.
Qed.

(** [take_recvd] never panics: it returns the data of exactly the messages
    before the acknowledgement position, in sequence order, and keeps the
    others. *)
Lemma take_recvd_spec mm :
  mm_wf mm ->
  let mm' := set_incoming mm (range_from (fst (last_ack mm)) (incoming_slices mm)) in
  take_recvd mm =
    Ret ((fun kv => SliceManager.sm_data kv.2) <$> range_to (fst (last_ack mm)) (incoming_slices mm),
         mm') /\ mm_wf mm'.
Proof.
  intros Hwf mm'. split.
  - unfold take_recvd. rewrite take_loop_full; [done|]. apply Forall_forall. intros [s m] Hin.
    apply elem_of_get in Hin; [|apply sorted_filter, Hwf].
    rewrite get_range_to in Hin. case_decide; [|done]. by eapply in_full.
  - destruct Hwf. constructor; simpl; try done.
    + by apply sorted_range_from.
    + intros s m. rewrite get_range_from. case_decide; [|done]. apply in_entries0.
    + intros s m. rewrite get_range_from. case_decide; [|done]. apply in_full0.
Qed.

Lemma u64_underflow : u64_sub 0 1 = if overflow_checks then Panic else Ret U64_MAX.
Proof. reflexivity. Qed.

Lemma recv_slice_no_room epoch seq first_index d :
  0 <= first_index -> 1 <= len d -> first_index + len d <= U64_MAX ->
  SliceManager.recv_slice (SliceManager.mk_slice_manager epoch seq [] []) epoch seq first_index d
    = Panic.
Proof.
  intros Hf Hd Hu. unfold SliceManager.recv_slice. cbn [SliceManager.sm_epoch SliceManager.sm_seq
    SliceManager.sm_data]. rewrite bool_decide_eq_true_2, Z.eqb_refl by done. cbn [negb orb].
  u64_steps. change (len (@nil byte)) with 0. rewrite u64_underflow.
  destruct overflow_checks; [done|]. rewrite bind_Ret.
  rewrite Z.min_l, (proj2 (Z.ltb_ge _ _)) by lia. u64_steps.
  change (SliceManager.add_slice _ _ _) with
    (Ret (SliceManager.mk_slice_manager epoch seq [] [(first_index, first_index + len d - 1)])).
  rewrite bind_Ret, index_incl_ok, bind_Ret by lia. unfold splice_incl. simpl SliceManager.sm_data.
  change (len (@nil byte)) with 0.
  rewrite (proj2 (Z.leb_gt (first_index + len d - 1 + 1) 0)) by lia. by rewrite andb_false_r.
Qed.

(** C39. A peer that announces a message of zero bytes after the one that is due
    (its number lies beyond the acknowledged one and nothing of it was received
    yet) makes [recv] panic on any bytes it brings at 64-bit indices, in both build profiles: the
    manager of such a message has no byte to index.  (For the message that is due,
    a zero-length slice at index 0 is not in range and is dropped.) *)
Theorem recv_zero_length_panics mm seq first_index d :
  get seq (incoming_slices mm) = None -> fst (last_ack mm) < seq ->
  0 <= first_index -> 1 <= len d -> first_index + len d <= U64_MAX ->
  recv mm seq first_index 0 d = Panic.
Proof.
  intros Hg Hs Hf Hd Hu. unfold recv, recv_in_range.
  rewrite (proj2 (Z.ltb_ge _ _)), (proj2 (Z.ltb_lt _ _)) by lia. rewrite bind_Ret.
  cbn [negb]. rewrite Hg. change (SliceManager.new (mm_epoch mm) seq 0)
    with (Ret (SliceManager.mk_slice_manager (mm_epoch mm) seq [] [])). rewrite bind_Ret.
  by rewrite recv_slice_no_room.
Qed.
End with_profile.
End MessageInvariant.
