(* ===== verification/Transfer.v ===== *)
(** * The receiving side of a transfer

    What the connected state does to its message manager when a slice arrives
    ([src/state/states/connected.rs], the [MsgSlice] case of [link_msg]), and the
    invariant it keeps: every incomplete entry holds a prefix of the message that
    was sent, and what was released is what was sent. *)

From S2P Require Import Prelude Bytes Errors Epochs Proto BTree Slices SliceTheory Segments.
From S2P Require Import Messages MessageTheory.

Module Transfer.
Import Epoch Protocol BTreeMap SliceSets Segments MessageManager MessageInvariant.

Section with_profile.
Context {P : BuildProfile} (epoch : Epoch).

(** The [MsgSlice] case: records the slice, computes the acknowledgement to
    send, and takes out the messages that became complete. *)
Definition on_slice (mm : MessageManager) (p : LinkProtocol)
    : outcome (option (Z * Z) * list bytes * MessageManager) :=
  match p with
  | MsgSlice e seq seq_len first_index data =>
      if e =? to_int epoch then
        '(should_ack, mm) ← recv mm seq first_index seq_len data;
        let ack := if (should_ack : bool) then Some (last_ack mm) else None in
        '(msgs, mm) ← take_recvd mm;
        Ret (ack, msgs, mm)
      else Ret (None, [], mm)
  | _ => Ret (None, [], mm)
  end.

(** ** The receiver *)

Definition head_len (m : SliceManager.SliceManager) : Z :=
  match SliceManager.last_head_index m with Some e => e + 1 | None => 0 end.

(** How many leading bytes of message [seq] the receiver has (all, when the
    message was already released). *)
Definition got (r : MessageManager) (seq : Z) : Z :=
  if seq <? fst (last_ack r) then U64_MOD
  else match get seq (incoming_slices r) with Some m => head_len m | None => 0 end.

(** The slice does not arrive ahead of the bytes before it. *)
Definition in_order (r : MessageManager) (p : LinkProtocol) : Prop :=
  match p with
  | MsgSlice _ seq _ first_index _ => first_index <= got r seq
  | _ => True
  end.

(** A packet that carries bytes of the messages [sent]. *)
Definition genuine (sent : list bytes) (p : LinkProtocol) : Prop :=
  match p with
  | MsgSlice e seq seq_len f x =>
      exists msg, e = to_int epoch /\ 0 <= seq /\ atZ sent seq = Some msg /\ seq_len = len msg /\
        x <> [] /\ 0 <= f /\ f + len x <= len msg /\ takeZ (len x) (dropZ f msg) = x
  | _ => False
  end.

(** The entry of message [seq] holds a prefix of what was sent. *)
Definition holds_prefix (sent : list bytes) (seq : Z) (m : SliceManager.SliceManager) : Prop :=
  exists msg k, atZ sent seq = Some msg /\ 1 <= len msg /\ received m msg k.

Record rcv_inv (sent : list bytes) (r : MessageManager) (delivered : list bytes) : Prop := {
  ri_wf : mm_wf r;
  ri_epoch : mm_epoch r = epoch;
  ri_sizes : Forall (fun msg : bytes => len msg <= ISIZE_MAX) sent;
  ri_count : len sent <= U64_MAX;
  ri_entries : forall seq m, get seq (incoming_slices r) = Some m ->
    fst (last_ack r) <= seq /\ holds_prefix sent seq m;
  ri_head : forall m, get (fst (last_ack r)) (incoming_slices r) = Some m ->
    SliceManager.is_full m = Ret false /\
    snd (last_ack r) = default 0 (SliceManager.last_head_index m);
  ri_offset : get (fst (last_ack r)) (incoming_slices r) = None -> snd (last_ack r) = 0;
  ri_delivered : delivered = takeZ (fst (last_ack r)) sent;
  ri_position : 0 <= fst (last_ack r) <= len sent;
  ri_nonempty : Forall (fun msg => msg <> []) delivered;
}.

Lemma rcv_inv_new sent :
  Forall (fun msg : bytes => len msg <= ISIZE_MAX) sent -> len sent <= U64_MAX ->
  rcv_inv sent (new epoch) [].
Proof.
  intros Hs Hn. constructor; simpl; try done.
  - apply new_wf.
  - pose proof (len_nonneg sent). lia.
Qed.

Lemma atZ_Some_lt {A} (l : list A) i x : 0 <= i -> atZ l i = Some x -> i < len l.
Proof. unfold atZ, len. intros Hi H%lookup_lt_Some. lia. Qed.

Lemma atZ_size sent seq msg :
  Forall (fun msg : bytes => len msg <= ISIZE_MAX) sent -> atZ sent seq = Some msg -> len msg <= ISIZE_MAX.
Proof. intros Hs H. rewrite Forall_lookup in Hs. by eapply Hs. Qed.

Lemma head_len_received m msg k : received m msg k -> head_len m = k.
Proof.
  intros H. unfold head_len. rewrite (last_head_index_received _ _ _ H).
  destruct H as (_ & Hk & _). destruct (Z.ltb_spec 0 k); lia.
Qed.

Lemma head_len_bound sent seq m :
  holds_prefix sent seq m -> Forall (fun msg : bytes => len msg <= ISIZE_MAX) sent ->
  0 <= head_len m <= ISIZE_MAX.
Proof.
  intros (msg & k & Hmsg & _ & Hrec) Hs. rewrite (head_len_received _ _ _ Hrec).
  destruct Hrec as (_ & Hk & _). pose proof (atZ_size _ _ _ Hs Hmsg). lia.
Qed.

Lemma full_data m msg k :
  received m msg k -> 1 <= len msg -> len msg <= ISIZE_MAX ->
  SliceManager.is_full m = Ret true -> SliceManager.sm_data m = msg.
Proof.
  intros Hr H1 Hn Hf. destruct (data_received _ _ _ Hr H1 Hn) as [Hfull Hd].
  rewrite Hf in Hfull. injection Hfull as Hk. rewrite <- Hk in Hd.
  rewrite data_full in Hd by done. by injection Hd.
Qed.

Lemma drop_cons_at {A} (l : list A) i x :
  0 <= i -> atZ l i = Some x -> dropZ i l = x :: dropZ (i + 1) l.
Proof.
  unfold atZ, dropZ. intros Hi H. rewrite (drop_S _ _ _ H). do 2 f_equal. lia.
Qed.

(** The acknowledgement loop passes exactly the complete messages that follow
    the position, and stops at the first incomplete one. *)
Lemma ack_loop_exact sent entries c off ch :
  bt_sorted entries -> 0 <= c ->
  Forall (fun msg : bytes => len msg <= ISIZE_MAX) sent -> len sent <= U64_MAX ->
  (forall seq m, (seq, m) ∈ entries -> c <= seq /\ entry_wf epoch seq m /\ holds_prefix sent seq m) ->
  exists full rest ch' off',
    entries = full ++ rest /\
    ack_loop entries (c, off) ch = Ret (ch', (c + len full, off')) /\
    (fun kv => SliceManager.sm_data kv.2) <$> full = takeZ (len full) (dropZ c sent) /\
    Forall (fun kv => kv.1 < c + len full /\ SliceManager.sm_data kv.2 <> []) full /\
    Forall (fun kv => c + len full <= kv.1) rest /\
    c + len full <= Z.max c (len sent) /\
    (forall m, get (c + len full) rest = Some m ->
      SliceManager.is_full m = Ret false /\ off' = default 0 (SliceManager.last_head_index m)) /\
    (get (c + len full) rest = None -> off' = if bool_decide (full = []) then off else 0).
Proof.
  intros Hsort Hc Hs Hn. revert c off ch Hsort Hc.
  induction entries as [|[seq m] entries IH]; intros c off ch Hsort Hc He.
  { exists [], [], ch, off. rewrite len_nil, Z.add_0_r. split_and!; try done. lia. }
  apply sorted_cons in Hsort as [Hlt Hsort].
  destruct (He seq m) as (Hcs & Hwf & msg & k & Hmsg & H1 & Hrec); [left|].
  simpl. destruct (Z.eqb_spec seq c) as [->|Hne]; simpl.
  2:{ exists [], ((seq, m) :: entries), ch, off. rewrite len_nil, Z.add_0_r.
      assert (get c ((seq, m) :: entries) = None) as Hnone.
      { apply get_None_lt. constructor; [simpl; lia|]. eapply Forall_impl; [done|]. simpl; intros; lia. }
      split_and!; try done; [|lia|by rewrite Hnone].
      constructor; [done|]. eapply Forall_impl; [done|]. simpl; intros; lia. }
  pose proof (atZ_size _ _ _ Hs Hmsg) as Hsz. pose proof (atZ_Some_lt _ _ _ Hc Hmsg) as Hcl.
  destruct (is_full_returns m) as [[|] Hf]; [apply Hwf| |rewrite Hf, bind_Ret..].
  { destruct Hrec as [-> _]. done. }
  - u64_steps.
    destruct (IH (c + 1) 0 true Hsort) as (full & rest & ch' & off' & -> & Heq & Hdata & Hf1 & Hr1 & Hb & Hg & Hg0);
      [lia| |].
    { intros s x Hx. destruct (He s x) as (? & ? & ?); [by right|]. split_and!; try done.
      rewrite Forall_forall in Hlt. apply Hlt in Hx. simpl in Hx. lia. }
    exists ((c, m) :: full), rest, ch', off'. rewrite Heq. rewrite len_cons.
    replace (c + (1 + len full)) with (c + 1 + len full) by lia. pose proof (len_nonneg full).
    split_and!; try done; try lia.
    + rewrite fmap_cons. simpl. rewrite Hdata, (full_data _ _ _ Hrec) by done.
      rewrite (drop_cons_at _ _ _ Hc Hmsg). unfold takeZ.
      by replace (Z.to_nat (1 + len full)) with (S (Z.to_nat (len full))) by lia.
    + constructor; [simpl; split; [lia|]|done]. rewrite (full_data _ _ _ Hrec) by done.
      by apply len_pos.
    + intros Hnone. rewrite Hg0 by done. by destruct full.
  - set (off' := default 0 (SliceManager.last_head_index m)).
    exists [], ((c, m) :: entries), (ch || bool_decide ((c, off) = (c, off'))), off'.
    rewrite len_nil, Z.add_0_r.
    split_and!; try done; [|lia| |].
    + constructor; [simpl; lia|]. eapply Forall_impl; [done|]. simpl; intros; lia.
    + simpl. rewrite Z.eqb_refl. by intros x [= <-].
    + simpl. by rewrite Z.eqb_refl.
Qed.

Lemma genuine_bounds sent seq n f x :
  genuine sent (MsgSlice (to_int epoch) seq n f x) ->
  Forall (fun msg : bytes => len msg <= ISIZE_MAX) sent -> len sent <= U64_MAX ->
  packet_bounds seq f n x.
Proof.
  intros (msg & _ & H0 & Hmsg & -> & Hx & Hf & Hfx & _) Hs Hn.
  pose proof (atZ_size _ _ _ Hs Hmsg). pose proof (atZ_Some_lt _ _ _ H0 Hmsg).
  pose proof (proj1 (len_pos x) Hx).
  unfold packet_bounds. lia.
Qed.

(** Recording a genuine slice that is in order extends the received prefix. *)
Lemma record_in_order sent r delivered seq n f x :
  rcv_inv sent r delivered -> genuine sent (MsgSlice (to_int epoch) seq n f x) ->
  fst (last_ack r) <= seq -> f <= got r seq ->
  exists m0 m1,
    match get seq (incoming_slices r) with
    | Some slice_mgr => Ret slice_mgr
    | None => SliceManager.new (mm_epoch r) seq n
    end = Ret m0 /\
    SliceManager.recv_slice m0 (mm_epoch r) seq f x = Ret m1 /\
    holds_prefix sent seq m1 /\ Z.max (got r seq) (f + len x) <= head_len m1.
Proof.
  intros Hr (msg & _ & H0 & Hmsg & -> & Hx & Hf & Hfx & Hgen) Hc Hgot.
  pose proof (atZ_size _ _ _ (ri_sizes _ _ _ Hr) Hmsg) as Hsz.
  assert (1 <= len msg) as H1 by (apply len_pos in Hx; lia).
  unfold got in *. rewrite (proj2 (Z.ltb_ge _ _)) in * by lia.
  assert (exists m0, match get seq (incoming_slices r) with
    | Some slice_mgr => Ret slice_mgr
    | None => SliceManager.new (mm_epoch r) seq (len msg)
    end = Ret m0 /\ SliceManager.sm_epoch m0 = mm_epoch r /\ SliceManager.sm_seq m0 = seq /\
    received m0 msg match get seq (incoming_slices r) with Some m => head_len m | None => 0 end)
    as (m0 & Hm0 & He & Hq & Hrec).
  { destruct (get seq (incoming_slices r)) as [m0|] eqn:E.
    - exists m0. destruct (in_entries _ (ri_wf _ _ _ Hr) _ _ E) as [[_ ? ? _] _].
      destruct (ri_entries _ _ _ Hr _ _ E) as (_ & msg' & k & Hmsg' & _ & Hrec). simplify_eq.
      by rewrite (head_len_received _ _ _ Hrec).
    - destruct (new_received (mm_epoch r) seq msg Hsz) as (m0 & ? & ? & ? & ?). by exists m0. }
  set (k := match get seq _ with Some m => head_len m | None => 0 end) in *.
  destruct (recv_slice_in_order m0 msg k f x) as (m1 & Hm1 & Hrec1 & _); try done.
  rewrite He, Hq in Hm1. exists m0, m1. split_and!; [done|done| |].
  - by exists msg, (Z.max k (f + len x)).
  - rewrite (head_len_received _ _ _ Hrec1). lia.
Qed.

Lemma set_incoming_id r : set_incoming r (incoming_slices r) = r.
Proof. by destruct r. Qed.

(** The entries of the receiver all lie at or after its position. *)
Lemma entries_from sent r delivered :
  rcv_inv sent r delivered -> Forall (fun kv => fst (last_ack r) <= kv.1) (incoming_slices r).
Proof.
  intros Hr. apply Forall_forall. intros [s m] Hin.
  apply elem_of_get in Hin; [|apply Hr]. by apply (ri_entries _ _ _ Hr) in Hin as [? _].
Qed.

(** The result of a receiving step: the invariant again, nothing received is
    lost, the first [reach] bytes of message [seq] are there, and an
    acknowledgement, if any, is the new position. *)
Definition good_step (sent : list bytes) (r : MessageManager) (delivered : list bytes)
    (seq reach : Z) (res : outcome (option (Z * Z) * list bytes * MessageManager)) : Prop :=
  exists ack msgs r', res = Ret (ack, msgs, r') /\ rcv_inv sent r' (delivered ++ msgs) /\
    fst (last_ack r) <= fst (last_ack r') /\ (forall s, got r s <= got r' s) /\
    reach <= got r' seq /\ (forall a, ack = Some a -> a = last_ack r').

(** A slice of a message that was already released changes nothing and is
    acknowledged again. *)
Lemma on_slice_old_eq sent r delivered seq n f x :
  rcv_inv sent r delivered -> seq < fst (last_ack r) ->
  on_slice r (MsgSlice (to_int epoch) seq n f x) = Ret (Some (last_ack r), [], r).
Proof.
  intros Hr Hlt. unfold on_slice, recv, recv_in_range.
  rewrite Z.eqb_refl, (proj2 (Z.ltb_lt _ _)), !bind_Ret by done. cbn [negb]. rewrite bind_Ret.
  destruct (take_recvd_spec r (ri_wf _ _ _ Hr)) as [-> _]. rewrite bind_Ret.
  pose proof (entries_from _ _ _ Hr) as Hall.
  by rewrite range_to_none, range_from_all, set_incoming_id.
Qed.

Lemma on_slice_old sent r delivered seq n f x :
  rcv_inv sent r delivered -> genuine sent (MsgSlice (to_int epoch) seq n f x) ->
  seq < fst (last_ack r) ->
  good_step sent r delivered seq (f + len x) (on_slice r (MsgSlice (to_int epoch) seq n f x)).
Proof.
  intros Hr Hg Hlt.
  assert (packet_bounds seq f n x) as Hb by (eapply genuine_bounds; [done|apply Hr..]).
  rewrite (on_slice_old_eq _ _ _ _ _ _ _ Hr Hlt).
  eexists _, [], r. split; [done|]. rewrite app_nil_r.
  split_and!; [done|lia|done| |by intros a [= <-]].
  unfold got, packet_bounds in *. rewrite (proj2 (Z.ltb_lt _ _)) by done. lia.
Qed.

Lemma recv_ahead_eq r seq f n x m0 m1 :
  fst (last_ack r) < seq ->
  match get seq (incoming_slices r) with
  | Some slice_mgr => Ret slice_mgr
  | None => SliceManager.new (mm_epoch r) seq n
  end = Ret m0 ->
  SliceManager.recv_slice m0 (mm_epoch r) seq f x = Ret m1 ->
  recv r seq f n x = Ret (false, set_incoming r (insert seq m1 (incoming_slices r))).
Proof.
  intros Hlt H0 H1. unfold recv, recv_in_range.
  rewrite (proj2 (Z.ltb_ge _ _)), (proj2 (Z.ltb_lt _ _)) by lia. rewrite bind_Ret.
  cbn [negb]. rewrite H0, bind_Ret, H1, bind_Ret. cbn [last_ack set_incoming].
  by rewrite (proj2 (Z.ltb_lt _ _)).
Qed.

Lemma recv_head_eq r f n x m0 m1 :
  let c := fst (last_ack r) in
  0 <= f + n <= U64_MAX -> snd (last_ack r) < f + n ->
  match get c (incoming_slices r) with
  | Some slice_mgr => Ret slice_mgr
  | None => SliceManager.new (mm_epoch r) c n
  end = Ret m0 ->
  SliceManager.recv_slice m0 (mm_epoch r) c f x = Ret m1 ->
  recv r c f n x =
    ('(did_change, ack) ← ack_loop (range_from c (insert c m1 (incoming_slices r))) (last_ack r) false;
     Ret (did_change, set_last_ack (set_incoming r (insert c m1 (incoming_slices r))) ack)).
Proof.
  intros c Hu Hoff H0 H1. unfold recv, recv_in_range.
  fold c. rewrite Z.ltb_irrefl. u64_steps. rewrite (proj2 (Z.ltb_lt _ _)) by done.
  cbn [negb]. rewrite H0, bind_Ret, H1, bind_Ret. cbn [last_ack set_incoming incoming_slices].
  fold c. by rewrite Z.ltb_irrefl.
Qed.

(** Once the slice is recorded, all entries still hold prefixes. *)
Lemma recorded_entries sent r delivered seq m1 :
  rcv_inv sent r delivered -> fst (last_ack r) <= seq -> holds_prefix sent seq m1 ->
  forall s m, get s (insert seq m1 (incoming_slices r)) = Some m ->
    fst (last_ack r) <= s /\ holds_prefix sent s m.
Proof.
  intros Hr Hc Hm s m. destruct (decide (s = seq)) as [->|Hne].
  - rewrite get_insert_eq. by intros [= <-].
  - rewrite get_insert_ne by done. apply Hr.
Qed.

Lemma on_slice_ahead sent r delivered seq n f x :
  rcv_inv sent r delivered -> genuine sent (MsgSlice (to_int epoch) seq n f x) ->
  f <= got r seq -> fst (last_ack r) < seq ->
  good_step sent r delivered seq (f + len x) (on_slice r (MsgSlice (to_int epoch) seq n f x)).
Proof.
  intros Hr Hg Hf Hlt.
  destruct (record_in_order _ _ _ _ _ _ _ Hr Hg) as (m0 & m1 & H0 & H1 & Hp & Hgot); [lia|done|].
  pose proof (recv_ahead_eq r seq f n x m0 m1 Hlt H0 H1) as Heq.
  destruct (recv_safe r seq f n x (ri_wf _ _ _ Hr)) as (b & r1 & Heq1 & Hwf1 & _).
  { eapply genuine_bounds; [done|apply Hr..]. }
  rewrite Heq in Heq1. injection Heq1 as <- <-.
  pose proof (recorded_entries _ _ _ seq m1 Hr ltac:(lia) Hp) as Hent.
  set (r1 := set_incoming r _) in *.
  destruct (take_recvd_spec r1 Hwf1) as [Htake _].
  assert (Forall (fun kv => fst (last_ack r1) <= kv.1) (incoming_slices r1)) as Hall.
  { apply Forall_forall. intros [s m] Hin. apply elem_of_get in Hin; [|apply Hwf1].
    by apply Hent in Hin as [? _]. }
  rewrite range_to_none, range_from_all, set_incoming_id in Htake by done.
  unfold on_slice. rewrite Z.eqb_refl, Heq, bind_Ret. fold r1. rewrite Htake, bind_Ret.
  assert (get (fst (last_ack r)) (incoming_slices r1) = get (fst (last_ack r)) (incoming_slices r))
    as Hhead by (apply get_insert_ne; lia).
  eexists _, [], r1. split; [done|]. rewrite app_nil_r. assert (got r1 seq = head_len m1) as Hgot1.
  { unfold got. simpl. by rewrite (proj2 (Z.ltb_ge _ _)), get_insert_eq by lia. }
  split_and!; [|done| |lia|done].
  - destruct Hr. constructor; try done; simpl fst in *; by rewrite Hhead.
  - intros s. destruct (decide (s = seq)) as [->|Hne]; [lia|].
    unfold got. simpl. by rewrite get_insert_ne by done.
Qed.

Lemma got_bound sent r delivered seq : rcv_inv sent r delivered -> 0 <= got r seq <= U64_MOD.
Proof.
  intros Hr. unfold got. destruct (seq <? _); [lia|].
  destruct (get seq (incoming_slices r)) as [m|] eqn:E; [|lia].
  destruct (ri_entries _ _ _ Hr _ _ E) as [_ Hp].
  pose proof (head_len_bound _ _ _ Hp (ri_sizes _ _ _ Hr)). lia.
Qed.

(** The offset acknowledged so far lies before the end of the head message. *)
Lemma offset_in_head sent r delivered msg :
  rcv_inv sent r delivered -> atZ sent (fst (last_ack r)) = Some msg -> 1 <= len msg ->
  0 <= snd (last_ack r) < len msg.
Proof.
  intros Hr Hmsg H1. destruct (get (fst (last_ack r)) (incoming_slices r)) as [m|] eqn:E.
  - destruct (ri_head _ _ _ Hr _ E) as [_ ->].
    destruct (ri_entries _ _ _ Hr _ _ E) as (_ & msg' & k & Hmsg' & _ & Hrec). simplify_eq.
    rewrite (last_head_index_received _ _ _ Hrec). destruct Hrec as (_ & Hk & _).
    destruct (Z.ltb_spec 0 k); simpl; lia.
  - rewrite (ri_offset _ _ _ Hr E). lia.
Qed.

(** The receiver after the messages [full] were released. *)
Lemma release_inv sent r delivered m1 full rest off' :
  let c := fst (last_ack r) in
  rcv_inv sent r delivered -> holds_prefix sent c m1 -> got r c <= head_len m1 <= U64_MOD ->
  insert c m1 (incoming_slices r) = full ++ rest ->
  mm_wf (set_incoming (set_last_ack r (c + len full, off')) rest) ->
  (fun kv => SliceManager.sm_data kv.2) <$> full = takeZ (len full) (dropZ c sent) ->
  Forall (fun kv => kv.1 < c + len full /\ SliceManager.sm_data kv.2 <> []) full ->
  Forall (fun kv => c + len full <= kv.1) rest ->
  c + len full <= Z.max c (len sent) ->
  (forall m, get (c + len full) rest = Some m ->
    SliceManager.is_full m = Ret false /\ off' = default 0 (SliceManager.last_head_index m)) ->
  (get (c + len full) rest = None ->
    off' = if bool_decide (full = []) then snd (last_ack r) else 0) ->
  let r' := set_incoming (set_last_ack r (c + len full, off')) rest in
  rcv_inv sent r' (delivered ++ ((fun kv => SliceManager.sm_data kv.2) <$> full)) /\
  (forall seq, got r seq <= got r' seq) /\ head_len m1 <= got r' c.
Proof.
  intros c Hr Hp Hgot Hinc Hwf Hdata Hfull Hrest Hmax Hhead Hoff r'.
  apply Forall_and in Hfull as [Hf Hne].
  pose proof (len_nonneg full) as Hl0. pose proof (ri_position _ _ _ Hr) as Hpos. fold c in Hpos.
  assert (forall s, c + len full <= s -> get s rest = get s (insert c m1 (incoming_slices r))) as Hget.
  { intros s Hs. rewrite Hinc, <- (range_from_app (c + len full) full rest) at 1 by done.
    rewrite get_range_from. by case_decide. }
  split_and!.
  - constructor; simpl; try apply Hr; try done.
    + intros s m Hs. assert (c + len full <= s) as Hcs.
      { apply elem_of_get in Hs; [|apply Hwf]. rewrite Forall_forall in Hrest. by apply Hrest in Hs. }
      split; [done|]. rewrite Hget in Hs by done.
      by eapply (recorded_entries _ _ _ c m1 Hr (Z.le_refl _) Hp).
    + intros Hnone. rewrite Hoff by done. case_bool_decide as Hfull; [|done]. subst full.
      rewrite Hget in Hnone by lia. change (len []) with 0 in Hnone.
      by rewrite Z.add_0_r, get_insert_eq in Hnone.
    + rewrite Hdata, (ri_delivered _ _ _ Hr). fold c.
      rewrite (takeZ_split c (c + len full)) by lia. do 2 f_equal. lia.
    + lia.
    + apply Forall_app. split; [apply Hr|]. by apply Forall_fmap.
  - intros s. unfold got at 2. simpl. pose proof (got_bound _ _ _ s Hr).
    destruct (Z.ltb_spec s (c + len full)) as [Hs|Hs]; [lia|]. rewrite Hget by done.
    destruct (decide (s = c)) as [->|Hsc].
    + rewrite get_insert_eq. lia.
    + rewrite get_insert_ne by done. unfold got. by rewrite (proj2 (Z.ltb_ge _ _)) by lia.
  - unfold got. simpl. destruct (Z.ltb_spec c (c + len full)); [lia|].
    by rewrite Hget, get_insert_eq by lia.
Qed.

Lemma on_slice_head sent r delivered n f x :
  rcv_inv sent r delivered ->
  genuine sent (MsgSlice (to_int epoch) (fst (last_ack r)) n f x) ->
  f <= got r (fst (last_ack r)) ->
  good_step sent r delivered (fst (last_ack r)) (f + len x) (on_slice r (MsgSlice (to_int epoch) (fst (last_ack r)) n f x)).
Proof.
  intros Hr Hg Hf. set (c := fst (last_ack r)) in *.
  destruct (record_in_order _ _ _ _ _ _ _ Hr Hg) as (m0 & m1 & H0 & H1 & Hp & Hgot); [done..|].
  assert (packet_bounds c f n x) as Hb by (eapply genuine_bounds; [done|apply Hr..]).
  assert (snd (last_ack r) < f + n) as Hoffn.
  { destruct Hg as (msg & _ & _ & Hmsg & -> & _). destruct Hb as (_ & ? & ? & _).
    pose proof (offset_in_head _ _ _ msg Hr Hmsg). lia. }
  pose proof (recv_head_eq r f n x m0 m1) as Heq. cbv zeta in Heq. fold c in Heq.
  specialize (Heq ltac:(unfold packet_bounds in Hb; lia) Hoffn H0 H1).
  pose proof (recorded_entries _ _ _ c m1 Hr (Z.le_refl _) Hp) as Hent. fold c in Hent.
  destruct (recv_entry r c f n x (ri_wf _ _ _ Hr) Hb) as (m0' & m1' & H0' & H1' & Hm1 & _).
  assert (m1' = m1) as -> by congruence. clear m0' H0' H1'.
  assert (bt_sorted (insert c m1 (incoming_slices r))) as Hsort by apply sorted_insert, Hr.
  assert (Forall (fun kv => c <= kv.1) (insert c m1 (incoming_slices r))) as Hall.
  { apply Forall_forall. intros [s m] Hin. apply elem_of_get in Hin; [|done].
    by apply Hent in Hin as [? _]. }
  rewrite range_from_all in Heq by done.
  destruct (ack_loop_exact sent (insert c m1 (incoming_slices r)) c (snd (last_ack r)) false)
    as (full & rest & ch & off' & Hinc & Hloop & Hdata & Hf1 & Hr1 & Hmax & Hhead & Hoff);
    [done| |apply Hr|apply Hr| |].
  { apply Hr. }
  { intros s m Hin. apply elem_of_get in Hin; [|done]. destruct (Hent _ _ Hin). split_and!; [done| |done].
    rewrite <- (ri_epoch _ _ _ Hr). destruct (decide (s = c)) as [->|Hne].
    - rewrite get_insert_eq in Hin. by injection Hin as <-.
    - rewrite get_insert_ne in Hin by done. by apply (in_entries _ (ri_wf _ _ _ Hr)). }
  replace (c, snd (last_ack r)) with (last_ack r) in Hloop by (by destruct (last_ack r)).
  rewrite Hloop, bind_Ret in Heq.
  destruct (recv_safe r c f n x (ri_wf _ _ _ Hr) Hb) as (b & r1 & Heq1 & Hwf1 & _).
  rewrite Heq in Heq1. injection Heq1 as <- <-.
  destruct (take_recvd_spec _ Hwf1) as [Htake Hwf']. simpl in Htake, Hwf'. rewrite Hinc in Htake, Hwf'.
  pose proof Hf1 as [Hlow _]%Forall_and.
  rewrite range_to_app, range_from_app in Htake by done. rewrite range_from_app in Hwf' by done.
  pose proof (head_len_bound _ _ _ Hp (ri_sizes _ _ _ Hr)) as Hbound.
  unfold on_slice. rewrite Z.eqb_refl, Heq, bind_Ret, Hinc.
  unfold set_last_ack, set_incoming in Htake. cbn in Htake. unfold set_last_ack, set_incoming at 1. cbn.
  rewrite Htake, bind_Ret. eexists _, _, _. split; [done|].
  destruct (release_inv sent r delivered m1 full rest off') as (Hinv & Hmono & Hreach); try done; [by fold c; lia|].
  split_and!; [exact Hinv| |exact Hmono| |].
  - cbn. pose proof (len_nonneg full). lia.
  - etrans; [|exact Hreach]. lia.
  - intros a. by destruct ch; intros [= <-].
Qed.

(** The message a slice belongs to, and how far it reaches into it. *)
Definition slice_seq (p : LinkProtocol) : Z :=
  match p with MsgSlice _ seq _ _ _ => seq | _ => 0 end.

Definition slice_reach (p : LinkProtocol) : Z :=
  match p with MsgSlice _ _ _ f x => f + len x | _ => 0 end.

Lemma on_slice_inv sent r delivered p :
  rcv_inv sent r delivered -> genuine sent p -> in_order r p ->
  good_step sent r delivered (slice_seq p) (slice_reach p) (on_slice r p).
Proof.
  intros Hr Hg Ho. destruct p as [| |e seq n f x| |]; try done.
  pose proof Hg as (msg & -> & _). simpl in *.
  destruct (Z.lt_trichotomy seq (fst (last_ack r))) as [?|[->|?]].
  - by apply on_slice_old.
  - by apply on_slice_head.
  - by apply on_slice_ahead.
Qed.
End with_profile.
End Transfer.
