(* ===== verification/Network.v ===== *)
(** * The sender, the receiver and an unreliable network

    The step relation of a one-directional transfer inside one epoch: the
    application sends messages, messages are retransmitted, the network delivers
    any packet ever sent (so it drops, duplicates and reorders), and
    acknowledgements travel back the same way.  What recovers from losses is
    [tick], the retransmission by the timer of the connected state.

    A slice is delivered only when it does not start beyond the bytes the
    receiver has of its message ([Transfer.in_order]).  [Findings] shows why: a
    slice ahead of a gap makes the gap count as received. *)

From S2P Require Import Prelude Bytes Errors Epochs Proto BTree Slices SliceTheory Segments.
From S2P Require Import Messages MessageTheory Transfer.

Module Network.
Import Epoch Protocol BTreeMap SliceSets Segments MessageManager MessageInvariant Transfer.

Record System : Type := mk_system {
  sender : MessageManager;
  receiver : MessageManager;
  (** every message handed to the sender, in order *)
  sent : list bytes;
  (** every message the receiver released, in order *)
  delivered : list bytes;
  (** every slice that was put on a link *)
  net : list LinkProtocol;
  (** every acknowledgement that was put on a link *)
  acks : list (Z * Z);
}.

Section with_profile.
Context {P : BuildProfile} (epoch : Epoch).

Definition init : System := mk_system (new epoch) (new epoch) [] [] [] [].

(** A link may fail between two slices of a message, so any number [k] of the
    slices reaches the network.  The relation allows any kept message to be resent
    at any time, which is more than the program does: what holds in all of its
    reachable states holds in those of the program.  Progress is stated for
    [tick], which resends what the program resends. *)
Inductive step : System -> System -> Prop :=
  | step_send s msg size k seq mm m ps :
      len msg <= ISIZE_MAX -> 1 <= size <= U32_MAX -> next_seq (sender s) < U64_MAX ->
      insert_msg (sender s) msg = Ret (seq, mm) ->
      get_outgoing_slice mm seq = Some m ->
      SliceManager.get_slices m size = Ret ps ->
      step s (mk_system mm (receiver s) (sent s ++ [msg]) (delivered s) (net s ++ take k ps) (acks s))
  | step_resend s size k m ps :
      m ∈ get_outgoing_slices (sender s) -> 1 <= size <= U32_MAX ->
      SliceManager.get_slices m size = Ret ps ->
      step s (mk_system (sender s) (receiver s) (sent s) (delivered s) (net s ++ take k ps) (acks s))
  | step_deliver s p ack msgs mm :
      p ∈ net s -> in_order (receiver s) p ->
      on_slice epoch (receiver s) p = Ret (ack, msgs, mm) ->
      step s (mk_system (sender s) mm (sent s) (delivered s ++ msgs) (net s)
                (acks s ++ option_list ack))
  | step_ack s a mm :
      a ∈ acks s -> recv_ack (sender s) a = Ret mm ->
      step s (mk_system mm (receiver s) (sent s) (delivered s) (net s) (acks s)).

Inductive reachable : System -> Prop :=
  | reach_init : reachable init
  | reach_step s s' : reachable s -> step s s' -> reachable s'.

(** ** The invariant *)

(** What the sender keeps of message [seq] includes every byte that the
    receiver does not have. *)
Definition keeps_missing (s : System) : Prop :=
  forall seq m, get_outgoing_slice (sender s) seq = Some m ->
    atZ (sent s) seq = Some (SliceManager.sm_data m) /\
    exists a, pending m a /\ a <= got (receiver s) seq.

(** Every nonempty message that was not released is still kept. *)
Definition keeps_unreleased (s : System) : Prop :=
  forall seq msg, fst (last_ack (receiver s)) <= seq -> atZ (sent s) seq = Some msg -> msg <> [] ->
    is_Some (get_outgoing_slice (sender s) seq).

(** A nonempty message is kept only while some of it is not acknowledged. *)
Definition keeps_pending (s : System) : Prop :=
  forall seq m, get_outgoing_slice (sender s) seq = Some m -> SliceManager.sm_data m <> [] ->
    SliceManager.is_empty m = false.

(** An acknowledgement on the network never claims more than was received. *)
Definition ack_true (r : MessageManager) (a : Z * Z) : Prop :=
  0 <= snd a /\ 0 <= fst a <= fst (last_ack r) /\
  (fst a = fst (last_ack r) -> snd a = 0 \/ snd a + 1 <= got r (fst a)).

Record inv (s : System) : Prop := {
  inv_sender : mm_wf (sender s);
  inv_epoch : mm_epoch (sender s) = epoch;
  inv_next : next_seq (sender s) = len (sent s);
  inv_receiver : rcv_inv epoch (sent s) (receiver s) (delivered s);
  inv_missing : keeps_missing s;
  inv_unreleased : keeps_unreleased s;
  inv_pending : keeps_pending s;
  inv_net : Forall (genuine epoch (sent s)) (net s);
  inv_acks : Forall (ack_true (receiver s)) (acks s);
}.

Lemma init_inv : inv init.
Proof.
  constructor; simpl; try done.
  - apply new_wf.
  - by apply rcv_inv_new.
Qed.

(** ** Growing the list of sent messages *)

Lemma atZ_snoc_old {A} (l : list A) x i y : atZ l i = Some y -> atZ (l ++ [x]) i = Some y.
Proof. unfold atZ. intros H. by apply lookup_app_l_Some. Qed.

Lemma atZ_snoc_inv {A} (l : list A) x i y :
  0 <= i -> atZ (l ++ [x]) i = Some y -> i = len l /\ y = x \/ i < len l /\ atZ l i = Some y.
Proof.
  unfold atZ, len. intros Hi H. destruct (decide (Z.to_nat i < length l)%nat).
  - rewrite lookup_app_l in H by done. right. split; [lia|done].
  - rewrite lookup_app_r in H by lia. apply list_lookup_singleton_Some in H as [? ->]. left. split; [lia|done].
Qed.

Lemma atZ_snoc_new {A} (l : list A) x : atZ (l ++ [x]) (len l) = Some x.
Proof. unfold atZ, len. rewrite Nat2Z.id. by apply list_lookup_middle. Qed.

Lemma genuine_snoc sent msg p : genuine epoch sent p -> genuine epoch (sent ++ [msg]) p.
Proof.
  destruct p; try done. intros (m & ? & ? & H & ?). exists m. split_and!; try tauto.
  by apply atZ_snoc_old.
Qed.

Lemma holds_prefix_snoc sent msg seq m :
  holds_prefix sent seq m -> holds_prefix (sent ++ [msg]) seq m.
Proof. intros (x & k & H & ?). exists x, k. split; [by apply atZ_snoc_old|done]. Qed.

Lemma rcv_inv_snoc sent r delivered msg :
  rcv_inv epoch sent r delivered -> len msg <= ISIZE_MAX -> len sent < U64_MAX ->
  rcv_inv epoch (sent ++ [msg]) r delivered.
Proof.
  intros [] Hm Hn. constructor; try done.
  - apply Forall_app. split; [done|]. by constructor.
  - rewrite len_app. change (len [msg]) with 1. lia.
  - intros seq m [? ?]%ri_entries0. split; [done|]. by apply holds_prefix_snoc.
  - rewrite ri_delivered0. unfold takeZ, len in *. rewrite take_app_le by lia. done.
  - rewrite len_app. change (len [msg]) with 1. lia.
Qed.

(** The packets cut from a kept message are genuine. *)
Lemma contiguous_genuine sent msg seq a ps d :
  0 <= seq -> atZ sent seq = Some msg -> 0 <= a <= len msg -> d = dropZ a msg ->
  contiguous (to_int epoch) seq (len msg) a ps d -> Forall (genuine epoch sent) ps.
Proof.
  intros H0 Hmsg. revert a d. induction ps as [|p ps IH]; intros a d Ha Hd Hc; [done|].
  destruct p as [| |e s n f x| |]; try done. destruct Hc as (-> & -> & -> & -> & Hx & d' & Hdx & Hc).
  rewrite Hdx in Hd. assert (len x + len d' = len msg - a) as Hl.
  { rewrite <- len_app, Hd. by apply len_dropZ. }
  pose proof (len_nonneg d'). pose proof (len_nonneg x). constructor.
  - exists msg. split_and!; try done; [lia|lia|].
    rewrite <- Hd. unfold takeZ, len. by rewrite Nat2Z.id, take_app_length.
  - eapply (IH (a + len x)); [lia| |exact Hc].
    rewrite <- dropZ_dropZ, <- Hd by lia. unfold dropZ, len. by rewrite Nat2Z.id, drop_app_length.
Qed.

Lemma kept_genuine s seq m size ps k :
  inv s -> get_outgoing_slice (sender s) seq = Some m -> 1 <= size <= U32_MAX ->
  SliceManager.get_slices m size = Ret ps -> Forall (genuine epoch (sent s)) (take k ps).
Proof.
  intros Hinv Hm Hsz Hps. apply Forall_take.
  destruct (inv_missing _ Hinv _ _ Hm) as (Hmsg & a & Hpend & _).
  destruct (out_entries _ (inv_sender _ Hinv) _ _ Hm) as [Hwf _].
  destruct (get_slices_pending m a size Hpend) as (ps' & Hps' & Hc & _); [apply Hwf|done|].
  assert (ps' = ps) as -> by congruence.
  rewrite (entry_seq _ _ _ Hwf), (entry_epoch _ _ _ Hwf), (inv_epoch _ Hinv) in Hc.
  eapply contiguous_genuine; [apply Hwf|done|apply Hpend|done|done].
Qed.

(** ** The steps *)

Lemma sent_inv s mm msg seq :
  inv s -> len msg <= ISIZE_MAX -> next_seq (sender s) < U64_MAX ->
  insert_msg (sender s) msg = Ret (seq, mm) ->
  inv (mk_system mm (receiver s) (sent s ++ [msg]) (delivered s) (net s) (acks s)).
Proof.
  intros Hinv Hmsg Hlt Heq. pose proof (inv_next _ Hinv) as Hnext.
  destruct (insert_msg_spec (sender s) msg) as (mm' & Heq' & Hwf & Hep & Hn & Hnew & Hold & _);
    [apply Hinv|done..|]. rewrite Heq in Heq'. injection Heq' as -> <-.
  pose proof (inv_receiver _ Hinv) as Hr. pose proof (ri_position _ _ _ _ Hr) as Hpos.
  pose proof (got_bound _ _ _ _ (next_seq (sender s)) Hr).
  constructor; simpl; try apply Hinv; try done.
  - rewrite Hep. apply Hinv.
  - rewrite len_app. change (len [msg]) with 1. lia.
  - apply rcv_inv_snoc; [done..|lia].
  - intros seq m. simpl. destruct (decide (seq = next_seq (sender s))) as [->|Hne].
    + rewrite Hnew. intros [= <-]. simpl. rewrite Hnext at 1. split; [apply atZ_snoc_new|].
      exists 0. split; [apply from_vec_pending|lia].
    + rewrite Hold by done. intros Hm. destruct (inv_missing _ Hinv _ _ Hm) as [Hs Ha].
      split; [by apply atZ_snoc_old|done].
  - intros seq x. simpl. intros Hseq Hx Hxn. apply atZ_snoc_inv in Hx as [[-> ->]|[? Hx]]; [| |lia].
    + rewrite <- Hnext, Hnew. eauto.
    + rewrite Hold by lia. by apply (inv_unreleased _ Hinv seq x).
  - intros seq m. simpl. destruct (decide (seq = next_seq (sender s))) as [->|Hne].
    + rewrite Hnew. intros [= <-]. simpl. intros Hd. unfold SliceManager.is_empty. simpl.
      by rewrite (bool_decide_eq_false_2 (msg = [])).
    + rewrite Hold by done. apply (inv_pending _ Hinv).
  - eapply Forall_impl; [apply Hinv|]. intros. by apply genuine_snoc.
Qed.

Lemma net_inv s ps :
  inv s -> Forall (genuine epoch (sent s)) ps ->
  inv (mk_system (sender s) (receiver s) (sent s) (delivered s) (net s ++ ps) (acks s)).
Proof.
  intros [] Hps. constructor; simpl; try done. apply Forall_app. by split.
Qed.

(** An acknowledgement stays true when the receiver advances. *)
Lemma ack_true_mono r r' a :
  fst (last_ack r) <= fst (last_ack r') -> (forall seq, got r seq <= got r' seq) ->
  ack_true r a -> ack_true r' a.
Proof.
  intros Hle Hgot (H0 & H1 & H2). split_and!; try done; try lia.
  intros Heq. destruct H2 as [|H2]; [lia|by left|]. right. specialize (Hgot (fst a)). lia.
Qed.

(** The receiver's own position is a true acknowledgement. *)
Lemma position_true sent r delivered : rcv_inv epoch sent r delivered -> ack_true r (last_ack r).
Proof.
  intros Hr. destruct (ack_range _ (ri_wf _ _ _ _ Hr)) as [? ?].
  split_and!; try lia. intros _. unfold got. rewrite Z.ltb_irrefl.
  destruct (get _ (incoming_slices r)) as [m|] eqn:E; [|left; by apply (ri_offset _ _ _ _ Hr)].
  destruct (ri_head _ _ _ _ Hr _ E) as [_ ->]. unfold head_len.
  destruct (SliceManager.last_head_index m); simpl; [right; lia|by left].
Qed.

Lemma deliver_inv s p ack msgs mm :
  inv s -> p ∈ net s -> in_order (receiver s) p ->
  on_slice epoch (receiver s) p = Ret (ack, msgs, mm) ->
  inv (mk_system (sender s) mm (sent s) (delivered s ++ msgs) (net s) (acks s ++ option_list ack)).
Proof.
  intros Hinv Hp Ho Heq. pose proof (inv_net _ Hinv) as Hnet. rewrite Forall_forall in Hnet.
  destruct (on_slice_inv epoch (sent s) (receiver s) (delivered s) p)
    as (ack' & msgs' & mm' & Heq' & Hr & Hle & Hgot & _ & Hack); [apply Hinv|by apply Hnet|done|].
  rewrite Heq in Heq'. injection Heq' as <- <- <-. constructor; simpl; try apply Hinv; try done.
  - intros seq m Hm. destruct (inv_missing _ Hinv _ _ Hm) as (Hs & a & Hpend & Ha).
    split; [done|]. exists a. split; [done|]. specialize (Hgot seq). simpl. lia.
  - intros seq x. simpl. intros Hseq. apply (inv_unreleased _ Hinv). lia.
  - apply Forall_app. split.
    + eapply Forall_impl; [apply Hinv|]. intros a. by apply ack_true_mono.
    + destruct ack as [a|]; simpl; [|done]. rewrite (Hack a) by done.
      constructor; [by eapply position_true|done].
Qed.

(** What the sender keeps after a true acknowledgement. *)
Lemma ack_entry_pending s seq i :
  inv s -> ack_true (receiver s) (seq, i) ->
  match get_outgoing_slice (sender s) seq, ack_entry (sender s) seq i with
  | Some m, Some m' => SliceManager.sm_data m' = SliceManager.sm_data m /\
      exists a, pending m' a /\ a <= got (receiver s) seq
  | Some m, None => len (SliceManager.sm_data m) <= got (receiver s) seq
  | None, x => x = None
  end.
Proof.
  intros Hinv (Hi & Hseq & Htrue). simpl in *. unfold ack_entry, get_outgoing_slice.
  destruct (get seq (outgoing_slices (sender s))) as [m|] eqn:Hm; [|done].
  destruct (inv_missing _ Hinv _ _ Hm) as (Hs & a & Hpend & Ha).
  destruct (out_entries _ (inv_sender _ Hinv) _ _ Hm) as [Hwf _].
  destruct (ack_pending m a i Hpend) as (m' & Heq & Hpend' & Hd & _); [apply Hwf|done|].
  rewrite (entry_epoch _ _ _ Hwf), (entry_seq _ _ _ Hwf) in Heq. rewrite Heq.
  assert (acked (len (SliceManager.sm_data m)) a i <= got (receiver s) seq) as Hle.
  { unfold acked. destruct ((i =? 0) || (a =? _)) eqn:E; [done|]. apply orb_false_iff in E as [? ?].
    destruct (decide (seq = fst (last_ack (receiver s)))) as [Heqs|Hne]; [destruct (Htrue Heqs); lia|].
    unfold got. rewrite (proj2 (Z.ltb_lt _ _)) by lia.
    pose proof (wf_size _ (entry_sm _ _ _ Hwf)). lia. }
  destruct Hpend' as [Hr Hsl]. rewrite Hd in *. unfold SliceManager.is_empty. rewrite Hsl.
  destruct (Z.ltb_spec (acked (len (SliceManager.sm_data m)) a i) (len (SliceManager.sm_data m))) as [Hlt|].
  - split; [done|]. eexists. split; [|exact Hle]. split; rewrite Hd; [done|].
    by rewrite Hsl, (proj2 (Z.ltb_lt _ _)).
  - simpl. lia.
Qed.

(** A message that is not released is not completely received. *)
Lemma head_incomplete s msg :
  inv s -> atZ (sent s) (fst (last_ack (receiver s))) = Some msg -> msg <> [] ->
  got (receiver s) (fst (last_ack (receiver s))) < len msg.
Proof.
  intros Hinv Hmsg Hne. pose proof (inv_receiver _ Hinv) as Hr. unfold got. rewrite Z.ltb_irrefl.
  pose proof (proj1 (len_pos msg) Hne).
  destruct (get _ (incoming_slices (receiver s))) as [m|] eqn:E; [|lia].
  destruct (ri_head _ _ _ _ Hr _ E) as [Hf _].
  destruct (ri_entries _ _ _ _ Hr _ _ E) as (_ & msg' & k & Hmsg' & _ & Hrec). simplify_eq.
  destruct (data_received _ _ _ Hrec) as [Hf' _]; [done|by eapply atZ_size, Hmsg; apply Hr|].
  rewrite Hf in Hf'. injection Hf' as Hk. symmetry in Hk. apply Z.eqb_neq in Hk.
  rewrite (head_len_received _ _ _ Hrec). destruct Hrec as (_ & ? & _). lia.
Qed.

Lemma ack_inv s a mm :
  inv s -> a ∈ acks s -> recv_ack (sender s) a = Ret mm ->
  inv (mk_system mm (receiver s) (sent s) (delivered s) (net s) (acks s)).
Proof.
  intros Hinv Ha Heq. pose proof (inv_acks _ Hinv) as Hacks. rewrite Forall_forall in Hacks.
  apply Hacks in Ha as Htrue. destruct a as [q i]. pose proof Htrue as (Hi & Hq & _). simpl in Hi, Hq.
  destruct (recv_ack_out (sender s) q i) as (out & Heq1 & Hsort & Hget); [apply Hinv|done|].
  destruct (recv_ack_spec (sender s) q i) as (mm' & Heq2 & Hwf & _ & _ & Hn & _); [apply Hinv|done|].
  rewrite Heq in Heq1, Heq2. injection Heq2 as <-. injection Heq1 as ->.
  pose proof (ack_entry_pending s q i Hinv Htrue) as He.
  constructor; simpl; try apply Hinv; try done.
  - intros seq m. unfold get_outgoing_slice. simpl. rewrite Hget.
    destruct (seq <? q); [done|]. destruct (Z.eqb_spec seq q) as [->|]; [|apply (inv_missing _ Hinv)].
    intros Hm. rewrite Hm in He. destruct (get_outgoing_slice (sender s) q) as [m0|] eqn:E; [|done].
    destruct He as (Hd & b & Hb & Hbg). destruct (inv_missing _ Hinv _ _ E) as [Hs _].
    rewrite Hd. split; [done|by exists b].
  - intros seq x. simpl. intros Hseq Hx Hne. unfold get_outgoing_slice. simpl. rewrite Hget.
    rewrite (proj2 (Z.ltb_ge _ _)) by lia.
    destruct (inv_unreleased _ Hinv seq x Hseq Hx Hne) as [m0 Hm0].
    destruct (Z.eqb_spec seq q) as [->|]; [|by exists m0].
    rewrite Hm0 in He. destruct (ack_entry (sender s) q i) as [m'|]; [by eauto|]. exfalso.
    assert (q = fst (last_ack (receiver s))) as -> by lia.
    pose proof (head_incomplete s x Hinv Hx Hne).
    destruct (inv_missing _ Hinv _ _ Hm0) as [Hs _]. simplify_eq. lia.
  - intros seq m. unfold get_outgoing_slice. simpl. rewrite Hget.
    destruct (seq <? q); [done|]. destruct (seq =? q); [|apply (inv_pending _ Hinv)].
    intros Hm _. unfold ack_entry in Hm. destruct (get q _); [|done].
    destruct (SliceManager.ack _ _ _ _) as [x'| |]; try done.
    destruct (SliceManager.is_empty x') eqn:Hx'; [done|]. by injection Hm as <-.
Qed.

Lemma resend_entry s m :
  inv s -> m ∈ get_outgoing_slices (sender s) -> exists seq, get_outgoing_slice (sender s) seq = Some m.
Proof.
  intros Hinv Hm. unfold get_outgoing_slices in Hm. apply list_elem_of_fmap in Hm as ([seq m'] & -> & Hin).
  exists seq. apply elem_of_get; [apply Hinv|done].
Qed.

Lemma step_inv s s' : inv s -> step s s' -> inv s'.
Proof.
  intros Hinv Hstep. destruct Hstep.
  - pose proof (sent_inv s mm msg seq Hinv ltac:(done) ltac:(done) ltac:(done)) as Hinv'.
    apply (net_inv _ (take k ps) Hinv').
    by apply (kept_genuine _ seq m size ps k Hinv').
  - destruct (resend_entry s m Hinv) as [seq Hm]; [done|].
    apply net_inv; [done|]. by apply (kept_genuine _ seq m size).
  - by eapply deliver_inv.
  - by eapply ack_inv.
Qed.

Lemma reachable_inv s : reachable s -> inv s.
Proof. induction 1; [apply init_inv | by eapply step_inv]. Qed.

(** ** Progress *)

(** The slices [ps] arrive one after the other, and what the receiver
    acknowledges comes back to the sender. *)
Fixpoint exchange (s : System) (ps : list LinkProtocol) : outcome System :=
  match ps with
  | [] => Ret s
  | p :: ps =>
      '(ack, msgs, r) ← on_slice epoch (receiver s) p;
      mm ← match ack with Some a => recv_ack (sender s) a | None => Ret (sender s) end;
      exchange (mk_system mm r (sent s) (delivered s ++ msgs) (net s) (acks s ++ option_list ack)) ps
  end.

(** What the timer of the connected state sends again, over a link that takes
    slices of [size] bytes: the earliest message that is still kept, and only that
    one. *)
Definition timer_slices (mm : MessageManager) (size : Z) : outcome (list LinkProtocol) :=
  match get_outgoing_slices mm with
  | slice_mgr :: _ => SliceManager.get_slices slice_mgr size
  | [] => Ret []
  end.

(** One tick of that timer, after which nothing is lost. *)
Definition tick (s : System) (size : Z) : outcome System :=
  ps ← timer_slices (sender s) size;
  exchange (mk_system (sender s) (receiver s) (sent s) (delivered s) (net s ++ ps) (acks s)) ps.

Fixpoint ticks (s : System) (sizes : list Z) : outcome System :=
  match sizes with
  | [] => Ret s
  | size :: sizes => s ← tick s size; ticks s sizes
  end.

(** The receiver's position. *)
Abbreviation position s := (fst (last_ack (receiver s))).

(** Nothing that was released is kept any more. *)
Definition caught_up (s : System) : Prop :=
  forall seq, seq < position s -> get_outgoing_slice (sender s) seq = None.

(** One slice that arrives and its acknowledgement. *)
Lemma exchange_one s p :
  inv s -> p ∈ net s -> in_order (receiver s) p ->
  exists ack msgs r mm s1, on_slice epoch (receiver s) p = Ret (ack, msgs, r) /\
    (match ack with Some a => recv_ack (sender s) a | None => Ret (sender s) end) = Ret mm /\
    s1 = mk_system mm r (sent s) (delivered s ++ msgs) (net s) (acks s ++ option_list ack) /\
    inv s1 /\ position s <= position s1 /\ slice_reach p <= got r (slice_seq p).
Proof.
  intros Hinv Hp Ho. pose proof (inv_net _ Hinv) as Hg. rewrite Forall_forall in Hg.
  destruct (on_slice_inv epoch (sent s) (receiver s) (delivered s) _ (inv_receiver _ Hinv) (Hg _ Hp) Ho)
    as (ack & msgs & r & Heq & _ & Hle & _ & Hreach & _).
  pose proof (deliver_inv s _ ack msgs r Hinv Hp Ho Heq) as Hinv1.
  destruct ack as [a|]; [|by eexists None, msgs, r, (sender s), _].
  assert (a ∈ acks s ++ [a]) as Ha by (apply elem_of_app; right; left).
  pose proof (inv_acks _ Hinv1) as Hacks. rewrite Forall_forall in Hacks. destruct (Hacks a Ha) as [Hi _].
  destruct a as [q i]. destruct (recv_ack_spec (sender s) q i) as (mm & Hmm & _); [apply Hinv|done|].
  exists (Some (q, i)), msgs, r, mm. eexists. split_and!; [done|done|done| |done|done].
  exact (ack_inv _ (q, i) mm Hinv1 Ha Hmm).
Qed.

(** Slices that follow each other complete their message. *)
Lemma exchange_run ps s msg seq a :
  inv s -> atZ (sent s) seq = Some msg -> 0 <= a <= len msg -> a <= got (receiver s) seq ->
  contiguous (to_int epoch) seq (len msg) a ps (dropZ a msg) -> ps ⊆ net s ->
  exists s', exchange s ps = Ret s' /\ inv s' /\ sent s' = sent s /\ position s <= position s' /\
    len msg <= got (receiver s') seq.
Proof.
  revert s a. induction ps as [|p ps IH]; intros s a Hinv Hmsg Ha Hgot Hc Hnet.
  { simpl in Hc. assert (len (dropZ a msg) = len msg - a) as Hl by (apply len_dropZ; lia).
    rewrite Hc in Hl. change (len []) with 0 in Hl. exists s. split_and!; try done; lia. }
  destruct p as [| |e q n f x| |]; try done.
  destruct Hc as (-> & -> & -> & -> & Hx & d' & Hdx & Hc).
  destruct (exchange_one s (MsgSlice (to_int epoch) seq (len msg) a x) Hinv)
    as (ack & msgs & r & mm & s1 & Heq & Hmm & -> & Hinv1 & Hle & Hreach); [apply Hnet; left|done|].
  assert (len x + len d' = len msg - a) as Hl by (rewrite <- len_app, <- Hdx; by apply len_dropZ).
  pose proof (len_nonneg x). pose proof (len_nonneg d').
  assert (d' = dropZ (a + len x) msg) as ->.
  { rewrite <- dropZ_dropZ, Hdx by lia. unfold dropZ, len. by rewrite Nat2Z.id, drop_app_length. }
  destruct (IH _ (a + len x) Hinv1 Hmsg) as (s' & Hrun & Hi & Hs & Hle' & Hend);
    [lia|done|done|by intros y Hy; apply Hnet; right|].
  exists s'. cbn [exchange]. rewrite Heq, bind_Ret, Hmm, bind_Ret. split_and!; [done..| |done]. simpl in *. lia.
Qed.

(** Slices of a released message make the sender drop all released ones. *)
Lemma exchange_old ps s s' (msg : bytes) seq a d :
  inv s -> seq < position s -> contiguous (to_int epoch) seq (len msg) a ps d -> ps <> [] ->
  exchange s ps = Ret s' -> caught_up s' /\ position s' = position s.
Proof.
  revert s a d. induction ps as [|p ps IH]; intros s a d Hinv Hlt Hc Hne Hrun; [done|].
  destruct p as [| |e q n f x| |]; try done. destruct Hc as (-> & -> & -> & -> & _ & d' & _ & Hc).
  pose proof (on_slice_old_eq epoch _ _ _ seq (len msg) a x (inv_receiver _ Hinv) Hlt) as Heq.
  cbn [exchange] in Hrun. rewrite Heq, bind_Ret in Hrun. apply bind_Ret_inv in Hrun as (mm & Hmm & Hrun).
  pose proof (position_true _ _ _ (inv_receiver _ Hinv)) as Hack.
  destruct (last_ack (receiver s)) as [c i] eqn:Hla. pose proof Hack as [Hi _].
  destruct (recv_ack_spec (sender s) c i) as (mm' & Hmm' & _ & Hnone & _); [apply Hinv|done|].
  assert (mm' = mm) as -> by congruence. simpl in Hrun. set (s1 := mk_system mm _ _ _ _ _) in Hrun.
  assert (caught_up s1 /\ position s1 = c) as [Hup Hpos].
  { unfold caught_up. simpl. rewrite Hla. by split. }
  cbn [fst] in *. destruct ps as [|p ps]; [by injection Hrun as <-|].
  rewrite <- Hpos. eapply IH; [|by rewrite Hpos|exact Hc|done|exact Hrun].
  assert (inv (mk_system (sender s) (receiver s) (sent s) (delivered s ++ []) (net s) (acks s ++ [(c, i)]))) as Hinv0.
  { rewrite app_nil_r. destruct Hinv. constructor; simpl; try done.
    apply Forall_app. split; [done|]. constructor; [|done]. exact Hack. }
  apply (ack_inv _ (c, i) mm Hinv0); [|done]. apply elem_of_app. right. left.
Qed.

(** The earliest message that is kept: not beyond the receiver's position, and
    with bytes left to send. *)
Lemma earliest_kept s seq m rest :
  inv s -> Forall (fun msg => msg <> []) (sent s) -> outgoing_slices (sender s) = (seq, m) :: rest ->
  seq <= position s /\ atZ (sent s) seq = Some (SliceManager.sm_data m) /\
  exists a, pending m a /\ a <= got (receiver s) seq /\ a < len (SliceManager.sm_data m).
Proof.
  intros Hinv Hne Hout. pose proof (out_sorted _ (inv_sender _ Hinv)) as Hsort.
  assert (get_outgoing_slice (sender s) seq = Some m) as Hget.
  { apply elem_of_get; [done|]. rewrite Hout. left. }
  destruct (inv_missing _ Hinv _ _ Hget) as (Hmsg & a & Hpend & Ha).
  destruct (out_entries _ (inv_sender _ Hinv) _ _ Hget) as [_ Hlt]. rewrite (inv_next _ Hinv) in Hlt.
  rewrite Forall_lookup in Hne. pose proof (Hne _ _ Hmsg) as Hd. split_and!; [|done|].
  - destruct (Z.le_gt_cases seq (position s)) as [|Hgt]; [done|exfalso].
    pose proof (ri_position _ _ _ _ (inv_receiver _ Hinv)) as Hpos.
    destruct (atZ (sent s) (position s)) as [x|] eqn:Hx.
    2:{ apply lookup_ge_None in Hx. unfold len in Hlt. lia. }
    destruct (inv_unreleased _ Hinv _ _ (Z.le_refl _) Hx (Hne _ _ Hx)) as [m' Hm'].
    unfold get_outgoing_slice in Hm'. apply elem_of_get in Hm'; [|done]. rewrite Hout in Hm', Hsort.
    apply elem_of_cons in Hm' as [[= ? ?]|Hin]; [lia|].
    apply sorted_cons in Hsort as [Hall _]. rewrite Forall_forall in Hall. apply Hall in Hin. simpl in Hin. lia.
  - exists a. split_and!; [done|done|]. pose proof (inv_pending _ Hinv _ _ Hget Hd) as He.
    destruct Hpend as [? Hs]. unfold SliceManager.is_empty in He. rewrite Hs in He.
    by destruct (Z.ltb_spec a (len (SliceManager.sm_data m))).
Qed.

(** When nothing is kept, everything was released. *)
Lemma all_released s :
  inv s -> Forall (fun msg => msg <> []) (sent s) ->
  (forall seq, get_outgoing_slice (sender s) seq = None) -> position s = len (sent s).
Proof.
  intros Hinv Hne Hnone. pose proof (ri_position _ _ _ _ (inv_receiver _ Hinv)) as Hpos.
  destruct (atZ (sent s) (position s)) as [x|] eqn:Hx.
  - rewrite Forall_lookup in Hne.
    destruct (inv_unreleased _ Hinv _ _ (Z.le_refl _) Hx (Hne _ _ Hx)) as [m' Hm']. by rewrite Hnone in Hm'.
  - apply lookup_ge_None in Hx. unfold len in *. lia.
Qed.

(** What is left to do: two ticks for each message that was not released (one to
    complete it, one to have its acknowledgement repeated), and one more while
    released messages are still kept. *)
Definition left_over (s : System) (n : Z) : Prop :=
  2 * (len (sent s) - position s) < n \/ caught_up s /\ 2 * (len (sent s) - position s) <= n.

Lemma tick_progress s size n :
  inv s -> Forall (fun msg => msg <> []) (sent s) -> 1 <= size <= U32_MAX -> 1 <= n -> left_over s n ->
  exists s', tick s size = Ret s' /\ inv s' /\ sent s' = sent s /\ left_over s' (n - 1).
Proof.
  intros Hinv Hne Hsz Hn Hleft. unfold tick, timer_slices, get_outgoing_slices.
  destruct (outgoing_slices (sender s)) as [|[seq m] rest] eqn:Hout; simpl.
  { exists s. rewrite app_nil_r. split_and!; [by destruct s|done..|]. right. split.
    - intros seq _. unfold get_outgoing_slice. by rewrite Hout.
    - pose proof (all_released s Hinv Hne) as Hall. unfold get_outgoing_slice in Hall.
      rewrite Hout in Hall. specialize (Hall ltac:(done)). lia. }
  destruct (earliest_kept s seq m rest Hinv Hne Hout) as (Hle & Hmsg & a & Hpend & Hgot & Ha).
  assert (get_outgoing_slice (sender s) seq = Some m) as Hget.
  { apply elem_of_get; [apply Hinv|]. rewrite Hout. left. }
  destruct (out_entries _ (inv_sender _ Hinv) _ _ Hget) as [Hwf _].
  destruct (get_slices_pending m a size Hpend) as (ps & Hps & Hc & _); [apply Hwf|done|].
  rewrite (entry_epoch _ _ _ Hwf), (entry_seq _ _ _ Hwf), (inv_epoch _ Hinv) in Hc.
  rewrite Hps, bind_Ret. pose proof (kept_genuine s seq m size ps (length ps) Hinv Hget Hsz Hps) as Hg.
  rewrite firstn_all in Hg. pose proof (net_inv _ _ Hinv Hg) as Hinv1.
  destruct (exchange_run ps _ _ seq a Hinv1 Hmsg) as (s' & Hrun & Hinv' & Hs & Hmono & Hfull);
    [destruct Hpend; lia|done|done|by intros y Hy; apply elem_of_app; right|].
  exists s'. split_and!; [done..|]. simpl in Hs, Hmono. unfold left_over in *. rewrite Hs.
  destruct (decide (seq = position s)) as [->|].
  - left. assert (position s <> position s') as Hne'; [|lia]. intros Heq. rewrite Heq in Hfull, Hmsg.
    pose proof (head_incomplete s' (SliceManager.sm_data m) Hinv') as Hh. rewrite Hs in Hh. specialize (Hh Hmsg).
    rewrite Forall_lookup in Hne. specialize (Hh (Hne _ _ Hmsg)). lia.
  - destruct (exchange_old ps _ s' (SliceManager.sm_data m) seq a _ Hinv1 ltac:(simpl; lia) Hc) as [Hup Hpos]; [|done|].
    + intros ->. simpl in Hc. assert (len (dropZ a (SliceManager.sm_data m)) = 0) as Hz by by rewrite Hc.
      rewrite len_dropZ in Hz by (destruct Hpend; lia). lia.
    + right. split; [done|]. simpl in Hpos. rewrite Hpos. destruct Hleft as [|[Hup0 _]]; [lia|].
      rewrite Hup0 in Hget by lia. done.
Qed.

Lemma ticks_complete sizes s :
  inv s -> Forall (fun msg => msg <> []) (sent s) -> Forall (fun size => 1 <= size <= U32_MAX) sizes ->
  left_over s (len sizes) ->
  exists s', ticks s sizes = Ret s' /\ inv s' /\ sent s' = sent s /\ left_over s' 0.
Proof.
  revert s. induction sizes as [|size sizes IH]; intros s Hinv Hne Hsz Hleft; [by exists s|].
  apply Forall_cons in Hsz as [Hsize Hsz]. rewrite len_cons in Hleft. pose proof (len_nonneg sizes).
  destruct (tick_progress s size (1 + len sizes) Hinv Hne Hsize ltac:(lia) Hleft) as (s1 & Heq & Hinv1 & Hs1 & Hleft1).
  replace (1 + len sizes - 1) with (len sizes) in Hleft1 by lia.
  destruct (IH s1 Hinv1) as (s' & Hrun & Hinv' & Hs & Hend); [by rewrite Hs1|done|done|].
  exists s'. cbn [ticks]. rewrite Heq, bind_Ret. split_and!; [done|done|congruence|done].
Qed.

Lemma reachable_prefix s : reachable s -> delivered s `prefix_of` sent s.
Proof.
  intros Hs. apply reachable_inv in Hs. rewrite (ri_delivered _ _ _ _ (inv_receiver _ Hs)).
  exists (dropZ (fst (last_ack (receiver s))) (sent s)). symmetry. apply take_drop.
Qed.

(** ** Properties *)

(** C1. Whatever the network drops, repeats or reorders, as long as no slice of a
    message is handled ahead of bytes that are still missing before it, the
    receiver releases a prefix of the sent messages: each exactly once, in order,
    with its exact bytes. *)
Theorem delivered_prefix s : reachable s -> delivered s `prefix_of` sent s.
Proof. apply reachable_prefix. Qed.

(** C3. Nothing undelivered is lost: for each nonempty message that was not
    released, the sender still keeps its data, and what it would retransmit
    starts no later than what the receiver is missing. *)
Theorem undelivered_kept s seq msg :
  reachable s -> len (delivered s) <= seq -> atZ (sent s) seq = Some msg -> msg <> [] ->
  exists m a, get_outgoing_slice (sender s) seq = Some m /\ SliceManager.sm_data m = msg /\
    pending m a /\ a <= got (receiver s) seq.
Proof.
  intros Hs Hseq Hmsg Hne. apply reachable_inv in Hs.
  pose proof (inv_receiver _ Hs) as Hr. pose proof (ri_position _ _ _ _ Hr).
  rewrite (ri_delivered _ _ _ _ Hr), len_takeZ in Hseq by lia.
  destruct (inv_unreleased _ Hs seq msg Hseq Hmsg Hne) as [m Hm].
  destruct (inv_missing _ Hs _ _ Hm) as (Hd & a & Ha). exists m, a. split_and!; [done| |apply Ha..].
  congruence.
Qed.

(** C2. Retransmission completes the transfer: whatever was lost, repeated and
    acknowledged before (slices being handled as in C1), and as long as no empty message was sent, ticks of the
    timer that resend only the earliest kept message, whose slices and
    acknowledgements now arrive, release all of the sent messages and leave the
    sender with nothing to resend.  Two ticks per message that was not released
    and one more are enough, whatever the sizes of the links they use. *)
Theorem transfer_completes s sizes :
  reachable s -> Forall (fun msg => msg <> []) (sent s) ->
  Forall (fun size => 1 <= size <= U32_MAX) sizes ->
  2 * (len (sent s) - len (delivered s)) < len sizes ->
  exists s', ticks s sizes = Ret s' /\ sent s' = sent s /\ delivered s' = sent s /\
    get_outgoing_slices (sender s') = [].
Proof.
  intros Hs Hne Hsz Hlen. apply reachable_inv in Hs as Hinv.
  pose proof (inv_receiver _ Hinv) as Hr. pose proof (ri_position _ _ _ _ Hr) as Hpos.
  rewrite (ri_delivered _ _ _ _ Hr), len_takeZ in Hlen by lia.
  destruct (ticks_complete sizes s Hinv Hne Hsz) as (s' & Hrun & Hinv' & Hs' & Hend); [by left|].
  pose proof (inv_receiver _ Hinv') as Hr'. pose proof (ri_position _ _ _ _ Hr') as Hpos'.
  destruct Hend as [|[Hup Hend]]; [lia|]. exists s'. split_and!; [done|done| |].
  - rewrite (ri_delivered _ _ _ _ Hr'), takeZ_all by lia. done.
  - destruct (outgoing_slices (sender s')) as [|[seq m] rest] eqn:Hout.
    { unfold get_outgoing_slices. by rewrite Hout. }
    assert (get_outgoing_slice (sender s') seq = Some m) as Hget.
    { apply elem_of_get; [apply Hinv'|]. rewrite Hout. left. }
    destruct (out_entries _ (inv_sender _ Hinv') _ _ Hget) as [_ Hlt]. rewrite (inv_next _ Hinv') in Hlt.
    rewrite Hup in Hget by lia. done.
Qed.

(** An empty message stops the stream: neither it nor any message after it
    is ever released. *)
Theorem empty_message_blocks s seq :
  reachable s -> 0 <= seq -> atZ (sent s) seq = Some [] -> len (delivered s) <= seq.
Proof.
  intros Hs Hseq He. apply reachable_inv in Hs. pose proof (inv_receiver _ Hs) as Hr.
  destruct (Z.le_gt_cases (len (delivered s)) seq) as [|Hlt]; [done|].
  pose proof (ri_nonempty _ _ _ _ Hr) as Hne. rewrite Forall_lookup in Hne.
  destruct (Hne (Z.to_nat seq) []); [|done].
  rewrite (ri_delivered _ _ _ _ Hr) in *. unfold takeZ, atZ, len in *.
  rewrite length_take in Hlt. by rewrite lookup_take_lt by lia.
Qed.
End with_profile.
End Network.
