(* ===== verification/Fifo.v ===== *)
(** * Over an ordered, lossless link

    The condition of [Network] on the order of slices is met by a link that
    delivers everything it accepts, in order: then every message arrives, without
    retransmission. *)

From S2P Require Import Prelude Bytes Errors Epochs Proto BTree Slices SliceTheory Segments.
From S2P Require Import Messages MessageTheory Transfer Network.

Module Fifo.
Import Epoch Protocol BTreeMap SliceSets Segments MessageManager MessageInvariant Transfer.
Import Network(System, mk_system, sender, receiver, sent, delivered, net, acks).

Section with_profile.
Context {P : BuildProfile} (epoch : Epoch).

(** The transfer, and the slices that are on their way. *)
Record Fifo : Type := mk_fifo { sys : System; transit : list LinkProtocol }.

Definition init : Fifo := mk_fifo (Network.init epoch) [].

(** As the steps of [Network], except that slices are delivered in the order in
    which they were sent and none is lost or repeated.  With [whole], no send is
    cut short; acknowledgements are not restricted.  That nothing has to be resent
    is stated for [arrive], which only delivers. *)
Inductive step (whole : bool) : Fifo -> Fifo -> Prop :=
  | step_send f msg size k seq mm m ps :
      let s := sys f in
      len msg <= ISIZE_MAX -> 1 <= size <= U32_MAX -> next_seq (sender s) < U64_MAX ->
      insert_msg (sender s) msg = Ret (seq, mm) -> get_outgoing_slice mm seq = Some m ->
      SliceManager.get_slices m size = Ret ps -> (whole = true -> (length ps <= k)%nat) ->
      step whole f (mk_fifo (mk_system mm (receiver s) (sent s ++ [msg]) (delivered s) (net s ++ take k ps) (acks s))
        (transit f ++ take k ps))
  | step_resend f size k m ps :
      let s := sys f in
      m ∈ get_outgoing_slices (sender s) -> 1 <= size <= U32_MAX -> SliceManager.get_slices m size = Ret ps ->
      step whole f (mk_fifo (mk_system (sender s) (receiver s) (sent s) (delivered s) (net s ++ take k ps) (acks s))
        (transit f ++ take k ps))
  | step_deliver f p q ack msgs mm :
      let s := sys f in
      transit f = p :: q -> on_slice epoch (receiver s) p = Ret (ack, msgs, mm) ->
      step whole f (mk_fifo (mk_system (sender s) mm (sent s) (delivered s ++ msgs) (net s) (acks s ++ option_list ack)) q)
  | step_ack f a mm :
      let s := sys f in
      a ∈ acks s -> recv_ack (sender s) a = Ret mm ->
      step whole f (mk_fifo (mk_system mm (receiver s) (sent s) (delivered s) (net s) (acks s)) (transit f)).

(** ** Order *)

(** How far each message reaches once a slice is recorded. *)
Definition raise (g : Z -> Z) (p : LinkProtocol) (seq : Z) : Z :=
  if seq =? slice_seq p then Z.max (g seq) (slice_reach p) else g seq.

Definition slice_start (p : LinkProtocol) : Z := match p with MsgSlice _ _ _ f _ => f | _ => 0 end.

(** No slice starts beyond what is there when its turn comes. *)
Fixpoint ordered (g : Z -> Z) (q : list LinkProtocol) : Prop :=
  match q with
  | [] => True
  | p :: q => slice_start p <= g (slice_seq p) /\ ordered (raise g p) q
  end.

Definition reach (g : Z -> Z) (q : list LinkProtocol) : Z -> Z := foldl raise g q.

Lemma raise_le g p seq : g seq <= raise g p seq.
Proof. unfold raise. destruct (_ =? _); lia. Qed.

Lemma raise_mono g g' p : (forall s, g s <= g' s) -> forall s, raise g p s <= raise g' p s.
Proof. intros H s. unfold raise. specialize (H s). destruct (s =? _); lia. Qed.

Lemma ordered_mono q g g' : (forall s, g s <= g' s) -> ordered g q -> ordered g' q.
Proof.
  revert g g'. induction q as [|p q IH]; intros g g' H; [done|]. intros [H1 H2]. split.
  - specialize (H (slice_seq p)). lia.
  - by eapply IH, H2; apply raise_mono.
Qed.

Lemma reach_mono q g g' : (forall s, g s <= g' s) -> forall s, reach g q s <= reach g' q s.
Proof. revert g g'. induction q as [|p q IH]; intros g g' H; [done|]. by apply IH, raise_mono. Qed.

Lemma reach_le q g s : g s <= reach g q s.
Proof.
  revert g. induction q as [|p q IH]; intros g; simpl; [done|]. etrans; [apply (raise_le g p)|apply IH].
Qed.

Lemma ordered_app q1 q2 g : ordered g q1 -> ordered (reach g q1) q2 -> ordered g (q1 ++ q2).
Proof. revert g. induction q1 as [|p q1 IH]; intros g; simpl; [done|]. intros [H1 H2] H3. split; [done|by apply IH]. Qed.

Lemma reach_app q1 q2 g : reach g (q1 ++ q2) = reach (reach g q1) q2.
Proof. apply foldl_app. Qed.

(** The slices of a message follow each other. *)
Lemma contiguous_ordered e seq n ps a d k g :
  contiguous e seq n a ps d -> a <= g seq -> ordered g (take k ps).
Proof.
  revert a d k g. induction ps as [|p ps IH]; intros a d k g; [by rewrite take_nil|].
  destruct k; [done|]. destruct p as [| |e' seq' n' f x| |]; try done.
  intros (-> & -> & -> & -> & _ & d' & _ & Hc) Ha. split; [done|]. eapply IH; [exact Hc|].
  unfold raise. simpl. rewrite Z.eqb_refl. lia.
Qed.

Lemma contiguous_reach e seq n ps a d g :
  contiguous e seq n a ps d -> a <= g seq -> a + len d <= reach g ps seq.
Proof.
  revert a d g. induction ps as [|p ps IH]; intros a d g; simpl.
  - intros ->. rewrite len_nil. lia.
  - destruct p as [| |e' seq' n' f x| |]; try done.
    intros (-> & -> & -> & -> & _ & d' & -> & Hc) Ha. rewrite len_app, Z.add_assoc. apply IH; [done|].
    unfold raise. simpl. rewrite Z.eqb_refl. lia.
Qed.

(** ** The invariant *)

Record inv (whole : bool) (f : Fifo) : Prop := {
  inv_sys : Network.reachable epoch (sys f);
  inv_net : transit f ⊆ net (sys f);
  inv_ordered : ordered (got (receiver (sys f))) (transit f);
  inv_whole : whole = true -> forall seq msg, 0 <= seq -> atZ (sent (sys f)) seq = Some msg ->
    len msg <= reach (got (receiver (sys f))) (transit f) seq;
}.

Lemma kept_contiguous s seq m size ps :
  Network.inv epoch s -> get_outgoing_slice (sender s) seq = Some m -> 1 <= size <= U32_MAX ->
  SliceManager.get_slices m size = Ret ps ->
  exists a, a <= got (receiver s) seq /\ 0 <= a <= len (SliceManager.sm_data m) /\
    contiguous (to_int epoch) seq (len (SliceManager.sm_data m)) a ps (dropZ a (SliceManager.sm_data m)).
Proof.
  intros Hinv Hm Hsz Hps. destruct (Network.inv_missing _ _ Hinv _ _ Hm) as (Hmsg & a & Hpend & Ha).
  destruct (out_entries _ (Network.inv_sender _ _ Hinv) _ _ Hm) as [Hwf _].
  destruct (get_slices_pending m a size Hpend) as (ps' & Hps' & Hc & _); [apply Hwf|done|].
  assert (ps' = ps) as -> by congruence.
  rewrite (entry_seq _ _ _ Hwf), (entry_epoch _ _ _ Hwf), (Network.inv_epoch _ _ Hinv) in Hc.
  exists a. split_and!; [done|apply Hpend|apply Hpend|done].
Qed.

Lemma got_nonneg f whole seq : inv whole f -> 0 <= got (receiver (sys f)) seq.
Proof.
  intros [Hr _ _ _]. apply Network.reachable_inv in Hr. eapply got_bound, (Network.inv_receiver _ _ Hr).
Qed.

Lemma fifo_init_inv whole : inv whole init.
Proof.
  constructor; simpl; [apply Network.reach_init|done|done|].
  intros _ seq msg _ H. unfold atZ in H. by rewrite lookup_nil in H.
Qed.

Lemma app_subseteq {A} (l k x : list A) : l ⊆ k -> l ++ x ⊆ k ++ x.
Proof. intros H y Hy. apply elem_of_app in Hy as [Hy|Hy]; apply elem_of_app; [left; by apply H|by right]. Qed.

Lemma fifo_step_inv whole f f' : inv whole f -> step whole f f' -> inv whole f'.
Proof.
  intros Hi Hs. pose proof Hi as [Hr Hn Ho Hw].
  destruct Hs as [f msg size k seq mm m ps s Hm Hsz Hnx Hins Hget Hps Hk|f size k m ps s Hin Hsz Hps
                 |f p q ack msgs mm s Ht Hon|f a mm s Ha Hra].
  - assert (Network.reachable epoch (mk_system mm (receiver s) (sent s ++ [msg]) (delivered s) (net s ++ take k ps) (acks s))) as Hr'
      by (eapply Network.reach_step; [exact Hr|by eapply Network.step_send]).
    pose proof (Network.reachable_inv _ _ Hr') as Hinv'.
    destruct (kept_contiguous _ seq m size ps Hinv' Hget Hsz Hps) as (a & Hle & Ha & Hc). simpl in Hle.
    pose proof (reach_le (transit f) (got (receiver s)) seq).
    constructor; simpl; [done|by apply app_subseteq|apply ordered_app; [done|]; eapply contiguous_ordered; [exact Hc|fold s; lia]|].
    intros Hwh seq' msg' Hseq' Hat. rewrite reach_app, take_ge by auto.
    apply Network.atZ_snoc_inv in Hat as [[-> ->]|[_ Hat]]; [|etrans; [by apply Hw|apply reach_le]|done].
    destruct (Network.inv_missing _ _ Hinv' _ _ Hget) as [Hmsg _]. simpl in Hmsg.
    assert (seq = len (sent s)) as ->.
    { pose proof (Network.inv_next _ _ (Network.reachable_inv _ _ Hr)) as Hnext. unfold s in *. rewrite <- Hnext.
      unfold insert_msg in Hins. apply bind_Ret_inv in Hins as (? & _ & Hins). by injection Hins. }
    rewrite Network.atZ_snoc_new in Hmsg. injection Hmsg as ->.
    pose proof (contiguous_reach _ _ _ ps a _ (reach (got (receiver s)) (transit f)) Hc ltac:(fold s; lia)) as Hre.
    rewrite len_dropZ in Hre by lia. lia.
  - pose proof (Network.reachable_inv _ _ Hr) as Hinv. fold s in Hinv.
    destruct (Network.resend_entry _ _ _ Hinv Hin) as [seq Hget].
    destruct (kept_contiguous _ seq m size ps Hinv Hget Hsz Hps) as (a & Hle & Ha & Hc).
    pose proof (reach_le (transit f) (got (receiver s)) seq).
    constructor; simpl.
    + eapply Network.reach_step; [exact Hr|by eapply Network.step_resend].
    + by apply app_subseteq.
    + apply ordered_app; [done|]. eapply contiguous_ordered; [exact Hc|fold s; lia].
    + intros Hwh seq' msg' Hseq' Hat. rewrite reach_app. etrans; [by apply Hw|apply reach_le].
  - pose proof (Network.reachable_inv _ _ Hr) as Hinv. fold s in Hinv, Hr. rewrite Ht in *. destruct Ho as [Ho Ho'].
    assert (p ∈ net s) as Hp by (apply Hn; left).
    assert (in_order (receiver s) p) as Hord by by destruct p.
    pose proof (Network.inv_net _ _ Hinv) as Hg. rewrite Forall_forall in Hg.
    destruct (on_slice_inv epoch (sent s) (receiver s) (delivered s) _ (Network.inv_receiver _ _ Hinv) (Hg _ Hp) Hord)
      as (ack' & msgs' & mm' & Heq & _ & _ & Hgot & Hreach & _). rewrite Hon in Heq. injection Heq as <- <- <-.
    assert (forall x, raise (got (receiver s)) p x <= got mm x) as Hup.
    { intros x. unfold raise. specialize (Hgot x). destruct (Z.eqb_spec x (slice_seq p)) as [->|]; lia. }
    constructor; simpl.
    + eapply Network.reach_step; [exact Hr|by eapply Network.step_deliver].
    + intros x Hx. apply Hn. by right.
    + by eapply ordered_mono, Ho'.
    + intros Hwh seq' msg' Hseq' Hat. etrans; [by apply Hw|]. by apply (reach_mono q).
  - constructor; simpl; try done. eapply Network.reach_step; [exact Hr|by eapply Network.step_ack].
Qed.

Lemma fifo_run_inv whole f : rtc (step whole) init f -> inv whole f.
Proof. revert f. apply rtc_ind_r; [apply fifo_init_inv|]. intros y z _ Hyz IH. by eapply fifo_step_inv. Qed.

(** The slices [q] arrive, one after the other; nothing else happens.  What the
    receiver acknowledges stays on its way. *)
Fixpoint arrive (s : System) (q : list LinkProtocol) : outcome System :=
  match q with
  | [] => Ret s
  | p :: q =>
      '(ack, msgs, mm) ← on_slice epoch (receiver s) p;
      arrive (mk_system (sender s) mm (sent s) (delivered s ++ msgs) (net s) (acks s ++ option_list ack)) q
  end.

(** What is on its way can arrive. *)
Lemma arrive_inv whole q s :
  inv whole (mk_fifo s q) ->
  exists s', arrive s q = Ret s' /\ inv whole (mk_fifo s' []) /\
    sender s' = sender s /\ sent s' = sent s /\ net s' = net s.
Proof.
  revert s. induction q as [|p q IH]; intros s Hi; [by exists s|].
  pose proof Hi as [Hr Hn [Ho _] _]. simpl in *. pose proof (Network.reachable_inv _ _ Hr) as Hinv.
  pose proof (Network.inv_net _ _ Hinv) as Hg. rewrite Forall_forall in Hg.
  assert (p ∈ net s) as Hp by (apply Hn; left).
  assert (in_order (receiver s) p) as Hord by by destruct p.
  destruct (on_slice_inv epoch _ _ _ _ (Network.inv_receiver _ _ Hinv) (Hg _ Hp) Hord) as (ack & msgs & mm & Heq & _).
  pose proof (step_deliver whole (mk_fifo s (p :: q)) p q ack msgs mm eq_refl Heq) as Hstep.
  destruct (IH _ (fifo_step_inv _ _ _ Hi Hstep)) as (s' & Hrun & Hi' & H1 & H2 & H3).
  exists s'. by rewrite Heq, bind_Ret.
Qed.

(** Over a link that keeps the order and loses nothing, the receiver never
    releases anything but a prefix of what was sent, without any further
    condition, however sends are cut short, repeated and acknowledged. *)
Theorem fifo_prefix whole f : rtc (step whole) init f -> delivered (sys f) `prefix_of` sent (sys f).
Proof. intros [Hr _ _ _]%fifo_run_inv. by eapply Network.reachable_prefix. Qed.

(** C4. Over a link that keeps the order and loses nothing, and when no send is cut
    short, everything arrives without a retransmission: from every state, once
    what is on its way has arrived, and nothing else was sent, resent or
    acknowledged, every message is released (if none is empty). *)
Theorem fifo_delivers f :
  rtc (step true) init f -> Forall (fun msg => msg <> []) (sent (sys f)) ->
  exists s', arrive (sys f) (transit f) = Ret s' /\ sender s' = sender (sys f) /\ net s' = net (sys f) /\
    sent s' = sent (sys f) /\ delivered s' = sent (sys f).
Proof.
  intros Hi%fifo_run_inv Hne. destruct f as [s q].
  destruct (arrive_inv _ _ _ Hi) as (s' & Hrun & [Hr _ _ Hw] & Hsd & Hs & Hnet). simpl in *.
  exists s'. split_and!; try done. rewrite <- Hs in *. clear s q Hi Hrun Hsd Hs Hnet.
  pose proof (Network.reachable_inv _ _ Hr) as Hinv. pose proof (Network.inv_receiver _ _ Hinv) as Hrcv.
  pose proof (ri_position _ _ _ _ Hrcv) as Hpos. rewrite (ri_delivered _ _ _ _ Hrcv). apply takeZ_all.
  destruct (Z.le_gt_cases (len (sent s')) (fst (last_ack (receiver s')))) as [|Hlt]; [done|exfalso].
  destruct (atZ (sent s') (fst (last_ack (receiver s')))) as [msg|] eqn:Hat.
  2:{ apply lookup_ge_None in Hat. unfold len in Hlt. lia. }
  rewrite Forall_lookup in Hne. pose proof (Network.head_incomplete _ _ _ Hinv Hat (Hne _ _ Hat)).
  specialize (Hw eq_refl (fst (last_ack (receiver s'))) msg ltac:(lia) Hat). lia.
Qed.
End with_profile.
End Fifo.
