(* ===== verification/Clock.v ===== *)
(** * Instants, durations and the core's timer ([src/deadline.rs])

    Durations and instants count nanoseconds.  Every operation that calls
    [Instant::now()] takes the reading as its argument [now]. *)

From S2P Require Import Prelude.

Abbreviation Duration := Z.
Abbreviation Instant := Z.

Definition from_secs (s : Z) : Duration := s * 10 ^ 9.
Definition from_millis (s : Z) : Duration := s * 10 ^ 6.

(** The largest [Duration], and the first nanosecond past the largest
    [Instant] (whose seconds are an [i64]). *)
Definition DURATION_MAX : Duration := U64_MAX * 10 ^ 9 + 999999999.
Definition INSTANT_END : Instant := 2 ^ 63 * 10 ^ 9.

(** [Instant + Duration] panics on overflow, in every build profile. *)
Definition instant_add (t : Instant) (d : Duration) : outcome Instant :=
  if t + d <? INSTANT_END then Ret (t + d) else Panic.

(** [Instant::elapsed] saturates at zero. *)
Definition elapsed (now t : Instant) : Duration := saturating_sub now t.

(** [iter().sum::<Duration>()] panics on overflow. *)
Fixpoint sum_durations (acc : Duration) (l : list Duration) : outcome Duration :=
  match l with
  | [] => Ret acc
  | d :: l => if acc + d <=? DURATION_MAX then sum_durations (acc + d) l else Panic
  end.

Lemma instant_add_ok t d : t + d < INSTANT_END -> instant_add t d = Ret (t + d).
Proof. intros H. unfold instant_add. by rewrite (proj2 (Z.ltb_lt _ _)). Qed.

Lemma sum_durations_ok l acc bound :
  Forall (fun d => 0 <= d <= bound) l -> acc + len l * bound <= DURATION_MAX -> 0 <= bound ->
  sum_durations acc l = Ret (foldr Z.add acc l).
Proof.
  intros H. revert acc. induction H as [|d l Hd Hl IH]; intros acc Hb H0; [done|]. simpl.
  rewrite len_cons in Hb. pose proof (len_nonneg l). rewrite (proj2 (Z.leb_le _ _)) by nia.
  rewrite IH by nia. f_equal. clear. induction l; simpl; lia.
Qed.

Module Deadline.

(** [deadline] is the instant the boxed [Sleep] waits for. *)
Record Deadline : Type := mk_deadline {
  deadline : option Instant;
  repeat_ : option Duration;
}.

Definition new : Deadline := mk_deadline None None.

Definition new_deadline (deadline : Instant) : Deadline := mk_deadline (Some deadline) None.

Definition new_repeat (now : Instant) (interval : Duration) : outcome Deadline :=
  deadline ← instant_add now interval;
  Ret (mk_deadline (Some deadline) (Some interval)).

(** Resetting the [Sleep] and making a new one give the same waiting time. *)
Definition modify_deadline (d : Deadline) (t : Instant) : Deadline :=
  match deadline d with
  | Some _ => mk_deadline (Some t) (repeat_ d)
  | None => mk_deadline (Some t) (repeat_ d)
  end.

Definition modify_deadline_from_now (now : Instant) (d : Deadline) (after : Duration)
    : outcome Deadline :=
  deadline ← instant_add now after;
  Ret (modify_deadline d deadline).

Definition has_deadline (d : Deadline) : bool := bool_decide (is_Some (deadline d)).

Definition clear_deadline (d : Deadline) : Deadline := mk_deadline None (repeat_ d).

Definition modify_repeat (now : Instant) (d : Deadline) (interval : Duration) : outcome Deadline :=
  match deadline d with
  | None =>
      deadline ← instant_add now interval;
      Ret (mk_deadline (Some deadline) (Some interval))
  | Some deadline => Ret (mk_deadline (Some deadline) (Some interval))
  end.

Definition has_repeat (d : Deadline) : bool := bool_decide (is_Some (repeat_ d)).

Definition clear_repeat (d : Deadline) : Deadline := mk_deadline (deadline d) None.

Definition clear (d : Deadline) : Deadline := mk_deadline None None.

(** [fired] is what [Sleep::is_elapsed] says. *)
Definition is_elapsed (fired : bool) (d : Deadline) : bool :=
  match deadline d with Some _ => fired | None => false end.

(** [Future::poll]; [ready] is what polling the [Sleep] returned.  The result
    says whether the timer fired. *)
Definition poll (ready : bool) (now : Instant) (d : Deadline) : outcome (bool * Deadline) :=
  match deadline d with
  | Some _ =>
      if ready then
        match repeat_ d with
        | Some interval =>
            deadline ← instant_add now interval;
            Ret (true, mk_deadline (Some deadline) (Some interval))
        | None => Ret (true, mk_deadline None None)
        end
      else Ret (false, d)
  | None => Ret (false, d)
  end.

Definition clone (d : Deadline) : Deadline := mk_deadline (deadline d) (repeat_ d).

(** A timer fires only when armed; a repeating timer is armed again one interval
    after it fired, a one-shot timer is disarmed. *)
Lemma poll_fires ready now d d' :
  poll ready now d = Ret (true, d') ->
  has_deadline d = true /\ ready = true /\ repeat_ d' = repeat_ d /\
  deadline d' = (fun i => now + i) <$> repeat_ d.
Proof.
  unfold poll, has_deadline. destruct (deadline d) as [t|]; [|done]. destruct ready; [|done].
  destruct (repeat_ d) as [i|] eqn:E; [|by intros [= <-]].
  unfold instant_add. destruct (_ <? _); [|done]. by intros [= <-].
Qed.

(** A repeat interval given to an armed timer leaves the pending deadline in
    place: only the firings after it use the interval. *)
Lemma modify_repeat_armed now d t interval :
  deadline d = Some t -> modify_repeat now d interval = Ret (mk_deadline (Some t) (Some interval)).
Proof. unfold modify_repeat. by intros ->. Qed.
End Deadline.
