(* ===== verification/Address.v ===== *)
(** * Addresses ([src/links/address.rs])

    A [String] is the list of its UTF-8 bytes; [String::from_utf8] checks
    well-formedness.  The base64 codec is an external crate: an interface with
    the one law the code relies on. *)

From S2P Require Import Prelude Bytes Errors.

Abbreviation Str := bytes.

(** ** UTF-8 *)

Definition in_range (lo hi : Z) (b : byte) : bool := (lo <=? byte_to_Z b) && (byte_to_Z b <=? hi).

Abbreviation is_cont := (in_range 0x80 0xBF).

(** The second byte a three- or four-byte sequence may have after the first. *)
Definition second_of_3 (a b : byte) : bool :=
  if byte_to_Z a =? 0xE0 then in_range 0xA0 0xBF b
  else if byte_to_Z a =? 0xED then in_range 0x80 0x9F b
  else is_cont b.

Definition second_of_4 (a b : byte) : bool :=
  if byte_to_Z a =? 0xF0 then in_range 0x90 0xBF b
  else if byte_to_Z a =? 0xF4 then in_range 0x80 0x8F b
  else is_cont b.

Fixpoint is_utf8 (s : bytes) : bool :=
  match s with
  | [] => true
  | a :: s1 =>
      if in_range 0x00 0x7F a then is_utf8 s1
      else match s1 with
      | [] => false
      | b :: s2 =>
          if in_range 0xC2 0xDF a then is_cont b && is_utf8 s2
          else match s2 with
          | [] => false
          | c :: s3 =>
              if in_range 0xE0 0xEF a then second_of_3 a b && is_cont c && is_utf8 s3
              else match s3 with
              | [] => false
              | d :: s4 =>
                  in_range 0xF0 0xF4 a && second_of_4 a b && is_cont c && is_cont d && is_utf8 s4
              end
          end
      end
  end.

(** [String::from_utf8] *)
Definition from_utf8 (v : bytes) : option Str := if is_utf8 v then Some v else None.

(** [str::split_once] and [iter().position], on the byte of an ASCII character. *)
Fixpoint split_once (c : byte) (s : Str) : option (Str * Str) :=
  match s with
  | [] => None
  | x :: s =>
      if Byte.eqb x c then Some ([], s)
      else '(l, r) ← split_once c s; Some (x :: l, r)
  end.

Fixpoint position (c : byte) (s : bytes) : option Z :=
  match s with
  | [] => None
  | x :: s => if Byte.eqb x c then Some 0 else Z.succ <$> position c s
  end.

(** ** The base64 engine *)

Class Base64 := { b64_encode : bytes -> Str; b64_decode : Str -> option bytes }.

Class Base64Laws `{Base64} : Prop := decode_encode : forall b, b64_decode (b64_encode b) = Some b.

Module Address.

Inductive AddressRepr : Type :=
  | String (s : Str)
  | Bytes (b : bytes).

Definition STRING_SYMBOL : byte := x00.
Definition BYTES_SYMBOL : byte := x01.
Definition COLON : byte := x3a.

Record Address : Type := mk_address { scheme : Str; addr : AddressRepr }.

#[global] Instance AddressRepr_eq_dec : EqDecision AddressRepr.
Proof. solve_decision. Defined.
#[global] Instance Address_eq_dec : EqDecision Address.
Proof. solve_decision. Defined.

(** The conversions into a representation, and [Address::new]. *)
Definition repr_of_string (value : Str) : AddressRepr := String value.
Definition repr_of_str (value : Str) : AddressRepr := repr_of_string value.
Definition repr_of_vec (value : bytes) : AddressRepr := Bytes value.

Definition new {A} (into : A -> AddressRepr) (scheme : Str) (addr : A) : Address := mk_address scheme (into addr).

Definition repr_string (r : AddressRepr) : LinkSetResult Str :=
  match r with
  | String s => Ok s
  | Bytes _ => Err (IncorrectAddrType "string" "bytes")
  end.

Definition repr_bytes (r : AddressRepr) : LinkSetResult bytes :=
  match r with
  | String _ => Err (IncorrectAddrType "bytes" "string")
  | Bytes b => Ok b
  end.

Definition addr_string (a : Address) : LinkSetResult Str := repr_string (addr a).
Definition addr_bytes (a : Address) : LinkSetResult bytes := repr_bytes (addr a).

(** ** The compact form *)

Definition to_bytes (a : Address) : bytes :=
  scheme a ++ [COLON] ++
  match addr a with
  | String s => STRING_SYMBOL :: s
  | Bytes b => BYTES_SYMBOL :: b
  end.

(** Indexing out of range panics. *)
Definition index (v : bytes) (i : Z) : outcome byte := unwrap (atZ v i).

Definition from_bytes (v : bytes) : outcome (LinkSetResult Address) :=
  match position COLON v with
  | None => Ret (Err DeserializeEOF)
  | Some delim =>
      if len v <? delim + 2 then Ret (Err DeserializeEOF)
      else
        match from_utf8 (takeZ delim v) with
        | None =>
            at_delim ← index v delim;
            Ret (Err (DeserializeInvalid at_delim))
        | Some scheme =>
            symbol ← index v (delim + 1);
            let rest := dropZ (delim + 2) v in
            match symbol with
            | x00 =>
                match from_utf8 rest with
                | None => Ret (Err (DeserializeInvalid symbol))
                | Some string => Ret (Ok (mk_address scheme (String string)))
                end
            | x01 => Ret (Ok (mk_address scheme (Bytes rest)))
            | _ => Ret (Err (DeserializeInvalid symbol))
            end
        end
  end.

(** ** The text form *)

Definition TXT : Str := [x74; x78; x74].
Definition B64 : Str := [x62; x36; x34].

Section text.
Context `{Base64}.

Definition display (a : Address) : Str :=
  match addr a with
  | String s => scheme a ++ [COLON] ++ TXT ++ [COLON] ++ s
  | Bytes b => scheme a ++ [COLON] ++ B64 ++ [COLON] ++ b64_encode b
  end.

(** [None] is [AddressParseError]. *)
Definition from_str (s : Str) : option Address :=
  '(scheme, remainder) ← split_once COLON s;
  repr ←
    match split_once COLON remainder with
    | Some (repr, addr) =>
        if bool_decide (repr = TXT) then Some (String addr)
        else if bool_decide (repr = B64) then
          decoded ← b64_decode addr;
          Some (Bytes decoded)
        else Some (String remainder)
    | None => Some (String remainder)
    end;
  Some (mk_address scheme repr).

(** The [serde] implementations: an address is written as its text form; [s] is
    the string that the deserializer yields. *)
Definition serde_serialize (a : Address) : Str := display a.
Definition serde_deserialize (s : Str) : option Address := from_str s.
End text.

(** ** Round trips *)

(** What [Address] values of the program satisfy: the strings are UTF-8. *)
Definition addr_wf (a : Address) : bool :=
  is_utf8 (scheme a) && match addr a with String s => is_utf8 s | Bytes _ => true end.

(** A scheme that both forms can carry. *)
Definition plain_scheme (s : Str) : Prop := Forall (fun x => x <> COLON) s.

Lemma byte_eqb_spec (x y : byte) : reflect (x = y) (Byte.eqb x y).
Proof.
  destruct (Byte.eqb x y) eqn:E; constructor.
  - by apply Byte.byte_dec_bl.
  - intros ->. by rewrite Byte.byte_dec_lb in E.
Qed.

Lemma position_app s r : plain_scheme s -> position COLON (s ++ COLON :: r) = Some (len s).
Proof.
  induction 1 as [|x s Hx Hs IH]; simpl; [done|].
  destruct (byte_eqb_spec x COLON); [done|]. rewrite IH, len_cons. simpl. f_equal. lia.
Qed.

Lemma position_Some c v i :
  position c v = Some i ->
  exists s r, v = s ++ c :: r /\ len s = i /\ Forall (fun x => x <> c) s.
Proof.
  revert i. induction v as [|x v IH]; intros i; simpl; [done|].
  destruct (byte_eqb_spec x c) as [->|Hx].
  - intros [= <-]. by exists [], v.
  - intros H. apply fmap_Some in H as (j & Hj & ->). destruct (IH _ Hj) as (s & r & -> & <- & Hs).
    exists (x :: s), r. rewrite len_cons. split_and!; [done|lia|by constructor].
Qed.

Lemma split_once_app s r : plain_scheme s -> split_once COLON (s ++ COLON :: r) = Some (s, r).
Proof.
  induction 1 as [|x s Hx Hs IH]; simpl; [done|].
  destruct (byte_eqb_spec x COLON); [done|]. by rewrite IH.
Qed.

Lemma take_drop_at (s r : bytes) c d :
  takeZ (len s) (s ++ c :: d :: r) = s /\ dropZ (len s + 2) (s ++ c :: d :: r) = r /\
  index (s ++ c :: d :: r) (len s) = Ret c /\ index (s ++ c :: d :: r) (len s + 1) = Ret d.
Proof.
  unfold takeZ, dropZ, index, atZ, len.
  replace (Z.to_nat (Z.of_nat (length s) + 2)) with (length s + 2)%nat by lia.
  replace (Z.to_nat (Z.of_nat (length s) + 1)) with (length s + 1)%nat by lia. rewrite Nat2Z.id.
  rewrite take_app_length, <- drop_drop, drop_app_length, !lookup_app_r, Nat.sub_diag by lia.
  by replace (length s + 1 - length s)%nat with 1%nat by lia.
Qed.

(** What [from_bytes] does with the text after the first colon. *)
Lemma from_bytes_split s r c d :
  c = COLON -> plain_scheme s ->
  from_bytes (s ++ c :: d :: r) =
    Ret (if is_utf8 s then
           match d with
           | x00 => if is_utf8 r then Ok (mk_address s (String r)) else Err (DeserializeInvalid d)
           | x01 => Ok (mk_address s (Bytes r))
           | _ => Err (DeserializeInvalid d)
           end
         else Err (DeserializeInvalid c)).
Proof.
  intros -> Hs. unfold from_bytes. rewrite position_app by done.
  destruct (take_drop_at s r COLON d) as (-> & -> & -> & ->).
  rewrite len_app, !len_cons. pose proof (len_nonneg r). rewrite (proj2 (Z.ltb_ge _ _)) by lia.
  unfold from_utf8. destruct (is_utf8 s); [|done]. rewrite bind_Ret.
  by destruct d; try done; destruct (is_utf8 r).
Qed.

(** C35. [from_bytes] inverts [to_bytes] on every address whose scheme has no
    colon. *)
Theorem from_bytes_to_bytes a :
  addr_wf a = true -> plain_scheme (scheme a) -> from_bytes (to_bytes a) = Ret (Ok a).
Proof.
  destruct a as [s r]. intros [Hs Hr]%andb_true_iff Hp. simpl in *. unfold to_bytes. simpl.
  destruct r; simpl; rewrite from_bytes_split by done; rewrite Hs; [by rewrite Hr|done].
Qed.

(** C36. [from_bytes] never panics, and accepts exactly the compact forms: what it
    accepts is [to_bytes] of the address it returns. *)
Theorem from_bytes_exact v :
  exists r, from_bytes v = Ret r /\
    forall a, r = Ok a -> to_bytes a = v /\ addr_wf a = true /\ plain_scheme (scheme a).
Proof.
  destruct (position COLON v) as [i|] eqn:Hp.
  2:{ unfold from_bytes. rewrite Hp. eexists. split; [done|]. done. }
  destruct (position_Some _ _ _ Hp) as (s & r & -> & <- & Hs). destruct r as [|d r].
  { unfold from_bytes. rewrite Hp, len_app. change (len [COLON]) with 1.
    rewrite (proj2 (Z.ltb_lt _ _)) by lia. eexists. split; [done|]. done. }
  rewrite from_bytes_split by done. eexists. split; [done|]. intros a.
  destruct (is_utf8 s) eqn:E; [|done]. unfold addr_wf.
  destruct d; try done; [destruct (is_utf8 r) eqn:E'; [|done]|];
    intros [= <-]; simpl; by rewrite E, ?E'.
Qed.

(** Parsing inverts printing on every address whose scheme has no colon. *)
Theorem from_str_display `{Base64Laws} a : plain_scheme (scheme a) -> from_str (display a) = Some a.
Proof.
  destruct a as [s r]. intros Hp. simpl in Hp. unfold from_str, display. simpl addr. simpl scheme.
  destruct r as [t|b]; cbn [app]; rewrite split_once_app by done; simpl; [done|].
  by rewrite decode_encode.
Qed.
End Address.
Export Address (Address).
