(* ===== verification/Base64Codec.v ===== *)
(** * A base64 codec

    The codec that [Address] takes from outside, written from RFC 4648 with the
    URL-safe alphabet and mandatory padding: an instance of the interface, to run
    the definitions that depend on it. *)

From S2P Require Import Prelude Bytes Address.

Module Base64Codec.

(** The 64 characters, as the byte of each value; [x3d] pads. *)
Definition char (d : Z) : byte :=
  byte_of_Z (if d <? 26 then 65 + d else if d <? 52 then 71 + d else if d <? 62 then d - 4
             else if d =? 62 then 45 else 95).

Definition value (c : byte) : option Z :=
  let n := byte_to_Z c in
  if (65 <=? n) && (n <=? 90) then Some (n - 65)
  else if (97 <=? n) && (n <=? 122) then Some (n - 71)
  else if (48 <=? n) && (n <=? 57) then Some (n + 4)
  else if n =? 45 then Some 62
  else if n =? 95 then Some 63
  else None.

Definition PAD : byte := x3d.

(** The [i]-th of the four digits of 24 bits. *)
Definition digit (v i : Z) : Z := v / 64 ^ (3 - i) mod 64.

Definition bits (x y z : byte) : Z := byte_to_Z x * 65536 + byte_to_Z y * 256 + byte_to_Z z.

Fixpoint encode (l : bytes) : Str :=
  match l with
  | [] => []
  | [x] => let v := bits x x00 x00 in [char (digit v 0); char (digit v 1); PAD; PAD]
  | [x; y] => let v := bits x y x00 in [char (digit v 0); char (digit v 1); char (digit v 2); PAD]
  | x :: y :: z :: l =>
      let v := bits x y z in
      char (digit v 0) :: char (digit v 1) :: char (digit v 2) :: char (digit v 3) :: encode l
  end.

(** The bytes of 24 bits. *)
Definition byte_at (v i : Z) : byte := byte_of_Z (v / 256 ^ (2 - i)).

(** A padded group is the last one, and its unused bits are zero. *)
Fixpoint decode (s : Str) : option bytes :=
  match s with
  | [] => Some []
  | p :: q :: r :: t :: s =>
      if Byte.eqb t PAD then
        if negb (bool_decide (s = [])) then None
        else
          p ← value p;
          q ← value q;
          if Byte.eqb r PAD then
            let v := p * 262144 + q * 4096 in
            if v mod 65536 =? 0 then Some [byte_at v 0] else None
          else
            r ← value r;
            let v := p * 262144 + q * 4096 + r * 64 in
            if v mod 256 =? 0 then Some [byte_at v 0; byte_at v 1] else None
      else
        p ← value p;
        q ← value q;
        r ← value r;
        t ← value t;
        let v := p * 262144 + q * 4096 + r * 64 + t in
        rest ← decode s;
        Some (byte_at v 0 :: byte_at v 1 :: byte_at v 2 :: rest)
  | _ => None
  end.

(** ** Decoding inverts encoding *)

Lemma digits_checked : forallb (fun n => bool_decide (value (char (Z.of_nat n)) = Some (Z.of_nat n)) &&
  negb (Byte.eqb (char (Z.of_nat n)) PAD)) (seq 0 64) = true.
Proof. vm_compute. reflexivity. Qed.

Lemma value_char d : 0 <= d < 64 -> value (char d) = Some d /\ Byte.eqb (char d) PAD = false.
Proof.
  intros H. pose proof digits_checked as Hc. rewrite forallb_forall in Hc.
  specialize (Hc (Z.to_nat d) ltac:(apply in_seq; lia)). rewrite Z2Nat.id in Hc by lia.
  apply andb_true_iff in Hc as [H1%bool_decide_eq_true H2%negb_true_iff]. done.
Qed.

Lemma digit_range v i : 0 <= digit v i < 64.
Proof. unfold digit. apply Z.mod_pos_bound. lia. Qed.

Lemma value_digit v i : value (char (digit v i)) = Some (digit v i).
Proof. apply value_char, digit_range. Qed.

Lemma not_pad v i : Byte.eqb (char (digit v i)) PAD = false.
Proof. apply value_char, digit_range. Qed.

(** The four digits make up the 24 bits, and the bits the three bytes. *)
Lemma digits_bits x y z :
  let v := bits x y z in
  digit v 0 * 262144 + digit v 1 * 4096 + digit v 2 * 64 + digit v 3 = v /\
  byte_at v 0 = x /\ byte_at v 1 = y /\ byte_at v 2 = z.
Proof.
  pose proof (byte_to_Z_range x). pose proof (byte_to_Z_range y). pose proof (byte_to_Z_range z).
  unfold digit, byte_at, bits.
  change (256 ^ (2 - 0)) with 65536. change (256 ^ (2 - 1)) with 256. change (256 ^ (2 - 2)) with 1.
  change (64 ^ (3 - 0)) with 262144. change (64 ^ (3 - 1)) with 4096. change (64 ^ (3 - 2)) with 64.
  change (64 ^ (3 - 3)) with 1. split_and!.
  - Z.div_mod_to_equations. lia.
  - rewrite <- (byte_of_to_Z x) at 2. f_equal. Z.div_mod_to_equations. lia.
  - rewrite <- (byte_of_to_Z y) at 2.
    assert ((byte_to_Z x * 65536 + byte_to_Z y * 256 + byte_to_Z z) / 256 = byte_to_Z x * 256 + byte_to_Z y) as ->
      by (Z.div_mod_to_equations; lia).
    unfold byte_of_Z. by rewrite Z.add_comm, Z.mod_add.
  - rewrite <- (byte_of_to_Z z) at 2. rewrite Z.div_1_r.
    replace (byte_to_Z x * 65536 + byte_to_Z y * 256 + byte_to_Z z)
      with (byte_to_Z z + (byte_to_Z x * 256 + byte_to_Z y) * 256) by lia.
    unfold byte_of_Z. by rewrite Z.mod_add.
Qed.

(** Unused digits of a padded group are zero. *)
Lemma digits_short x y :
  digit (bits x x00 x00) 2 = 0 /\ digit (bits x x00 x00) 3 = 0 /\ digit (bits x y x00) 3 = 0.
Proof.
  pose proof (byte_to_Z_range x). pose proof (byte_to_Z_range y). unfold digit, bits. change (byte_to_Z x00) with 0.
  simpl Z.pow. split_and!; Z.div_mod_to_equations; lia.
Qed.

Lemma bits_short x y : bits x x00 x00 mod 65536 = 0 /\ bits x y x00 mod 256 = 0.
Proof. unfold bits. change (byte_to_Z x00) with 0. split; Z.div_mod_to_equations; lia. Qed.

Lemma decode_encoded l : decode (encode l) = Some l.
Proof.
  assert (forall n l, (length l <= n)%nat -> decode (encode l) = Some l) as H; [|by eapply H].
  clear l. induction n as [|n IH]; intros l Hl; [by destruct l; [|simpl in Hl; lia]|].
  destruct l as [|x [|y [|z l]]]; [done|..]; cbn [encode decode]; rewrite ?not_pad.
  - change (Byte.eqb PAD PAD) with true. simpl. rewrite !value_digit. simpl.
    destruct (digits_bits x x00 x00) as (Hv & Hx & _), (digits_short x x) as (H2 & H3 & _), (bits_short x x) as [Hm _].
    rewrite H2, H3, Z.mul_0_l, !Z.add_0_r in Hv. by rewrite Hv, Hm, Hx.
  - change (Byte.eqb PAD PAD) with true. simpl. rewrite !value_digit. simpl.
    destruct (digits_bits x y x00) as (Hv & Hx & Hy & _), (digits_short x y) as (_ & _ & H3), (bits_short x y) as [_ Hm].
    rewrite H3, Z.add_0_r in Hv. by rewrite Hv, Hm, Hx, Hy.
  - rewrite !value_digit. simpl. destruct (digits_bits x y z) as (-> & -> & -> & ->).
    rewrite IH; [done|]. simpl in Hl. lia.
Qed.

Definition url_safe : Base64 := {| b64_encode := encode; b64_decode := decode |}.

Lemma url_safe_laws : @Base64Laws url_safe.
Proof. exact decode_encoded. Qed.
End Base64Codec.
