(* ===== verification/Outside.v ===== *)
(** * What lies outside the core

    The links and connectors an application supplies ([src/links/link.rs],
    [src/links/connector.rs]: the traits [PinnedLink] and
    [PinnedLinkConnector]) and the clock.  Links and the clock change on their
    own, so every question to them is numbered: the [n]-th interaction of the
    core with the outside passes [n]. *)

From S2P Require Import Prelude Bytes Errors Clock Address.

Class Outside := {
  link : Type;
  link_scheme : link -> Str;
  link_max_size : link -> Z;
  link_send : nat -> link -> bytes -> LinkSetResult unit * link;
  link_is_closed : nat -> link -> bool * link;
  link_take_reader : nat -> link -> LinkSetResult unit * link;
  connector : Type;
  connector_scheme : connector -> Str;
  clock : nat -> Instant;
}.

(** The longest time span we consider: far beyond any uptime or timeout, and
    far below the overflow of instants and durations. *)
Definition SPAN : Duration := from_secs (2 ^ 60).

(** The documented contract: [max_size] is a [u32] that does not change; and the
    readings of the clock lie within [SPAN]. *)
Class OutsideLaws {O : Outside} : Prop := {
  max_size_u32 l : is_u32 (link_max_size l);
  max_size_send n l b : link_max_size (snd (link_send n l b)) = link_max_size l;
  max_size_is_closed n l : link_max_size (snd (link_is_closed n l)) = link_max_size l;
  max_size_take_reader n l : link_max_size (snd (link_take_reader n l)) = link_max_size l;
  clock_range n : 0 <= clock n <= SPAN;
}.

(** ** Maps keyed by bytes and by addresses *)

#[export] Instance byte_countable : Countable byte.
Proof.
  refine (inj_countable Byte.to_N Byte.of_N _). intros x. apply Byte.of_to_N.
Defined.

#[export] Instance AddressRepr_countable : Countable Address.AddressRepr.
Proof.
  refine (inj_countable'
    (fun r => match r with Address.String s => inl s | Address.Bytes b => inr b end)
    (fun x => match x with inl s => Address.String s | inr b => Address.Bytes b end) _).
  by intros [].
Defined.

#[export] Instance Address_countable : Countable Address.
Proof.
  refine (inj_countable' (fun a => (Address.scheme a, Address.addr a))
    (fun x => Address.mk_address (fst x) (snd x)) _). by intros [].
Defined.
