(* ===== verification/Channels.v ===== *)
(** * Bounded channels ([tokio::sync::mpsc])

    A channel is its queue, its capacity, whether the receiving half was closed
    or dropped, and how many senders are left.  An operation that would have to
    wait is [Pending] and changes nothing. *)

From S2P Require Import Prelude.

(** [std::task::Poll]. *)
Inductive Poll (A : Type) : Type :=
  | Ready (a : A)
  | Pending.
Arguments Ready {_} _ : assert.
Arguments Pending {_} : assert.

#[export] Instance Poll_eq_dec `{EqDecision A} : EqDecision (Poll A).
Proof. solve_decision. Defined.

Module Channel.
Section with_type.
Context {A : Type}.

Record Chan : Type := mk_chan {
  queue : list A;
  capacity : Z;
  rx_closed : bool;
  senders : Z;
}.

Definition set_queue (c : Chan) (q : list A) : Chan := mk_chan q (capacity c) (rx_closed c) (senders c).

(** [channel(n)] panics on a capacity of zero. *)
Definition channel (n : Z) : outcome Chan := if n =? 0 then Panic else Ret (mk_chan [] n false 1).

Inductive TrySendError : Type := Full | ClosedChannel.

(** [Sender::try_reserve] followed by [Permit::send], and [Sender::try_send]. *)
Definition try_send (c : Chan) (x : A) : result TrySendError Chan :=
  if rx_closed c then Err ClosedChannel
  else if len (queue c) <? capacity c then Ok (set_queue c (queue c ++ [x]))
  else Err Full.

(** [Sender::send]. *)
Definition send (c : Chan) (x : A) : Poll (result unit unit) * Chan :=
  match try_send c x with
  | Ok c => (Ready (Ok tt), c)
  | Err ClosedChannel => (Ready (Err tt), c)
  | Err Full => (Pending, c)
  end.

(** [Receiver::recv]: what is queued can still be received after the channel was
    closed. *)
Definition recv (c : Chan) : Poll (option A) * Chan :=
  match queue c with
  | x :: q => (Ready (Some x), set_queue c q)
  | [] => if rx_closed c || (senders c =? 0) then (Ready None, c) else (Pending, c)
  end.

(** [Receiver::close]. *)
Definition close (c : Chan) : Chan := mk_chan (queue c) (capacity c) true (senders c).

(** [Sender::is_closed]. *)
Definition is_closed (c : Chan) : bool := rx_closed c.

Definition clone_sender (c : Chan) : Chan := mk_chan (queue c) (capacity c) (rx_closed c) (senders c + 1).
Definition drop_sender (c : Chan) : Chan := mk_chan (queue c) (capacity c) (rx_closed c) (senders c - 1).

(** Dropping the receiver closes the channel and drops what is queued. *)
Definition drop_receiver (c : Chan) : Chan := mk_chan [] (capacity c) true (senders c).

(** The queue is all a sequence of sends and receives depends on: what was taken
    out, followed by what is queued, is what was put in. *)
Lemma try_send_queue c x c' : try_send c x = Ok c' -> c' = set_queue c (queue c ++ [x]).
Proof. unfold try_send. destruct (rx_closed c); [done|]. destruct (_ <? _); by intros [= <-]. Qed.

Lemma send_Ready c x r c' :
  send c x = (Ready r, c') ->
  r = Ok tt /\ c' = set_queue c (queue c ++ [x]) \/ r = Err tt /\ c' = c.
Proof.
  unfold send. destruct (try_send c x) as [c1|[]] eqn:E; intros [= <- <-]; [|by right].
  left. by apply try_send_queue in E.
Qed.

Lemma send_Pending c x c' : send c x = (Pending, c') -> c' = c.
Proof. unfold send. by destruct (try_send c x) as [c1|[]]; intros [= <-]. Qed.

Lemma recv_Some c x c' : recv c = (Ready (Some x), c') -> queue c = x :: queue c' /\ c' = set_queue c (queue c').
Proof.
  unfold recv. destruct (queue c) as [|y q]; [by destruct (_ || _)|]. by intros [= <- <-].
Qed.

Lemma send_ok c x :
  rx_closed c = false -> len (queue c) < capacity c ->
  send c x = (Ready (Ok tt), set_queue c (queue c ++ [x])).
Proof.
  intros Hc Hq. unfold send, try_send. by rewrite Hc, (proj2 (Z.ltb_lt _ _)).
Qed.
End with_type.
Arguments Chan : clear implicits.
End Channel.
