(* ===== verification/Tcp.v ===== *)
(** * TCP links ([src/link_impls/tcp_link.rs])

    Framing of chunks on a byte stream, the link with its reading task, socket
    addresses in their binary form, and the listener.  A socket is what the
    operating system delivers: the results of the successive calls of
    [AsyncReadExt::read] on a buffer of 1024 bytes, of which an empty one is the
    end of the stream. *)

From S2P Require Import Prelude Bytes Errors Address Channels.

Module Tcp.

Definition TCP_SCHEME : Str := [x74; x63; x70].

(** The kinds of [std::io::Error] the code distinguishes. *)
Inductive ErrorKind : Type := ConnectionAborted | ConnectionReset | ConnectionRefused | OtherKind.

#[export] Instance ErrorKind_eq_dec : EqDecision ErrorKind.
Proof. solve_decision. Defined.

Inductive TcpLinkError : Type :=
  | Io (e : ErrorKind)
  | ReceiverTaken
  | InvalidAddr
  | Closed.

#[export] Instance TcpLinkError_eq_dec : EqDecision TcpLinkError.
Proof. solve_decision. Defined.

Abbreviation TcpLinkResult := (result TcpLinkError).

(** One completed [reader.read(&mut buf)]. *)
Abbreviation Read := (result ErrorKind bytes).

(** [x as u32]. *)
Definition as_u32 (x : Z) : Z := x mod 2 ^ 32.

(** ** Reading a chunk *)

(** The state [recv_chunk] keeps between calls. *)
Record ReadState : Type := mk_read_state {
  read_len : option Z;
  read_buffer : bytes;
}.

(** The first loop of [recv_chunk]: reads until the length of the chunk is there. *)
Fixpoint length_loop (reads : list Read) (buffer : bytes)
    : Poll (TcpLinkResult Z) * ReadState * list Read :=
  if 4 <=? len buffer then
    let n := from_be_bytes (takeZ 4 buffer) in
    (Ready (Ok n), mk_read_state (Some n) (dropZ 4 buffer), reads)
  else
    match reads with
    | [] => (Pending, mk_read_state None buffer, [])
    | Err e :: reads => (Ready (Err (Io e)), mk_read_state None buffer, reads)
    | Ok [] :: reads => (Ready (Err Closed), mk_read_state None buffer, reads)
    | Ok x :: reads => length_loop reads (buffer ++ x)
    end.

(** The second loop: reads until the chunk is complete. *)
Fixpoint data_loop (n : Z) (reads : list Read) (buffer : bytes)
    : Poll (TcpLinkResult bytes) * ReadState * list Read :=
  if n <=? as_u32 (len buffer) then
    (Ready (Ok (takeZ n buffer)), mk_read_state None (dropZ n buffer), reads)
  else
    match reads with
    | [] => (Pending, mk_read_state (Some n) buffer, [])
    | Err e :: reads => (Ready (Err (Io e)), mk_read_state (Some n) buffer, reads)
    | Ok [] :: reads => (Ready (Err Closed), mk_read_state (Some n) buffer, reads)
    | Ok x :: reads => data_loop n reads (buffer ++ x)
    end.

(** [recv_chunk], given the reads that complete while it runs; [Pending] when it
    waits for another one. *)
Definition recv_chunk (st : ReadState) (reads : list Read)
    : Poll (TcpLinkResult bytes) * ReadState * list Read :=
  match read_len st with
  | Some n => data_loop n reads (read_buffer st)
  | None =>
      match length_loop reads (read_buffer st) with
      | (Ready (Ok n), st, reads) => data_loop n reads (read_buffer st)
      | (Ready (Err e), st, reads) => (Ready (Err e), st, reads)
      | (Pending, st, reads) => (Pending, st, reads)
      end
  end.

(** ** Writing a chunk *)

(** [write_all] on the socket: everything is written, or an error occurs after
    some of the bytes. *)
Definition write_all (failure : option (nat * ErrorKind)) (out data : bytes)
    : result ErrorKind unit * bytes :=
  match failure with
  | None => (Ok tt, out ++ data)
  | Some (k, e) => (Err e, out ++ take k data)
  end.

Definition write_chunk (f1 f2 : option (nat * ErrorKind)) (out data : bytes) : TcpLinkResult unit * bytes :=
  match write_all f1 out (u32_to_be_bytes (as_u32 (len data))) with
  | (Err e, out) => (Err (Io e), out)
  | (Ok _, out) =>
      match write_all f2 out data with
      | (Err e, out) => (Err (Io e), out)
      | (Ok _, out) => (Ok tt, out)
      end
  end.

(** ** The link *)

(** [socket_writer] is what was written to the socket.  The flag [is_closed] is
    shared with the reading task. *)
Record TcpLink : Type := mk_tcp_link {
  socket_reader : option (list Read);
  socket_writer : bytes;
  read_state : ReadState;
  closed_flag : bool;
}.

Definition set_closed (l : TcpLink) : TcpLink :=
  mk_tcp_link (socket_reader l) (socket_writer l) (read_state l) true.

(** The link over a new socket, as [listen] and [connect] make it. *)
Definition from_socket (reads : list Read) : TcpLink :=
  mk_tcp_link (Some reads) [] (mk_read_state None []) false.

Definition read_chunk (l : TcpLink) : Poll (TcpLinkResult bytes) * TcpLink :=
  match socket_reader l with
  | None => (Ready (Err ReceiverTaken), l)
  | Some reads =>
      let '(res, st, reads) := recv_chunk (read_state l) reads in
      (res, mk_tcp_link (Some reads) (socket_writer l) st (closed_flag l))
  end.

Definition send (f1 f2 : option (nat * ErrorKind)) (l : TcpLink) (msg : bytes) : TcpLinkResult unit * TcpLink :=
  let (res, out) := write_chunk f1 f2 (socket_writer l) msg in
  let l := mk_tcp_link (socket_reader l) out (read_state l) (closed_flag l) in
  match res with
  | Ok _ => (res, l)
  | Err _ => (res, set_closed l)
  end.

Definition recv (l : TcpLink) : Poll (TcpLinkResult bytes) * TcpLink :=
  let (res, l) := read_chunk l in
  match res with
  | Ready (Err ReceiverTaken) => (res, l)
  | Ready (Err _) => (res, set_closed l)
  | _ => (res, l)
  end.

Definition max_size (l : TcpLink) : Z := U32_MAX - 4.

Definition is_closed (l : TcpLink) : bool := closed_flag l.

(** ** The reading task *)

(** What the spawned task is doing: reading, or waiting to put a chunk on the
    channel. *)
Inductive Phase : Type :=
  | Reading
  | Sending (chunk : bytes)
  | Ended.

Record Task : Type := mk_task {
  tk_reader : list Read;
  tk_state : ReadState;
  tk_phase : Phase;
  tk_chan : Channel.Chan bytes;
}.

Definition take_reader (l : TcpLink) : TcpLinkResult Task * TcpLink :=
  match socket_reader l with
  | None => (Err ReceiverTaken, l)
  | Some reads =>
      (Ok (mk_task reads (read_state l) Reading (Channel.mk_chan [] 10 false 1)),
       mk_tcp_link None (socket_writer l) (mk_read_state None []) (closed_flag l))
  end.

(** One step of the task's loop, with the shared flag.  When the task returns it
    drops its sender. *)
Definition task_step (flag : bool) (t : Task) : bool * Task :=
  match tk_phase t with
  | Reading =>
      match recv_chunk (tk_state t) (tk_reader t) with
      | (Ready (Ok chunk), st, reads) => (flag, mk_task reads st (Sending chunk) (tk_chan t))
      | (Ready (Err _), st, reads) => (true, mk_task reads st Ended (Channel.drop_sender (tk_chan t)))
      | (Pending, st, reads) => (flag, mk_task reads st Reading (tk_chan t))
      end
  | Sending chunk =>
      match Channel.send (tk_chan t) chunk with
      | (Ready (Ok _), c) => (flag, mk_task (tk_reader t) (tk_state t) Reading c)
      | (Ready (Err _), c) => (true, mk_task (tk_reader t) (tk_state t) Ended (Channel.drop_sender c))
      | (Pending, c) => (flag, mk_task (tk_reader t) (tk_state t) (Sending chunk) c)
      end
  | Ended => (flag, t)
  end.

(** [TcpLinkReader::read]. *)
Definition reader_read (c : Channel.Chan bytes) : Poll (TcpLinkResult bytes) * Channel.Chan bytes :=
  match Channel.recv c with
  | (Ready o, c) => (Ready (ok_or Closed o), c)
  | (Pending, c) => (Pending, c)
  end.

(** ** Socket addresses *)

(** [std::net::SocketAddr]; an address is its octets. *)
Inductive SocketAddr : Type :=
  | V4 (ip : bytes) (port : Z)
  | V6 (ip : bytes) (port flowinfo scope_id : Z).

#[export] Instance SocketAddr_eq_dec : EqDecision SocketAddr.
Proof. solve_decision. Defined.

Definition addr_of_socket (value : SocketAddr) : Address.AddressRepr :=
  Address.Bytes
    match value with
    | V4 ip port => ip ++ u16_to_be_bytes port
    | V6 ip port _ _ => ip ++ u16_to_be_bytes port
    end.

Section with_parser.

(** [str::parse::<SocketAddr>]. *)
Context (parse : Str -> option SocketAddr).

Definition socket_of_addr (value : Address.AddressRepr) : TcpLinkResult SocketAddr :=
  match value with
  | Address.String addr => ok_or InvalidAddr (parse addr)
  | Address.Bytes b =>
      if len b =? 6 then Ok (V4 (takeZ 4 b) (from_be_bytes (dropZ 4 b)))
      else if len b =? 18 then Ok (V6 (takeZ 16 b) (from_be_bytes (dropZ 16 b)) 0 0)
      else Err InvalidAddr
  end.

(** What [TcpLink::connect] is called with: a host to be resolved or a socket
    address. *)
Inductive Target : Type :=
  | Host (s : Str)
  | Socket (a : SocketAddr).

(** [open] is [TcpStream::connect]: the reads of the new socket. *)
Definition connect (open : Target -> result ErrorKind (list Read)) (addr : Target) : TcpLinkResult TcpLink :=
  match open addr with
  | Ok reads => Ok (from_socket reads)
  | Err e => Err (Io e)
  end.

Definition connect_address (open : Target -> result ErrorKind (list Read)) (addr : Address.AddressRepr)
    : TcpLinkResult TcpLink :=
  match addr with
  | Address.String s => connect open (Host s)
  | Address.Bytes _ =>
      match socket_of_addr addr with
      | Ok a => connect open (Socket a)
      | Err e => Err e
      end
  end.
End with_parser.

(** ** The listener *)

(** The listening task: it ends when the channel of new links is closed; an error
    of [accept] is either ignored or waited out for a second. *)
Inductive ListenPhase : Type :=
  | Accepting
  | Emitting (l : TcpLink)
  | Waiting
  | Stopped.

Record Listener : Type := mk_listener {
  ls_phase : ListenPhase;
  ls_chan : Channel.Chan TcpLink;
}.

Definition listen (bind : result ErrorKind unit) : TcpLinkResult Listener :=
  match bind with
  | Ok _ => Ok (mk_listener Accepting (Channel.mk_chan [] 50 false 1))
  | Err e => Err (Io e)
  end.

(** [accept] returned [res]. *)
Definition on_accept (l : Listener) (res : result ErrorKind (list Read)) : Listener :=
  match ls_phase l with
  | Accepting =>
      match res with
      | Ok reads => mk_listener (Emitting (from_socket reads)) (ls_chan l)
      | Err ConnectionAborted | Err ConnectionReset | Err ConnectionRefused => l
      | Err OtherKind => mk_listener Waiting (ls_chan l)
      end
  | _ => l
  end.

(** The task goes on: the link is put on the channel, or the second is over. *)
Definition listen_step (l : Listener) : Listener :=
  match ls_phase l with
  | Emitting link =>
      match Channel.send (ls_chan l) link with
      | (Ready (Ok _), c) => mk_listener Accepting c
      | (Ready (Err _), c) => mk_listener Stopped (Channel.drop_sender c)
      | (Pending, c) => mk_listener (Emitting link) c
      end
  | Waiting => mk_listener Accepting (ls_chan l)
  | _ => l
  end.

(** ** The address forms are inverse *)

Definition socket_wf (a : SocketAddr) : Prop :=
  match a with
  | V4 ip port => len ip = 4 /\ 0 <= port < 2 ^ 16
  | V6 ip port flowinfo scope_id => len ip = 16 /\ 0 <= port < 2 ^ 16 /\ flowinfo = 0 /\ scope_id = 0
  end.

Lemma len_u16 p : len (u16_to_be_bytes p) = 2.
Proof. unfold u16_to_be_bytes. apply len_to_be_bytes. Qed.

Lemma u16_roundtrip p : 0 <= p < 2 ^ 16 -> from_be_bytes (u16_to_be_bytes p) = p.
Proof. intros. apply from_to_be_bytes_id. done. Qed.

Lemma u16_of_two b : len b = 2 -> u16_to_be_bytes (from_be_bytes b) = b.
Proof.
  intros H. rewrite <- (to_from_be_bytes b) at 2. unfold u16_to_be_bytes, len in *. f_equal. lia.
Qed.

(** C37. Socket addresses survive the conversion to address bytes and back, and
    the bytes that are accepted (6 or 18 of them) are exactly what the conversion
    produces; everything else is refused.  The flow information and the scope of
    an IPv6 address are not part of the bytes. *)
Theorem socket_address_roundtrip parse :
  (forall a, socket_wf a -> socket_of_addr parse (addr_of_socket a) = Ok a) /\
  (forall b, match socket_of_addr parse (Address.Bytes b) with
             | Ok a => socket_wf a /\ addr_of_socket a = Address.Bytes b
             | Err e => e = InvalidAddr /\ len b <> 6 /\ len b <> 18
             end).
Proof.
  split.
  - intros [ip port|ip port fl sc]; simpl.
    + intros [Hip Hp]. rewrite len_app, len_u16, Hip, (takeZ_app 4), (dropZ_app 4) by lia. cbn -[u16_to_be_bytes].
      by rewrite u16_roundtrip.
    + intros (Hip & Hp & -> & ->). rewrite len_app, len_u16, Hip, (takeZ_app 16), (dropZ_app 16) by lia. cbn -[u16_to_be_bytes].
      by rewrite u16_roundtrip.
  - intros b. simpl. destruct (Z.eqb_spec (len b) 6) as [H6|H6]; [|destruct (Z.eqb_spec (len b) 18) as [H18|H18]].
    + pose proof (from_be_bytes_range (dropZ 4 b)) as Hr. rewrite len_dropZ, H6 in Hr by lia.
      unfold addr_of_socket. simpl. rewrite len_takeZ by lia. split; [lia|].
      rewrite u16_of_two by (rewrite len_dropZ by lia; lia). by rewrite takeZ_dropZ.
    + pose proof (from_be_bytes_range (dropZ 16 b)) as Hr. rewrite len_dropZ, H18 in Hr by lia.
      unfold addr_of_socket. simpl. rewrite len_takeZ by lia. split; [lia|].
      rewrite u16_of_two by (rewrite len_dropZ by lia; lia). by rewrite takeZ_dropZ.
    + by split_and!.
Qed.
End Tcp.
