(* ===== verification/TcpTheory.v ===== *)
(** * Framing on a TCP link

    [recv_chunk] can be interrupted and called again without losing a byte; and
    whatever the segmentation of the stream, the chunks that come out of a link
    are the chunks that were sent into it, with their boundaries, up to the first
    write that fails.  The link does not refuse to send after that, and what is
    sent then may be cut up wrongly. *)

From S2P Require Import Prelude Bytes Errors Address Channels Tcp.

Module TcpTheory.
Import Tcp.

(** ** Resumption *)

Lemma length_loop_resume r1 b st r :
  length_loop r1 b = (Pending, st, r) ->
  r = [] /\ read_len st = None /\ forall r2, length_loop (r1 ++ r2) b = length_loop r2 (read_buffer st).
Proof.
  revert b. induction r1 as [|x r1 IH]; intros b; cbn [length_loop app].
  - destruct (4 <=? len b) eqn:E; [done|]. by intros [= <- <-].
  - destruct (4 <=? len b) eqn:E; [done|]. destruct x as [[|y x]|e]; try done. apply IH.
Qed.

Lemma data_loop_resume n r1 b st r :
  data_loop n r1 b = (Pending, st, r) ->
  r = [] /\ read_len st = Some n /\ forall r2, data_loop n (r1 ++ r2) b = data_loop n r2 (read_buffer st).
Proof.
  revert b. induction r1 as [|x r1 IH]; intros b; cbn [data_loop app].
  - destruct (n <=? as_u32 (len b)) eqn:E; [done|]. by intros [= <- <-].
  - destruct (n <=? as_u32 (len b)) eqn:E; [done|]. destruct x as [[|y x]|e]; try done. apply IH.
Qed.

(** Once the length is there, the reads that follow do not change it. *)
Lemma length_loop_Ready r1 b res st r :
  length_loop r1 b = (Ready res, st, r) ->
  forall r2, length_loop (r1 ++ r2) b = (Ready res, st, r ++ r2).
Proof.
  revert b. induction r1 as [|x r1 IH]; intros b; cbn [length_loop app].
  - destruct (4 <=? len b) eqn:E; [|done]. intros [= <- <- <-] r2. destruct r2; cbn [length_loop]; by rewrite E.
  - destruct (4 <=? len b) eqn:E; [by intros [= <- <- <-]|].
    destruct x as [[|y x]|e]; try (by intros [= <- <- <-]). apply IH.
Qed.

Lemma length_loop_Ok r b n st r' : length_loop r b = (Ready (Ok n), st, r') -> read_len st = Some n.
Proof.
  revert b. induction r as [|x r IH]; intros b; cbn [length_loop].
  - destruct (4 <=? len b); [by intros [= <- <-]|done].
  - destruct (4 <=? len b); [by intros [= <- <-]|]. destruct x as [[|y x]|e]; try done. apply IH.
Qed.

(** C15. A read of a chunk that is abandoned while it waits (its future is
    dropped) loses nothing: calling [recv_chunk] again with the state it left
    behind behaves as if the first call had gone on. *)
Theorem recv_chunk_resumable st r1 r2 st' r' :
  recv_chunk st r1 = (Pending, st', r') -> r' = [] /\ recv_chunk st (r1 ++ r2) = recv_chunk st' r2.
Proof.
  unfold recv_chunk. destruct (read_len st) as [n|].
  - intros (-> & Hn & Hr)%data_loop_resume. rewrite Hn. auto.
  - destruct (length_loop r1 (read_buffer st)) as [[[[n|e]|] st1] r] eqn:E; [|done|].
    + intros (-> & Hn & Hr)%data_loop_resume. rewrite (length_loop_Ready _ _ _ _ _ E), Hr, Hn. auto.
    + intros [= <- <-]. apply length_loop_resume in E as (-> & Hn & Hr). rewrite Hn, Hr. auto.
Qed.

(** ** Frames *)

Definition frame (m : bytes) : bytes := u32_to_be_bytes (len m) ++ m.

Lemma len_frame m : len (frame m) = 4 + len m.
Proof. unfold frame. rewrite len_app. unfold u32_to_be_bytes. by rewrite len_to_be_bytes. Qed.

(** What was taken from the socket and not yet returned. *)
Definition unread (st : ReadState) : bytes :=
  match read_len st with Some n => u32_to_be_bytes n | None => [] end ++ read_buffer st.

(** Reads that bring data, as the socket delivers them into a buffer of 1024
    bytes. *)
Definition good_read (r : Read) : Prop :=
  match r with Ok x => 1 <= len x <= 1024 | Err _ => False end.

Definition read_data (r : Read) : bytes := match r with Ok x => x | Err _ => [] end.

Definition arrived (reads : list Read) : bytes := concat (read_data <$> reads).

Lemma arrived_app r1 r2 : arrived (r1 ++ r2) = arrived r1 ++ arrived r2.
Proof. unfold arrived. by rewrite fmap_app, concat_app. Qed.

(** The largest chunk whose end the buffer never runs past 4 GiB for. *)
Definition CHUNK_LIMIT : Z := U32_MAX - 1023.

Definition state_ok (st : ReadState) : Prop :=
  match read_len st with
  | None => len (read_buffer st) <= 1027
  | Some n => 0 <= n <= CHUNK_LIMIT /\ len (read_buffer st) <= Z.max 1027 (n + 1023)
  end.

Lemma as_u32_small x : 0 <= x <= U32_MAX -> as_u32 x = x.
Proof. intros. unfold as_u32. apply Z.mod_small. lia. Qed.

Lemma as_u32_le x : 0 <= x -> as_u32 x <= x.
Proof. intros. unfold as_u32. apply Z.mod_le; lia. Qed.

(** A complete chunk comes out, whatever follows it. *)
Lemma data_loop_complete n reads tail b :
  0 <= n <= CHUNK_LIMIT -> len b <= Z.max 1027 (n + 1023) -> Forall good_read reads ->
  n <= len (b ++ arrived reads) ->
  exists st reads', data_loop n (reads ++ tail) b =
      (Ready (Ok (takeZ n (b ++ arrived reads))), st, reads' ++ tail) /\
    read_len st = None /\ len (read_buffer st) <= 1027 /\ Forall good_read reads' /\
    read_buffer st ++ arrived reads' = dropZ n (b ++ arrived reads).
Proof.
  unfold CHUNK_LIMIT. intros Hn Hb Hr. revert b Hb.
  induction Hr as [|r reads Hg Hr IH]; intros b Hb Hl.
  - assert (arrived [] = []) as E by done. rewrite E, app_nil_r in *. pose proof (len_nonneg b).
    exists (mk_read_state None (dropZ n b)), []. rewrite app_nil_l.
    split; [|split_and!; try done; [simpl; rewrite len_dropZ by lia; lia|by rewrite E, app_nil_r]].
    destruct tail; cbn [data_loop]; by rewrite as_u32_small, (proj2 (Z.leb_le _ _)) by lia.
  - destruct (Z.leb_spec n (len b)) as [Hle|Hlt].
    + pose proof (len_nonneg b). exists (mk_read_state None (dropZ n b)), (r :: reads).
      split_and!; [|done|simpl; rewrite len_dropZ by lia; lia|by constructor|].
      * cbn [data_loop app]. rewrite as_u32_small, (proj2 (Z.leb_le _ _)) by lia.
        by rewrite takeZ_app_le by lia.
      * simpl. by rewrite dropZ_app_le by lia.
    + destruct r as [x|e]; [|done]. simpl in Hg.
      assert (arrived (Ok x :: reads) = x ++ arrived reads) as E by done. rewrite E in *.
      destruct (IH (b ++ x)) as (st & reads' & Heq & H); [rewrite len_app; lia|by rewrite <- app_assoc|].
      rewrite <- !app_assoc in *. exists st, reads'. split; [|done]. rewrite <- Heq. cbn [data_loop app].
      pose proof (as_u32_le (len b) (len_nonneg b)).
      rewrite (proj2 (Z.leb_gt _ _)) by lia. by destruct x as [|y x]; [rewrite len_nil in Hg; lia|].
Qed.

(** An incomplete one consumes the data and waits for what follows. *)
Lemma data_loop_waits n reads tail b :
  Forall good_read reads -> len (b ++ arrived reads) < n ->
  data_loop n (reads ++ tail) b = data_loop n tail (b ++ arrived reads).
Proof.
  intros Hr. revert b. induction Hr as [|r reads Hg Hr IH]; intros b Hl.
  - assert (arrived [] = []) as -> by done. by rewrite app_nil_r.
  - destruct r as [x|e]; [|done]. simpl in Hg. change (arrived (Ok x :: reads)) with (x ++ arrived reads) in *.
    rewrite app_assoc in *. rewrite <- IH by done. cbn [data_loop app].
    pose proof (as_u32_le (len b) (len_nonneg b)). pose proof (len_nonneg (arrived reads)).
    rewrite !len_app in Hl. rewrite (proj2 (Z.leb_gt _ _)) by lia.
    by destruct x as [|y x]; [rewrite len_nil in Hg; lia|].
Qed.

Lemma length_loop_complete reads tail b :
  len b <= 1027 -> Forall good_read reads -> 4 <= len (b ++ arrived reads) ->
  exists st reads', length_loop (reads ++ tail) b =
      (Ready (Ok (from_be_bytes (takeZ 4 (b ++ arrived reads)))), st, reads' ++ tail) /\
    len (read_buffer st) <= 1027 /\ Forall good_read reads' /\
    read_buffer st ++ arrived reads' = dropZ 4 (b ++ arrived reads).
Proof.
  intros Hb Hr. revert b Hb. induction Hr as [|r reads Hg Hr IH]; intros b Hb Hl.
  - assert (arrived [] = []) as E by done. rewrite E, app_nil_r in *.
    exists (mk_read_state (Some (from_be_bytes (takeZ 4 b))) (dropZ 4 b)), []. rewrite app_nil_l.
    split; [|split_and!; try done; [simpl; rewrite len_dropZ by lia; lia|by rewrite E, app_nil_r]].
    destruct tail; cbn [length_loop]; by rewrite (proj2 (Z.leb_le _ _)) by lia.
  - destruct (Z.leb_spec 4 (len b)) as [Hle|Hlt].
    + exists (mk_read_state (Some (from_be_bytes (takeZ 4 b))) (dropZ 4 b)), (r :: reads).
      split_and!; [|simpl; rewrite len_dropZ by lia; lia|by constructor|].
      * cbn [length_loop app]. rewrite (proj2 (Z.leb_le _ _)) by lia.
        by rewrite takeZ_app_le by lia.
      * simpl. by rewrite dropZ_app_le by lia.
    + destruct r as [x|e]; [|done]. simpl in Hg.
      change (arrived (Ok x :: reads)) with (x ++ arrived reads) in *.
      destruct (IH (b ++ x)) as (st & reads' & Heq & H); [rewrite len_app; lia|by rewrite <- app_assoc|].
      rewrite <- !app_assoc in *. exists st, reads'. split; [|done]. rewrite <- Heq. cbn [length_loop app].
      rewrite (proj2 (Z.leb_gt _ _)) by lia. by destruct x as [|y x]; [rewrite len_nil in Hg; lia|].
Qed.

Lemma length_loop_waits reads tail b :
  Forall good_read reads -> len (b ++ arrived reads) < 4 ->
  length_loop (reads ++ tail) b = length_loop tail (b ++ arrived reads).
Proof.
  intros Hr. revert b. induction Hr as [|r reads Hg Hr IH]; intros b Hl.
  - assert (arrived [] = []) as -> by done. by rewrite app_nil_r.
  - destruct r as [x|e]; [|done]. simpl in Hg. change (arrived (Ok x :: reads)) with (x ++ arrived reads) in *.
    rewrite app_assoc in *. rewrite <- IH by done. cbn [length_loop app].
    pose proof (len_nonneg (arrived reads)). rewrite !len_app in Hl.
    rewrite (proj2 (Z.leb_gt _ _)) by lia. by destruct x as [|y x]; [rewrite len_nil in Hg; lia|].
Qed.

(** ** One chunk *)

Lemma frame_header m rest : len m <= U32_MAX -> from_be_bytes (takeZ 4 (frame m ++ rest)) = len m.
Proof.
  intros Hm. unfold frame. rewrite <- app_assoc, takeZ_app by (unfold u32_to_be_bytes; by rewrite len_to_be_bytes).
  apply u32_be_roundtrip. pose proof (len_nonneg m). lia.
Qed.

Lemma frame_body m rest : dropZ 4 (frame m ++ rest) = m ++ rest.
Proof. unfold frame. rewrite <- app_assoc. apply dropZ_app. unfold u32_to_be_bytes. by rewrite len_to_be_bytes. Qed.

(** The header that was taken out is the one of the frame that is due. *)
Lemma header_inj n m b rest :
  0 <= n <= U32_MAX -> len m <= U32_MAX -> u32_to_be_bytes n ++ b = frame m ++ rest -> n = len m /\ b = m ++ rest.
Proof.
  intros Hn Hm H. unfold frame in H. rewrite <- app_assoc in H.
  apply app_inj_1 in H as [H1 H2]; [|unfold u32_to_be_bytes; by rewrite !length_to_be_bytes].
  split; [|done]. apply (f_equal from_be_bytes) in H1. pose proof (len_nonneg m).
  by rewrite !u32_be_roundtrip in H1 by lia.
Qed.

Lemma recv_chunk_complete st reads tail m rest :
  state_ok st -> Forall good_read reads -> len m <= CHUNK_LIMIT ->
  unread st ++ arrived reads = frame m ++ rest ->
  exists st' reads', recv_chunk st (reads ++ tail) = (Ready (Ok m), st', reads' ++ tail) /\
    state_ok st' /\ Forall good_read reads' /\ unread st' ++ arrived reads' = rest.
Proof.
  intros Hok Hr Hm Hu. assert (Hm' : len m <= U32_MAX) by (unfold CHUNK_LIMIT in Hm; lia).
  pose proof (len_nonneg m) as Hm0. pose proof (len_nonneg rest) as Hrest.
  assert (Hdone : forall b r, len b <= Z.max 1027 (len m + 1023) -> Forall good_read r ->
    b ++ arrived r = m ++ rest ->
    exists st' reads', data_loop (len m) (r ++ tail) b = (Ready (Ok m), st', reads' ++ tail) /\
      state_ok st' /\ Forall good_read reads' /\ unread st' ++ arrived reads' = rest).
  { intros b r Hb Hg Heq. destruct (data_loop_complete (len m) r tail b) as (st' & reads' & E & H1 & H2 & H3 & H4);
      [lia|done|done|rewrite Heq, len_app; lia|].
    rewrite Heq, takeZ_app in E by done. rewrite Heq, dropZ_app in H4 by done.
    exists st', reads'. unfold state_ok, unread. rewrite H1. by split_and!. }
  unfold recv_chunk, state_ok, unread in *. destruct (read_len st) as [n|].
  - rewrite <- app_assoc in Hu. destruct Hok as [Hn Hb]. unfold CHUNK_LIMIT in Hn.
    apply header_inj in Hu as [-> Hu]; [|lia|done]. by apply Hdone.
  - rewrite app_nil_l in Hu.
    destruct (length_loop_complete reads tail (read_buffer st)) as (st1 & r1 & E & H1 & H2 & H3);
      [done|done|rewrite Hu, len_app, len_frame; lia|].
    rewrite Hu, frame_header in E by done. rewrite Hu, frame_body in H3. rewrite E.
    apply Hdone; [lia|done|done].
Qed.

(** What is there of an incomplete frame is kept. *)
Lemma recv_chunk_waits st reads tail m more :
  state_ok st -> Forall good_read reads -> len m <= CHUNK_LIMIT ->
  unread st ++ arrived reads ++ more = frame m -> more <> [] ->
  exists st', recv_chunk st (reads ++ tail) = recv_chunk st' tail /\
    recv_chunk st' [] = (Pending, st', []) /\ state_ok st' /\ unread st' = unread st ++ arrived reads.
Proof.
  intros Hok Hr Hm Hu Hmore%len_pos. assert (Hm' : len m <= U32_MAX) by (unfold CHUNK_LIMIT in Hm; lia).
  pose proof (len_nonneg m) as Hm0.
  assert (Hdone : forall b r, len b <= Z.max 1027 (len m + 1023) -> Forall good_read r -> b ++ arrived r ++ more = m ->
    exists st', data_loop (len m) (r ++ tail) b = recv_chunk st' tail /\ recv_chunk st' [] = (Pending, st', []) /\
      state_ok st' /\ unread st' = u32_to_be_bytes (len m) ++ b ++ arrived r).
  { intros b r Hb Hg Heq. exists (mk_read_state (Some (len m)) (b ++ arrived r)).
    assert (len (b ++ arrived r) < len m) as Hlt
      by (apply (f_equal len) in Heq; rewrite !len_app in *; lia).
    pose proof (as_u32_le (len (b ++ arrived r)) (len_nonneg _)).
    unfold recv_chunk. simpl. rewrite (proj2 (Z.leb_gt _ _)) by lia.
    split_and!; try done; [by apply data_loop_waits|unfold state_ok; simpl; lia]. }
  unfold recv_chunk at 1. unfold state_ok, unread in Hok, Hu |- *. destruct (read_len st) as [n|].
  - destruct Hok as [Hn Hb]. rewrite <- app_assoc in Hu.
    rewrite <- (app_nil_r (frame m)) in Hu. apply header_inj in Hu as [-> Hu]; [|unfold CHUNK_LIMIT in Hn; lia|done].
    rewrite app_nil_r in Hu. destruct (Hdone (read_buffer st) reads Hb Hr Hu) as (st' & ? & ? & ? & Hun).
    exists st'. rewrite <- app_assoc. by split_and!.
  - rewrite app_nil_l in Hu |- *. destruct (Z.ltb_spec (len (read_buffer st ++ arrived reads)) 4) as [Hlt|Hge].
    + rewrite length_loop_waits by done. exists (mk_read_state None (read_buffer st ++ arrived reads)).
      unfold recv_chunk. cbn [read_len read_buffer length_loop].
      rewrite (proj2 (Z.leb_gt 4 (len (read_buffer st ++ arrived reads)))) by done.
      split_and!; try done. unfold state_ok. simpl. lia.
    + destruct (length_loop_complete reads tail (read_buffer st)) as (st1 & r1 & E & H1 & H2 & H3); [done..|].
      assert (takeZ 4 (read_buffer st ++ arrived reads) = u32_to_be_bytes (len m)) as Hh.
      { rewrite app_assoc in Hu. apply (f_equal (takeZ 4)) in Hu. unfold frame in Hu.
        rewrite (takeZ_app 4 (u32_to_be_bytes _)) in Hu by (unfold u32_to_be_bytes; by rewrite len_to_be_bytes).
        by rewrite (takeZ_app_le 4 (read_buffer st ++ arrived reads)) in Hu. }
      rewrite Hh, u32_be_roundtrip in E by lia. rewrite E.
      assert (read_buffer st1 ++ arrived r1 ++ more = m) as Hm1.
      { rewrite app_assoc, H3. rewrite app_assoc in Hu. apply (f_equal (dropZ 4)) in Hu.
        rewrite <- (app_nil_r (frame m)), frame_body, app_nil_r in Hu.
        by rewrite (dropZ_app_le 4 (read_buffer st ++ arrived reads)) in Hu. }
      destruct (Hdone (read_buffer st1) r1) as (st' & ? & ? & ? & Hun); [lia|done|done|].
      exists st'. split_and!; try done. change (unread st' = read_buffer st ++ arrived reads). rewrite Hun, H3, <- Hh. apply takeZ_dropZ.
Qed.

(** The end of the stream, or an error of the socket. *)
Definition bad_read (r : Read) : Prop := r = Ok [] \/ exists e, r = Err e.

Lemma recv_chunk_bad st r :
  recv_chunk st [] = (Pending, st, []) -> bad_read r ->
  exists e st', recv_chunk st [r] = (Ready (Err e), st', []).
Proof.
  unfold recv_chunk. destruct (read_len st) as [n|] eqn:Hl; cbn [length_loop data_loop].
  - destruct (n <=? _); [done|]. intros _ [->|[e ->]]; by eexists _, _.
  - destruct (4 <=? _); cbn [read_buffer]; [intros (_ & Hn & _)%data_loop_resume; congruence|].
    intros _ [->|[e ->]]; by eexists _, _.
Qed.

(** ** A link between two endpoints *)

Definition stream (msgs : list bytes) : bytes := concat (frame <$> msgs).

Lemma stream_app a b : stream (a ++ b) = stream a ++ stream b.
Proof. unfold stream. by rewrite fmap_app, concat_app. Qed.

Lemma stream_cons m msgs : stream (m :: msgs) = frame m ++ stream msgs.
Proof. done. Qed.

Lemma stream_one m : stream [m] = frame m.
Proof. unfold stream. simpl. by rewrite app_nil_r. Qed.

(** What a task does when the next frame is due, whatever follows it: it hands
    out the chunk when all of it is there, and keeps what it has otherwise. *)
Lemma recv_chunk_frame st reads tail m after more :
  state_ok st -> Forall good_read reads -> len m <= CHUNK_LIMIT ->
  frame m ++ after = (unread st ++ arrived reads) ++ more ->
  (exists st' reads', recv_chunk st (reads ++ tail) = (Ready (Ok m), st', reads' ++ tail) /\
     state_ok st' /\ Forall good_read reads' /\
     unread st ++ arrived reads = frame m ++ unread st' ++ arrived reads') \/
  (exists st', recv_chunk st (reads ++ tail) = recv_chunk st' tail /\
     recv_chunk st' [] = (Pending, st', []) /\ state_ok st' /\ unread st' = unread st ++ arrived reads).
Proof.
  intros Hok Hr Hm Hmore.
  destruct (Z.leb_spec (len (frame m)) (len (unread st ++ arrived reads))) as [Hle|Hlt].
  - left. assert (unread st ++ arrived reads = frame m ++ dropZ (len (frame m)) (unread st ++ arrived reads)) as Hu.
    { rewrite <- (takeZ_dropZ (len (frame m)) (unread st ++ arrived reads)) at 1. f_equal.
      apply (f_equal (takeZ (len (frame m)))) in Hmore. by rewrite takeZ_app, takeZ_app_le in Hmore. }
    destruct (recv_chunk_complete st reads tail m _ Hok Hr Hm Hu) as (st' & reads' & E & H1 & H2 & H3).
    exists st', reads'. split_and!; try done. by rewrite H3.
  - right. apply (recv_chunk_waits st reads tail m (dropZ (len (unread st ++ arrived reads)) (frame m))); try done.
    + rewrite app_assoc. rewrite <- (takeZ_dropZ (len (unread st ++ arrived reads)) (frame m)) at 2. f_equal.
      apply (f_equal (takeZ (len (unread st ++ arrived reads)))) in Hmore.
      rewrite (takeZ_app _ (unread st ++ arrived reads)), takeZ_app_le in Hmore by (done || lia). done.
    + apply len_pos. pose proof (len_nonneg (unread st ++ arrived reads)). rewrite len_dropZ by lia. lia.
Qed.

(** The same for data that are part of a stream of frames. *)
Lemma recv_chunk_stream st reads tail rest :
  state_ok st -> Forall good_read reads -> Forall (fun m => len m <= CHUNK_LIMIT) rest ->
  unread st ++ arrived reads `prefix_of` stream rest ->
  (exists m rest' st' reads', rest = m :: rest' /\
     recv_chunk st (reads ++ tail) = (Ready (Ok m), st', reads' ++ tail) /\
     state_ok st' /\ Forall good_read reads' /\
     unread st ++ arrived reads = frame m ++ unread st' ++ arrived reads') \/
  (exists st', recv_chunk st (reads ++ tail) = recv_chunk st' tail /\
     recv_chunk st' [] = (Pending, st', []) /\ state_ok st' /\ unread st' = unread st ++ arrived reads).
Proof.
  intros Hok Hr Hrest [more Hmore].
  destruct rest as [|m rest'].
  - right. symmetry in Hmore. apply app_nil in Hmore as [Hnil ->].
    apply app_nil in Hnil as [H1 H2].
    apply (recv_chunk_waits st reads tail [] (frame [])); [done..|by vm_compute|by rewrite H1, H2|done].
  - apply Forall_cons in Hrest as [Hm Hrest]. rewrite stream_cons in Hmore.
    destruct (recv_chunk_frame st reads tail m _ _ Hok Hr Hm Hmore) as [(st' & reads' & H)|H]; [left|by right].
    exists m, rest', st', reads'. by split.
Qed.

Record System : Type := mk_system {
  (** the sending link, and every message [send] was called with *)
  sender : TcpLink;
  sent : list bytes;
  (** those of them that were sent before any [send] failed *)
  good : list bytes;
  (** written to the socket and not yet read *)
  flight : bytes;
  (** whether the socket reported its end or an error *)
  hung_up : bool;
  (** the receiving link's flag and task, and what its reader returned *)
  flag : bool;
  task : Task;
  out : list bytes;
}.

Definition init : System :=
  let '(res, l) := take_reader (from_socket []) in
  mk_system (from_socket []) [] [] [] false (closed_flag l)
    (match res with Ok t => t | Err _ => mk_task [] (mk_read_state None []) Ended (Channel.mk_chan [] 10 false 1) end)
    [].

Definition push_read (t : Task) (r : Read) : Task :=
  mk_task (tk_reader t ++ [r]) (tk_state t) (tk_phase t) (tk_chan t).

Definition set_chan (t : Task) (c : Channel.Chan bytes) : Task :=
  mk_task (tk_reader t) (tk_state t) (tk_phase t) c.

(** A send that fails closes the link for good. *)
Definition grown (s : System) (l : TcpLink) (msg : bytes) : list bytes :=
  if is_closed l then good s else good s ++ [msg].

(** Messages are sent at any time, also on a link that a failed write has closed
    (as [ping_all] and [pong] do); the socket delivers the bytes in order, in reads
    of any size, until it hangs up. *)
Inductive step : System -> System -> Prop :=
  | step_send s msg f1 f2 res l :
      len msg <= CHUNK_LIMIT -> send f1 f2 (sender s) msg = (res, l) ->
      step s (mk_system l (sent s ++ [msg]) (grown s l msg) (flight s ++ dropZ (len (socket_writer (sender s))) (socket_writer l))
        (hung_up s) (flag s) (task s) (out s))
  | step_arrive s x rest :
      hung_up s = false -> flight s = x ++ rest -> 1 <= len x <= 1024 ->
      step s (mk_system (sender s) (sent s) (good s) rest (hung_up s) (flag s) (push_read (task s) (Ok x)) (out s))
  | step_hang_up s r :
      hung_up s = false -> bad_read r ->
      step s (mk_system (sender s) (sent s) (good s) (flight s) true (flag s) (push_read (task s) r) (out s))
  | step_task s b t :
      task_step (flag s) (task s) = (b, t) ->
      step s (mk_system (sender s) (sent s) (good s) (flight s) (hung_up s) b t (out s))
  | step_read s m c :
      reader_read (tk_chan (task s)) = (Ready (Ok m), c) ->
      step s (mk_system (sender s) (sent s) (good s) (flight s) (hung_up s) (flag s) (set_chan (task s) c) (out s ++ [m])).

Definition reachable (s : System) : Prop := rtc step init s.

(** ** The invariant *)

(** The chunk the task holds. *)
Definition held (t : Task) : list bytes := match tk_phase t with Sending c => [c] | _ => [] end.

(** The reads the task has not consumed: data, and the hanging up at the end. *)
Definition reads_ok (hung : bool) (reads goods : list Read) : Prop :=
  Forall good_read goods /\
  if hung then exists r, bad_read r /\ reads = goods ++ [r] else reads = goods.

Record inv (s : System) : Prop := {
  inv_sizes : Forall (fun m => len m <= CHUNK_LIMIT) (sent s);
  inv_rest : exists rest,
    sent s = out s ++ Channel.queue (tk_chan (task s)) ++ held (task s) ++ rest /\
    (tk_phase (task s) <> Ended -> exists goods,
       reads_ok (hung_up s) (tk_reader (task s)) goods /\ state_ok (tk_state (task s)) /\
       unread (tk_state (task s)) ++ arrived goods ++ flight s `prefix_of` stream rest /\
       (is_closed (sender s) = false ->
        unread (tk_state (task s)) ++ arrived goods ++ flight s = stream rest));
}.

(** Whatever fails while a chunk is written, what reaches the socket is a prefix
    of its frame. *)
Lemma send_writes f1 f2 l msg res l' :
  len msg <= CHUNK_LIMIT -> send f1 f2 l msg = (res, l') ->
  exists w, socket_writer l' = socket_writer l ++ w /\ w `prefix_of` frame msg /\
    (is_closed l' = false -> res = Ok tt /\ w = frame msg).
Proof.
  unfold CHUNK_LIMIT. intros Hm. pose proof (len_nonneg msg).
  unfold send, write_chunk, write_all, is_closed, frame. rewrite as_u32_small by lia.
  destruct f1 as [[k1 e1]|]; [|destruct f2 as [[k2 e2]|]]; intros [= <- <-];
    cbn [socket_writer closed_flag set_closed].
  - eexists. split; [done|]. split; [|done].
    trans (u32_to_be_bytes (len msg)); [apply prefix_take|by eexists].
  - eexists. rewrite <- app_assoc. split; [done|]. split; [|done]. apply prefix_app, prefix_take.
  - eexists. rewrite <- app_assoc. split; [done|]. by split.
Qed.

(** Once closed a link stays closed, and a send that succeeds leaves it as it is. *)
Lemma send_closed f1 f2 l msg res l' :
  send f1 f2 l msg = (res, l') ->
  (is_closed l' = false -> is_closed l = false) /\ (res = Ok tt -> is_closed l' = is_closed l).
Proof.
  unfold send. destruct (write_chunk _ _ _ _) as [[[]|e] o]; intros [= <- <-]; split; try done.
Qed.

Lemma tcp_init_inv : inv init.
Proof.
  constructor; [constructor|]. exists []. split; [done|]. intros _. exists []. simpl.
  by split_and!.
Qed.

Lemma inv_send s msg f1 f2 res l :
  inv s -> len msg <= CHUNK_LIMIT -> is_closed (sender s) = false ->
  send f1 f2 (sender s) msg = (res, l) ->
  inv (mk_system l (sent s ++ [msg]) (grown s l msg) (flight s ++ dropZ (len (socket_writer (sender s))) (socket_writer l))
    (hung_up s) (flag s) (task s) (out s)).
Proof.
  intros [Hs (rest & Heq & Hrest)] Hm Hc Hsend. destruct (send_writes _ _ _ _ _ _ Hm Hsend) as (w & Hw & Hp & Hok).
  constructor; simpl; [by apply Forall_app; split; [|constructor]|].
  exists (rest ++ [msg]). rewrite Heq, <- !app_assoc. split; [done|].
  intros Hph. destruct (Hrest Hph) as (goods & Hr & Hst & _ & Hex). specialize (Hex Hc).
  exists goods. rewrite Hw, dropZ_app by done. rewrite stream_app, stream_one.
  rewrite !app_assoc, <- (app_assoc (unread _)), Hex. split_and!; try done.
  - by apply prefix_app.
  - intros [_ ->]%Hok. done.
Qed.

Lemma reads_ok_push hung reads goods x :
  hung = false -> reads_ok hung reads goods -> 1 <= len x <= 1024 -> reads_ok hung (reads ++ [Ok x]) (goods ++ [Ok x]).
Proof. intros -> [Hg ->] Hx. split; [|done]. apply Forall_app. by split; [|constructor]. Qed.

Lemma inv_task s b t :
  inv s -> task_step (flag s) (task s) = (b, t) ->
  inv (mk_system (sender s) (sent s) (good s) (flight s) (hung_up s) b t (out s)).
Proof.
  intros [Hs (rest & Heq & Hrest)] Hstep. constructor; simpl; [done|]. unfold task_step in Hstep.
  destruct (tk_phase (task s)) as [|chunk|] eqn:Hph; [|..]; unfold held in Heq; rewrite Hph in Heq.
  - destruct (Hrest ltac:(done)) as (goods & [Hg Hr] & Hst & Hpre & Hex).
    assert (Forall (fun m => len m <= CHUNK_LIMIT) rest) as Hsz.
    { rewrite Heq, !Forall_app in Hs. by destruct Hs as (_ & _ & _ & Hs). }
    assert (unread (tk_state (task s)) ++ arrived goods `prefix_of` stream rest) as Hp1.
    { etrans; [|exact Hpre]. rewrite app_assoc. by eexists. }
    destruct (recv_chunk_stream _ goods (if hung_up s then drop (length goods) (tk_reader (task s)) else []) rest
      Hst Hg Hsz Hp1) as [(m & rest' & st' & goods' & -> & E & Hst' & Hg' & Hu)|(st' & E & Ewait & Hst' & Hu)];
      destruct (hung_up s) eqn:Hh.
    all: try (destruct Hr as (r & Hbad & Hr); rewrite Hr, drop_app_length in E; rewrite Hr, E in Hstep).
    all: try (rewrite app_nil_r in E; rewrite Hr, E in Hstep).
    + injection Hstep as <- <-. exists rest'. simpl. split; [done|]. intros _. exists goods'.
      rewrite app_assoc, Hu, <- !app_assoc, stream_cons in Hpre, Hex.
      split_and!; [by split; [|exists r]|done|by apply prefix_app_inv in Hpre|].
      intros Hc. by apply Hex, app_inv_head in Hc.
    + injection Hstep as <- <-. exists rest'. simpl. split; [done|]. intros _. exists goods'.
      rewrite app_assoc, Hu, <- !app_assoc, stream_cons in Hpre, Hex. rewrite app_nil_r.
      split_and!; [by split|done|by apply prefix_app_inv in Hpre|].
      intros Hc. by apply Hex, app_inv_head in Hc.
    + destruct (recv_chunk_bad st' r Ewait Hbad) as (e & st2 & E2). rewrite E2 in Hstep.
      injection Hstep as <- <-. exists rest. by split.
    + rewrite Ewait in Hstep. injection Hstep as <- <-. exists rest. simpl. split; [done|]. intros _.
      exists []. simpl. rewrite Hu, <- app_assoc. by split_and!.
  - destruct (Channel.send (tk_chan (task s)) chunk) as [[[|]|] c] eqn:E; injection Hstep as <- <-.
    + apply Channel.send_Ready in E as [[_ ->]|[? _]]; [|done]. exists rest. simpl.
      rewrite <- !app_assoc. split; [done|]. intros _. apply Hrest. done.
    + apply Channel.send_Ready in E as [[? _]|[_ ->]]; [done|]. exists ([chunk] ++ rest). by split.
    + apply Channel.send_Pending in E as ->. exists rest. split; [done|]. intros _. by apply Hrest.
  - injection Hstep as <- <-. exists rest. unfold held. rewrite Hph. by split.
Qed.

(** As long as nothing is sent on a closed link, everything sent is in order. *)
Lemma tcp_step_inv s s' :
  inv s -> step s s' -> is_closed (sender s) = false \/ sent s' = sent s -> inv s'.
Proof.
  intros Hi Hs Hor. destruct Hs as [s msg f1 f2 res l Hm Hsend|s x rest Hh Hf Hx|s r Hh Hb|s b t Ht|s m c Hr].
  - eapply inv_send; [done..| |done]. destruct Hor as [|Heq]; [done|]. simpl in Heq.
    apply (f_equal length) in Heq. rewrite length_app in Heq. simpl in Heq. lia.
  - destruct Hi as [Hs (rest' & Heq & Hrest)]. constructor; [done|]. exists rest'. split; [done|].
    intros Hph. destruct (Hrest Hph) as (goods & Hr & Hst & Hpre & Hex). exists (goods ++ [Ok x]). simpl.
    rewrite Hf in *. rewrite arrived_app, <- !app_assoc. unfold arrived at 2 4. simpl. rewrite app_nil_r.
    split_and!; try done. by apply reads_ok_push.
  - destruct Hi as [Hs (rest' & Heq & Hrest)]. constructor; [done|]. exists rest'. split; [done|].
    intros Hph. destruct (Hrest Hph) as (goods & [Hg Hr] & Hst & Hpre & Hex). rewrite Hh in Hr. simpl.
    exists goods. split_and!; try done. split; [done|]. exists r. by rewrite Hr.
  - by apply inv_task.
  - destruct Hi as [Hs (rest' & Heq & Hrest)]. constructor; [done|]. exists rest'. unfold reader_read in Hr.
    destruct (Channel.recv (tk_chan (task s))) as [[[m'|]|] c'] eqn:E; try done. simpl in Hr. injection Hr as -> <-.
    apply Channel.recv_Some in E as [Hq _]. simpl. rewrite Heq, Hq. split; [by rewrite <- app_assoc|done].
Qed.

Lemma prefix_snoc_inv {A} (k l : list A) x : k `prefix_of` l ++ [x] -> k = l ++ [x] \/ k `prefix_of` l.
Proof.
  intros [r Hr]. destruct r as [|y r _] using rev_ind; [left; by rewrite app_nil_r in Hr|right].
  rewrite app_assoc in Hr. apply app_inj_tail in Hr as [-> _]. by eexists.
Qed.

(** The chunks that went through the reading task. *)
Definition through (s : System) : list bytes :=
  out s ++ Channel.queue (tk_chan (task s)) ++ held (task s).

(** What was sent before the first failure comes first, whatever follows. *)
Record good_inv (s : System) : Prop := {
  gi_order : through s `prefix_of` good s \/ good s `prefix_of` through s;
  gi_next : tk_phase (task s) <> Ended -> good s `prefix_of` through s \/
    exists m rest goods junk, good s = through s ++ m :: rest /\
      reads_ok (hung_up s) (tk_reader (task s)) goods /\ state_ok (tk_state (task s)) /\
      unread (tk_state (task s)) ++ arrived goods ++ flight s = stream (m :: rest) ++ junk;
}.

Record inv_all (s : System) : Prop := {
  all_sizes : Forall (fun m => len m <= CHUNK_LIMIT) (good s);
  all_counts : if is_closed (sender s) then exists x l, sent s = good s ++ x :: l else sent s = good s;
  all_exact : (length (sent s) <= S (length (good s)))%nat -> inv s;
  all_good : good_inv s;
}.

Lemma exact_good s : inv s -> is_closed (sender s) = false -> sent s = good s -> good_inv s.
Proof.
  intros [Hs (rest & Heq & Hrest)] Hc Hg. assert (good s = through s ++ rest) as Hgo.
  { rewrite <- Hg, Heq. unfold through. by rewrite <- !app_assoc. }
  constructor; [left; by exists rest|]. intros Hph. destruct rest as [|m rest]; [left; by rewrite Hgo, app_nil_r|right].
  destruct (Hrest Hph) as (goods & Hr & Hst & _ & Hex). exists m, rest, goods, []. rewrite app_nil_r. auto.
Qed.

Lemma good_prefix_app s s' :
  good s' = good s -> tk_phase (task s') <> Ended -> through s `prefix_of` through s' ->
  good s `prefix_of` through s -> good_inv s'.
Proof. intros Hg Hp Ht H. assert (good s' `prefix_of` through s') by (rewrite Hg; by etrans). by constructor; auto. Qed.

(** The task between two chunks. *)
Lemma good_reading s b t :
  Forall (fun m => len m <= CHUNK_LIMIT) (good s) -> good_inv s -> tk_phase (task s) = Reading ->
  task_step (flag s) (task s) = (b, t) ->
  good_inv (mk_system (sender s) (sent s) (good s) (flight s) (hung_up s) b t (out s)).
Proof.
  intros Hsz [Hcmp Hnext] Hph Hstep. unfold task_step in Hstep. rewrite Hph in *.
  assert (through s = out s ++ Channel.queue (tk_chan (task s))) as Hth
    by (unfold through, held; by rewrite Hph, app_nil_r).
  destruct (Hnext ltac:(done)) as [Hpre|(m & rest & goods & junk & Hg & [Hgr Hr] & Hst & Hu)].
  - destruct (recv_chunk _ _) as [[[[m|e]|] st] r]; injection Hstep as <- <-.
    + apply (good_prefix_app s); try done. rewrite Hth. unfold through. simpl. rewrite app_assoc. by eexists.
    + constructor; [|done]. right. unfold through. simpl. by rewrite app_nil_r, <- Hth.
    + apply (good_prefix_app s); try done. rewrite Hth. unfold through. simpl. by rewrite app_nil_r.
  - rewrite Hg, Forall_app, Forall_cons in Hsz. destruct Hsz as (_ & Hm & _).
    symmetry in Hu. rewrite stream_cons, <- (app_assoc (frame m)), (app_assoc (unread _)) in Hu.
    destruct (recv_chunk_frame _ goods (if hung_up s then drop (length goods) (tk_reader (task s)) else []) m _ _
      Hst Hgr Hm Hu) as [(st' & goods' & E & Hst' & Hg' & Hun)|(st' & E & Ewait & Hst' & Hun)].
    + assert (Hstep' : t = mk_task (goods' ++ (if hung_up s then drop (length goods) (tk_reader (task s)) else []))
        st' (Sending m) (tk_chan (task s)) /\ reads_ok (hung_up s)
          (goods' ++ (if hung_up s then drop (length goods) (tk_reader (task s)) else [])) goods').
      { destruct (hung_up s).
        - destruct Hr as (r & Hbad & Hr). rewrite Hr, drop_app_length in *. rewrite E in Hstep.
          injection Hstep as <- <-. split; [done|]. split; [done|]. by exists r.
        - rewrite !app_nil_r in *. rewrite Hr, E in Hstep. injection Hstep as <- <-. by split. }
      destruct Hstep' as [-> Hrd]. rewrite Hun, <- !app_assoc in Hu. apply app_inv_head in Hu.
      constructor; unfold through; simpl; rewrite Hg, Hth in *.
      * left. exists rest. by rewrite <- !app_assoc.
      * intros _. destruct rest as [|m' rest]; [left; by rewrite <- app_assoc|right].
        exists m', rest, goods', junk. split_and!; [by rewrite <- !app_assoc|done|done|by symmetry].
    + destruct (hung_up s) eqn:Hh.
      * destruct Hr as (r & Hbad & Hr). rewrite Hr, drop_app_length in E. rewrite Hr, E in Hstep.
        destruct (recv_chunk_bad st' r Ewait Hbad) as (e & st2 & E2). rewrite E2 in Hstep.
        injection Hstep as <- <-. constructor; [|done]. left. unfold through. simpl.
        rewrite app_nil_r, <- Hth, Hg. by eexists.
      * rewrite app_nil_r in E. rewrite Hr, E, Ewait in Hstep. injection Hstep as <- <-.
        constructor; unfold through; simpl; rewrite app_nil_r, <- Hth; [left; rewrite Hg; by eexists|].
        intros _. right. exists m, rest, [], junk. split_and!; try done.
        rewrite Hun. etrans; [symmetry; exact Hu|]. apply app_assoc.
Qed.

(** The task that hands over a chunk. *)
Lemma good_sending s c b t :
  good_inv s -> tk_phase (task s) = Sending c -> task_step (flag s) (task s) = (b, t) ->
  good_inv (mk_system (sender s) (sent s) (good s) (flight s) (hung_up s) b t (out s)).
Proof.
  intros [Hcmp Hnext] Hph Hstep. unfold task_step in Hstep. rewrite Hph in Hstep.
  unfold through, held in Hcmp, Hnext. rewrite Hph in Hcmp, Hnext. specialize (Hnext ltac:(done)).
  destruct (Channel.send (tk_chan (task s)) c) as [[[|]|] ch] eqn:E; injection Hstep as <- <-.
  - apply Channel.send_Ready in E as [[_ ->]|[? _]]; [|done].
    constructor; unfold through; simpl; rewrite app_nil_r; auto.
  - apply Channel.send_Ready in E as [[? _]|[_ ->]]; [done|]. constructor; [|done].
    unfold through; simpl; rewrite app_nil_r. rewrite app_assoc in Hcmp.
    destruct Hcmp as [Hc|Hc]; [left; etrans; [by eexists|exact Hc]|].
    apply prefix_snoc_inv in Hc as [->|Hc]; [left; by eexists|by right].
  - apply Channel.send_Pending in E as ->. by constructor; unfold through; simpl.
Qed.

Lemma good_send s l msg f1 f2 res :
  inv_all s -> len msg <= CHUNK_LIMIT -> send f1 f2 (sender s) msg = (res, l) ->
  inv_all (mk_system l (sent s ++ [msg]) (grown s l msg)
    (flight s ++ dropZ (len (socket_writer (sender s))) (socket_writer l)) (hung_up s) (flag s) (task s) (out s)).
Proof.
  intros [Hsz Hcnt Hex [Hcmp Hnext]] Hm Hsend.
  destruct (send_closed _ _ _ _ _ _ Hsend) as [Hmono Hsame]. destruct (send_writes _ _ _ _ _ _ Hm Hsend) as (w & Hw & _).
  unfold grown. destruct (is_closed l) eqn:Hl.
  - assert (exists x k, sent s ++ [msg] = good s ++ x :: k) as Hc.
    { destruct (is_closed (sender s)); [|rewrite Hcnt; by exists msg, []].
      destruct Hcnt as (x & k & ->). exists x, (k ++ [msg]). by rewrite <- app_assoc. }
    constructor; simpl; [done|by rewrite Hl| |].
    + rewrite length_app. simpl. intros Hle. pose proof (inv_send s msg f1 f2 res l) as Hi. unfold grown in Hi.
      rewrite Hl in Hi. apply Hi; [apply Hex; lia|done| |done].
      destruct (is_closed (sender s)); [|done]. destruct Hcnt as (x & k & Hk). rewrite Hk, length_app in Hle. simpl in Hle. lia.
    + constructor; [done|]. intros Hph. destruct (Hnext Hph) as [|(m & rest & goods & junk & Hg & Hr & Hst & Hu)]; [by left|right].
      exists m, rest, goods, (junk ++ w). simpl. rewrite Hw, dropZ_app by done. split_and!; try done.
      by rewrite !app_assoc, <- (app_assoc (unread _)), Hu.
  - rewrite (Hmono eq_refl) in Hcnt.
    assert (inv (mk_system l (sent s ++ [msg]) (good s ++ [msg])
      (flight s ++ dropZ (len (socket_writer (sender s))) (socket_writer l)) (hung_up s) (flag s) (task s) (out s))) as Hi.
    { pose proof (inv_send s msg f1 f2 res l) as Hi. unfold grown in Hi. rewrite Hl in Hi.
      apply Hi; [|done|by apply Hmono|done]. apply Hex. rewrite Hcnt. lia. }
    constructor; simpl; [apply Forall_app; by split; [|constructor]|by rewrite Hl, Hcnt|done|].
    apply exact_good; [done|done|by simpl; rewrite Hcnt].
Qed.

Lemma inv_all_step s s' : inv_all s -> step s s' -> inv_all s'.
Proof.
  intros Hi Hs. pose proof Hi as [Hsz Hcnt Hex [Hcmp Hnext]].
  assert (forall s', step s s' -> sender s' = sender s -> sent s' = sent s -> good s' = good s -> good_inv s' -> inv_all s') as Hkeep.
  { intros s1 Hs1 H1 H2 H3 Hg1. constructor; [by rewrite H3|by rewrite H1, H2, H3| |done].
    rewrite H2, H3. intros Hle. eapply tcp_step_inv; [by apply Hex|done|by right]. }
  pose proof Hs as Hs0. destruct Hs as [s msg f1 f2 res l Hm Hsend|s x rest Hh Hf Hx|s r Hh Hb|s b t Ht|s m c Hr].
  - by eapply good_send.
  - apply Hkeep; try done. constructor; [done|]. intros Hph.
    destruct (Hnext Hph) as [|(m & rs & goods & junk & Hg & Hr & Hst & Hu)]; [by left|right].
    exists m, rs, (goods ++ [Ok x]), junk. split_and!; [done|by apply reads_ok_push|done|].
    rewrite <- Hu, Hf, arrived_app. change (arrived [Ok x]) with (x ++ []). simpl. by rewrite app_nil_r, <- !app_assoc.
  - apply Hkeep; try done. constructor; [done|]. intros Hph.
    destruct (Hnext Hph) as [|(m & rs & goods & junk & Hg & [Hgr Hr] & Hst & Hu)]; [by left|right].
    rewrite Hh in Hr. exists m, rs, goods, junk. split_and!; try done. split; [done|]. exists r. by rewrite <- Hr.
  - apply Hkeep; try done. destruct (tk_phase (task s)) as [|c|] eqn:Hph.
    + apply (good_reading s); [done|apply Hi|done|done].
    + apply (good_sending s c); [apply Hi|done|done].
    + unfold task_step in Ht. rewrite Hph in Ht. injection Ht as <- <-. constructor; [done|]. simpl. by rewrite Hph.
  - apply Hkeep; try done. unfold reader_read in Hr.
    destruct (Channel.recv (tk_chan (task s))) as [[[m'|]|] c'] eqn:E; try done. injection Hr as -> <-.
    apply Channel.recv_Some in E as [Hq _]. unfold through in *. rewrite Hq in *.
    constructor; unfold through; simpl; by rewrite <- app_assoc.
Qed.

Lemma tcp_reachable_all s : reachable s -> inv_all s.
Proof.
  unfold reachable. revert s. apply rtc_ind_r.
  - constructor; [constructor|done|intros _; apply tcp_init_inv|]. apply exact_good; [apply tcp_init_inv|done..].
  - intros y z _ Hyz IH. by eapply inv_all_step.
Qed.

Lemma tcp_reachable_inv s : reachable s -> is_closed (sender s) = false -> inv s.
Proof. intros [_ Hcnt Hex _]%tcp_reachable_all Hc. rewrite Hc in Hcnt. apply Hex. rewrite Hcnt. lia. Qed.

Lemma tcp_reachable_prefix s :
  reachable s -> (length (sent s) <= S (length (good s)))%nat -> out s `prefix_of` sent s.
Proof. intros [_ _ Hex _]%tcp_reachable_all Hle. destruct (Hex Hle) as [_ (rest & -> & _)]. by eexists. Qed.

Lemma tcp_reachable_order s :
  reachable s -> good s `prefix_of` sent s /\ (out s `prefix_of` good s \/ good s `prefix_of` out s).
Proof.
  intros [_ Hcnt _ [Hcmp _]]%tcp_reachable_all. split.
  - destruct (is_closed (sender s)); [destruct Hcnt as (x & l & ->); by eexists|by rewrite Hcnt].
  - assert (out s `prefix_of` through s) as Ho by by eexists. destruct Hcmp as [Hc|Hc]; [left; by etrans|].
    destruct (prefix_weak_total _ _ _ Ho Hc) as [|]; auto.
Qed.

(** ** Progress *)

(** As long as the socket has not hung up, the task runs and its channel is
    open. *)
Record live (s : System) : Prop := {
  live_chan : Channel.rx_closed (tk_chan (task s)) = false /\ Channel.capacity (tk_chan (task s)) = 10;
  live_task : hung_up s = false -> is_closed (sender s) = false -> tk_phase (task s) <> Ended;
}.

Lemma live_step s s' : (is_closed (sender s) = false -> inv s) -> live s -> step s s' -> live s'.
Proof.
  intros Hi [[Hc Hn] Ht] Hs.
  destruct Hs as [s msg f1 f2 res l Hm Hsend|s x rest Hh Hf Hx|s r Hh Hb|s b t Hst|s m c Hr];
    [|by constructor; simpl; auto..| |].
  - constructor; simpl; [done|]. apply send_closed in Hsend as [Hmono _]. auto.
  - unfold task_step in Hst. destruct (tk_phase (task s)) as [|chunk|] eqn:Hph.
    + destruct (recv_chunk (tk_state (task s)) (tk_reader (task s))) as [[[[m|e]|] st] r] eqn:E;
        injection Hst as <- <-; constructor; simpl; auto.
      intros Hh Hcl. exfalso. destruct (Hi Hcl) as [Hsz (rest & Heq & Hrest)].
      destruct (Hrest ltac:(by rewrite Hph)) as (goods & [Hg Hr] & Hok & Hpre & _). rewrite Hh in Hr. subst goods.
      rewrite Heq, !Forall_app in Hsz. destruct Hsz as (_ & _ & _ & Hsz).
      destruct (recv_chunk_stream (tk_state (task s)) (tk_reader (task s)) [] rest Hok Hg Hsz)
        as [(m & rest' & st' & reads' & _ & E1 & _)|(st' & E1 & E2 & _)].
      * etrans; [|exact Hpre]. rewrite app_assoc. by eexists.
      * rewrite !app_nil_r in E1. congruence.
      * rewrite !app_nil_r in E1. congruence.
    + destruct (Channel.send (tk_chan (task s)) chunk) as [[[[]|]|] c] eqn:E; injection Hst as <- <-.
      * apply Channel.send_Ready in E as [[_ ->]|[? _]]; [|done]. by constructor.
      * exfalso. unfold Channel.send, Channel.try_send in E. rewrite Hc in E. by destruct (_ <? _).
      * apply Channel.send_Pending in E as ->. by constructor.
    + injection Hst as <- <-. by constructor; simpl; auto; rewrite Hph.
  - unfold reader_read in Hr. destruct (Channel.recv (tk_chan (task s))) as [[[m'|]|] c'] eqn:E; try done.
    injection Hr as <- <-. apply Channel.recv_Some in E as [_ ->]. by constructor.
Qed.

Lemma reachable_live s : reachable s -> live s.
Proof.
  unfold reachable. revert s. apply rtc_ind_r; [by constructor|].
  intros y z Hy Hyz IH. eapply live_step; [by apply tcp_reachable_inv|done|done].
Qed.

(** Steps that neither send nor end anything. *)
Definition forwards (s s' : System) : Prop :=
  rtc step s s' /\ sender s' = sender s /\ sent s' = sent s /\ hung_up s' = hung_up s.

#[local] Instance forwards_trans : Transitive forwards.
Proof. intros a b c (H1 & H2 & H3 & H4) (K1 & K2 & K3 & K4). split; [by etrans|]. by rewrite K2, K3, K4. Qed.

Lemma forwards_once s s' :
  step s s' -> sender s' = sender s -> sent s' = sent s -> hung_up s' = hung_up s -> forwards s s'.
Proof. intros. split_and!; try done. by apply rtc_once. Qed.

Lemma arrive_all s : hung_up s = false -> exists s', forwards s s' /\ flight s' = [] /\ out s' = out s.
Proof.
  intros Hh. remember (flight s) as f eqn:Hf. revert s Hh Hf. induction f as [|x f IH]; intros s Hh Hf.
  - exists s. by split_and!.
  - destruct (IH (mk_system (sender s) (sent s) (good s) f (hung_up s) (flag s) (push_read (task s) (Ok [x])) (out s)))
      as (s' & H1 & H2 & H3); [done..|].
    exists s'. split_and!; [|done|done]. etrans; [|exact H1].
    apply forwards_once; try done. by apply (step_arrive s [x] f).
Qed.

(** A task that has a chunk to hand over, or one to read, gets on. *)
Lemma to_queue s :
  reachable s -> flight s = [] -> hung_up s = false -> is_closed (sender s) = false -> out s <> sent s ->
  exists s', forwards s s' /\ flight s' = [] /\ out s' = out s /\ Channel.queue (tk_chan (task s')) <> [].
Proof.
  intros Hr Hf Hh Hc Hne. pose proof (reachable_live s Hr) as [[Hrx Hcap] Hlive].
  apply tcp_reachable_inv in Hr as [Hsz (rest & Heq & Hrest)]; [|done]. specialize (Hlive Hh Hc).
  destruct (decide (Channel.queue (tk_chan (task s)) = [])) as [Hq|Hq]; [|by exists s].
  assert (Hsend : forall t c, tk_phase t = Sending c -> tk_chan t = tk_chan (task s) ->
    forall s1, task s1 = t -> exists s', forwards s1 s' /\ flight s' = flight s1 /\ out s' = out s1 /\
      Channel.queue (tk_chan (task s')) <> []).
  { intros t c Hp Hch s1 Ht. eexists. split; [apply forwards_once; [eapply step_task|done..]|].
    - unfold task_step. rewrite Ht, Hp, Hch, Channel.send_ok; [done|done|]. rewrite Hcap, Hq. by vm_compute.
    - split_and!; try done. simpl. by rewrite Hq. }
  destruct (tk_phase (task s)) as [|c|] eqn:Hph; [|by destruct (Hsend _ c Hph eq_refl s eq_refl)
    as (s' & H1 & H2 & H3 & H4); exists s'; rewrite H2|done].
  destruct (Hrest ltac:(done)) as (goods & [Hg Hreads] & Hok & _ & Hex). specialize (Hex Hc).
  rewrite Hh in Hreads. subst goods. rewrite Hf, app_nil_r in Hex. unfold held in Heq. rewrite Hph, Hq in Heq.
  destruct rest as [|m rest]; [by rewrite !app_nil_r in Heq|]. rewrite stream_cons in Hex.
  assert (len m <= CHUNK_LIMIT) as Hm by (rewrite Heq, !Forall_app, Forall_cons in Hsz; tauto).
  destruct (recv_chunk_complete _ _ [] m _ Hok Hg Hm Hex) as (st' & reads' & E & _).
  rewrite !app_nil_r in E.
  destruct (Hsend (mk_task reads' st' (Sending m) (tk_chan (task s))) m eq_refl eq_refl
    (mk_system (sender s) (sent s) (good s) (flight s) (hung_up s) (flag s)
       (mk_task reads' st' (Sending m) (tk_chan (task s))) (out s)) eq_refl) as (s' & H1 & H2 & H3 & H4).
  exists s'. split_and!; try done; [|by rewrite H2]. etrans; [|exact H1].
  apply forwards_once; try done. apply step_task. unfold task_step. by rewrite Hph, E.
Qed.

(** C14. While the connection is up, a TCP link delivers: from every state, the
    remaining reads, steps of the task and calls of the reader make everything
    that was sent come out. *)
Theorem chunks_delivered s :
  reachable s -> hung_up s = false -> is_closed (sender s) = false ->
  exists s', rtc step s s' /\ sent s' = sent s /\ out s' = sent s.
Proof.
  intros Hr Hh Hc. destruct (arrive_all s Hh) as (s0 & Hfw & Hf & _).
  assert (Hgo : exists s', forwards s0 s' /\ out s' = sent s').
  { assert (Hr0 : reachable s0) by (unfold reachable in *; etrans; [exact Hr|apply Hfw]).
    destruct Hfw as (_ & Hse & _ & Hh0). rewrite Hh in Hh0. rewrite <- Hse in Hc. clear s Hr Hh Hse.
    remember (length (sent s0) - length (out s0))%nat as n eqn:Hn.
    revert s0 Hf Hr0 Hh0 Hc Hn. induction n as [|n IH]; intros s Hf Hr Hh Hc Hn;
      (destruct (decide (out s = sent s)) as [He|Hne]; [by exists s; repeat split|]).
    - exfalso. apply tcp_reachable_inv in Hr as [_ (rest & Heq & _)]; [|done]. rewrite Heq in Hne, Hn.
      rewrite length_app in Hn. apply Hne. destruct (_ ++ _ ++ rest); [by rewrite app_nil_r|simpl in Hn; lia].
    - destruct (to_queue s Hr Hf Hh Hc Hne) as (s1 & Hfw & Hf1 & Ho1 & Hq).
      destruct (Channel.queue (tk_chan (task s1))) as [|m q] eqn:Eq; [done|].
      set (s2 := mk_system (sender s1) (sent s1) (good s1) (flight s1) (hung_up s1) (flag s1)
        (set_chan (task s1) (Channel.set_queue (tk_chan (task s1)) q)) (out s1 ++ [m])).
      assert (forwards s1 s2) as Hfw2.
      { apply forwards_once; try done. apply step_read. unfold reader_read, Channel.recv. by rewrite Eq. }
      assert (forwards s s2) as Hfws by (by etrans). destruct Hfws as (K1 & K2 & K3 & K4).
      destruct (IH s2) as (s' & H1 & H2); [done|by unfold reachable in *; etrans|by rewrite K4|by rewrite K2|..].
      { simpl. rewrite length_app, Ho1. simpl. destruct Hfw as (_ & _ & -> & _). lia. }
      exists s'. split; [|done]. etrans; [|exact H1]. by split_and!. }
  destruct Hgo as (s' & Hfw' & Ho). destruct Hfw as (H1 & _ & H3 & _). destruct Hfw' as (K1 & _ & K3 & _).
  exists s'. split_and!; [by etrans|by rewrite K3|by rewrite Ho, K3].
Qed.

(** C13. A TCP link keeps the promise of the [Link] trait, for messages of at most
    [CHUNK_LIMIT] bytes and up to the first write that fails: however the stream is cut into reads, however the reading task and
    its reader interleave, wherever a write or the connection fails, and whatever
    is still sent after a failure, the messages sent before it come out first, in
    order and each with its own boundaries; and as long as nothing is sent after a
    failed send, what comes out is a prefix of what was sent. *)
Theorem chunks_preserved s :
  reachable s ->
  good s `prefix_of` sent s /\ (is_closed (sender s) = false -> good s = sent s) /\
  (out s `prefix_of` good s \/ good s `prefix_of` out s) /\
  ((length (sent s) <= S (length (good s)))%nat -> out s `prefix_of` sent s).
Proof.
  intros Hr. destruct (tcp_reachable_order s Hr) as [H1 H2]. split_and!; [done| |done|by apply tcp_reachable_prefix].
  intros Hc. apply tcp_reachable_all in Hr as [_ Hcnt _ _]. by rewrite Hc in Hcnt.
Qed.

(** The length of the buffer is compared as a [u32]: with exactly 4 GiB in the
    buffer a complete chunk is not recognised, and the reader asks for more. *)
Lemma full_buffer_waits n b :
  len b = 2 ^ 32 -> 0 < n <= U32_MAX ->
  n <= len b /\ recv_chunk (mk_read_state (Some n) b) [] = (Pending, mk_read_state (Some n) b, []).
Proof.
  intros Hb Hn. split; [lia|]. unfold recv_chunk. simpl. unfold as_u32. rewrite Hb, Z.mod_same by lia.
  by rewrite (proj2 (Z.leb_gt _ _)) by lia.
Qed.
End TcpTheory.
