(* ===== verification/EntryReader.v ===== *)
(** * The reading task of a link entry ([LinkEntry::take_reader],
    [src/links/link_entry.rs])

    The task decodes what the link's reader returns and feeds the packets, tagged
    with the entry's id, to the stream the core listens to. *)

From S2P Require Import Prelude Bytes Errors Epochs Proto Channels Address Tcp TcpTheory.

Module EntryReader.
Import Protocol.

Inductive Phase : Type :=
  | Reading
  | Sending (proto : LinkProtocol)
  | Stopped.

Record ReaderTask : Type := mk_task {
  rt_id : Z;
  rt_phase : Phase;
  rt_chan : Channel.Chan (Z * LinkProtocol);
}.

(** The spawned task; the channel holds ten packets. *)
Definition spawn (id : Z) : ReaderTask := mk_task id Reading (Channel.mk_chan [] 10 false 1).

Definition stop (t : ReaderTask) : ReaderTask := mk_task (rt_id t) Stopped (Channel.drop_sender (rt_chan t)).

(** [reader.read()] returned [res]: an error of the link or a packet that cannot
    be decoded ends the task. *)
Definition on_read (t : ReaderTask) (res : LinkSetResult bytes) : ReaderTask :=
  match rt_phase t with
  | Reading =>
      match res with
      | Err _ => stop t
      | Ok data =>
          match deserialize data with
          | (Ok proto, _) => mk_task (rt_id t) (Sending proto) (rt_chan t)
          | (Err _, _) => stop t
          end
      end
  | _ => t
  end.

(** The task goes on with [tx.send((id, proto))]. *)
Definition on_send (t : ReaderTask) : ReaderTask :=
  match rt_phase t with
  | Sending proto =>
      match Channel.send (rt_chan t) (rt_id t, proto) with
      | (Ready (Ok _), c) => mk_task (rt_id t) Reading c
      | (Ready (Err _), c) => stop t
      | (Pending, c) => t
      end
  | _ => t
  end.

(** The task beside the core that takes packets from its stream: what the link's
    reader returned to it so far, the task, and what the core got. *)
Inductive run (id : Z) : list (LinkSetResult bytes) -> ReaderTask -> list (Z * LinkProtocol) -> Prop :=
  | run_spawn : run id [] (spawn id) []
  | run_read inp t out res :
      run id inp t out -> rt_phase t = Reading -> run id (inp ++ [res]) (on_read t res) out
  | run_send inp t out : run id inp t out -> run id inp (on_send t) out
  | run_next inp t out x c :
      run id inp t out -> Channel.recv (rt_chan t) = (Ready (Some x), c) ->
      run id inp (mk_task (rt_id t) (rt_phase t) c) (out ++ [x]).

(** ** What comes through *)

(** The packets of the chunks up to the first that is not one. *)
Fixpoint decoded (inp : list (LinkSetResult bytes)) : list LinkProtocol :=
  match inp with
  | Ok data :: inp => match deserialize data with (Ok p, _) => p :: decoded inp | _ => [] end
  | _ => []
  end.

Definition held (t : ReaderTask) : list LinkProtocol :=
  match rt_phase t with Sending p => [p] | _ => [] end.

(** Every chunk so far was a packet. *)
Definition clean (inp : list (LinkSetResult bytes)) : Prop := length (decoded inp) = length inp.

Lemma decoded_snoc inp res :
  clean inp ->
  decoded (inp ++ [res]) =
    decoded inp ++ match res with
                   | Ok data => match deserialize data with (Ok p, _) => [p] | _ => [] end
                   | Err _ => []
                   end.
Proof.
  unfold clean. induction inp as [|[d|e] inp IH]; simpl; [by destruct res as [d|]; [destruct (deserialize d) as [[]]|]| |done].
  destruct (deserialize d) as [[p|e] r]; simpl; [|done]. intros [= H]. by rewrite IH.
Qed.

Lemma decoded_mono inp res : decoded inp `prefix_of` decoded (inp ++ [res]).
Proof.
  induction inp as [|[d|e] inp IH]; simpl; [apply prefix_nil| |done].
  destruct (deserialize d) as [[p|e] r]; simpl; [by apply prefix_cons|done].
Qed.

Record inv (id : Z) (inp : list (LinkSetResult bytes)) (t : ReaderTask) (out : list (Z * LinkProtocol)) : Prop := {
  inv_id : rt_id t = id;
  inv_clean : rt_phase t <> Stopped -> clean inp /\
    out ++ Channel.queue (rt_chan t) ++ (pair id <$> held t) = pair id <$> decoded inp;
  inv_prefix : out ++ Channel.queue (rt_chan t) `prefix_of` (pair id <$> decoded inp);
}.

Lemma inv_stop id inp t out :
  rt_id t = id -> out ++ Channel.queue (rt_chan t) `prefix_of` (pair id <$> decoded inp) -> inv id inp (stop t) out.
Proof. intros Hid Hp. by constructor. Qed.

Lemma inv_running id inp t out :
  rt_id t = id -> clean inp ->
  out ++ Channel.queue (rt_chan t) ++ (pair id <$> held t) = pair id <$> decoded inp -> inv id inp t out.
Proof.
  intros Hid Hc He. constructor; [done|done|]. rewrite <- He, app_assoc. by eexists.
Qed.

Lemma reader_run_inv id inp t out : run id inp t out -> inv id inp t out.
Proof.
  induction 1 as [|inp t out res _ IH Hph|inp t out _ IH|inp t out x c _ IH Hr].
  - by apply inv_running.
  - destruct IH as [Hid Hcl Hp]. unfold on_read. rewrite Hph in *. destruct (Hcl ltac:(done)) as [Hc He].
    assert (out ++ Channel.queue (rt_chan t) `prefix_of` (pair id <$> decoded (inp ++ [res]))) as Hp'.
    { etrans; [exact Hp|]. destruct (decoded_mono inp res) as [k ->]. rewrite fmap_app. by eexists. }
    destruct res as [d|]; [|by apply inv_stop]. destruct (deserialize d) as [[p|] r] eqn:E; [|by apply inv_stop].
    pose proof (decoded_snoc inp (Ok d) Hc) as Hd. simpl in Hd. rewrite E in Hd. apply inv_running; [done|..].
    + unfold clean in *. rewrite Hd, !length_app, Hc. done.
    + rewrite Hd, fmap_app, <- He. unfold held. rewrite Hph. simpl. by rewrite app_nil_r, app_assoc.
  - destruct IH as [Hid Hcl Hp]. unfold on_send. destruct (rt_phase t) as [|p|] eqn:Hph; [by constructor; rewrite ?Hph| |by constructor; rewrite ?Hph].
    destruct (Channel.send (rt_chan t) (rt_id t, p)) as [[[]|] c] eqn:E; [|by apply inv_stop|by constructor; rewrite ?Hph].
    apply Channel.send_Ready in E as [[_ ->]|[? _]]; [|done]. destruct (Hcl ltac:(done)) as [Hc He].
    apply inv_running; [done|done|]. rewrite <- He. unfold held. rewrite Hph. simpl. by rewrite app_nil_r, Hid.
  - destruct IH as [Hid Hcl Hp]. apply Channel.recv_Some in Hr as [Hq _]. rewrite Hq in *.
    constructor; simpl; [done| |by rewrite <- app_assoc].
    intros Hph. destruct (Hcl Hph) as [Hc He]. split; [done|]. by rewrite <- app_assoc.
Qed.

Lemma decoded_packets ps inp :
  Forall proto_wf ps -> inp `prefix_of` (serialize <$> ps) -> decoded (Ok <$> inp) `prefix_of` ps.
Proof.
  intros Hps. revert inp. induction Hps as [|p ps Hp Hps IH]; intros inp Hin.
  - apply prefix_nil_inv in Hin as ->. apply prefix_nil.
  - destruct inp as [|d inp]; [apply prefix_nil|]. simpl in Hin.
    pose proof (prefix_cons_inv_1 _ _ _ _ Hin) as ->. apply prefix_cons_inv_2 in Hin. simpl.
    pose proof (deserialize_roundtrip p []) as Hd. rewrite app_nil_r in Hd. rewrite Hd by done.
    by apply prefix_cons, IH.
Qed.

Lemma decoded_packets_app ps inp :
  Forall proto_wf ps -> decoded (Ok <$> ((serialize <$> ps) ++ inp)) = ps ++ decoded (Ok <$> inp).
Proof.
  induction 1 as [|p ps Hp Hps IH]; [done|]. simpl.
  pose proof (deserialize_roundtrip p []) as Hd. rewrite app_nil_r in Hd. rewrite Hd by done. by f_equal.
Qed.

(** C16. From one core's packets to the other's events: when the packets of a
    link entry travel over a TCP link, then whatever the segmentation, the
    interleaving of the two tasks, the point where a write or the connection fails
    and what is sent after it, the peer's core first reads from its stream the
    packets sent before the failure, packet by packet, in order and tagged with
    the link's id; and as long as nothing is sent after a failed send, all it
    reads is a prefix of the packets sent. *)
Theorem packets_over_tcp id s ps t out :
  TcpTheory.reachable s -> TcpTheory.sent s = serialize <$> ps -> Forall proto_wf ps ->
  run id (Ok <$> TcpTheory.out s) t out ->
  let before := pair id <$> take (length (TcpTheory.good s)) ps in
  (out `prefix_of` before \/ before `prefix_of` out) /\
  ((length ps <= S (length (TcpTheory.good s)))%nat -> out `prefix_of` (pair id <$> ps)).
Proof.
  intros Hs Hsent Hps Hrun before. apply reader_run_inv in Hrun as [_ _ Hp].
  assert (out `prefix_of` (pair id <$> decoded (Ok <$> TcpTheory.out s))) as Hout by (etrans; [by eexists|exact Hp]).
  destruct (TcpTheory.tcp_reachable_order s Hs) as [Hgood Hord].
  assert (TcpTheory.good s = serialize <$> take (length (TcpTheory.good s)) ps) as Hg.
  { rewrite fmap_take, <- Hsent. destruct Hgood as [k ->]. by rewrite take_app_length. }
  split.
  - destruct Hord as [Hle|[k Hk]].
    + left. rewrite Hg in Hle. destruct (decoded_packets _ _ (Forall_take _ _ _ Hps) Hle) as [x Hx].
      etrans; [exact Hout|]. unfold before. rewrite Hx, fmap_app. by eexists.
    + rewrite Hk, Hg, decoded_packets_app, fmap_app in Hout by by apply Forall_take.
      apply (prefix_weak_total _ _ _ Hout). by eexists.
  - intros Hle. assert (TcpTheory.out s `prefix_of` TcpTheory.sent s) as Hpre.
    { apply TcpTheory.tcp_reachable_prefix; [done|]. by rewrite Hsent, length_fmap. }
    rewrite Hsent in Hpre. destruct (decoded_packets ps _ Hps Hpre) as [k Hk].
    etrans; [exact Hout|]. rewrite Hk, fmap_app. by eexists.
Qed.
End EntryReader.
