(* ===== verification/LinkTraits.v ===== *)
(** * The traits of links and connectors ([src/links/link.rs],
    [src/links/connector.rs])

    [Link] is what an implementation provides; the blanket implementations of
    [PinnedLink], [PinnedLinkReader] and [PinnedLinkConnector] box its errors.
    The core only knows the boxed form, which is the class [Outside]; a link
    implementation gives an instance of it. *)

From S2P Require Import Prelude Bytes Errors Clock Address Outside Channels Tcp.

(** The trait [Link] and the [LinkReader] it hands out.  Operations are numbered:
    what the operating system or the peer does at the [n]-th one is up to them. *)
Class Link (L : Type) := {
  link_error : Type;
  show_error : link_error -> BoxError;
  reader : Type;
  scheme_of : Str;
  send : nat -> L -> bytes -> result link_error unit * L;
  recv : nat -> L -> Poll (result link_error bytes) * L;
  take_reader : nat -> L -> result link_error reader * L;
  max_size : L -> Z;
  is_closed : nat -> L -> bool * L;
  reader_read : nat -> reader -> Poll (result link_error bytes) * reader;
}.

(** A link's maximal size is a [u32] and does not change. *)
Class LinkLaws (L : Type) `{Link L} : Prop := {
  size_u32 l : is_u32 (max_size l);
  size_send n l b : max_size (snd (send n l b)) = max_size l;
  size_is_closed n l : max_size (snd (is_closed n l)) = max_size l;
  size_take_reader n l : max_size (snd (take_reader n l)) = max_size l;
}.

Module LinkTraits.
Section pinned.
Context {L : Type} `{Link L}.

(** [LinkSetError::LinkError(Box::new(e))]. *)
Definition boxed {A} (r : result link_error A) : LinkSetResult A :=
  map_err (fun e => LinkError (show_error e)) r.

Definition boxed_poll {A} (p : Poll (result link_error A)) : Poll (LinkSetResult A) :=
  match p with Ready r => Ready (boxed r) | Pending => Pending end.

(** ** [PinnedLink] *)

Definition pinned_scheme (l : L) : Str := scheme_of.

Definition pinned_send (n : nat) (l : L) (msg : bytes) : LinkSetResult unit * L :=
  let (res, l) := send n l msg in (boxed res, l).

Definition pinned_recv (n : nat) (l : L) : Poll (LinkSetResult bytes) * L :=
  let (res, l) := recv n l in (boxed_poll res, l).

Definition pinned_take_reader (n : nat) (l : L) : LinkSetResult reader * L :=
  let (res, l) := take_reader n l in (boxed res, l).

Definition pinned_max_size (l : L) : Z := max_size l.

Definition pinned_is_closed (n : nat) (l : L) : bool * L := is_closed n l.

(** ** [PinnedLinkReader] *)

Definition pinned_read (n : nat) (r : reader) : Poll (LinkSetResult bytes) * reader :=
  let (res, r) := reader_read n r in (boxed_poll res, r).

(** ** [LinkConnector] for a scheme with an asynchronous function, and
    [PinnedLinkConnector] *)

Definition Connector : Type := Str * (Address.AddressRepr -> result link_error L).

Definition connector_scheme (c : Connector) : Str := fst c.

Definition connect (c : Connector) (addr : Address.AddressRepr) : result link_error L := snd c addr.

Definition pinned_connect (c : Connector) (addr : Address.AddressRepr) : LinkSetResult L :=
  boxed (connect c addr).

(** ** The core's view *)

(** A core whose links are all [L]s. *)
Definition outside_of (clock : nat -> Instant) : Outside := {|
  Outside.link := L;
  link_scheme := pinned_scheme;
  link_max_size := pinned_max_size;
  link_send := pinned_send;
  link_is_closed := pinned_is_closed;
  link_take_reader := fun n l => let (res, l) := pinned_take_reader n l in (_ ← res; Ok tt, l);
  connector := Connector;
  Outside.connector_scheme := connector_scheme;
  Outside.clock := clock;
|}.

Lemma outside_of_laws `{!LinkLaws L} (clock : nat -> Instant) :
  (forall n, 0 <= clock n <= SPAN) -> @OutsideLaws (outside_of clock).
Proof.
  intros Hc. constructor; simpl; unfold pinned_max_size; [apply size_u32|..].
  - intros n l b. unfold pinned_send. rewrite <- (size_send n l b). by destruct (send n l b).
  - apply size_is_closed.
  - intros n l. unfold pinned_take_reader. rewrite <- (size_take_reader n l). by destruct (take_reader n l).
  - done.
Qed.
End pinned.

(** ** TCP links *)

Section tcp.

(** Whether the writes of the [n]-th operation fail, whether the reading task has
    raised the flag by then, and what the reader's channel does. *)
Context (failures : nat -> option (nat * Tcp.ErrorKind) * option (nat * Tcp.ErrorKind)) (flagged : nat -> bool).

Definition show_tcp (e : Tcp.TcpLinkError) : BoxError :=
  match e with
  | Tcp.Io _ => "io"
  | Tcp.ReceiverTaken => "The receiver has already been taken"
  | Tcp.InvalidAddr => "Invalid Address format"
  | Tcp.Closed => "The link has closed"
  end%string.

Definition tcp_link : Link Tcp.TcpLink := {|
  link_error := Tcp.TcpLinkError;
  show_error := show_tcp;
  reader := Channel.Chan bytes;
  scheme_of := Tcp.TCP_SCHEME;
  send := fun n l msg => let (f1, f2) := failures n in Tcp.send f1 f2 l msg;
  recv := fun _ l => Tcp.recv l;
  take_reader := fun _ l =>
    let (res, l) := Tcp.take_reader l in (t ← res; Ok (Tcp.tk_chan t), l);
  max_size := Tcp.max_size;
  is_closed := fun n l =>
    let l := if flagged n then Tcp.set_closed l else l in (Tcp.is_closed l, l);
  reader_read := fun _ c => Tcp.reader_read c;
|}.

Lemma tcp_link_laws : @LinkLaws Tcp.TcpLink tcp_link.
Proof. constructor; done. Qed.
End tcp.
End LinkTraits.
