(* ===== verification/Peekable.v ===== *)
(** * Peeking at a link ([src/adaptors/peekable.rs])

    An adaptor that can look at the next message of a link without removing it. *)

From S2P Require Import Prelude Bytes Errors Clock Address Outside Channels Tcp LinkTraits.

Module Peekable.
Section with_link.
Context {L : Type} `{Link L}.

Record Peekable : Type := mk_peekable {
  link : L;
  peeked : option bytes;
}.

Definition new (l : L) : Peekable := mk_peekable l None.

Definition peek (n : nat) (p : Peekable) : Poll (LinkSetResult bytes) * Peekable :=
  match peeked p with
  | Some data => (Ready (Ok data), p)
  | None =>
      match recv n (link p) with
      | (Ready (Ok new_data), l) => (Ready (Ok new_data), mk_peekable l (Some new_data))
      | (Ready (Err e), l) => (Ready (Err (LinkError (show_error e))), mk_peekable l None)
      | (Pending, l) => (Pending, mk_peekable l None)
      end
  end.

Definition take_peeked (p : Peekable) : option bytes * Peekable := (peeked p, mk_peekable (link p) None).

(** [Link for Peekable]: every operation is the one of the link inside. *)
Definition peekable_link : Link Peekable := {|
  link_error := link_error;
  show_error := show_error;
  reader := reader;
  scheme_of := scheme_of;
  send := fun n p msg => let (res, l) := send n (link p) msg in (res, mk_peekable l (peeked p));
  recv := fun n p => let (res, l) := recv n (link p) in (res, mk_peekable l (peeked p));
  take_reader := fun n p => let (res, l) := take_reader n (link p) in (res, mk_peekable l (peeked p));
  max_size := fun p => max_size (link p);
  is_closed := fun n p => let (b, l) := is_closed n (link p) in (b, mk_peekable l (peeked p));
  reader_read := reader_read;
|}.

Lemma peekable_laws `{!LinkLaws L} : @LinkLaws Peekable peekable_link.
Proof.
  constructor; simpl.
  - intros p. apply size_u32.
  - intros n p b. rewrite <- (size_send n (link p) b). by destruct (send n (link p) b).
  - intros n p. rewrite <- (size_is_closed n (link p)). by destruct (is_closed n (link p)).
  - intros n p. rewrite <- (size_take_reader n (link p)). by destruct (take_reader n (link p)).
Qed.

(** A peeked message stays until it is taken: peeking again shows it without
    touching the link, and [take_peeked] returns it once. *)
Lemma peek_stable n n' p data p' :
  peek n p = (Ready (Ok data), p') ->
  peek n' p' = (Ready (Ok data), p') /\ take_peeked p' = (Some data, new (link p')).
Proof.
  unfold peek, take_peeked, new. destruct (peeked p) as [d|] eqn:E.
  - intros [= <- <-]. by rewrite E.
  - destruct (recv n (link p)) as [[[d|e]|] l]; try done. by intros [= <- <-].
Qed.

(** Receiving through the adaptor passes over the peeked message: it
    returns the one after it, and the peeked message stays behind. *)
Theorem recv_skips_peeked n p first p' n' second l :
  peek n p = (Ready (Ok first), p') -> recv n' (link p') = (Ready (Ok second), l) ->
  @recv _ peekable_link n' p' = (Ready (Ok second), mk_peekable l (Some first)).
Proof.
  intros Hp Hr. simpl. rewrite Hr. do 2 f_equal. unfold peek in Hp. destruct (peeked p) as [d|] eqn:E.
  - injection Hp as <- <-. done.
  - destruct (recv n (link p)) as [[[d|e]|] l']; try done. by injection Hp as <- <-.
Qed.
End with_link.
End Peekable.
