(* ===== verification/Pipe.v ===== *)
(** * Pipe links ([src/link_impls/pipe_link.rs])

    Links backed by a pair of in-memory channels, with an optional latency,
    expiration and loss rate; and the hub that simulates listening and
    connecting.  Channels are shared between the two ends of a pair (and cancelers
    between all of their copies), so they live in a heap and ends hold their
    names. *)

From S2P Require Import Prelude Bytes Errors Clock Address Outside Channels.

(** The random generator ([rand]): probabilities, and whether the [n]-th sample
    of a distribution is a success. *)
Class Rand := {
  f64 : Type;
  f64_one : f64;
  Bernoulli : Type;
  bernoulli_new : f64 -> option Bernoulli;
  sample : nat -> Bernoulli -> bool;
}.

(** [Bernoulli::new] accepts 1.0, and then always succeeds. *)
Class RandLaws `{Rand} : Prop := {
  bernoulli_one : exists b, bernoulli_new f64_one = Some b;
  sample_one b n : bernoulli_new f64_one = Some b -> sample n b = true;
}.

Module Pipe.
Section with_rand.
Context {R : Rand}.

Definition PIPE_SCHEME : Str := [x6d; x65; x6d; x5f; x70; x69; x70; x65].

Inductive PipeLinkError : Type :=
  | ReceiverTaken
  | Closed.

Abbreviation PipeLinkResult := (result PipeLinkError).

(** ** Links and their channels *)

Record PipeLinkBuilder : Type := mk_builder {
  max_size_ : Z;
  reliability_ : f64;
  expiration_ : option Duration;
  latency_ : option Duration;
}.

Definition builder_new : PipeLinkBuilder := mk_builder U32_MAX f64_one None None.
Definition with_max_size (b : PipeLinkBuilder) (n : Z) := mk_builder n (reliability_ b) (expiration_ b) (latency_ b).
Definition with_reliability (b : PipeLinkBuilder) (p : f64) := mk_builder (max_size_ b) p (expiration_ b) (latency_ b).
Definition set_reliability (b : PipeLinkBuilder) (p : f64) := mk_builder (max_size_ b) p (expiration_ b) (latency_ b).
Definition with_expiration (b : PipeLinkBuilder) (e : option Duration) := mk_builder (max_size_ b) (reliability_ b) e (latency_ b).
Definition with_latency (b : PipeLinkBuilder) (l : option Duration) := mk_builder (max_size_ b) (reliability_ b) (expiration_ b) l.

Record PipeLinkCanceler : Type := mk_canceler { c_a : Z; c_b : Z }.

Record PipeLinkReader : Type := mk_reader {
  rd_id : Z;
  rd_rx : Z;
  rd_peeked : option (bytes * Instant);
  rd_expiration : Deadline.Deadline;
  rd_latency : option Duration;
  rd_cancel_rx : Z;
}.

Definition set_peeked (r : PipeLinkReader) p : PipeLinkReader :=
  mk_reader (rd_id r) (rd_rx r) p (rd_expiration r) (rd_latency r) (rd_cancel_rx r).
Definition set_expiration (r : PipeLinkReader) d : PipeLinkReader :=
  mk_reader (rd_id r) (rd_rx r) (rd_peeked r) d (rd_latency r) (rd_cancel_rx r).

Record PipeLink : Type := mk_link {
  pl_id : Z;
  pl_tx : Z;
  pl_reader : option PipeLinkReader;
  pl_max_size : Z;
  pl_canceler : PipeLinkCanceler;
  pl_reliability : Bernoulli;
}.

Definition Pipe : Type := Channel.Chan (bytes * Instant).

Record Heap : Type := mk_heap {
  pipes : gmap Z Pipe;
  cancels : gmap Z (Channel.Chan unit);
  listening : gmap Z (Channel.Chan PipeLink);
  next : Z;
}.

Definition heap_new : Heap := mk_heap ∅ ∅ ∅ 0.

Definition set_pipe (h : Heap) (i : Z) (c : Pipe) : Heap :=
  mk_heap (<[i := c]> (pipes h)) (cancels h) (listening h) (next h).
Definition set_cancel (h : Heap) (i : Z) (c : Channel.Chan unit) : Heap :=
  mk_heap (pipes h) (<[i := c]> (cancels h)) (listening h) (next h).
Definition set_listening (h : Heap) (i : Z) (c : Channel.Chan PipeLink) : Heap :=
  mk_heap (pipes h) (cancels h) (<[i := c]> (listening h)) (next h).

Definition set_reader (l : PipeLink) (r : option PipeLinkReader) : PipeLink :=
  mk_link (pl_id l) (pl_tx l) r (pl_max_size l) (pl_canceler l) (pl_reliability l).

(** ** Making a pair *)

(** [PipeLinkCanceler::new], with the names of the two channels; both ends keep a
    copy, so each channel has two senders. *)
Definition new_channels (h : Heap) : Z * Z * PipeLinkCanceler * Heap :=
  let i := next h in
  (i, i + 1, mk_canceler (i + 2) (i + 3),
   mk_heap (<[i := Channel.mk_chan [] 1000 false 1]> (<[i + 1 := Channel.mk_chan [] 1000 false 1]> (pipes h)))
     (<[i + 2 := Channel.mk_chan [] 1 false 2]> (<[i + 3 := Channel.mk_chan [] 1 false 2]> (cancels h)))
     (listening h) (i + 4)).

Definition expires (expiration : option Duration) (now : Instant) : outcome Deadline.Deadline :=
  match expiration with
  | Some expiration => t ← instant_add now expiration; Ret (Deadline.new_deadline t)
  | None => Ret Deadline.new
  end.

(** [PipeLinkBuilder::create_pair]; the ids are random numbers. *)
Definition create_pair (b : PipeLinkBuilder) (id1 id2 : Z) (now1 now2 : Instant) (h : Heap)
    : outcome (PipeLink * PipeLink * Heap) :=
  let '(ch1, ch2, canceler, h) := new_channels h in
  expiration1 ← expires (expiration_ b) now1;
  reliability1 ← unwrap (bernoulli_new (reliability_ b));
  let first := mk_link id1 ch1
    (Some (mk_reader id1 ch2 None expiration1 (latency_ b) (c_a canceler)))
    (max_size_ b) canceler reliability1 in
  expiration2 ← expires (expiration_ b) now2;
  reliability2 ← unwrap (bernoulli_new (reliability_ b));
  let second := mk_link id2 ch2
    (Some (mk_reader id2 ch1 None expiration2 (latency_ b) (c_b canceler)))
    (max_size_ b) canceler reliability2 in
  Ret (first, second, h).

(** [PipeLink::create_pair]. *)
Definition create_pair_default (id1 id2 : Z) (h : Heap) : outcome (PipeLink * PipeLink * Heap) :=
  let '(ch1, ch2, canceler, h) := new_channels h in
  reliability1 ← unwrap (bernoulli_new f64_one);
  let first := mk_link id1 ch1
    (Some (mk_reader id1 ch2 None Deadline.new None (c_a canceler)))
    U32_MAX canceler reliability1 in
  reliability2 ← unwrap (bernoulli_new f64_one);
  let second := mk_link id2 ch2
    (Some (mk_reader id2 ch1 None Deadline.new None (c_b canceler)))
    U32_MAX canceler reliability2 in
  Ret (first, second, h).

(** ** The operations of a link *)

(** [n] numbers the sample of the generator. *)
Definition send (n : nat) (now : Instant) (l : PipeLink) (msg : bytes) (h : Heap)
    : outcome (Poll (PipeLinkResult unit) * Heap) :=
  if sample n (pl_reliability l) then
    c ← unwrap (pipes h !! pl_tx l);
    match Channel.send c (msg, now) with
    | (Ready (Ok _), c) => Ret (Ready (Ok tt), set_pipe h (pl_tx l) c)
    | (Ready (Err _), c) => Ret (Ready (Err Closed), h)
    | (Pending, c) => Ret (Pending, h)
    end
  else Ret (Ready (Ok tt), h).

Definition take_reader (l : PipeLink) : PipeLinkResult PipeLinkReader * PipeLink :=
  (ok_or Closed (pl_reader l), set_reader l None).

Definition max_size (l : PipeLink) : Z := pl_max_size l.

Definition is_closed (l : PipeLink) (h : Heap) : outcome bool :=
  c ← unwrap (pipes h !! pl_tx l);
  Ret (Channel.is_closed c).

(** [get_canceler] makes a copy of both senders. *)
Definition get_canceler (l : PipeLink) (h : Heap) : outcome (PipeLinkCanceler * Heap) :=
  let c := pl_canceler l in
  a ← unwrap (cancels h !! c_a c);
  let h := set_cancel h (c_a c) (Channel.clone_sender a) in
  b ← unwrap (cancels h !! c_b c);
  Ret (c, set_cancel h (c_b c) (Channel.clone_sender b)).

(** Sends on a cancel channel, whatever comes of it, and drops the sender. *)
Definition cancel_one (i : Z) (h : Heap) : outcome Heap :=
  c ← unwrap (cancels h !! i);
  Ret (set_cancel h i (Channel.drop_sender
    match Channel.try_send c tt with Ok c => c | Err _ => c end)).

(** [PipeLinkCanceler::cancel]. *)
Definition cancel (c : PipeLinkCanceler) (h : Heap) : outcome Heap :=
  h ← cancel_one (c_a c) h;
  cancel_one (c_b c) h.

(** ** Reading *)

(** Where a call of [read] waits for the latency to pass: with the message it had
    peeked before, or with one that it just received (and keeps as peeked). *)
Inductive Phase : Type :=
  | HoldPeeked (msg : bytes)
  | HoldFresh (msg : bytes).

Inductive ReadStatus : Type :=
  | Done (res : PipeLinkResult bytes)
  | Sleep (p : Phase) (until : Instant)
  | Wait.

(** The end of the branch of a peeked message. *)
Definition finish_peeked (fired : bool) (msg : bytes) (r : PipeLinkReader) (rx : Pipe)
    : ReadStatus * PipeLinkReader * Pipe :=
  let r := set_peeked r None in
  if Deadline.is_elapsed fired (rd_expiration r) then (Done (Err Closed), r, Channel.close rx)
  else (Done (Ok msg), r, rx).

(** [PipeLinkReader::read] up to its end or its first sleep.  [fired] says whether
    the expiration has passed. *)
Definition read_begin (fired : bool) (now : Instant) (r : PipeLinkReader) (rx : Pipe) (cx : Channel.Chan unit)
    : outcome (ReadStatus * PipeLinkReader * Pipe * Channel.Chan unit) :=
  match rd_peeked r with
  | Some (msg, timestamp) =>
      let r := set_peeked r None in
      match rd_latency r with
      | Some latency => t ← instant_add timestamp latency; Ret (Sleep (HoldPeeked msg) t, r, rx, cx)
      | None => let '(st, r, rx) := finish_peeked fired msg r rx in Ret (st, r, rx, cx)
      end
  | None =>
      match Channel.recv cx with
      | (Ready _, cx) => Ret (Done (Err Closed), r, Channel.close rx, cx)
      | (Pending, cx) =>
          '(expired, d) ←
            (if Deadline.has_deadline (rd_expiration r) then Deadline.poll fired now (rd_expiration r)
             else Ret (false, rd_expiration r));
          let r := set_expiration r d in
          if (expired : bool) then Ret (Done (Err Closed), r, Channel.close rx, cx)
          else
            match Channel.recv rx with
            | (Ready None, rx) => Ret (Done (Err Closed), r, rx, cx)
            | (Ready (Some (msg, timestamp)), rx) =>
                let r := set_peeked r (Some (msg, timestamp)) in
                match rd_latency r with
                | Some latency => t ← instant_add timestamp latency; Ret (Sleep (HoldFresh msg) t, r, rx, cx)
                | None => Ret (Done (Ok msg), set_peeked r None, rx, cx)
                end
            | (Pending, rx) => Ret (Wait, r, rx, cx)
            end
      end
  end.

(** The rest of [read] once the sleep is over. *)
Definition read_wake (fired : bool) (p : Phase) (r : PipeLinkReader) (rx : Pipe)
    : ReadStatus * PipeLinkReader * Pipe :=
  match p with
  | HoldPeeked msg => finish_peeked fired msg r rx
  | HoldFresh msg => (Done (Ok msg), set_peeked r None, rx)
  end.

(** A whole call of [read] on the heap, with nothing else running while it
    sleeps. *)
Definition read (fired fired' : bool) (now : Instant) (r : PipeLinkReader) (h : Heap)
    : outcome (Poll (PipeLinkResult bytes) * PipeLinkReader * Heap) :=
  rx ← unwrap (pipes h !! rd_rx r);
  cx ← unwrap (cancels h !! rd_cancel_rx r);
  '(st, r, rx, cx) ← read_begin fired now r rx cx;
  let '(st, r, rx) := match st with Sleep p _ => read_wake fired' p r rx | _ => (st, r, rx) end in
  let h := set_cancel (set_pipe h (rd_rx r) rx) (rd_cancel_rx r) cx in
  Ret (match st with Done res => Ready res | _ => Pending end, r, h).

(** [Link::recv] on a link whose reader was not taken. *)
Definition recv (fired fired' : bool) (now : Instant) (l : PipeLink) (h : Heap)
    : outcome (Poll (PipeLinkResult bytes) * PipeLink * Heap) :=
  match pl_reader l with
  | None => Ret (Ready (Err ReceiverTaken), l, h)
  | Some r =>
      '(res, r, h) ← read fired fired' now r h;
      Ret (res, set_reader l (Some r), h)
  end.

(** ** Dropping an end *)

(** A reader drops the receivers of its two channels. *)
Definition drop_reader (r : PipeLinkReader) (h : Heap) : outcome Heap :=
  rx ← unwrap (pipes h !! rd_rx r);
  let h := set_pipe h (rd_rx r) (Channel.drop_receiver rx) in
  cx ← unwrap (cancels h !! rd_cancel_rx r);
  Ret (set_cancel h (rd_cancel_rx r) (Channel.drop_receiver cx)).

Definition drop_cancel_sender (i : Z) (h : Heap) : outcome Heap :=
  c ← unwrap (cancels h !! i);
  Ret (set_cancel h i (Channel.drop_sender c)).

(** The fields of a [PipeLink] go in their order. *)
Definition drop_link (l : PipeLink) (h : Heap) : outcome Heap :=
  tx ← unwrap (pipes h !! pl_tx l);
  let h := set_pipe h (pl_tx l) (Channel.drop_sender tx) in
  h ← match pl_reader l with Some r => drop_reader r h | None => Ret h end;
  h ← drop_cancel_sender (c_a (pl_canceler l)) h;
  drop_cancel_sender (c_b (pl_canceler l)) h.

(** ** The hub *)

(** The builder and the table of listeners are shared by all copies of a hub. *)
Record PipeLinkHub : Type := mk_hub {
  link_builder : PipeLinkBuilder;
  listen_channel_size : Z;
  listeners : gmap Str Z;
}.

Definition hub_new (b : PipeLinkBuilder) : PipeLinkHub := mk_hub b 25 ∅.
Definition hub_new_with_size (b : PipeLinkBuilder) (size : Z) : PipeLinkHub := mk_hub b size ∅.

Definition modify_builder (hub : PipeLinkHub) (func : PipeLinkBuilder -> PipeLinkBuilder) : PipeLinkHub :=
  mk_hub (func (link_builder hub)) (listen_channel_size hub) (listeners hub).

(** The sender of a listener that is replaced or removed is dropped. *)
Definition drop_listener (addr : Str) (hub : PipeLinkHub) (h : Heap) : Heap :=
  match listeners hub !! addr with
  | Some i =>
      match listening h !! i with
      | Some c => set_listening h i (Channel.drop_sender c)
      | None => h
      end
  | None => h
  end.

Definition listen (hub : PipeLinkHub) (addr : Str) (h : Heap) : outcome (Z * PipeLinkHub * Heap) :=
  c ← Channel.channel (listen_channel_size hub);
  let i := next h in
  let h := drop_listener addr hub h in
  Ret (i, mk_hub (link_builder hub) (listen_channel_size hub) (<[addr := i]> (listeners hub)),
       mk_heap (pipes h) (cancels h) (<[i := c]> (listening h)) (i + 1)).

(** The permit of [try_reserve] is there exactly when [try_send] succeeds. *)
Definition connect (hub : PipeLinkHub) (dest_addr : Str) (id1 id2 : Z) (now1 now2 : Instant) (h : Heap)
    : outcome (option PipeLink * PipeLinkHub * Heap) :=
  match listeners hub !! dest_addr with
  | None => Ret (None, hub, h)
  | Some i =>
      c ← unwrap (listening h !! i);
      if Channel.rx_closed c then
        Ret (None, mk_hub (link_builder hub) (listen_channel_size hub) (base.delete dest_addr (listeners hub)),
             drop_listener dest_addr hub h)
      else if len (Channel.queue c) <? Channel.capacity c then
        '(link1, link2, h) ← create_pair (link_builder hub) id1 id2 now1 now2 h;
        Ret (Some link1, hub, set_listening h i (Channel.set_queue c (Channel.queue c ++ [link2])))
      else Ret (None, hub, h)
  end.
End with_rand.
End Pipe.
