(* ===== verification/PipeTheory.v ===== *)
(** * Pipe links deliver in order

    One direction of a pipe: a sender, the channel, and a reader whose calls can
    be abandoned while they sleep.  And pairs made by the hub are connected. *)

From S2P Require Import Prelude Bytes Errors Clock Address Outside Channels Pipe.

Module PipeTheory.
Import Pipe.

Section with_rand.
Context {R : Rand}.

(** ** One direction *)

Record System : Type := mk_system {
  pipe : Pipe;
  reader : PipeLinkReader;
  canceled : Channel.Chan unit;
  (** where the current call of [read] sleeps *)
  phase : option Phase;
  (** what the channel accepted, and what [read] returned *)
  accepted : list bytes;
  out : list bytes;
  (** whether a message that was taken from the channel was given up *)
  gap : bool;
}.

(** The message the reader has taken from the channel and not returned. *)
Definition in_hand (s : System) : list bytes :=
  match phase s with
  | Some (HoldPeeked msg) | Some (HoldFresh msg) => [msg]
  | None => option_list (fst <$> rd_peeked (reader s))
  end.

(** A call that ends returns its message; a call that fails while it held a
    message gives it up. *)
Definition after (s : System) (st : ReadStatus) (r : PipeLinkReader) (rx : Pipe) (cx : Channel.Chan unit) : System :=
  mk_system rx r cx (match st with Sleep p _ => Some p | _ => None end) (accepted s)
    (out s ++ match st with Done (Ok msg) => [msg] | _ => [] end)
    (gap s || match st with Done (Err _) => bool_decide (in_hand s <> []) | _ => false end).

Inductive step : System -> System -> Prop :=
  | step_send s msg now c :
      Channel.send (pipe s) (msg, now) = (Ready (Ok tt), c) ->
      step s (mk_system c (reader s) (canceled s) (phase s) (accepted s ++ [msg]) (out s) (gap s))
  | step_begin s fired now st r rx cx :
      phase s = None -> read_begin fired now (reader s) (pipe s) (canceled s) = Ret (st, r, rx, cx) ->
      step s (after s st r rx cx)
  | step_wake s fired p st r rx :
      phase s = Some p -> read_wake fired p (reader s) (pipe s) = (st, r, rx) ->
      step s (after s st r rx (canceled s))
  | step_abandon s p :
      phase s = Some p ->
      step s (mk_system (pipe s) (reader s) (canceled s) None (accepted s) (out s)
        (gap s || match p with HoldPeeked _ => true | HoldFresh _ => false end))
  | step_cancel s c :
      Channel.try_send (canceled s) tt = Ok c ->
      step s (mk_system (pipe s) (reader s) c (phase s) (accepted s) (out s) (gap s)).

(** A new pipe. *)
Definition init (expiration : Deadline.Deadline) (latency : option Duration) : System :=
  mk_system (Channel.mk_chan [] 1000 false 1) (mk_reader 0 0 None expiration latency 0)
    (Channel.mk_chan [] 1 false 2) None [] [] false.

Record inv (s : System) : Prop := {
  inv_phase : match phase s with
              | Some (HoldPeeked _) => rd_peeked (reader s) = None
              | Some (HoldFresh msg) => fst <$> rd_peeked (reader s) = Some msg
              | None => True
              end;
  inv_order : exists taken,
    accepted s = taken ++ in_hand s ++ (fst <$> Channel.queue (pipe s)) /\
    sublist (out s) taken /\ (gap s = false -> out s = taken);
}.

Lemma snoc_order (o t : list bytes) m (g : bool) :
  sublist o t -> (g = false -> o = t) -> sublist (o ++ [m]) (t ++ [m]) /\ (g = false -> o ++ [m] = t ++ [m]).
Proof. intros H1 H2. split; [by apply sublist_app|]. by intros ->%H2. Qed.

Lemma skip_order (o t : list bytes) m : sublist o t -> sublist o (t ++ [m]).
Proof. intros. by apply sublist_inserts_r. Qed.

(** A call that ends with the message in hand, or gives it up. *)
Lemma pipe_finish_inv s msg taken fired (r : PipeLinkReader) st r' rx cx :
  in_hand s = [msg] -> accepted s = taken ++ [msg] ++ (fst <$> Channel.queue (pipe s)) ->
  sublist (out s) taken -> (gap s = false -> out s = taken) ->
  finish_peeked fired msg r (pipe s) = (st, r', rx) -> inv (after s st r' rx cx).
Proof.
  intros Hin Ha Ho Hg. unfold finish_peeked.
  destruct (Deadline.is_elapsed _ _); intros [= <- <- <-]; constructor; simpl; try done;
    exists (taken ++ [msg]); rewrite Ha, <- app_assoc, ?app_nil_r; (split; [done|]).
  - split; [by apply skip_order|]. rewrite Hin. by rewrite orb_comm.
  - rewrite orb_false_r. by apply snoc_order.
Qed.

Lemma begin_inv s fired now st r rx cx :
  inv s -> phase s = None -> read_begin fired now (reader s) (pipe s) (canceled s) = Ret (st, r, rx, cx) ->
  inv (after s st r rx cx).
Proof.
  intros [_ (taken & Ha & Ho & Hg)] Hph Hb. unfold read_begin in Hb. unfold in_hand in Ha. rewrite Hph in Ha.
  destruct (rd_peeked (reader s)) as [[msg ts]|] eqn:Hp; simpl in Ha.
  - assert (in_hand s = [msg]) as Hin by (unfold in_hand; by rewrite Hph, Hp). simpl in Hb.
    destruct (rd_latency (reader s)) as [l|].
    + apply bind_Ret_inv in Hb as (t & _ & [= <- <- <- <-]). constructor; [done|]. exists taken.
      simpl. rewrite app_nil_r, orb_false_r. by split_and!.
    + destruct (finish_peeked _ _ _ _) as [[st1 r1] rx1] eqn:E. injection Hb as <- <- <- <-.
      by eapply pipe_finish_inv.
  - assert (in_hand s = []) as Hin by (unfold in_hand; by rewrite Hph, Hp).
    destruct (Channel.recv (canceled s)) as [[o|] cx1].
    + injection Hb as <- <- <- <-. constructor; [done|]. exists taken. simpl.
      rewrite Hin, app_nil_r, orb_false_r. unfold in_hand. simpl. by rewrite Hp.
    + apply bind_Ret_inv in Hb as ([e d] & _ & Hb). destruct e.
      { injection Hb as <- <- <- <-. constructor; [done|]. exists taken. simpl.
        rewrite Hin, app_nil_r, orb_false_r. unfold in_hand. simpl. by rewrite Hp. }
      destruct (Channel.recv (pipe s)) as [[[[msg ts]|]|] rx1] eqn:E.
      * apply Channel.recv_Some in E as [Hq Hrx]. rewrite Hq in Ha. simpl in Ha, Hb.
        destruct (rd_latency (reader s)) as [l|].
        -- apply bind_Ret_inv in Hb as (t & _ & [= <- <- <- <-]). constructor; [done|]. exists taken.
           simpl. rewrite app_nil_r, orb_false_r. by split_and!.
        -- injection Hb as <- <- <- <-. constructor; [done|]. exists (taken ++ [msg]). simpl.
           rewrite orb_false_r, <- app_assoc. split; [done|]. by apply snoc_order.
      * injection Hb as <- <- <- <-. constructor; [done|]. exists taken. simpl.
        rewrite Hin, app_nil_r, orb_false_r. unfold in_hand. simpl. rewrite Hp.
        unfold Channel.recv in E. destruct (Channel.queue (pipe s)) as [|[? ?] ?] eqn:Hq; [|done].
        destruct (_ || _); [|done]. injection E as <-. by rewrite Hq.
      * injection Hb as <- <- <- <-. constructor; [done|]. exists taken. simpl.
        rewrite app_nil_r, orb_false_r. unfold in_hand. simpl. rewrite Hp.
        unfold Channel.recv in E. destruct (Channel.queue (pipe s)) as [|[? ?] ?] eqn:Hq; [|done].
        destruct (_ || _); [done|]. injection E as <-. by rewrite Hq.
Qed.

Lemma pipe_step_inv s s' : inv s -> step s s' -> inv s'.
Proof.
  intros Hi Hs. destruct Hs as [s msg now c Hs|s fired now st r rx cx Hph Hb|s fired p st r rx Hph Hw|s p Hph|s c Hc].
  - destruct Hi as [Hph (taken & Ha & Ho & Hg)]. constructor; [done|]. exists taken. simpl.
    apply Channel.send_Ready in Hs as [[_ ->]|[? _]]; [|done]. simpl. rewrite Ha, fmap_app, <- !app_assoc.
    by split_and!.
  - by eapply begin_inv.
  - destruct Hi as [Hp (taken & Ha & Ho & Hg)]. rewrite Hph in Hp.
    destruct p as [msg|msg]; simpl in Hw.
    + assert (in_hand s = [msg]) as Hin by (unfold in_hand; by rewrite Hph). rewrite Hin in Ha. by eapply pipe_finish_inv.
    + injection Hw as <- <- <-. constructor; [done|]. exists (taken ++ [msg]). simpl.
      unfold in_hand in Ha. rewrite Hph in Ha. rewrite Ha, orb_false_r, <- app_assoc.
      split; [done|]. by apply snoc_order.
  - destruct Hi as [Hp (taken & Ha & Ho & Hg)]. rewrite Hph in Hp. unfold in_hand in Ha. rewrite Hph in Ha.
    constructor; [done|]. destruct p as [msg|msg]; simpl.
    + exists (taken ++ [msg]). unfold in_hand. simpl. rewrite Hp, <- app_assoc. split; [done|].
      split; [by apply skip_order|]. by rewrite orb_comm.
    + exists taken. unfold in_hand. simpl. rewrite Hp, orb_false_r. by split_and!.
  - by destruct Hi; constructor.
Qed.

(** C31. A pipe link keeps its order: whatever is sent, canceled, abandoned or
    expires, what [read] returns is what the channel accepted, in order and
    without duplicates; and nothing is skipped unless a call that held a message
    gave it up. *)
Theorem pipe_in_order expiration latency s :
  rtc step (init expiration latency) s ->
  sublist (out s) (accepted s) /\ (gap s = false -> out s `prefix_of` accepted s).
Proof.
  intros Hr. assert (inv s) as [_ (taken & -> & Ho & Hg)].
  { revert s Hr. apply rtc_ind_r; [|intros y z _ Hyz IH; by eapply pipe_step_inv].
    constructor; [done|]. by exists []. }
  split; [by apply sublist_inserts_r|]. intros ->%Hg. by eexists.
Qed.

(** ** Behaviours of the reader *)

(** A message that was peeked is lost when a second call of [read] is
    abandoned during the latency: the call has taken it out of the reader. *)
Theorem abandoned_twice_lost fired now r rx cx msg ts latency t :
  rd_peeked r = Some (msg, ts) -> rd_latency r = Some latency -> instant_add ts latency = Ret t ->
  read_begin fired now r rx cx = Ret (Sleep (HoldPeeked msg) t, set_peeked r None, rx, cx).
Proof. unfold read_begin. intros -> Hl Ht. simpl. by rewrite Hl, Ht. Qed.

(** A canceled reader fails once and then goes on: the next call returns
    the message that was queued, although an error of a link is to be final. *)
Theorem canceled_reader_continues now r rx msg ts q cap :
  rd_peeked r = None -> rd_latency r = None -> Deadline.has_deadline (rd_expiration r) = false ->
  Channel.queue rx = (msg, ts) :: q ->
  exists r1 rx1 cx1 r2 rx2 cx2,
    read_begin false now r rx (Channel.mk_chan [tt] cap false 2) = Ret (Done (Err Closed), r1, rx1, cx1) /\
    read_begin false now r1 rx1 cx1 = Ret (Done (Ok msg), r2, rx2, cx2).
Proof.
  intros Hp Hl Hd Hq. do 6 eexists. split.
  - unfold read_begin. by rewrite Hp.
  - unfold read_begin. rewrite Hp. simpl. rewrite Hd. unfold Channel.recv. simpl. rewrite Hq. simpl. by rewrite Hl.
Qed.

(** ** Pairs *)

(** Two ends whose channels are crossed, new and empty. *)
Record paired (l1 l2 : PipeLink) (h : Heap) : Prop := {
  pair_distinct : pl_tx l1 <> pl_tx l2;
  pair_readers : exists r1 r2, pl_reader l1 = Some r1 /\ pl_reader l2 = Some r2 /\
    rd_rx r1 = pl_tx l2 /\ rd_rx r2 = pl_tx l1 /\ rd_peeked r1 = None /\ rd_peeked r2 = None /\
    cancels h !! rd_cancel_rx r1 = Some (Channel.mk_chan [] 1 false 2) /\
    cancels h !! rd_cancel_rx r2 = Some (Channel.mk_chan [] 1 false 2);
  pair_pipes : pipes h !! pl_tx l1 = Some (Channel.mk_chan [] 1000 false 1) /\
    pipes h !! pl_tx l2 = Some (Channel.mk_chan [] 1000 false 1);
}.

Lemma create_pair_inv b id1 id2 now1 now2 h l1 l2 h' :
  create_pair b id1 id2 now1 now2 h = Ret (l1, l2, h') ->
  paired l1 l2 h' /\ listening h' = listening h /\
  bernoulli_new (reliability_ b) = Some (pl_reliability l1) /\
  (exists r2, pl_reader l2 = Some r2 /\ rd_latency r2 = latency_ b /\
    (expiration_ b = None -> rd_expiration r2 = Deadline.new)).
Proof.
  unfold create_pair, new_channels. intros H.
  apply bind_Ret_inv in H as (d1 & _ & H). apply bind_Ret_inv in H as (p1 & Hp1 & H).
  apply bind_Ret_inv in H as (d2 & Hd2 & H). apply bind_Ret_inv in H as (p2 & _ & [= <- <- <-]).
  split_and!; [|done|by destruct (bernoulli_new _); [injection Hp1 as ->|]|].
  - constructor; simpl; [lia| |by rewrite lookup_insert_eq, lookup_insert_ne, lookup_insert_eq by lia].
    eexists _, _. split_and!; try done; simpl; [apply lookup_insert_eq|].
    rewrite lookup_insert_ne by lia. apply lookup_insert_eq.
  - eexists. split_and!; try done. simpl. intros He. rewrite He in Hd2. by injection Hd2 as <-.
Qed.

(** C32. What a hub hands to the caller of [connect] and to the listener of the
    address are the two ends of one new pair: over a reliable builder, a message
    sent on the one is the next the other receives. *)
Theorem hub_connects {RL : RandLaws} hub addr id1 id2 now1 now2 h link1 hub' h' n t t' msg :
  connect hub addr id1 id2 now1 now2 h = Ret (Some link1, hub', h') ->
  reliability_ (link_builder hub) = f64_one -> expiration_ (link_builder hub) = None ->
  latency_ (link_builder hub) = None ->
  exists i c link2 h1 link2' h2,
    listeners hub !! addr = Some i /\ listening h !! i = Some c /\
    listening h' !! i = Some (Channel.set_queue c (Channel.queue c ++ [link2])) /\
    send n t link1 msg h' = Ret (Ready (Ok tt), h1) /\
    recv false false t' link2 h1 = Ret (Ready (Ok msg), link2', h2).
Proof.
  unfold connect. intros H Hrel Hexp Hlat. destruct (listeners hub !! addr) as [i|] eqn:Hi; [|done].
  apply bind_Ret_inv in H as (c & Hc & H). destruct (listening h !! i) as [c'|] eqn:Hli; [|done].
  injection Hc as ->. destruct (Channel.rx_closed c); [done|]. destruct (_ <? _); [|done].
  apply bind_Ret_inv in H as ([[l1 l2] h1] & Hp & [= <- <- <-]).
  apply create_pair_inv in Hp as ([_ (r1 & r2 & Hr1 & Hr2 & Hx1 & Hx2 & Hk1 & Hk2 & Hc1 & Hc2) [Hq1 Hq2]] & Hl & Hb & r & Hr & Hla & He).
  rewrite Hr2 in Hr. injection Hr as <-. rewrite Hrel in Hb. specialize (He Hexp). rewrite Hlat in Hla.
  do 6 eexists. split_and!; [done|done|apply lookup_insert_eq|..].
  - unfold send. rewrite (sample_one _ n Hb). simpl. rewrite Hq1. simpl. done.
  - unfold recv, read. rewrite Hr2. simpl. rewrite Hx2, lookup_insert_eq. simpl. rewrite Hc2. simpl.
    unfold read_begin. rewrite Hk2, He. simpl. by rewrite Hla.
Qed.

(** Reads the heap of a pair whose channels are named from [i] on. *)
Ltac heap_lookups i :=
  repeat (simpl; rewrite ?lookup_insert_eq, ?(lookup_insert_ne _ i (i + 1)), ?(lookup_insert_ne _ (i + 1) i),
    ?(lookup_insert_ne _ (i + 2) (i + 3)), ?(lookup_insert_ne _ (i + 3) (i + 2)) by lia).

(** When one end of a fresh pair is dropped, the other end finds the link closed,
    both for receiving and for sending. *)
Lemma peer_dropped_closes b id1 id2 now1 now2 h0 l1 l2 h n t msg :
  create_pair b id1 id2 now1 now2 h0 = Ret (l1, l2, h) -> expiration_ b = None ->
  exists h', drop_link l1 h = Ret h' /\ is_closed l2 h' = Ret true /\
    (exists l2' h2, recv false false t l2 h' = Ret (Ready (Err Closed), l2', h2)) /\
    (sample n (pl_reliability l2) = true -> send n t l2 msg h' = Ret (Ready (Err Closed), h')).
Proof.
  unfold create_pair, new_channels. intros H He. rewrite He in H. simpl in H.
  destruct (bernoulli_new (reliability_ b)) as [p|]; [|done]. injection H as <- <- <-. set (i := next h0).
  unfold drop_link, drop_reader, drop_cancel_sender, is_closed, recv, read, send. heap_lookups i.
  eexists. split; [reflexivity|]. heap_lookups i. split_and!; [done|by eexists _, _|].
  intros ->. by heap_lookups i.
Qed.
End with_rand.
End PipeTheory.
