(* ===== verification/UnitTests.v ===== *)
(** * The crate's unit tests

    The tests in [src/slice_manager.rs], [src/protocol.rs],
    [src/links/address.rs], [src/link_impls/pipe_link.rs] and
    [src/link_impls/tcp_link.rs], translated to the
    model: a failed assertion is a panic.  Random choices of a test are its
    arguments.  Two tests of the pipe measure real time or frequencies and are
    left out. *)

From Stdlib Require Import String.
From S2P Require Import Prelude Bytes Errors Epochs Proto BTree Slices Clock Address Outside Channels Tcp Pipe.
From S2P Require Import Base64Codec.
Open Scope list_scope.

Module UnitTests.
Import Epoch Protocol BTreeMap.

Definition assert (b : bool) : outcome unit := if b then Ret tt else Panic.
Definition assert_eq `{EqDecision A} (x y : A) : outcome unit := assert (bool_decide (x = y)).

(** A byte string literal. *)
Abbreviation b s := (list_byte_of_string s).

(** [Result::expect]. *)
Definition expect {E A} (r : result E A) : outcome A := match r with Ok a => Ret a | Err _ => Panic end.

(** ** [src/slice_manager.rs] *)

Section slices.
Import SliceManager.
Context {P : BuildProfile}.

(** The manager the tests start from, with the slices that were inserted. *)
Definition test_mgr (inserted : list (Z * Z)) : outcome SliceManager :=
  epoch ← unwrap (from_int 2);
  Ret (mk_slice_manager epoch 28 (replicate 100 x00) (foldl (fun m kv => insert (fst kv) (snd kv) m) [] inserted)).

Definition add_slice_test (inserted : list (Z * Z)) (start end_ : Z) (expected : list (Z * Z)) : outcome unit :=
  mgr ← test_mgr inserted;
  mgr ← add_slice mgr start end_;
  assert_eq (sm_slices mgr) expected.

Definition add_slice_empty := add_slice_test [] 30 70 [(30, 70)].
Definition add_slice_split := add_slice_test [(0, 40); (60, 99)] 30 70 [(0, 99)].
Definition add_slice_left_hand_overlap := add_slice_test [(0, 50)] 30 70 [(0, 70)].
Definition add_slice_right_hand_overlap := add_slice_test [(50, 99)] 30 70 [(30, 99)].
Definition add_slice_full_overlap := add_slice_test [(30, 70)] 40 60 [(30, 70)].
Definition add_slice_exact_overlap := add_slice_test [(30, 70)] 30 70 [(30, 70)].
Definition add_slice_off_by_one_left := add_slice_test [(29, 29)] 30 70 [(29, 70)].
Definition add_slice_off_by_one_right := add_slice_test [(71, 71)] 30 70 [(30, 71)].
Definition add_slice_multiple_regions :=
  add_slice_test [(5, 15); (25, 35); (45, 55); (65, 75); (85, 95)] 30 70 [(5, 15); (25, 75); (85, 95)].

Definition remove_slice_test (inserted : list (Z * Z)) (start end_ : Z) (expected : list (Z * Z)) : outcome unit :=
  mgr ← test_mgr inserted;
  mgr ← remove_slice mgr start end_;
  assert_eq (sm_slices mgr) expected.

Definition remove_slice_split := remove_slice_test [(0, 100)] 30 70 [(0, 29); (71, 100)].
Definition remove_slice_left_hand_overlap := remove_slice_test [(0, 50)] 30 70 [(0, 29)].
Definition remove_slice_right_hand_overlap := remove_slice_test [(50, 100)] 30 70 [(71, 100)].
Definition remove_slice_full_overlap := remove_slice_test [(40, 60)] 30 70 [].
Definition remove_slice_exact_overlap := remove_slice_test [(30, 70)] 30 70 [].
Definition remove_slice_off_by_one_left := remove_slice_test [(29, 70)] 30 70 [(29, 29)].
Definition remove_slice_off_by_one_right := remove_slice_test [(30, 71)] 30 70 [(71, 71)].
Definition remove_slice_multiple_regions :=
  remove_slice_test [(5, 15); (25, 35); (45, 55); (65, 75); (85, 95)] 30 70
    [(5, 15); (25, 29); (71, 75); (85, 95)].

(** The data of slices; any other packet is a panic. *)
Fixpoint slice_data (slices : list LinkProtocol) : outcome (list bytes) :=
  match slices with
  | [] => Ret []
  | MsgSlice _ _ _ _ data :: slices => rest ← slice_data slices; Ret (data :: rest)
  | _ :: _ => Panic
  end.

Definition make_slices_simple : outcome unit :=
  epoch ← unwrap (from_int 4);
  let mgr := from_vec epoch 50 (b "test data") in
  let end_ := len (sm_data mgr) - 1 in
  slices ← make_slices (sm_data mgr) epoch 39 5 3 end_;
  data ← slice_data slices;
  assert_eq data [[x64; x61; x74]; [x61]].

Definition make_slices_len : outcome unit :=
  epoch ← unwrap (from_int 4);
  let mgr := from_vec epoch 50 (b "test data") in
  let end_ := len (sm_data mgr) - 1 in
  slices ← make_slices (sm_data mgr) epoch 39 5 3 end_;
  assert_eq (len slices) (end_ - 5 - 1).

(** [check] holds of every slice. *)
Fixpoint for_slices (check : LinkProtocol -> outcome unit) (slices : list LinkProtocol) : outcome unit :=
  match slices with
  | [] => Ret tt
  | p :: slices => check p;; for_slices check slices
  end.

Definition make_slices_seq : outcome unit :=
  epoch ← unwrap (from_int 4);
  let mgr := from_vec epoch 50 (b "test data") in
  let end_ := len (sm_data mgr) - 1 in
  slices ← make_slices (sm_data mgr) epoch 35 5 3 end_;
  for_slices (fun proto => match proto with MsgSlice _ slice_seq _ _ _ => assert_eq slice_seq 35 | _ => Panic end) slices.

Definition make_slices_proto_len : outcome unit :=
  epoch ← unwrap (from_int 4);
  let data_len := len (b "test data") in
  let mgr := from_vec epoch 35 (b "test data") in
  let end_ := len (sm_data mgr) - 1 in
  slices ← make_slices (sm_data mgr) epoch 35 5 3 end_;
  for_slices (fun proto => match proto with MsgSlice _ _ seq_len _ _ => assert_eq data_len seq_len | _ => Panic end) slices.

Definition make_slices_end_before_start : outcome unit :=
  epoch ← unwrap (from_int 4);
  let mgr := from_vec epoch 65 (b "test data") in
  slices ← make_slices (sm_data mgr) epoch 65 5 3 4;
  data ← slice_data slices;
  assert_eq data [].

Definition make_slices_zero_sized : outcome unit :=
  epoch ← unwrap (from_int 6);
  let mgr := from_vec epoch 342 (b "test data") in
  slices ← make_slices (sm_data mgr) epoch 342 5 0 7;
  data ← slice_data slices;
  assert_eq data [].

Definition is_full_new : outcome unit :=
  epoch ← unwrap (from_int 4);
  let mgr := from_vec epoch 50 (b "test data") in
  full ← is_full mgr;
  assert full;;
  assert (negb (is_empty mgr)).

(** Neither full nor empty. *)
Definition assert_partial (mgr : SliceManager) : outcome unit :=
  full ← is_full mgr;
  assert (negb full);;
  assert (negb (is_empty mgr)).

Definition is_full_one_slice : outcome unit :=
  epoch ← unwrap (from_int 4);
  mgr ← new epoch 50 20;
  mgr ← add_slice mgr 5 10;
  assert_partial mgr.

Definition is_full_two_slice : outcome unit :=
  epoch ← unwrap (from_int 4);
  mgr ← new epoch 50 20;
  mgr ← add_slice mgr 5 10;
  mgr ← add_slice mgr 15 18;
  assert_partial mgr.

Definition is_empty_new : outcome unit :=
  epoch ← unwrap (from_int 4);
  mgr ← new epoch 50 10;
  assert (is_empty mgr);;
  full ← is_full mgr;
  assert (negb full).

Definition slice_tests : list (outcome unit) :=
  [ add_slice_empty; add_slice_split; add_slice_left_hand_overlap; add_slice_right_hand_overlap;
    add_slice_full_overlap; add_slice_exact_overlap; add_slice_off_by_one_left; add_slice_off_by_one_right;
    add_slice_multiple_regions; remove_slice_split; remove_slice_left_hand_overlap;
    remove_slice_right_hand_overlap; remove_slice_full_overlap; remove_slice_exact_overlap;
    remove_slice_off_by_one_left; remove_slice_off_by_one_right; remove_slice_multiple_regions;
    make_slices_simple; make_slices_len; make_slices_seq; make_slices_proto_len;
    make_slices_end_before_start; make_slices_zero_sized; is_full_new; is_full_one_slice;
    is_full_two_slice; is_empty_new ].
End slices.

(** ** [src/protocol.rs] *)

Definition round_trip (p : LinkProtocol) : outcome unit :=
  deserialized ← expect (fst (deserialize (serialize p)));
  assert_eq p deserialized.

Definition reset_round_trip {P : BuildProfile} (int : Z) (request : bool) : outcome unit :=
  epoch ← random int;
  round_trip (Reset (Some epoch) request).

Definition slice_round_trip (epoch seq seq_len first_index : Z) (data : bytes) : outcome unit :=
  round_trip (MsgSlice epoch seq seq_len first_index data).

Definition ack_round_trip (epoch seq last_index : Z) : outcome unit := round_trip (Ack epoch seq last_index).

Definition ping_round_trip : outcome unit := round_trip Ping.
Definition pong_round_trip : outcome unit := round_trip Pong.

(** ** [src/links/address.rs] *)

Section addresses.
Import Address(scheme, addr_string, addr_bytes, to_bytes, from_bytes, display, from_str, repr_of_str).
Context `{Base64}.

Definition string_round_trip : outcome unit :=
  let addr := Address.new repr_of_str (b "test_scheme") (b "test_addr") in
  let displayed_addr := display addr in
  parsed_addr ← unwrap (from_str displayed_addr);
  assert_eq addr parsed_addr.

(** Parses [displayed_addr] and compares its scheme and its text. *)
Definition parse_test (displayed_addr expected : Str) : outcome unit :=
  parsed_addr ← unwrap (from_str displayed_addr);
  assert_eq (scheme parsed_addr) (b "test_scheme");;
  parsed_addr_string ← expect (addr_string parsed_addr);
  assert_eq parsed_addr_string expected.

Definition parse_string_default := parse_test (b "test_scheme:192.168.0.1:8080") (b "192.168.0.1:8080").
Definition parse_string_default_txt := parse_test (b "test_scheme:txt:192.168.0.1:8080") (b "192.168.0.1:8080").
Definition parse_string_empty_txt := parse_test (b "test_scheme:txt:") (b "").

Definition parse_bytes_test (displayed_addr : Str) (expected : bytes) : outcome unit :=
  parsed_addr ← unwrap (from_str displayed_addr);
  assert_eq (scheme parsed_addr) (b "test_scheme");;
  parsed_addr_bytes ← expect (addr_bytes parsed_addr);
  assert_eq parsed_addr_bytes expected.

Definition parse_string_default_b64 :=
  parse_bytes_test (b "test_scheme:b64:MTkyLjE2OC4wLjE6ODA4MA==") (b "192.168.0.1:8080").
Definition parse_string_empty_b64 := parse_bytes_test (b "test_scheme:b64:") (b "").

Definition display_round_trip : outcome unit := string_round_trip.

Definition compact_test (addr : Str) : outcome unit :=
  let addr := Address.new repr_of_str (b "test_scheme") addr in
  let bytes := to_bytes addr in
  parsed_addr ← from_bytes bytes;
  parsed_addr ← expect parsed_addr;
  assert_eq addr parsed_addr.

Definition compact_bytes_round_trip := compact_test (b "test_addr").
Definition empty_compact_bytes_round_trip := compact_test (b "").

Definition empty_compact_bytes_input : outcome unit :=
  from_bytes (b "test_scheme:");;
  Ret tt.

Definition address_tests : list (outcome unit) :=
  [ string_round_trip; parse_string_default; parse_string_default_txt; parse_string_empty_txt;
    parse_string_default_b64; parse_string_empty_b64; display_round_trip; compact_bytes_round_trip;
    empty_compact_bytes_round_trip; empty_compact_bytes_input ].
End addresses.

(** ** [src/link_impls/pipe_link.rs] *)

Section pipes.
Import Pipe.
Context {R : Rand}.

(** An awaited result that is unwrapped, and one that has to be an error. *)
Definition unwrap_ready {E A} (p : Poll (result E A)) : outcome A :=
  match p with Ready (Ok a) => Ret a | _ => Panic end.
Definition expect_err {E A} (p : Poll (result E A)) : outcome unit :=
  match p with Ready (Err _) => Ret tt | _ => Panic end.

Definition send_ok (l : PipeLink) (msg : bytes) (h : Heap) : outcome Heap :=
  '(sent, h) ← send 0 0 l msg h;
  unwrap_ready sent;;
  Ret h.

Definition recv_eq (fired : bool) (l : PipeLink) (msg : bytes) (h : Heap) : outcome Heap :=
  '(recvd_msg, _, h) ← recv fired fired 0 l h;
  recvd_msg ← unwrap_ready recvd_msg;
  assert_eq recvd_msg msg;;
  Ret h.

Definition pipe_links_send_recv (id1 id2 : Z) : outcome unit :=
  '(l1, l2, h) ← create_pair_default id1 id2 heap_new;
  h ← send_ok l1 (b "test") h;
  recv_eq false l2 (b "test") h;;
  Ret tt.

Definition pipe_links_send_recv_canceled (id1 id2 : Z) : outcome unit :=
  '(l1, l2, h) ← create_pair_default id1 id2 heap_new;
  '(c, h) ← get_canceler l1 h;
  h ← cancel c h;
  h ← send_ok l1 (b "test") h;
  '(recvd_msg, _, _) ← recv false false 0 l2 h;
  expect_err recvd_msg.

Definition pipe_links_taken_send_recv_canceled (id1 id2 : Z) : outcome unit :=
  '(l1, l2, h) ← create_pair_default id1 id2 heap_new;
  '(c, h) ← get_canceler l1 h;
  h ← cancel c h;
  reader ← expect (fst (take_reader l2));
  '(_, h) ← send 0 0 l1 (b "test") h;
  '(recvd_msg, _, _) ← read false false 0 reader h;
  expect_err recvd_msg.

Definition pipe_links_send_recv_not_expired (id1 id2 : Z) : outcome unit :=
  '(l1, l2, h) ← create_pair (with_expiration builder_new (Some (from_secs 2))) id1 id2 0 0 heap_new;
  h ← send_ok l1 (b "test") h;
  recv_eq false l2 (b "test") h;;
  Ret tt.

Definition pipe_links_send_recv_expired (id1 id2 : Z) : outcome unit :=
  '(l1, l2, h) ← create_pair (with_expiration builder_new (Some (from_secs 1))) id1 id2 0 0 heap_new;
  h ← send_ok l1 (b "test") h;
  '(recvd_msg, _, _) ← recv true true 0 l2 h;
  expect_err recvd_msg.

(** The next link of a listener. *)
Definition accept (i : Z) (h : Heap) : outcome (PipeLink * Heap) :=
  c ← unwrap (listening h !! i);
  match Channel.recv c with
  | (Ready (Some l), c) => Ret (l, set_listening h i c)
  | _ => Panic
  end.

Definition connect_accept (hub : PipeLinkHub) (addr : Str) (i id1 id2 : Z) (h : Heap)
    : outcome (PipeLink * PipeLink * PipeLinkHub * Heap) :=
  '(link, hub, h) ← connect hub addr id1 id2 0 0 h;
  link ← unwrap link;
  '(accepted, h) ← accept i h;
  Ret (link, accepted, hub, h).

Definition pipe_link_hub_send_recv (id1 id2 : Z) : outcome unit :=
  let hub := hub_new builder_new in
  '(listener, hub, h) ← listen hub (b "addr1") heap_new;
  '(lb, la, hub, h) ← connect_accept hub (b "addr1") listener id1 id2 h;
  h ← send_ok la (b "test") h;
  recv_eq false lb (b "test") h;;
  Ret tt.

Definition pipe_link_hub_send_recv_two_links_one_addr (id1 id2 id3 id4 : Z) : outcome unit :=
  let hub := hub_new builder_new in
  '(listener, hub, h) ← listen hub (b "addr1") heap_new;
  '(lb, la, hub, h) ← connect_accept hub (b "addr1") listener id1 id2 h;
  '(lc, ld, hub, h) ← connect_accept hub (b "addr1") listener id3 id4 h;
  h ← send_ok la (b "test") h;
  h ← recv_eq false lb (b "test") h;
  h ← send_ok lc (b "test") h;
  recv_eq false ld (b "test") h;;
  Ret tt.

Definition pipe_link_hub_send_recv_two_links_two_addr (id1 id2 id3 id4 : Z) : outcome unit :=
  let hub := hub_new builder_new in
  '(listener1, hub, h) ← listen hub (b "addr1") heap_new;
  '(listener2, hub, h) ← listen hub (b "addr2") h;
  '(lb, la, hub, h) ← connect_accept hub (b "addr1") listener1 id1 id2 h;
  '(lc, ld, hub, h) ← connect_accept hub (b "addr2") listener2 id3 id4 h;
  h ← send_ok la (b "test") h;
  h ← recv_eq false lb (b "test") h;
  h ← send_ok lc (b "test2") h;
  recv_eq false ld (b "test2") h;;
  Ret tt.

Definition pipe_tests (id1 id2 id3 id4 : Z) : list (outcome unit) :=
  [ pipe_links_send_recv id1 id2; pipe_links_send_recv_canceled id1 id2;
    pipe_links_taken_send_recv_canceled id1 id2; pipe_links_send_recv_not_expired id1 id2;
    pipe_links_send_recv_expired id1 id2; pipe_link_hub_send_recv id1 id2;
    pipe_link_hub_send_recv_two_links_one_addr id1 id2 id3 id4;
    pipe_link_hub_send_recv_two_links_two_addr id1 id2 id3 id4 ].
End pipes.

(** ** [src/link_impls/tcp_link.rs] *)

(** What one end writes is what the other end reads, here with a single read. *)
Definition listen_connect_test : outcome unit :=
  listener ← expect (Tcp.listen (Ok tt));
  connect_link ← expect (Tcp.connect (fun _ => Ok []) (Tcp.Host (b "127.0.0.1:1940")));
  let data := b "test_data" in
  let (sent, connect_link) := Tcp.send None None connect_link data in
  expect sent;;
  let listener := Tcp.listen_step (Tcp.on_accept listener (Ok [Ok (Tcp.socket_writer connect_link)])) in
  match Channel.recv (Tcp.ls_chan listener) with
  | (Ready (Some listen_link), _) =>
      recvd_msg ← unwrap_ready (fst (Tcp.recv listen_link));
      assert_eq data recvd_msg
  | _ => Panic
  end.

(** A generator for the one probability that the tests use, 1.0. *)
Definition always : Rand :=
  {| f64 := unit; f64_one := tt; Bernoulli := unit; bernoulli_new _ := Some tt; sample _ _ := true |}.

(** ** The tests pass *)

Lemma assert_eq_refl `{EqDecision A} (x : A) : assert_eq x x = Ret tt.
Proof. unfold assert_eq. by rewrite bool_decide_eq_true_2. Qed.

Lemma round_trip_passes p : proto_wf p -> round_trip p = Ret tt.
Proof.
  intros Hp. unfold round_trip. rewrite <- (app_nil_r (serialize p)), (deserialize_roundtrip p []) by done.
  apply assert_eq_refl.
Qed.

Lemma slice_tests_pass {P : BuildProfile} : Forall (fun t => t = Ret tt) slice_tests.
Proof. repeat constructor; vm_compute; reflexivity. Qed.

Lemma address_tests_pass : Forall (fun t => t = Ret tt) (@address_tests Base64Codec.url_safe).
Proof. repeat constructor; vm_compute; reflexivity. Qed.

Lemma pipe_tests_pass id1 id2 id3 id4 : Forall (fun t => t = Ret tt) (@pipe_tests always id1 id2 id3 id4).
Proof. repeat constructor; vm_compute; reflexivity. Qed.

(** The unit tests of the crate pass on the model, in every build profile
    and for every outcome of the random choices in them. *)
Theorem unit_tests_pass {P : BuildProfile} int request epoch seq seq_len first_index last_index data id1 id2 id3 id4 :
  is_u64 int -> is_u64 epoch -> is_u64 seq -> is_u64 seq_len -> is_u64 first_index -> is_u64 last_index ->
  len data = 20 ->
  Forall (fun t => t = Ret tt)
    (slice_tests ++
     [ reset_round_trip int request; slice_round_trip epoch seq seq_len first_index data;
       ack_round_trip epoch seq last_index; ping_round_trip; pong_round_trip ] ++
     listen_connect_test :: @address_tests Base64Codec.url_safe ++ @pipe_tests always id1 id2 id3 id4).
Proof.
  intros. apply Forall_app. split; [apply slice_tests_pass|]. apply Forall_app. split.
  - repeat apply Forall_cons_2; try (apply round_trip_passes; simpl; lia || done); [|done].
    unfold reset_round_trip, random. destruct (Z.eqb_spec int 0) as [->|]; simpl.
    + by apply round_trip_passes.
    + unfold from_int. destruct (decide _) as [|Hn]; [by apply round_trip_passes|].
      exfalso. apply Hn, nonzero_u64_spec. lia.
  - constructor; [vm_compute; reflexivity|]. apply Forall_app. split; [apply address_tests_pass|apply pipe_tests_pass].
Qed.
End UnitTests.
