(* ===== verification/Connectors.v ===== *)
(** * The connector manager ([src/connector_manager.rs])

    While the link set looks for a connection, one task per address repeatedly
    asks the connector of the address's scheme for a link.  Each attempt uses up
    a permit of the address, unless the address is marked to repeat. *)

From S2P Require Import Prelude Bytes Errors Clock Address Outside.

Module ConnectorManager.
Import Address.

Definition RETRIES_MAX : Z := 10.
Definition U16_MAX : Z := 2 ^ 16 - 1.

(** [repeat] is the watched flag, [count] the permits the semaphore has
    available. *)
Record ConnectorManagerAddress : Type := mk_cma {
  cma_addr : Address;
  cma_repeat : bool;
  cma_count : Z;
}.

Definition new (addr : Address) : ConnectorManagerAddress := mk_cma addr false 0.

Definition set_count (a : ConnectorManagerAddress) (count : Z) : ConnectorManagerAddress :=
  mk_cma (cma_addr a) (cma_repeat a) count.

Definition set_repeat (a : ConnectorManagerAddress) (value : bool) : ConnectorManagerAddress :=
  mk_cma (cma_addr a) value (cma_count a).

Definition add_count (a : ConnectorManagerAddress) (count : Z) : ConnectorManagerAddress :=
  let existing := cma_count a in
  let room := saturating_sub RETRIES_MAX existing in
  set_count a (existing + Z.min count room).

Definition repeat (a : ConnectorManagerAddress) : ConnectorManagerAddress := set_repeat a true.

Definition merge (a other : ConnectorManagerAddress) : ConnectorManagerAddress :=
  let other_repeat := cma_repeat other in
  let permits := cma_count other in
  let a := add_count a (Z.min permits U16_MAX) in
  if other_repeat then set_repeat a true else a.

(** Addresses are compared by their [addr] alone, so a set of them is a map
    from that. *)
Abbreviation AddressSet := (gmap Address ConnectorManagerAddress).

(** The [AddAddress] case of the states that hold an [AddressSet]. *)
Definition add_address (addrs : AddressSet) (a : ConnectorManagerAddress) : AddressSet :=
  match addrs !! cma_addr a with
  | Some old => <[cma_addr a := merge old a]> addrs
  | None => <[cma_addr a := a]> addrs
  end.

Section with_outside.
Context {P : BuildProfile} {O : Outside}.

Abbreviation ConnectorSet := (gmap Str connector).

(** ** Tasks *)

(** Where the loop of a task is: at its head, waiting for the connector or for
    the channel (with or without a permit), sleeping, or left. *)
Inductive Phase : Type :=
  | AtLoop
  | Attempting (permit : bool)
  | Sleeping
  | Ended.

Record Task : Type := mk_task { task_conn : connector; task_phase : Phase }.

Definition create_task (conn : connector) : Task := mk_task conn AtLoop.

Definition set_phase (t : Task) (p : Phase) : Task := mk_task (task_conn t) p.

(** Dropping a permit gives it back. *)
Definition drop_permit (a : ConnectorManagerAddress) (p : Phase) : ConnectorManagerAddress :=
  match p with
  | Attempting true => set_count a (cma_count a + 1)
  | _ => a
  end.

(** The head of the loop: [None] while there is nothing to do. *)
Definition task_begin (a : ConnectorManagerAddress) (t : Task)
    : option (ConnectorManagerAddress * Task) :=
  match task_phase t with
  | AtLoop =>
      if cma_repeat a then Some (a, set_phase t (Attempting false))
      else if 0 <? cma_count a then
        Some (set_count a (cma_count a - 1), set_phase t (Attempting true))
      else None
  | _ => None
  end.

(** The rest of the loop body once [connect] returned [res]; [sent] is whether
    the channel to the core took the new link.  The link that was passed on
    comes with the result. *)
Definition task_finish (res : LinkSetResult link) (sent : bool) (a : ConnectorManagerAddress)
    (t : Task) : option (ConnectorManagerAddress * Task * option link) :=
  match task_phase t with
  | Attempting permit =>
      match res with
      | Ok l =>
          if sent then Some (a, set_phase t Sleeping, Some l)
          else Some (drop_permit a (Attempting permit), set_phase t Ended, None)
      | Err _ => Some (a, set_phase t Sleeping, None)
      end
  | _ => None
  end.

Definition task_wake (t : Task) : option Task :=
  match task_phase t with Sleeping => Some (set_phase t AtLoop) | _ => None end.

(** One step of a task's loop, with the address it shares. *)
Inductive task_step : ConnectorManagerAddress * Task -> ConnectorManagerAddress * Task -> Prop :=
  | step_begin a t a' t' : task_begin a t = Some (a', t') -> task_step (a, t) (a', t')
  | step_finish res sent a t a' t' l :
      task_finish res sent a t = Some (a', t', l) -> task_step (a, t) (a', t')
  | step_wake a t t' : task_wake t = Some t' -> task_step (a, t) (a, t').

(** [JoinHandle::abort], and awaiting the end: whatever the task held is
    dropped. *)
Definition abort (a : ConnectorManagerAddress) (t : option Task) : ConnectorManagerAddress :=
  match t with Some t => drop_permit a (task_phase t) | None => a end.

(** ** The manager *)

Record ConnectorManager : Type := mk_connector_manager {
  conns : ConnectorSet;
  handles : gmap Address (ConnectorManagerAddress * option Task);
}.

Definition start (addrs : AddressSet) (conns : ConnectorSet) : ConnectorManager :=
  mk_connector_manager conns
    ((fun a => (a, create_task <$> conns !! scheme (cma_addr a))) <$> addrs).

Definition add_addr (cm : ConnectorManager) (a : ConnectorManagerAddress) : ConnectorManager :=
  mk_connector_manager (conns cm)
    match handles cm !! cma_addr a with
    | Some (k, t) => <[cma_addr a := (merge k a, t)]> (handles cm)
    | None => <[cma_addr a := (a, create_task <$> conns cm !! scheme (cma_addr a))]> (handles cm)
    end.

(** The entries that use [conn]'s scheme. *)
Definition uses (conn : connector) (kv : ConnectorManagerAddress * option Task) : bool :=
  bool_decide (scheme (cma_addr kv.1) = connector_scheme conn).

Definition replace_task (conn : connector) (kv : ConnectorManagerAddress * option Task)
    : ConnectorManagerAddress * option Task :=
  if uses conn kv then (abort kv.1 kv.2, Some (create_task conn)) else kv.

(** [debug_assert!] is compiled in with the overflow checks (the dev profile)
    and out without them. *)
Definition add_connector (cm : ConnectorManager) (conn : connector) : outcome ConnectorManager :=
  match conns cm !! connector_scheme conn with
  | Some _ =>
      Ret (mk_connector_manager (<[connector_scheme conn := conn]> (conns cm))
             (replace_task conn <$> handles cm))
  | None =>
      if overflow_checks &&
         bool_decide (map_Exists (fun _ kv => uses conn kv = true /\ is_Some kv.2) (handles cm))
      then Panic
      else
        Ret (mk_connector_manager (<[connector_scheme conn := conn]> (conns cm))
               ((fun kv => if uses conn kv then (kv.1, Some (create_task conn)) else kv)
                <$> handles cm))
  end.

Definition cancel (cm : ConnectorManager) : ConnectorSet * AddressSet :=
  (conns cm, (fun kv => abort kv.1 kv.2) <$> handles cm).

Definition debug_request_snapshot (cm : ConnectorManager) : list Address * list Str :=
  ((fun kv => cma_addr kv.2.1) <$> map_to_list (handles cm),
   (fun kv => connector_scheme kv.2) <$> map_to_list (conns cm)).

(** The tasks run beside the core. *)
Inductive cm_step (cm : ConnectorManager) : ConnectorManager -> Prop :=
  | cm_task k a t a' t' :
      handles cm !! k = Some (a, Some t) -> task_step (a, t) (a', t') ->
      cm_step cm (mk_connector_manager (conns cm) (<[k := (a', Some t')]> (handles cm))).

(** ** The invariant *)

(** Permits available or in use. *)
Definition budget (a : ConnectorManagerAddress) (t : option Task) : Z :=
  cma_count (abort a t).

Definition cma_wf (k : Address) (a : ConnectorManagerAddress) : Prop :=
  k = cma_addr a /\ 0 <= cma_count a <= RETRIES_MAX + 1.

Definition addrs_wf (addrs : AddressSet) : Prop := map_Forall cma_wf addrs.

Definition conns_wf (conns : ConnectorSet) : Prop :=
  map_Forall (fun s c => connector_scheme c = s) conns.

(** An address has a task exactly when its scheme has a connector, and never
    more than one permit above the maximum (the one its task holds). *)
Definition entry_wf (conns : ConnectorSet) (k : Address)
    (kv : ConnectorManagerAddress * option Task) : Prop :=
  k = cma_addr kv.1 /\ 0 <= cma_count kv.1 /\ budget kv.1 kv.2 <= RETRIES_MAX + 1 /\
  (is_Some kv.2 <-> is_Some (conns !! scheme k)).

Record cm_wf (cm : ConnectorManager) : Prop := {
  cm_conns : conns_wf (conns cm);
  cm_handles : map_Forall (entry_wf (conns cm)) (handles cm);
}.

Lemma abort_addr a t : cma_addr (abort a t) = cma_addr a.
Proof. by destruct t as [[? [|[]| |]]|]. Qed.

Lemma abort_repeat a t : cma_repeat (abort a t) = cma_repeat a.
Proof. by destruct t as [[? [|[]| |]]|]. Qed.

Lemma abort_count a t : cma_count a <= cma_count (abort a t) <= cma_count a + 1.
Proof. destruct t as [[? [|[]| |]]|]; simpl; lia. Qed.

Lemma merge_addr a b : cma_addr (merge a b) = cma_addr a.
Proof. unfold merge. by destruct (cma_repeat b). Qed.

Lemma merge_count a b :
  0 <= cma_count b ->
  cma_count a <= cma_count (merge a b) <= Z.max (cma_count a) RETRIES_MAX.
Proof.
  intros Hb. unfold merge, add_count, saturating_sub, RETRIES_MAX, U16_MAX.
  destruct (cma_repeat b); simpl; lia.
Qed.

Lemma merge_budget a b t :
  0 <= cma_count a -> 0 <= cma_count b -> budget a t <= RETRIES_MAX + 1 ->
  0 <= cma_count (merge a b) /\ budget (merge a b) t <= RETRIES_MAX + 1.
Proof.
  intros Ha Hb Ht. pose proof (merge_count a b Hb). unfold budget in *.
  destruct t as [[? [|[]| |]]|]; simpl in *; unfold RETRIES_MAX in *; lia.
Qed.

Lemma add_address_wf addrs a : addrs_wf addrs -> cma_wf (cma_addr a) a -> addrs_wf (add_address addrs a).
Proof.
  intros Hs [_ Ha]. unfold add_address. destruct (addrs !! cma_addr a) as [old|] eqn:E.
  - destruct (Hs _ _ E) as [Hk Hold]. apply map_Forall_insert_2; [|done].
    split; [by rewrite merge_addr|]. pose proof (merge_count old a ltac:(lia)).
    unfold RETRIES_MAX in *. lia.
  - by apply map_Forall_insert_2.
Qed.

Lemma start_wf addrs conns : addrs_wf addrs -> conns_wf conns -> cm_wf (start addrs conns).
Proof.
  intros Ha Hc. constructor; [done|]. simpl. apply map_Forall_fmap. intros k a Hk.
  destruct (Ha _ _ Hk) as [-> Hcount]. unfold entry_wf. simpl.
  assert (budget a (create_task <$> conns !! scheme (cma_addr a)) = cma_count a) as ->
    by (unfold budget; by destruct (conns !! _)).
  split_and!; try lia; [done|]. by rewrite fmap_is_Some.
Qed.

Lemma add_addr_wf cm a : cm_wf cm -> cma_wf (cma_addr a) a -> cm_wf (add_addr cm a).
Proof.
  intros [Hc Hh] [_ Ha]. constructor; [done|]. simpl.
  destruct (handles cm !! cma_addr a) as [[k t]|] eqn:E; apply map_Forall_insert_2; try done.
  - destruct (Hh _ _ E) as (Hk & H0 & Hb & Ht). simpl in *.
    destruct (merge_budget k a t) as [? ?]; [done|lia|done|]. unfold entry_wf. simpl.
    by rewrite merge_addr.
  - unfold entry_wf. simpl.
    assert (budget a (create_task <$> conns cm !! scheme (cma_addr a)) = cma_count a) as ->
      by (unfold budget; by destruct (conns cm !! _)).
    split_and!; try lia; [done|]. by rewrite fmap_is_Some.
Qed.

(** Entries of other schemes do not notice a new connector. *)
Lemma entry_wf_other cs k kv conn :
  entry_wf cs k kv -> uses conn kv = false -> entry_wf (<[connector_scheme conn := conn]> cs) k kv.
Proof.
  intros (-> & H0 & Hb & Ht) Hu. unfold uses in Hu. apply bool_decide_eq_false in Hu.
  unfold entry_wf. by rewrite lookup_insert_ne.
Qed.

Lemma entry_wf_task cs k a conn :
  k = cma_addr a -> 0 <= cma_count a <= RETRIES_MAX + 1 -> scheme k = connector_scheme conn ->
  entry_wf (<[connector_scheme conn := conn]> cs) k (a, Some (create_task conn)).
Proof.
  intros -> Ha Hs. unfold entry_wf, budget. simpl. rewrite Hs, lookup_insert_eq.
  split_and!; try lia; [done|]. split; eauto.
Qed.

(** Adding a connector never trips the assertion, gives every address of its
    scheme a task that uses it, and keeps the invariant. *)
Lemma add_connector_spec cm conn :
  cm_wf cm -> exists cm', add_connector cm conn = Ret cm' /\ cm_wf cm' /\
    conns cm' = <[connector_scheme conn := conn]> (conns cm) /\ dom (handles cm') = dom (handles cm).
Proof.
  intros [Hc Hh]. assert (conns_wf (<[connector_scheme conn := conn]> (conns cm)))
    as Hc' by by apply map_Forall_insert_2.
  unfold add_connector. destruct (conns cm !! connector_scheme conn) as [c0|] eqn:E.
  - eexists. split; [done|]. simpl. rewrite dom_fmap_L. split; [|done].
    constructor; [done|]. simpl. apply map_Forall_fmap. intros k kv Hk. unfold compose, replace_task.
    destruct (uses conn kv) eqn:Hu; [|by apply entry_wf_other, Hu; apply Hh].
    destruct (Hh _ _ Hk) as (-> & H0 & Hb & _). unfold uses in Hu. apply bool_decide_eq_true in Hu.
    apply entry_wf_task; [by rewrite abort_addr|split; [|done]|done].
    pose proof (abort_count kv.1 kv.2). lia.
  - assert (~ map_Exists (fun _ kv => uses conn kv = true /\ is_Some kv.2) (handles cm)) as Hno.
    { intros (k & kv & Hk & Hu & Ht). destruct (Hh _ _ Hk) as (-> & _ & _ & Hiff).
      unfold uses in Hu. apply bool_decide_eq_true in Hu. apply Hiff in Ht. rewrite Hu, E in Ht.
      by destruct Ht. }
    rewrite bool_decide_eq_false_2, andb_false_r by done.
    eexists. split; [done|]. simpl. rewrite dom_fmap_L. split; [|done].
    constructor; [done|]. simpl. apply map_Forall_fmap. intros k kv Hk. unfold compose.
    destruct (uses conn kv) eqn:Hu; [|by apply entry_wf_other, Hu; apply Hh].
    destruct (Hh _ _ Hk) as (-> & H0 & Hb & _). unfold uses in Hu. apply bool_decide_eq_true in Hu.
    apply entry_wf_task; [done| |done]. pose proof (abort_count kv.1 kv.2). unfold budget in Hb. lia.
Qed.

Lemma cancel_wf cm : cm_wf cm -> conns_wf (cancel cm).1 /\ addrs_wf (cancel cm).2.
Proof.
  intros [Hc Hh]. split; [done|]. simpl. apply map_Forall_fmap. intros k kv Hk.
  destruct (Hh _ _ Hk) as (-> & H0 & Hb & _). split; [by rewrite abort_addr|].
  pose proof (abort_count kv.1 kv.2). unfold budget in Hb. lia.
Qed.

Lemma task_step_budget a t a' t' :
  task_step (a, t) (a', t') -> 0 <= cma_count a ->
  cma_addr a' = cma_addr a /\ 0 <= cma_count a' /\ budget a' (Some t') <= budget a (Some t).
Proof.
  intros Hs H0. unfold budget. inversion Hs as [? ? ? ? Hb|? ? ? ? ? ? ? Hf|? ? ? Hw]; subst;
    destruct t as [c ph].
  - unfold task_begin in Hb. simpl in Hb. destruct ph; try done. destruct (cma_repeat a).
    + injection Hb as <- <-. simpl. split_and!; done || lia.
    + destruct (Z.ltb_spec 0 (cma_count a)); [|done]. injection Hb as <- <-. simpl.
      split_and!; done || lia.
  - unfold task_finish in Hf. simpl in Hf. destruct ph as [|[]| |]; try done;
      (destruct res; [destruct sent|]); injection Hf as <- <- _; simpl; split_and!; done || lia.
  - unfold task_wake in Hw. simpl in Hw. destruct ph; try done. injection Hw as <-. simpl.
    split_and!; done || lia.
Qed.

Lemma cm_step_wf cm cm' : cm_wf cm -> cm_step cm cm' -> cm_wf cm'.
Proof.
  intros [Hc Hh] [k a t a' t' Hk Hs]. constructor; [done|]. simpl.
  apply map_Forall_insert_2; [|done]. destruct (Hh _ _ Hk) as (-> & H0 & Hb & Ht). simpl in *.
  destruct (task_step_budget _ _ _ _ Hs H0) as (Ha & H0' & Hb'). unfold entry_wf. simpl.
  split_and!; [done|done|lia|]. rewrite <- Ht. split; eauto.
Qed.

(** ** Attempts *)

(** One task running on its own: [n] counts the attempts it completed. *)
Inductive task_run (a : ConnectorManagerAddress) (t : Task)
    : Z -> ConnectorManagerAddress -> Task -> Prop :=
  | run_refl : task_run a t 0 a t
  | run_begin n a1 t1 a2 t2 :
      task_run a t n a1 t1 -> task_begin a1 t1 = Some (a2, t2) -> task_run a t n a2 t2
  | run_finish n a1 t1 res sent a2 t2 l :
      task_run a t n a1 t1 -> task_finish res sent a1 t1 = Some (a2, t2, l) ->
      task_phase t2 = Sleeping -> task_run a t (n + 1) a2 t2
  | run_wake n a1 t1 t2 :
      task_run a t n a1 t1 -> task_wake t1 = Some t2 -> task_run a t n a1 t2.

Lemma task_run_budget a t n a' t' :
  task_run a t n a' t' -> cma_repeat a = false -> task_phase t = AtLoop -> 0 <= cma_count a ->
  cma_repeat a' = false /\ 0 <= cma_count a' /\ task_phase t' <> Attempting false /\
  0 <= n /\ n + budget a' (Some t') = cma_count a.
Proof.
  intros Hrun Hr Hp H0. unfold budget.
  induction Hrun as [|n a1 t1 a2 t2 _ IH Hb|n a1 t1 res sent a2 t2 l _ IH Hf Hs|n a1 t1 t2 _ IH Hw];
    [simpl; rewrite Hp; split_and!; done || lia|..];
    destruct IH as (Hr1 & Hc1 & Hp1 & Hn & Hbud); destruct t1 as [c ph]; simpl in *.
  - unfold task_begin in Hb. simpl in Hb. destruct ph; try done. rewrite Hr1 in Hb.
    destruct (Z.ltb_spec 0 (cma_count a1)); [|done]. injection Hb as <- <-. simpl in *. split_and!; done || lia.
  - unfold task_finish in Hf. simpl in Hf. destruct ph as [|[]| |]; try done.
    destruct res as [l'|]; [destruct sent|]; injection Hf as <- <- <-; simpl in *; try done;
      split_and!; done || lia.
  - unfold task_wake in Hw. simpl in Hw. destruct ph; try done. injection Hw as <-. simpl in *.
    split_and!; done || lia.
Qed.

(** ** Stopping *)

(** An attempt ends with the pause after it. *)
Definition completed (t t' : Task) : Z :=
  match task_phase t, task_phase t' with
  | Attempting _, Sleeping => 1
  | _, _ => 0
  end.

(** Runs of the tasks, with the number of attempts completed for each address. *)
Inductive cm_run (cm0 : ConnectorManager) : (Address -> Z) -> ConnectorManager -> Prop :=
  | cm_run_refl : cm_run cm0 (fun _ => 0) cm0
  | cm_run_step n cm k a t a' t' :
      cm_run cm0 n cm -> handles cm !! k = Some (a, Some t) -> task_step (a, t) (a', t') ->
      cm_run cm0 (fun k' => if decide (k' = k) then n k + completed t t' else n k')
        (mk_connector_manager (conns cm) (<[k := (a', Some t')]> (handles cm))).

(** Every sequence of steps is such a run. *)
Lemma cm_run_exists cm0 cm : rtc cm_step cm0 cm -> exists n, cm_run cm0 n cm.
Proof.
  revert cm. apply rtc_ind_r; [eexists; constructor|]. intros cm1 cm2 _ [k a t a' t' Hk Ht] [n IH].
  eexists. by econstructor.
Qed.

(** What is left of an address [a] after [n] attempts, while a task may be at
    work on it; the task of a repeating address holds no permit, and that of
    another one always does while it tries. *)
Record spends (a : ConnectorManagerAddress) (n : Z) (kv : ConnectorManagerAddress * option Task) : Prop := {
  sp_addr : cma_addr kv.1 = cma_addr a;
  sp_repeat : cma_repeat kv.1 = cma_repeat a;
  sp_count : 0 <= cma_count kv.1;
  sp_attempts : 0 <= n;
  sp_budget : budget kv.1 kv.2 = if cma_repeat a then cma_count a else cma_count a - n;
  sp_permit : (task_phase <$> kv.2) <> Some (Attempting (cma_repeat a));
}.

Lemma task_step_spends a n a1 t1 a2 t2 :
  spends a n (a1, Some t1) -> task_step (a1, t1) (a2, t2) ->
  spends a (n + completed t1 t2) (a2, Some t2).
Proof.
  intros [H1 H2 H3 H4 H5 H6] Hs. unfold budget, completed in *. simpl in *.
  inversion Hs as [? ? ? ? Hx|? ? ? ? ? ? ? Hx|? ? ? Hx]; subst; destruct t1 as [c ph]; simpl in *.
  - unfold task_begin in Hx. simpl in Hx. destruct ph; try done. rewrite Z.add_0_r. destruct (cma_repeat a1) eqn:Hr.
    + injection Hx as <- <-. by constructor; simpl; try congruence.
    + destruct (Z.ltb_spec 0 (cma_count a1)); [|done]. injection Hx as <- <-.
      constructor; unfold budget; simpl in *; try done; try congruence; try lia.
  - unfold task_finish in Hx. simpl in Hx. destruct ph as [|p| |]; try done.
    assert (p = negb (cma_repeat a)) as -> by (by destruct p, (cma_repeat a)).
    destruct res as [l'|]; [destruct sent|]; injection Hx as <- <- _;
      constructor; unfold budget; simpl in *; try done; try lia;
      destruct (cma_repeat a); simpl in *; done || lia.
  - unfold task_wake in Hx. simpl in Hx. destruct ph; try done. injection Hx as <-.
    rewrite Z.add_0_r. by constructor.
Qed.

Lemma spends_run addrs conns0 n cm :
  addrs_wf addrs -> cm_run (start addrs conns0) n cm ->
  conns cm = conns0 /\ forall k, option_Forall2 (fun a => spends a (n k)) (addrs !! k) (handles cm !! k).
Proof.
  intros Ha Hs. induction Hs as [|n cm k0 a t a' t' _ [Hc IH] Hk0 Ht].
  - split; [done|]. intros k. simpl. rewrite lookup_fmap.
    destruct (addrs !! k) as [a|] eqn:Hk; constructor. destruct (Ha _ _ Hk) as [_ Hc].
    assert (budget a (create_task <$> conns0 !! scheme (cma_addr a)) = cma_count a) as Hb
      by (unfold budget; by destruct (conns0 !! _)).
    constructor; simpl; try done; try lia; [destruct (cma_repeat a); lia|by destruct (conns0 !! _)].
  - split; [done|]. intros k. simpl. destruct (decide (k = k0)) as [->|Hne].
    + rewrite lookup_insert_eq. specialize (IH k0). rewrite Hk0 in IH.
      inversion IH; subst. constructor. by eapply task_step_spends.
    + rewrite lookup_insert_ne by done. apply IH.
Qed.

(** ** Properties *)

(** C29. Stopping the connection attempts, at whatever point the tasks are, gives
    back the connectors and exactly the addresses they were started with, each
    with its flag: a repeating one with all its permits, any other one with exactly
    one permit less for each attempt that was completed, so that the permit its
    task was holding for an unfinished attempt is returned. *)
Theorem cancel_after_attempts addrs conns0 n cm :
  addrs_wf addrs -> cm_run (start addrs conns0) n cm ->
  (cancel cm).1 = conns0 /\ dom (cancel cm).2 = dom addrs /\
  forall k a a', addrs !! k = Some a -> (cancel cm).2 !! k = Some a' ->
    cma_addr a' = k /\ cma_repeat a' = cma_repeat a /\ 0 <= cma_count a' <= cma_count a /\
    cma_count a' = if cma_repeat a then cma_count a else cma_count a - n k.
Proof.
  intros Ha Hs. destruct (spends_run addrs conns0 n cm Ha Hs) as [Hc Hr]. split_and!; [done|..].
  - apply set_eq. intros k. simpl. rewrite dom_fmap, !elem_of_dom. specialize (Hr k).
    inversion Hr; split; intros []; done || eauto.
  - intros k a a' Hk. simpl. rewrite lookup_fmap. specialize (Hr k). rewrite Hk in Hr.
    inversion Hr as [? [a1 t1] [H1 H2 H3 H4 H5 H6] E1 E2|]; subst. intros [= <-]. simpl in *.
    destruct (Ha _ _ Hk) as [-> Hn]. pose proof (abort_count a1 t1). unfold budget in *.
    rewrite abort_addr, abort_repeat. split_and!; try done; [lia|]. rewrite H5. destruct (cma_repeat a); lia.
Qed.

(** C30. An address that does not repeat is tried once per permit: a task that
    completed [n] attempts has used up exactly [n] of the permits, so it never
    makes more attempts than it was given permits. *)
Theorem attempts_bounded a conn n a' t' :
  cma_repeat a = false -> 0 <= cma_count a -> task_run a (create_task conn) n a' t' ->
  n + budget a' (Some t') = cma_count a /\ 0 <= n <= cma_count a.
Proof.
  intros Hr H0 Hrun. destruct (task_run_budget _ _ _ _ _ Hrun Hr eq_refl H0) as (_ & Hc & _ & Hn & Hb).
  pose proof (abort_count a' (Some t')). unfold budget in *. lia.
Qed.
End with_outside.
End ConnectorManager.
