(* ===== verification/Common.v ===== *)
(** * The state shared by all states ([src/state/common.rs]), and its effects

    Handlers run in a state monad over the [World]: the [CommonState], what was
    sent to the controller, what was handed to the links, the replies to debug
    requests, and the number of interactions with the outside so far. *)

From S2P Require Import Prelude Bytes Errors Epochs Proto Clock Address Outside Connectors.

(** ** Messages between the controller and the core
    ([src/link_set/controller.rs], [src/debug.rs]) *)

Module Control.
Import Epoch Protocol.

Inductive LinkSetControlCommand `{Outside} : Type :=
  | Connect
  | Disconnect
  | AddConnector (conn : connector)
  | AddAddress (addr : ConnectorManager.ConnectorManagerAddress)
  | AddLink (l : link)
  | Message (msg : bytes) (epoch : option Epoch).

Inductive LinkSetControlConfig : Type :=
  | AutoConnect (b : bool)
  | ConnectTimeout (t : option Duration)
  | ReconnectTimeout (t : option Duration)
  | GracePeriodTimeout (t : option Duration).

Inductive LinkSetControl `{Outside} : Type :=
  | Command (cmd : LinkSetControlCommand)
  | Config (conf : LinkSetControlConfig).

(** What the core tells the controller. *)
Inductive LinkSetMessageInner : Type :=
  | Disconnected
  | Connected (epoch : Epoch)
  | AttemptingConnection (b : bool)
  | Received (msg : bytes) (epoch : Epoch).

Record LinkDescription : Type := mk_description { ld_id : Z; ld_scheme : Str }.

Record DebugReplySnapshot : Type := mk_snapshot {
  ds_state_name : string;
  ds_epoch : option Epoch;
  ds_addrs : list Address;
  ds_connectors : list Str;
  ds_links : list LinkDescription;
}.

Inductive DebugCommand : Type :=
  | Snapshot
  | EvictLink (id : Z).

(** What is sent back on the command's oneshot channel. *)
Inductive DebugReply : Type :=
  | SnapshotReply (s : DebugReplySnapshot)
  | EvictReply (b : bool).
End Control.

Module Common.
Import Epoch Protocol Control.

(** [readers] are the ids of the links whose reader streams are merged. *)
Record CommonState : Type := mk_common {
  next_link_id : Z;
  readers : list Z;
  is_active : bool;
  timer : Deadline.Deadline;
  auto_connect : bool;
  connecting_timeout : option Duration;
  reconnecting_timeout : option Duration;
  grace_period_timeout : option Duration;
}.

Definition new : CommonState :=
  mk_common 0 [] false Deadline.new true (Some (from_secs 60)) (Some 0) (Some 0).

Definition set_readers c x :=
  mk_common (next_link_id c) x (is_active c) (timer c) (auto_connect c) (connecting_timeout c)
    (reconnecting_timeout c) (grace_period_timeout c).
Definition set_next_link_id c x :=
  mk_common x (readers c) (is_active c) (timer c) (auto_connect c) (connecting_timeout c)
    (reconnecting_timeout c) (grace_period_timeout c).
Definition set_is_active c x :=
  mk_common (next_link_id c) (readers c) x (timer c) (auto_connect c) (connecting_timeout c)
    (reconnecting_timeout c) (grace_period_timeout c).
Definition set_timer c x :=
  mk_common (next_link_id c) (readers c) (is_active c) x (auto_connect c) (connecting_timeout c)
    (reconnecting_timeout c) (grace_period_timeout c).
Definition set_auto_connect c x :=
  mk_common (next_link_id c) (readers c) (is_active c) (timer c) x (connecting_timeout c)
    (reconnecting_timeout c) (grace_period_timeout c).
Definition set_connecting_timeout c x :=
  mk_common (next_link_id c) (readers c) (is_active c) (timer c) (auto_connect c) x
    (reconnecting_timeout c) (grace_period_timeout c).
Definition set_reconnecting_timeout c x :=
  mk_common (next_link_id c) (readers c) (is_active c) (timer c) (auto_connect c)
    (connecting_timeout c) x (grace_period_timeout c).
Definition set_grace_period_timeout c x :=
  mk_common (next_link_id c) (readers c) (is_active c) (timer c) (auto_connect c)
    (connecting_timeout c) (reconnecting_timeout c) x.

(** ** The world *)

(** A packet handed to a link: the link's id and maximal size, and the packet. *)
Record Sent : Type := mk_sent { sent_by : Z; sent_limit : Z; sent_packet : LinkProtocol }.

Record World : Type := mk_world {
  common : CommonState;
  (** messages sent to the controller *)
  to_ctrl : list LinkSetMessageInner;
  (** packets handed to the links *)
  wire : list Sent;
  (** replies to debug commands *)
  replies : list DebugReply;
  (** how many interactions with the outside there were *)
  ticks : nat;
}.

Definition set_common w x := mk_world x (to_ctrl w) (wire w) (replies w) (ticks w).
Definition set_to_ctrl w x := mk_world (common w) x (wire w) (replies w) (ticks w).
Definition set_wire w x := mk_world (common w) (to_ctrl w) x (replies w) (ticks w).
Definition set_replies w x := mk_world (common w) (to_ctrl w) (wire w) x (ticks w).
Definition set_ticks w x := mk_world (common w) (to_ctrl w) (wire w) (replies w) x.

Definition world_new : World := mk_world new [] [] [] 0.

(** ** The monad *)

Definition M (A : Type) : Type := World -> outcome (A * World).

#[export] Instance M_ret : MRet M := fun A a w => Ret (a, w).
#[export] Instance M_bind : MBind M := fun A B f m w =>
  match m w with
  | Ret (a, w) => f a w
  | Panic => Panic
  | Diverge => Diverge
  end.

#[export] Instance M_fmap : FMap M := fun A B f m => a ← m; mret (f a).

Definition lift {A} (o : outcome A) : M A := fun w =>
  match o with Ret a => Ret (a, w) | Panic => Panic | Diverge => Diverge end.

Definition get_common : M CommonState := fun w => Ret (common w, w).
Definition put_common (c : CommonState) : M unit := fun w => Ret (tt, set_common w c).

(** The number of this interaction with the outside. *)
Definition tick : M nat := fun w => Ret (ticks w, set_ticks w (S (ticks w))).

(** [get_to_ctrl().send(m).await]; the result is ignored everywhere. *)
Definition emit (m : LinkSetMessageInner) : M unit :=
  fun w => Ret (tt, set_to_ctrl w (to_ctrl w ++ [m])).

Definition reply (r : DebugReply) : M unit := fun w => Ret (tt, set_replies w (replies w ++ [r])).

Definition log_wire (p : Sent) : M unit := fun w => Ret (tt, set_wire w (wire w ++ [p])).

Section with_outside.
Context {P : BuildProfile} {O : Outside}.

(** [Instant::now()] *)
Definition now : M Instant := n ← tick; mret (clock n).

(** *** The timer and the flag *)

Definition modify_timer (f : Deadline.Deadline -> Deadline.Deadline) : M unit :=
  c ← get_common; put_common (set_timer c (f (timer c))).

Definition timer_clear : M unit := modify_timer Deadline.clear.
Definition timer_clear_repeat : M unit := modify_timer Deadline.clear_repeat.

Definition timer_modify_repeat (interval : Duration) : M unit :=
  c ← get_common;
  t ← now;
  d ← lift (Deadline.modify_repeat t (timer c) interval);
  put_common (set_timer c d).

Definition timer_modify_deadline_from_now (after : Duration) : M unit :=
  c ← get_common;
  t ← now;
  d ← lift (Deadline.modify_deadline_from_now t (timer c) after);
  put_common (set_timer c d).

Definition store_active (b : bool) : M unit :=
  c ← get_common; put_common (set_is_active c b).
End with_outside.
End Common.
