(* ===== verification/Links.v ===== *)
(** * Link entries and the link manager
    ([src/links/link_entry.rs], [src/links/link_manager.rs]) and
    [CommonState::wrap_link] ([src/state/common.rs]). *)

From S2P Require Import Prelude Bytes Errors Epochs Proto BTree Slices.
From S2P Require Import Clock Address Outside Connectors Common.

Module Links.
Import Epoch Protocol Control Common.

Definition HISTORY_LEN : nat := 6.
Definition DEFAULT_LATENCY : Duration := from_millis 100.
Definition MAX_LATENCY : Duration := from_secs 2.
Definition OVERHEAD : Z := 56.

Section with_outside.
Context {P : BuildProfile} {O : Outside}.

(** ** Link entries *)

Record LinkEntry : Type := mk_entry {
  le_id : Z;
  le_link : link;
  le_ping : option Instant;
  le_recent : list Duration;
}.

Definition set_link e l := mk_entry (le_id e) l (le_ping e) (le_recent e).
Definition set_ping e p := mk_entry (le_id e) (le_link e) p (le_recent e).
Definition set_recent e r := mk_entry (le_id e) (le_link e) (le_ping e) r.

Definition entry_new (l : link) (id : Z) : LinkEntry :=
  mk_entry id l None (replicate HISTORY_LEN DEFAULT_LATENCY).

Definition entry_scheme (e : LinkEntry) : Str := link_scheme (le_link e).

Definition add_latency (e : LinkEntry) (latency : Duration) : LinkEntry :=
  set_recent e (take HISTORY_LEN (latency :: le_recent e)).

Definition entry_end_ping (e : LinkEntry) : M LinkEntry :=
  match le_ping e with
  | Some last_ping => t ← now; mret (add_latency (set_ping e None) (elapsed t last_ping))
  | None => mret e
  end.

Definition send (e : LinkEntry) (msg : LinkProtocol) : M (LinkSetResult unit * LinkEntry) :=
  n ← tick;
  log_wire (mk_sent (le_id e) (link_max_size (le_link e)) msg);;
  let (res, l) := link_send n (le_link e) (serialize msg) in
  mret (res, set_link e l).

Definition send_ping (e : LinkEntry) : M (LinkSetResult unit * LinkEntry) :=
  e ← entry_end_ping e;
  t ← now;
  send (set_ping e (Some t)) Ping.

Definition send_pong (e : LinkEntry) : M (LinkSetResult unit * LinkEntry) := send e Pong.

(** The average of the recent samples. *)
Definition latency (e : LinkEntry) : outcome Duration :=
  match le_recent e with
  | [] => Ret DEFAULT_LATENCY
  | _ => sum ← sum_durations 0 (le_recent e); Ret (sum / len (le_recent e))
  end.

Definition entry_max_size (e : LinkEntry) : Z := saturating_sub (link_max_size (le_link e)) OVERHEAD.

Definition is_closed (e : LinkEntry) : M (bool * LinkEntry) :=
  n ← tick;
  let (b, l) := link_is_closed n (le_link e) in
  mret (b, set_link e l).

(** The reader's task forwards what it can decode; the stream it feeds is
    identified by the entry's id. *)
Definition take_reader (e : LinkEntry) : M (LinkSetResult Z * LinkEntry) :=
  n ← tick;
  let (res, l) := link_take_reader n (le_link e) in
  mret (match res with Ok _ => Ok (le_id e) | Err x => Err x end, set_link e l).

(** ** Wrapping a new link *)

Definition wrap_link (l : link) : M (LinkSetResult LinkEntry) :=
  c ← get_common;
  let id := next_link_id c in
  next ← lift (u64_add (next_link_id c) 1);
  put_common (set_next_link_id c next);;
  if link_max_size l <=? OVERHEAD then
    mret (Err (Implementation_ (link_max_size l) OVERHEAD))
  else
    '(reader, wrapped) ← take_reader (entry_new l id);
    match reader with
    | Err x => mret (Err x)
    | Ok reader =>
        c ← get_common;
        put_common (set_readers c (readers c ++ [reader]));;
        mret (Ok wrapped)
    end.

(** ** The link manager *)

(** [LinkManager]'s only field is its vector of links. *)
Definition LinkManager : Type := list LinkEntry.

Definition lm_new : LinkManager := [].
Definition with_link (e : LinkEntry) : LinkManager := [e].
Definition add_link (lm : LinkManager) (e : LinkEntry) : LinkManager := e :: lm.
Definition lm_is_empty (lm : LinkManager) : bool := bool_decide (lm = []).

Definition evict_link (lm : LinkManager) (id : Z) : bool * LinkManager :=
  (existsb (fun e => le_id e =? id) lm, filter (fun e => le_id e <> id) lm).

(** Drops links from the front until one is usable: the loop of [send_proto]
    and [send_slices]. *)
Fixpoint usable (lm : LinkManager) : M LinkManager :=
  match lm with
  | [] => mret []
  | e :: rest =>
      '(closed, e) ← is_closed e;
      if (closed : bool) then usable rest
      else
        late ← lift (latency e);
        if MAX_LATENCY <? late then usable rest else mret (e :: rest)
  end.

Definition send_proto (lm : LinkManager) (proto : LinkProtocol)
    : M (LinkSetResult unit * LinkManager) :=
  lm ← usable lm;
  match lm with
  | e :: rest => '(res, e) ← send e proto; mret (res, e :: rest)
  | [] => mret (Err Closed, [])
  end.

Definition reset (lm : LinkManager) (epoch : option Epoch) (request : bool)
    : M (LinkSetResult unit * LinkManager) :=
  send_proto lm (Reset epoch request).

Definition ack (lm : LinkManager) (epoch : Epoch) (a : Z * Z)
    : M (LinkSetResult unit * LinkManager) :=
  send_proto lm (Ack (to_int epoch) (fst a) (snd a)).

(** [for proto in protos { link.send(proto).await?; }] *)
Fixpoint send_all (e : LinkEntry) (protos : list LinkProtocol)
    : M (LinkSetResult unit * LinkEntry) :=
  match protos with
  | [] => mret (Ok tt, e)
  | proto :: protos =>
      '(res, e) ← send e proto;
      match res with
      | Ok _ => send_all e protos
      | Err x => mret (Err x, e)
      end
  end.

Definition send_slices (lm : LinkManager) (slice_mgr : SliceManager.SliceManager)
    : M (LinkSetResult unit * LinkManager) :=
  lm ← usable lm;
  match lm with
  | e :: rest =>
      protos ← lift (SliceManager.get_slices slice_mgr (entry_max_size e));
      '(res, e) ← send_all e protos;
      mret (res, e :: rest)
  | [] => mret (Err Closed, [])
  end.

Fixpoint ping_all (lm : LinkManager) : M LinkManager :=
  match lm with
  | [] => mret []
  | e :: lm => '(_, e) ← send_ping e; lm ← ping_all lm; mret (e :: lm)
  end.

(** [pong] and [end_ping] act on the first link with the id. *)
Fixpoint pong (lm : LinkManager) (id : Z) : M LinkManager :=
  match lm with
  | [] => mret []
  | e :: lm =>
      if le_id e =? id then '(_, e) ← send_pong e; mret (e :: lm)
      else lm ← pong lm id; mret (e :: lm)
  end.

Fixpoint end_ping (lm : LinkManager) (id : Z) : M LinkManager :=
  match lm with
  | [] => mret []
  | e :: lm =>
      if le_id e =? id then e ← entry_end_ping e; mret (e :: lm)
      else lm ← end_ping lm id; mret (e :: lm)
  end.

Fixpoint upkeep (lm : LinkManager) : M LinkManager :=
  match lm with
  | [] => mret []
  | e :: lm =>
      '(closed, e) ← is_closed e;
      keep ← (if (closed : bool) then mret false
              else late ← lift (latency e); mret (late <? MAX_LATENCY));
      lm ← upkeep lm;
      mret (if (keep : bool) then e :: lm else lm)
  end.
End with_outside.
End Links.
