(* ===== verification/States.v ===== *)
(** * The six states and their transitions ([src/state/states/])

    One record per state and one definition per transition
    ([StateTransitionFrom...] implementation), with the pieces the handlers
    share. *)

From S2P Require Import Prelude Bytes Errors Epochs Proto BTree Slices Messages.
From S2P Require Import Clock Address Outside Connectors Common Links.

Module States.
Import Epoch Protocol Control Common Links.
Import ConnectorManager(AddressSet, add_address).
Import MessageManager(insert_msg, get_outgoing_slice, get_outgoing_slices, recv_ack, recv,
  take_recvd, last_ack).

Definition CONNECTED_TIMER_INTERVAL : Duration := from_secs 5.
Definition PING_INTERVAL : Duration := from_secs 30.
Definition EPOCH_MISMATCH_TIMER_INTERVAL : Duration := from_secs 2.

Section with_outside.
Context {P : BuildProfile} {O : Outside}.

Abbreviation ConnectorSet := (gmap Str connector).

(** ** The states *)

Record DisconnectedState : Type := mk_disconnected {
  dc_conns : ConnectorSet;
  dc_addrs : AddressSet;
  (** The next allowable epoch (None means any would be ok) *)
  dc_epoch : option Epoch;
}.

Record ConnectingState : Type := mk_connecting {
  cg_connector : ConnectorManager.ConnectorManager;
  cg_queued_msgs : list bytes;
  cg_epoch : option Epoch;
}.

Record EpochMismatchState : Type := mk_epoch_mismatch {
  em_conns : ConnectorSet;
  em_addrs : AddressSet;
  em_links : LinkManager;
  em_queued_msgs : list bytes;
  em_epoch : option Epoch;
  em_last_ping : Instant;
}.

Record ConnectedState : Type := mk_connected {
  cn_conns : ConnectorSet;
  cn_addrs : AddressSet;
  cn_links : LinkManager;
  cn_msg_mgr : MessageManager.MessageManager;
  cn_epoch : Epoch;
  cn_last_ping : Instant;
}.

Record ReconnectingState : Type := mk_reconnecting {
  rc_msg_mgr : MessageManager.MessageManager;
  rc_epoch : Epoch;
  rc_connector : ConnectorManager.ConnectorManager;
}.

Record GracePeriodState : Type := mk_grace_period {
  gp_conns : ConnectorSet;
  gp_addrs : AddressSet;
  gp_msg_mgr : MessageManager.MessageManager;
  gp_epoch : Epoch;
}.

Inductive States : Type :=
  | Disconnected (s : DisconnectedState)
  | Connecting (s : ConnectingState)
  | EpochMismatch (s : EpochMismatchState)
  | Connected (s : ConnectedState)
  | Reconnecting (s : ReconnectingState)
  | GracePeriod (s : GracePeriodState).

Definition get_name (s : States) : string :=
  match s with
  | Disconnected _ => "Disconnected"
  | Connecting _ => "Connecting"
  | EpochMismatch _ => "EpochMismatch"
  | Connected _ => "Connected"
  | Reconnecting _ => "Reconnecting"
  | GracePeriod _ => "GracePeriod"
  end.

Definition disconnected_new : DisconnectedState := mk_disconnected ∅ ∅ None.

Definition states_new : States := Disconnected disconnected_new.

(** ** Transitions to [Disconnected] *)

Definition disconnected_from_connecting (old : ConnectingState) : M DisconnectedState :=
  let (conns, addrs) := ConnectorManager.cancel (cg_connector old) in
  timer_clear;;
  emit (AttemptingConnection false);;
  mret (mk_disconnected conns addrs (cg_epoch old)).

Definition disconnected_from_epoch_mismatch (old : EpochMismatchState) : M DisconnectedState :=
  timer_clear;;
  mret (mk_disconnected (em_conns old) (em_addrs old) (opt_epoch_increment (em_epoch old))).

Definition disconnected_from_connected (old : ConnectedState) : M DisconnectedState :=
  emit Control.Disconnected;;
  timer_clear;;
  store_active false;;
  mret (mk_disconnected (cn_conns old) (cn_addrs old) (Some (increment (cn_epoch old)))).

Definition disconnected_from_reconnecting (old : ReconnectingState) : M DisconnectedState :=
  let (conns, addrs) := ConnectorManager.cancel (rc_connector old) in
  emit (AttemptingConnection false);;
  emit Control.Disconnected;;
  timer_clear;;
  mret (mk_disconnected conns addrs (Some (increment (rc_epoch old)))).

Definition disconnected_from_grace_period (old : GracePeriodState) : M DisconnectedState :=
  timer_clear;;
  emit Control.Disconnected;;
  mret (mk_disconnected (gp_conns old) (gp_addrs old) (Some (increment (gp_epoch old)))).

(** ** Transitions to [Connecting] *)

Definition determine_timer : M unit :=
  c ← get_common;
  match connecting_timeout c with
  | Some timeout =>
      timer_clear_repeat;;
      timer_modify_deadline_from_now timeout
  | None => timer_clear
  end.

Definition connecting_from_disconnected (old : DisconnectedState) : M ConnectingState :=
  emit (AttemptingConnection true);;
  determine_timer;;
  mret (mk_connecting (ConnectorManager.start (dc_addrs old) (dc_conns old)) [] (dc_epoch old)).

Definition connecting_from_disconnected_msg (old : DisconnectedState) (msg : bytes)
    : M ConnectingState :=
  emit (AttemptingConnection true);;
  determine_timer;;
  mret (mk_connecting (ConnectorManager.start (dc_addrs old) (dc_conns old)) [msg] (dc_epoch old)).

Definition connecting_from_epoch_mismatch (old : EpochMismatchState) : M ConnectingState :=
  emit (AttemptingConnection true);;
  determine_timer;;
  mret (mk_connecting (ConnectorManager.start (em_addrs old) (em_conns old)) [] (em_epoch old)).

Definition connecting_from_connected (old : ConnectedState) : M ConnectingState :=
  emit (AttemptingConnection true);;
  determine_timer;;
  store_active false;;
  mret (mk_connecting (ConnectorManager.start (cn_addrs old) (cn_conns old)) []
          (Some (increment (cn_epoch old)))).

Definition connecting_from_reconnecting (old : ReconnectingState) : M ConnectingState :=
  determine_timer;;
  emit Control.Disconnected;;
  mret (mk_connecting (rc_connector old) [] (Some (increment (rc_epoch old)))).

Definition connecting_from_grace_period (old : GracePeriodState) : M ConnectingState :=
  emit Control.Disconnected;;
  emit (AttemptingConnection true);;
  determine_timer;;
  mret (mk_connecting (ConnectorManager.start (gp_addrs old) (gp_conns old)) []
          (Some (increment (gp_epoch old)))).

(** ** Transitions to [EpochMismatch] *)

Definition epoch_mismatch_from_disconnected (old : DisconnectedState) (l : LinkEntry)
    : M EpochMismatchState :=
  let links := add_link lm_new l in
  links ← ping_all links;
  '(_, links) ← reset links (dc_epoch old) true;
  timer_modify_repeat EPOCH_MISMATCH_TIMER_INTERVAL;;
  t ← now;
  mret (mk_epoch_mismatch (dc_conns old) (dc_addrs old) links [] (dc_epoch old) t).

Definition epoch_mismatch_from_connecting (old : ConnectingState) (l : LinkEntry)
    : M EpochMismatchState :=
  let (conns, addrs) := ConnectorManager.cancel (cg_connector old) in
  let links := add_link lm_new l in
  links ← ping_all links;
  '(_, links) ← reset links (cg_epoch old) true;
  emit (AttemptingConnection false);;
  timer_modify_repeat EPOCH_MISMATCH_TIMER_INTERVAL;;
  t ← now;
  mret (mk_epoch_mismatch conns addrs links (cg_queued_msgs old) (cg_epoch old) t).

Definition epoch_mismatch_from_connected (old : ConnectedState) : M EpochMismatchState :=
  let epoch := Some (increment (cn_epoch old)) in
  '(_, links) ← reset (cn_links old) epoch true;
  timer_modify_repeat EPOCH_MISMATCH_TIMER_INTERVAL;;
  store_active false;;
  mret (mk_epoch_mismatch (cn_conns old) (cn_addrs old) links [] epoch (cn_last_ping old)).

(** ** Transitions to [Reconnecting] and [GracePeriod] *)

Definition set_deadline_or_clear (timeout : option Duration) : M unit :=
  match timeout with
  | Some timeout => timer_modify_deadline_from_now timeout
  | None => timer_clear
  end.

Definition reconnecting_from_connected (old : ConnectedState) : M ReconnectingState :=
  emit (AttemptingConnection true);;
  c ← get_common;
  set_deadline_or_clear (reconnecting_timeout c);;
  let connector := ConnectorManager.start (cn_addrs old) (cn_conns old) in
  store_active false;;
  mret (mk_reconnecting (cn_msg_mgr old) (cn_epoch old) connector).

Definition grace_period_from_connected (old : ConnectedState) : M GracePeriodState :=
  c ← get_common;
  set_deadline_or_clear (grace_period_timeout c);;
  store_active false;;
  mret (mk_grace_period (cn_conns old) (cn_addrs old) (cn_msg_mgr old) (cn_epoch old)).

(** ** Transitions to [Connected] *)

(** The loop over [queued_msgs]. *)
Fixpoint send_queued (msgs : list bytes) (mm : MessageManager.MessageManager) (links : LinkManager)
    : M (MessageManager.MessageManager * LinkManager) :=
  match msgs with
  | [] => mret (mm, links)
  | data :: msgs =>
      '(seq, mm) ← lift (insert_msg mm data);
      slice_mgr ← lift (unwrap (get_outgoing_slice mm seq));
      '(_, links) ← send_slices links slice_mgr;
      send_queued msgs mm links
  end.

Definition connected_timer : M unit :=
  timer_clear;;
  timer_modify_repeat CONNECTED_TIMER_INTERVAL;;
  store_active true.

Definition connected_from_epoch_mismatch (old : EpochMismatchState) (epoch : Epoch)
    : M ConnectedState :=
  emit (Control.Connected epoch);;
  '(msg_mgr, links) ← send_queued (em_queued_msgs old) (MessageManager.new epoch) (em_links old);
  connected_timer;;
  mret (mk_connected (em_conns old) (em_addrs old) links msg_mgr epoch (em_last_ping old)).

Definition connected_from_reconnecting (old : ReconnectingState) (l : LinkEntry)
    : M ConnectedState :=
  let (conns, addrs) := ConnectorManager.cancel (rc_connector old) in
  links ← ping_all (with_link l);
  emit (AttemptingConnection false);;
  connected_timer;;
  t ← now;
  mret (mk_connected conns addrs links (rc_msg_mgr old) (rc_epoch old) t).

Definition connected_from_grace_period (old : GracePeriodState) (l : LinkEntry)
    : M ConnectedState :=
  links ← ping_all (with_link l);
  connected_timer;;
  t ← now;
  mret (mk_connected (gp_conns old) (gp_addrs old) links (gp_msg_mgr old) (gp_epoch old) t).

(** ** Debug replies *)

Definition describe (e : LinkEntry) : LinkDescription := mk_description (le_id e) (entry_scheme e).

Definition by_id (a b : LinkDescription) : Prop := ld_id a <= ld_id b.

#[local] Instance by_id_dec : RelDecision by_id.
Proof. intros a b. unfold by_id. apply _. Defined.

Definition descriptions (lm : LinkManager) : list LinkDescription :=
  merge_sort by_id (describe <$> lm).

(** The iteration order of the hash tables is not specified. *)
Definition addr_list (addrs : AddressSet) : list Address :=
  (fun kv => ConnectorManager.cma_addr kv.2) <$> map_to_list addrs.
Definition conn_list (conns : ConnectorSet) : list Str :=
  (fun kv => connector_scheme kv.2) <$> map_to_list conns.

(** The debug handler of the states without links. *)
Definition debug_unlinked (s : States) (epoch : option Epoch) (addrs : list Address)
    (conns : list Str) (cmd : DebugCommand) : M States :=
  match cmd with
  | Snapshot => reply (SnapshotReply (mk_snapshot (get_name s) epoch addrs conns []))
  | EvictLink _ => reply (EvictReply false)
  end;;
  mret s.

(** The states that only keep a set of connectors all add one the same way. *)
Definition insert_conn (conns : ConnectorSet) (conn : connector) : ConnectorSet :=
  <[connector_scheme conn := conn]> conns.

(** Emits the messages that became complete. *)
Fixpoint emit_messages (msgs : list bytes) (epoch : Epoch) : M unit :=
  match msgs with
  | [] => mret tt
  | msg :: msgs => emit (Received msg epoch);; emit_messages msgs epoch
  end.
End with_outside.
End States.
