(* ===== verification/Hoare.v ===== *)
(** * A program logic for handlers

    [post m w Q]: if [m] started in [w] returns, the result satisfies [Q].
    [quiet m]: [m] touches nothing but the links (it leaves the common state, the
    controller's messages and the debug replies alone). *)

From S2P Require Import Prelude Bytes Errors Epochs Proto BTree Slices Messages.
From S2P Require Import Clock Address Outside Connectors Common Links States.

Module Hoare.
Import Protocol Control Common Links States.

Definition post {A} (m : M A) (w : World) (Q : A -> World -> Prop) : Prop :=
  forall a w', m w = Ret (a, w') -> Q a w'.

Lemma post_ret {A} (a : A) w (Q : A -> World -> Prop) : Q a w -> post (mret a) w Q.
Proof. by intros H ? ? [= <- <-]. Qed.

Lemma post_bind {A B} (m : M A) (f : A -> M B) w Q :
  post m w (fun a w' => post (f a) w' Q) -> post (m ≫= f) w Q.
Proof.
  intros H b w'. unfold mbind, M_bind. destruct (m w) as [[a w1]| |] eqn:E; try done. by apply H.
Qed.

Lemma post_fmap {A B} (m : M A) (f : A -> B) w (Q : B -> World -> Prop) :
  post m w (fun a w' => Q (f a) w') -> post (f <$> m) w Q.
Proof.
  intros H. apply post_bind. intros a w' E. apply post_ret. by apply H.
Qed.

Lemma post_mono {A} (m : M A) w (Q R : A -> World -> Prop) :
  post m w Q -> (forall a w', Q a w' -> R a w') -> post m w R.
Proof. intros H HQ a w' E. by apply HQ, H. Qed.

Lemma post_lift {A} (o : outcome A) w (Q : A -> World -> Prop) :
  (forall a, o = Ret a -> Q a w) -> post (lift o) w Q.
Proof. intros H a w'. unfold lift. destruct o; try done. intros [= <- <-]. by apply H. Qed.

Lemma post_get_common w Q : Q (common w) w -> post get_common w Q.
Proof. by intros H ? ? [= <- <-]. Qed.

Lemma post_put_common c w (Q : unit -> World -> Prop) : Q tt (set_common w c) -> post (put_common c) w Q.
Proof. by intros H ? ? [= <- <-]. Qed.

Lemma post_emit m w (Q : unit -> World -> Prop) :
  Q tt (set_to_ctrl w (to_ctrl w ++ [m])) -> post (emit m) w Q.
Proof. by intros H ? ? [= <- <-]. Qed.

Lemma post_reply r w (Q : unit -> World -> Prop) :
  Q tt (set_replies w (replies w ++ [r])) -> post (reply r) w Q.
Proof. by intros H ? ? [= <- <-]. Qed.

Lemma post_any {A} (m : M A) w (Q : A -> World -> Prop) : (forall a w', Q a w') -> post m w Q.
Proof. intros H a w' _. apply H. Qed.

(** ** Operations that only concern the links *)

Record same (w w' : World) : Prop := {
  same_common : common w' = common w;
  same_ctrl : to_ctrl w' = to_ctrl w;
  same_replies : replies w' = replies w;
}.

#[export] Instance same_refl : Reflexive same.
Proof. by constructor. Qed.
#[export] Instance same_trans : Transitive same.
Proof. intros a b c [] []. constructor; congruence. Qed.

Definition quiet {A} (m : M A) : Prop := forall w, post m w (fun _ w' => same w w').

Lemma quiet_ret {A} (a : A) : quiet (mret a).
Proof. intros w. by apply post_ret. Qed.

Lemma quiet_bind {A B} (m : M A) (f : A -> M B) : quiet m -> (forall a, quiet (f a)) -> quiet (m ≫= f).
Proof.
  intros Hm Hf w. apply post_bind. eapply post_mono; [apply Hm|]. intros a w1 H1.
  eapply post_mono; [apply Hf|]. intros b w2 H2. by transitivity w1.
Qed.

Lemma quiet_lift {A} (o : outcome A) : quiet (lift o).
Proof. intros w. apply post_lift. intros. reflexivity. Qed.

Lemma quiet_tick : quiet tick.
Proof. intros w a w' [= <- <-]. by constructor. Qed.

Lemma quiet_log_wire p : quiet (log_wire p).
Proof. intros w a w' [= <- <-]. by constructor. Qed.

Lemma post_quiet {A} (m : M A) w (Q : A -> World -> Prop) :
  quiet m -> (forall a w', same w w' -> Q a w') -> post m w Q.
Proof. intros Hm HQ. eapply post_mono; [apply Hm|done]. Qed.

Create HintDb quiet.
#[export] Hint Resolve quiet_ret quiet_lift quiet_tick quiet_log_wire : quiet.

(** Descends through binds and case analyses. *)
Ltac quiet_steps :=
  repeat first
    [ solve [auto with quiet]
    | apply quiet_bind; [|intros]
    | match goal with
      | |- quiet (match ?x with _ => _ end) => destruct x
      end ].

Section with_outside.
Context {P : BuildProfile} {O : Outside}.

Lemma quiet_now : quiet now.
Proof. unfold now. quiet_steps. Qed.
Hint Resolve quiet_now : quiet.

Lemma quiet_entry_end_ping e : quiet (entry_end_ping e).
Proof. unfold entry_end_ping. quiet_steps. Qed.
Hint Resolve quiet_entry_end_ping : quiet.

Lemma quiet_send e p : quiet (send e p).
Proof. unfold send. quiet_steps. Qed.
Hint Resolve quiet_send : quiet.

Lemma quiet_send_ping e : quiet (send_ping e).
Proof. unfold send_ping. quiet_steps. Qed.
Hint Resolve quiet_send_ping : quiet.

Lemma quiet_is_closed e : quiet (is_closed e).
Proof. unfold is_closed. quiet_steps. Qed.
Hint Resolve quiet_is_closed : quiet.

Lemma quiet_take_reader e : quiet (take_reader e).
Proof. unfold take_reader. quiet_steps. Qed.
Hint Resolve quiet_take_reader : quiet.

Lemma quiet_usable lm : quiet (usable lm).
Proof. induction lm; simpl; quiet_steps. Qed.
Hint Resolve quiet_usable : quiet.

Lemma quiet_send_proto lm p : quiet (send_proto lm p).
Proof. unfold send_proto. quiet_steps. Qed.
Hint Resolve quiet_send_proto : quiet.

Lemma quiet_reset lm e r : quiet (reset lm e r).
Proof. apply quiet_send_proto. Qed.

Lemma quiet_ack lm e a : quiet (ack lm e a).
Proof. apply quiet_send_proto. Qed.

Lemma quiet_send_all e ps : quiet (send_all e ps).
Proof. revert e. induction ps; intros e; simpl; quiet_steps. Qed.
Hint Resolve quiet_send_all : quiet.

Lemma quiet_send_slices lm m : quiet (send_slices lm m).
Proof. unfold send_slices. quiet_steps. Qed.

Lemma quiet_ping_all lm : quiet (ping_all lm).
Proof. induction lm; simpl; quiet_steps. Qed.

Lemma quiet_pong lm id : quiet (pong lm id).
Proof. induction lm; simpl; unfold send_pong; quiet_steps. Qed.

Lemma quiet_end_ping lm id : quiet (end_ping lm id).
Proof. induction lm; simpl; quiet_steps. Qed.

Lemma quiet_upkeep lm : quiet (upkeep lm).
Proof. induction lm; simpl; quiet_steps. Qed.

Lemma quiet_send_queued msgs mm lm : quiet (send_queued msgs mm lm).
Proof.
  revert mm lm. pose proof quiet_send_slices as Hs.
  induction msgs; intros mm lm; simpl; quiet_steps; auto with quiet.
Qed.
End with_outside.

#[export] Hint Resolve quiet_send_queued quiet_now quiet_entry_end_ping quiet_send quiet_send_ping quiet_is_closed
  quiet_take_reader quiet_usable quiet_send_proto quiet_reset quiet_ack quiet_send_all
  quiet_send_slices quiet_ping_all quiet_pong quiet_end_ping quiet_upkeep : quiet.

(** Runs a handler symbolically: known effects are applied, quiet operations
    leave their [same] fact behind. *)
Ltac post_step :=
  match goal with
  | |- post (mret _) _ _ => apply post_ret
  | |- post (_ ≫= _) _ _ => apply post_bind
  | |- post (_ <$> _) _ _ => apply post_fmap
  | |- post (lift _) _ _ => apply post_lift; intros
  | |- post get_common _ _ => apply post_get_common
  | |- post (put_common _) _ _ => apply post_put_common
  | |- post (emit _) _ _ => apply post_emit
  | |- post (reply _) _ _ => apply post_reply
  | |- post _ _ _ => apply post_quiet; [solve [auto with quiet] | intros]
  | |- post (match ?x with _ => _ end) _ _ => destruct x eqn:?
  | |- post (let (_, _) := ?x in _) _ _ => destruct x eqn:?
  end.
Ltac post_steps := repeat (post_step; cbv beta zeta).

(** Rewrites with what quiet operations left unchanged. *)
Ltac use_same :=
  repeat match goal with
  | H : same _ _ |- _ => destruct H as [?Hcommon ?Hctrl ?Hreplies]
  end;
  repeat match goal with
  | H : common _ = _ |- _ => rewrite H in *; clear H
  | H : to_ctrl _ = _ |- _ => rewrite H in *; clear H
  | H : replies _ = _ |- _ => rewrite H in *; clear H
  end.
End Hoare.
