(* ===== verification/Wire.v ===== *)
(** * What reaches the links

    The packets handed to links, in order, and what the operations of the link
    manager ([src/links/link_manager.rs]) add to them: a packet is handed over
    exactly when a usable link is left. *)

From S2P Require Import Prelude Bytes Errors Epochs Proto BTree Slices Messages.
From S2P Require Import Clock Address Outside Connectors Common Links States Hoare.

Module Wire.
Import Epoch Protocol Control Common Links States Hoare.

Create HintDb unwired.

Section with_outside.
Context {P : BuildProfile} {O : Outside}.

(** Every packet that was handed to a link. *)
Definition packets (w : World) : list LinkProtocol := sent_packet <$> wire w.

(** The link manager finds a link that is neither closed nor too slow, or none. *)
Definition has_usable (lm : LinkManager) (w : World) : Prop :=
  exists e rest w1, usable lm w = Ret (e :: rest, w1).
Definition no_usable (lm : LinkManager) (w : World) : Prop := exists w1, usable lm w = Ret ([], w1).

(** A link refused the packet. *)
Definition refused (p : LinkProtocol) : Prop := exists n l x, (link_send n l (serialize p)).1 = Err x.

(** [ps] are the slices of [m], cut for some link, up to the first one that the
    link refused. *)
Definition transmitted (m : SliceManager.SliceManager) (ps : list LinkProtocol) : Prop :=
  exists e all k, SliceManager.get_slices m (entry_max_size e) = Ret all /\ (1 <= k)%nat /\
    ((k < length all)%nat -> exists p, all !! pred k = Some p /\ refused p) /\ ps = take k all.

End with_outside.

(** ** Operations that hand over nothing *)

Section generic.

Definition unwired {A} (m : M A) : Prop := forall w, post m w (fun _ w' => wire w' = wire w).

Lemma unwired_ret {A} (a : A) : unwired (mret a).
Proof. intros w. by apply post_ret. Qed.
Lemma unwired_bind {A B} (m : M A) (f : A -> M B) : unwired m -> (forall a, unwired (f a)) -> unwired (m ≫= f).
Proof.
  intros Hm Hf w. apply post_bind. eapply post_mono; [apply Hm|]. intros a w1 H1.
  eapply post_mono; [apply Hf|]. intros b w2 H2. by rewrite H2.
Qed.
Lemma unwired_fmap {A B} (f : A -> B) (m : M A) : unwired m -> unwired (f <$> m).
Proof. intros H. apply unwired_bind; [done|]. intros. apply unwired_ret. Qed.
Lemma unwired_lift {A} (o : outcome A) : unwired (lift o).
Proof. intros w. by apply post_lift. Qed.
Lemma unwired_tick : unwired tick.
Proof. by intros w a w' [= <- <-]. Qed.
Lemma unwired_get_common : unwired get_common.
Proof. by intros w a w' [= <- <-]. Qed.
Lemma unwired_put_common c : unwired (put_common c).
Proof. by intros w a w' [= <- <-]. Qed.
Lemma unwired_emit m : unwired (emit m).
Proof. by intros w a w' [= <- <-]. Qed.

End generic.

#[export] Hint Resolve unwired_ret unwired_lift unwired_tick unwired_get_common unwired_put_common unwired_emit
  : unwired.

(** Descends through binds and case analyses. *)
Ltac unwired_steps :=
  repeat first
    [ solve [auto with unwired]
    | match goal with
      | |- unwired (_ <$> _) => apply unwired_fmap
      | |- unwired (_ ≫= _) => apply unwired_bind; [|intros]
      | |- unwired (match ?x with _ => _ end) => destruct x
      end ].

Section links.
Context {P : BuildProfile} {O : Outside}.

Lemma unwired_now : unwired now.
Proof. unfold now. unwired_steps. Qed.
Hint Resolve unwired_now : unwired.
Lemma unwired_is_closed e : unwired (is_closed e).
Proof. unfold is_closed. unwired_steps. Qed.
Hint Resolve unwired_is_closed : unwired.
Lemma unwired_entry_end_ping e : unwired (entry_end_ping e).
Proof. unfold entry_end_ping. unwired_steps. Qed.
Hint Resolve unwired_entry_end_ping : unwired.
Lemma unwired_usable lm : unwired (usable lm).
Proof. induction lm; simpl; unwired_steps. Qed.
Lemma unwired_upkeep lm : unwired (upkeep lm).
Proof. induction lm; simpl; unwired_steps. Qed.
Lemma unwired_modify_timer f : unwired (modify_timer f).
Proof. unfold modify_timer. unwired_steps. Qed.
Hint Resolve unwired_modify_timer : unwired.
Lemma unwired_timer_clear : unwired timer_clear.
Proof. apply unwired_modify_timer. Qed.
Hint Resolve unwired_timer_clear : unwired.
Lemma unwired_timer_modify_repeat i : unwired (timer_modify_repeat i).
Proof. unfold timer_modify_repeat. unwired_steps. Qed.
Lemma unwired_timer_modify_deadline i : unwired (timer_modify_deadline_from_now i).
Proof. unfold timer_modify_deadline_from_now. unwired_steps. Qed.
Hint Resolve unwired_timer_modify_repeat unwired_timer_modify_deadline : unwired.
Lemma unwired_store_active b : unwired (store_active b).
Proof. unfold store_active. unwired_steps. Qed.
Hint Resolve unwired_store_active : unwired.
Lemma unwired_connected_timer : unwired connected_timer.
Proof. unfold connected_timer. unwired_steps. Qed.
Lemma unwired_set_deadline t : unwired (set_deadline_or_clear t).
Proof. unfold set_deadline_or_clear. unwired_steps. Qed.

(** ** Operations that hand over packets *)

Lemma packets_unwired w w' : wire w' = wire w -> packets w' = packets w.
Proof. unfold packets. by intros ->. Qed.

Lemma post_send e p w :
  post (send e p) w (fun r w' => packets w' = packets w ++ [p] /\ (forall x, r.1 = Err x -> refused p)).
Proof.
  intros r w' H. unfold send, mbind, M_bind, tick, log_wire in H. simpl in H.
  destruct (link_send (ticks w) (le_link e) (serialize p)) as [res l] eqn:E. injection H as <- <-.
  unfold packets. simpl. rewrite fmap_app. split; [done|]. intros x ->.
  exists (ticks w), (le_link e), x. by rewrite E.
Qed.

(** One packet: it goes over the first usable link, and is not sent when there
    is none. *)
Lemma post_send_proto lm p w :
  post (send_proto lm p) w (fun r w' =>
    (has_usable lm w -> r.2 <> [] /\ packets w' = packets w ++ [p]) /\
    (no_usable lm w -> r.2 = [] /\ packets w' = packets w)).
Proof.
  unfold send_proto. apply post_bind. intros lm1 w1 Hu. pose proof (unwired_usable lm w _ _ Hu) as Hw.
  apply packets_unwired in Hw. destruct lm1 as [|e rest].
  - apply post_ret. split; [intros (? & ? & ? & H); congruence|done].
  - apply post_bind. eapply post_mono; [apply post_send|]. intros [res e'] w2 [H2 _]. apply post_ret.
    split; [|intros [? H]; congruence]. intros _. split; [done|]. by rewrite H2, Hw.
Qed.

(** In any case, it is sent when the manager still has links. *)
Lemma post_send_proto_kept lm p w :
  post (send_proto lm p) w (fun r w' =>
    r.2 <> [] /\ packets w' = packets w ++ [p] \/ r.2 = [] /\ packets w' = packets w).
Proof.
  unfold send_proto. apply post_bind. intros lm1 w1 Hu. pose proof (unwired_usable lm w _ _ Hu) as Hw.
  apply packets_unwired in Hw. destruct lm1 as [|e rest]; [apply post_ret; by right|].
  apply post_bind. eapply post_mono; [apply post_send|]. intros [res e'] w2 [H2 _]. apply post_ret.
  left. split; [done|]. by rewrite H2, Hw.
Qed.

Lemma post_send_all e ps w :
  post (send_all e ps) w (fun _ w' => exists k, (1 <= k)%nat /\
    ((k < length ps)%nat -> exists p, ps !! pred k = Some p /\ refused p) /\
    packets w' = packets w ++ take k ps).
Proof.
  revert e w. induction ps as [|p ps IH]; intros e w; simpl.
  { apply post_ret. exists 1%nat. simpl. split_and!; [done|lia|by rewrite app_nil_r]. }
  apply post_bind. eapply post_mono; [apply post_send|]. intros [[u|x] e'] w1 [H1 Href].
  - eapply post_mono; [apply IH|]. intros r w2 (k & Hk & Hall & H2). exists (S k). simpl.
    split_and!; [lia| |by rewrite H2, H1, <- app_assoc]. intros Hlt. destruct (Hall ltac:(lia)) as (q & Hq & Hr).
    exists q. split; [|done]. destruct k; [lia|done].
  - apply post_ret. exists 1%nat. split_and!; [done| |by rewrite H1]. intros _. exists p. split; [done|by apply (Href x)].
Qed.

(** The slices of a message. *)
Lemma post_send_slices lm m w :
  post (send_slices lm m) w (fun r w' =>
    r.2 <> [] /\ (exists ps, transmitted m ps /\ packets w' = packets w ++ ps) \/
    r.2 = [] /\ packets w' = packets w).
Proof.
  unfold send_slices. apply post_bind. intros lm1 w1 Hu. pose proof (unwired_usable lm w _ _ Hu) as Hw.
  apply packets_unwired in Hw. destruct lm1 as [|e rest]; [apply post_ret; by right|].
  apply post_bind, post_lift. intros all Hall. apply post_bind.
  eapply post_mono; [apply post_send_all|]. intros [res e'] w2 (k & Hk & Hlen & H2). apply post_ret. left.
  split; [done|]. exists (take k all). split; [by exists e, all, k|]. by rewrite H2, Hw.
Qed.

(** Pings go to every link. *)
Lemma post_ping_all lm w :
  post (ping_all lm) w (fun lm' w' =>
    length lm' = length lm /\ packets w' = packets w ++ replicate (length lm) Ping).
Proof.
  revert w. induction lm as [|e lm IH]; intros w; simpl; [apply post_ret; by rewrite app_nil_r|].
  apply post_bind. unfold send_ping. apply post_bind. intros e1 w1 H1%unwired_entry_end_ping.
  apply post_bind. intros t w2 H2%unwired_now. eapply post_mono; [apply post_send|]. intros [res e2] w3 [H3 _].
  apply post_bind. eapply post_mono; [apply IH|]. intros lm' w4 [H4 H5]. apply post_ret. simpl.
  split; [by f_equal|]. rewrite H5, H3. unfold packets. by rewrite H2, H1, <- app_assoc.
Qed.
End links.

#[export] Hint Resolve unwired_now unwired_is_closed unwired_entry_end_ping unwired_usable unwired_upkeep unwired_modify_timer
  unwired_timer_clear unwired_timer_modify_repeat unwired_timer_modify_deadline unwired_store_active
  unwired_connected_timer unwired_set_deadline : unwired.
End Wire.
