(* ===== verification/Handlers.v ===== *)
(** * The handlers of the states ([src/state/states/]) and their dispatch
    ([src/core.rs])

    Four handlers per state: control commands, packets from links, the timer and
    debug commands; then the core's event loop as a step function. *)

From S2P Require Import Prelude Bytes Errors Epochs Proto BTree Slices Messages.
From S2P Require Import Clock Address Outside Connectors Common Links States.

Module Handlers.
Import Epoch Protocol Control Common Links States.
Import ConnectorManager(AddressSet, add_address).
Import MessageManager(insert_msg, get_outgoing_slice, get_outgoing_slices, recv_ack, recv,
  take_recvd, last_ack).

Section with_outside.
Context {P : BuildProfile} {O : Outside}.

(** ** [Disconnected] ([disconnected.rs]) *)

Definition disconnected_ctrl_msg (s : DisconnectedState) (msg : LinkSetControlCommand) : M States :=
  match msg with
  | Connect => Connecting <$> connecting_from_disconnected s
  | Disconnect => mret (Disconnected s)
  | AddConnector conn =>
      mret (Disconnected (mk_disconnected (insert_conn (dc_conns s) conn) (dc_addrs s) (dc_epoch s)))
  | AddAddress addr =>
      mret (Disconnected (mk_disconnected (dc_conns s) (add_address (dc_addrs s) addr) (dc_epoch s)))
  | AddLink l =>
      res ← wrap_link l;
      match res with
      | Ok l => EpochMismatch <$> epoch_mismatch_from_disconnected s l
      | Err _ => mret (Disconnected s)
      end
  | Message data epoch =>
      c ← get_common;
      if auto_connect c && bool_decide (epoch = None)
      then Connecting <$> connecting_from_disconnected_msg s data
      else mret (Disconnected s)
  end.

Definition disconnected_link_msg (s : DisconnectedState) (id : Z) (msg : LinkProtocol) : M States :=
  c ← get_common;
  put_common (set_readers c []);;
  mret (Disconnected s).

Definition disconnected_timer (s : DisconnectedState) : M States :=
  timer_clear;; mret (Disconnected s).

Definition disconnected_debug (s : DisconnectedState) (cmd : DebugCommand) : M States :=
  debug_unlinked (Disconnected s) (dc_epoch s) (addr_list (dc_addrs s)) (conn_list (dc_conns s)) cmd.

(** ** [Connecting] ([connecting.rs]) *)

Definition set_cg_connector (s : ConnectingState) cm : ConnectingState :=
  mk_connecting cm (cg_queued_msgs s) (cg_epoch s).

Definition connecting_ctrl_msg (s : ConnectingState) (msg : LinkSetControlCommand) : M States :=
  match msg with
  | Connect => mret (Connecting s)
  | Disconnect => Disconnected <$> disconnected_from_connecting s
  | AddConnector conn =>
      cm ← lift (ConnectorManager.add_connector (cg_connector s) conn);
      mret (Connecting (set_cg_connector s cm))
  | AddAddress addr =>
      mret (Connecting (set_cg_connector s (ConnectorManager.add_addr (cg_connector s) addr)))
  | AddLink l =>
      res ← wrap_link l;
      match res with
      | Ok l => EpochMismatch <$> epoch_mismatch_from_connecting s l
      | Err _ => mret (Connecting s)
      end
  | Message msg epoch =>
      mret (Connecting
        (if bool_decide (epoch = None)
         then mk_connecting (cg_connector s) (cg_queued_msgs s ++ [msg]) (cg_epoch s)
         else s))
  end.

Definition connecting_link_msg (s : ConnectingState) (id : Z) (msg : LinkProtocol) : M States :=
  mret (Connecting s).

Definition connecting_timer (s : ConnectingState) : M States :=
  timer_clear;;
  Disconnected <$> disconnected_from_connecting s.

Definition connecting_debug (s : ConnectingState) (cmd : DebugCommand) : M States :=
  let (addrs, conns) := ConnectorManager.debug_request_snapshot (cg_connector s) in
  debug_unlinked (Connecting s) (cg_epoch s) addrs conns cmd.

(** ** [EpochMismatch] ([epoch_mismatch.rs]) *)

Definition set_em_links (s : EpochMismatchState) links : EpochMismatchState :=
  mk_epoch_mismatch (em_conns s) (em_addrs s) links (em_queued_msgs s) (em_epoch s) (em_last_ping s).

Definition set_em_epoch (s : EpochMismatchState) epoch : EpochMismatchState :=
  mk_epoch_mismatch (em_conns s) (em_addrs s) (em_links s) (em_queued_msgs s) epoch (em_last_ping s).

Definition epoch_mismatch_ctrl_msg (s : EpochMismatchState) (msg : LinkSetControlCommand)
    : M States :=
  match msg with
  | Connect => mret (EpochMismatch s)
  | Disconnect => Disconnected <$> disconnected_from_epoch_mismatch s
  | AddConnector conn =>
      mret (EpochMismatch (mk_epoch_mismatch (insert_conn (em_conns s) conn) (em_addrs s)
        (em_links s) (em_queued_msgs s) (em_epoch s) (em_last_ping s)))
  | AddAddress addr =>
      mret (EpochMismatch (mk_epoch_mismatch (em_conns s) (add_address (em_addrs s) addr)
        (em_links s) (em_queued_msgs s) (em_epoch s) (em_last_ping s)))
  | AddLink l =>
      res ← wrap_link l;
      match res with
      | Ok l => mret (EpochMismatch (set_em_links s (add_link (em_links s) l)))
      | Err _ => mret (EpochMismatch s)
      end
  | Message msg epoch =>
      mret (EpochMismatch
        (if bool_decide (epoch = None)
         then mk_epoch_mismatch (em_conns s) (em_addrs s) (em_links s) (em_queued_msgs s ++ [msg])
                (em_epoch s) (em_last_ping s)
         else s))
  end.

Definition epoch_mismatch_link_msg (s : EpochMismatchState) (id : Z) (msg : LinkProtocol)
    : M States :=
  match msg with
  | Reset epoch request =>
      match compare_epochs (em_epoch s) epoch with
      | Gt =>
          '(_, links) ← reset (em_links s) (em_epoch s) false;
          mret (EpochMismatch (set_em_links s links))
      | Eq =>
          s ← (if (request : bool) then
                 '(_, links) ← reset (em_links s) (em_epoch s) false;
                 mret (set_em_links s links)
               else mret s);
          epoch ← lift (unwrap (em_epoch s));
          Connected <$> connected_from_epoch_mismatch s epoch
      | Lt =>
          let s := set_em_epoch s epoch in
          let epoch := default ONE (em_epoch s) in
          '(_, links) ← reset (em_links s) (Some epoch) false;
          Connected <$> connected_from_epoch_mismatch (set_em_links s links) epoch
      end
  | Ack _ _ _ => mret (EpochMismatch s)
  | MsgSlice _ _ _ _ _ => mret (EpochMismatch s)
  | Ping => links ← pong (em_links s) id; mret (EpochMismatch (set_em_links s links))
  | Pong => links ← end_ping (em_links s) id; mret (EpochMismatch (set_em_links s links))
  end.

Definition epoch_mismatch_timer (s : EpochMismatchState) : M States :=
  links ← upkeep (em_links s);
  links ← ping_all links;
  let s := set_em_links s links in
  if lm_is_empty (em_links s) then
    c ← get_common;
    if auto_connect c then Connecting <$> connecting_from_epoch_mismatch s
    else Disconnected <$> disconnected_from_epoch_mismatch s
  else
    '(_, links) ← reset (em_links s) (em_epoch s) true;
    mret (EpochMismatch (set_em_links s links)).

Definition epoch_mismatch_debug (s : EpochMismatchState) (cmd : DebugCommand) : M States :=
  match cmd with
  | Snapshot =>
      reply (SnapshotReply (mk_snapshot (get_name (EpochMismatch s)) (em_epoch s)
        (addr_list (em_addrs s)) (conn_list (em_conns s)) (descriptions (em_links s))));;
      mret (EpochMismatch s)
  | EvictLink id =>
      let (_, links) := evict_link (em_links s) id in
      reply (EvictReply true);;
      mret (EpochMismatch (set_em_links s links))
  end.

(** ** [Connected] ([connected.rs]) *)

Definition set_cn_links (s : ConnectedState) links : ConnectedState :=
  mk_connected (cn_conns s) (cn_addrs s) links (cn_msg_mgr s) (cn_epoch s) (cn_last_ping s).

Definition set_cn_msg_mgr (s : ConnectedState) mm : ConnectedState :=
  mk_connected (cn_conns s) (cn_addrs s) (cn_links s) mm (cn_epoch s) (cn_last_ping s).

(** [Some(Duration::ZERO)] disables a timeout's state. *)
Definition skipped (timeout : option Duration) : bool := bool_decide (timeout = Some 0).

Definition determine_state (s : ConnectedState) : M States :=
  if lm_is_empty (cn_links s) then
    c ← get_common;
    if negb (skipped (reconnecting_timeout c)) then Reconnecting <$> reconnecting_from_connected s
    else if negb (skipped (grace_period_timeout c)) then GracePeriod <$> grace_period_from_connected s
    else Disconnected <$> disconnected_from_connected s
  else mret (Connected s).

(** A message addressed to another epoch than the current one is dropped. *)
Definition wrong_epoch (epoch : option Epoch) (current : Epoch) : bool :=
  match epoch with Some epoch => negb (bool_decide (current = epoch)) | None => false end.

Definition connected_ctrl_msg (s : ConnectedState) (msg : LinkSetControlCommand) : M States :=
  match msg with
  | Connect => mret (Connected s)
  | Disconnect => Disconnected <$> disconnected_from_connected s
  | AddConnector conn =>
      mret (Connected (mk_connected (insert_conn (cn_conns s) conn) (cn_addrs s) (cn_links s)
        (cn_msg_mgr s) (cn_epoch s) (cn_last_ping s)))
  | AddAddress addr =>
      mret (Connected (mk_connected (cn_conns s) (add_address (cn_addrs s) addr) (cn_links s)
        (cn_msg_mgr s) (cn_epoch s) (cn_last_ping s)))
  | AddLink l =>
      res ← wrap_link l;
      match res with
      | Ok l => mret (Connected (set_cn_links s (add_link (cn_links s) l)))
      | Err _ => mret (Connected s)
      end
  | Message msg epoch =>
      if wrong_epoch epoch (cn_epoch s) then mret (Connected s)
      else
        '(seq, mm) ← lift (insert_msg (cn_msg_mgr s) msg);
        let s := set_cn_msg_mgr s mm in
        links ←
          match get_outgoing_slice (cn_msg_mgr s) seq with
          | Some slice_mgr => '(_, links) ← send_slices (cn_links s) slice_mgr; mret links
          | None => mret (cn_links s)
          end;
        determine_state (set_cn_links s links)
  end.

Definition connected_link_msg (s : ConnectedState) (id : Z) (msg : LinkProtocol) : M States :=
  match msg with
  | Reset epoch request =>
      if (request : bool) then
        if bool_decide (epoch = Some (cn_epoch s)) then
          '(_, links) ← reset (cn_links s) (Some (cn_epoch s)) false;
          determine_state (set_cn_links s links)
        else EpochMismatch <$> epoch_mismatch_from_connected s
      else mret (Connected s)
  | Ack epoch seq last_index =>
      if epoch =? to_int (cn_epoch s) then
        mm ← lift (recv_ack (cn_msg_mgr s) (seq, last_index));
        mret (Connected (set_cn_msg_mgr s mm))
      else mret (Connected s)
  | MsgSlice epoch seq seq_len first_index data =>
      if epoch =? to_int (cn_epoch s) then
        '(should_ack, mm) ← lift (recv (cn_msg_mgr s) seq first_index seq_len data);
        let s := set_cn_msg_mgr s mm in
        s ← (if (should_ack : bool) then
               '(_, links) ← ack (cn_links s) (cn_epoch s) (last_ack (cn_msg_mgr s));
               mret (set_cn_links s links)
             else mret s);
        '(msgs, mm) ← lift (take_recvd (cn_msg_mgr s));
        emit_messages msgs (cn_epoch s);;
        determine_state (set_cn_msg_mgr s mm)
      else mret (Connected s)
  | Ping => links ← pong (cn_links s) id; mret (Connected (set_cn_links s links))
  | Pong => links ← end_ping (cn_links s) id; mret (Connected (set_cn_links s links))
  end.

Definition connected_timer_handler (s : ConnectedState) : M States :=
  t ← now;
  links ← (if PING_INTERVAL <? elapsed t (cn_last_ping s) then ping_all (cn_links s)
           else mret (cn_links s));
  links ← upkeep links;
  links ←
    (if lm_is_empty links then mret links
     else match get_outgoing_slices (cn_msg_mgr s) with
          | slice_mgr :: _ => '(_, links) ← send_slices links slice_mgr; mret links
          | [] => mret links
          end);
  determine_state (set_cn_links s links).

Definition connected_debug (s : ConnectedState) (cmd : DebugCommand) : M States :=
  match cmd with
  | Snapshot =>
      reply (SnapshotReply (mk_snapshot (get_name (Connected s)) (Some (cn_epoch s))
        (addr_list (cn_addrs s)) (conn_list (cn_conns s)) (descriptions (cn_links s))));;
      mret (Connected s)
  | EvictLink id =>
      let (_, links) := evict_link (cn_links s) id in
      reply (EvictReply true);;
      mret (Connected (set_cn_links s links))
  end.

(** ** [Reconnecting] ([reconnecting.rs]) *)

Definition set_rc_connector (s : ReconnectingState) cm : ReconnectingState :=
  mk_reconnecting (rc_msg_mgr s) (rc_epoch s) cm.

Definition set_rc_msg_mgr (s : ReconnectingState) mm : ReconnectingState :=
  mk_reconnecting mm (rc_epoch s) (rc_connector s).

Definition reconnecting_ctrl_msg (s : ReconnectingState) (msg : LinkSetControlCommand) : M States :=
  match msg with
  | Connect => mret (Reconnecting s)
  | Disconnect => Disconnected <$> disconnected_from_reconnecting s
  | AddConnector conn =>
      cm ← lift (ConnectorManager.add_connector (rc_connector s) conn);
      mret (Reconnecting (set_rc_connector s cm))
  | AddAddress addr =>
      mret (Reconnecting (set_rc_connector s (ConnectorManager.add_addr (rc_connector s) addr)))
  | AddLink l =>
      res ← wrap_link l;
      match res with
      | Ok l => Connected <$> connected_from_reconnecting s l
      | Err _ => mret (Reconnecting s)
      end
  | Message data epoch =>
      if wrong_epoch epoch (rc_epoch s) then mret (Reconnecting s)
      else
        '(_, mm) ← lift (insert_msg (rc_msg_mgr s) data);
        mret (Reconnecting (set_rc_msg_mgr s mm))
  end.

Definition reconnecting_link_msg (s : ReconnectingState) (id : Z) (msg : LinkProtocol) : M States :=
  match msg with
  | Reset epoch request =>
      if (request : bool) then
        if bool_decide (epoch <> Some (rc_epoch s)) then mret (Reconnecting s)
        else Connecting <$> connecting_from_reconnecting s
      else mret (Reconnecting s)
  | Ack epoch seq last_index =>
      if epoch =? to_int (rc_epoch s) then
        mm ← lift (recv_ack (rc_msg_mgr s) (seq, last_index));
        mret (Reconnecting (set_rc_msg_mgr s mm))
      else mret (Reconnecting s)
  | MsgSlice epoch seq seq_len first_index data =>
      if epoch =? to_int (rc_epoch s) then
        '(_, mm) ← lift (recv (rc_msg_mgr s) seq first_index seq_len data);
        '(msgs, mm) ← lift (take_recvd mm);
        emit_messages msgs (rc_epoch s);;
        mret (Reconnecting (set_rc_msg_mgr s mm))
      else mret (Reconnecting s)
  | Ping => mret (Reconnecting s)
  | Pong => mret (Reconnecting s)
  end.

Definition reconnecting_timer (s : ReconnectingState) : M States :=
  c ← get_common;
  if auto_connect c then Connecting <$> connecting_from_reconnecting s
  else Disconnected <$> disconnected_from_reconnecting s.

Definition reconnecting_debug (s : ReconnectingState) (cmd : DebugCommand) : M States :=
  let (addrs, conns) := ConnectorManager.debug_request_snapshot (rc_connector s) in
  debug_unlinked (Reconnecting s) (Some (rc_epoch s)) addrs conns cmd.

(** ** [GracePeriod] ([grace_period.rs]) *)

Definition set_gp_msg_mgr (s : GracePeriodState) mm : GracePeriodState :=
  mk_grace_period (gp_conns s) (gp_addrs s) mm (gp_epoch s).

Definition grace_period_ctrl_msg (s : GracePeriodState) (msg : LinkSetControlCommand) : M States :=
  match msg with
  | Connect => mret (GracePeriod s)
  | Disconnect => Disconnected <$> disconnected_from_grace_period s
  | AddConnector conn =>
      mret (GracePeriod (mk_grace_period (insert_conn (gp_conns s) conn) (gp_addrs s)
        (gp_msg_mgr s) (gp_epoch s)))
  | AddAddress addr =>
      mret (GracePeriod (mk_grace_period (gp_conns s) (add_address (gp_addrs s) addr)
        (gp_msg_mgr s) (gp_epoch s)))
  | AddLink l =>
      res ← wrap_link l;
      match res with
      | Ok l => Connected <$> connected_from_grace_period s l
      | Err _ => mret (GracePeriod s)
      end
  | Message data epoch =>
      if wrong_epoch epoch (gp_epoch s) then mret (GracePeriod s)
      else
        '(_, mm) ← lift (insert_msg (gp_msg_mgr s) data);
        mret (GracePeriod (set_gp_msg_mgr s mm))
  end.

Definition grace_period_link_msg (s : GracePeriodState) (id : Z) (msg : LinkProtocol) : M States :=
  match msg with
  | Reset epoch request =>
      if (request : bool) then
        if bool_decide (epoch <> Some (gp_epoch s)) then mret (GracePeriod s)
        else Disconnected <$> disconnected_from_grace_period s
      else mret (GracePeriod s)
  | Ack epoch seq last_index =>
      if epoch =? to_int (gp_epoch s) then
        mm ← lift (recv_ack (gp_msg_mgr s) (seq, last_index));
        mret (GracePeriod (set_gp_msg_mgr s mm))
      else mret (GracePeriod s)
  | MsgSlice epoch seq seq_len first_index data =>
      if epoch =? to_int (gp_epoch s) then
        '(_, mm) ← lift (recv (gp_msg_mgr s) seq first_index seq_len data);
        '(msgs, mm) ← lift (take_recvd mm);
        emit_messages msgs (gp_epoch s);;
        mret (GracePeriod (set_gp_msg_mgr s mm))
      else mret (GracePeriod s)
  | Ping => mret (GracePeriod s)
  | Pong => mret (GracePeriod s)
  end.

Definition grace_period_timer (s : GracePeriodState) : M States :=
  c ← get_common;
  if auto_connect c then Connecting <$> connecting_from_grace_period s
  else Disconnected <$> disconnected_from_grace_period s.

Definition grace_period_debug (s : GracePeriodState) (cmd : DebugCommand) : M States :=
  debug_unlinked (GracePeriod s) (Some (gp_epoch s)) (addr_list (gp_addrs s))
    (conn_list (gp_conns s)) cmd.

(** ** Dispatch ([core.rs], [States::into_boxed_inner]) *)

Definition ctrl_msg (s : States) (msg : LinkSetControlCommand) : M States :=
  match s with
  | Disconnected s => disconnected_ctrl_msg s msg
  | Connecting s => connecting_ctrl_msg s msg
  | EpochMismatch s => epoch_mismatch_ctrl_msg s msg
  | Connected s => connected_ctrl_msg s msg
  | Reconnecting s => reconnecting_ctrl_msg s msg
  | GracePeriod s => grace_period_ctrl_msg s msg
  end.

Definition handle_link_msg (s : States) (id : Z) (msg : LinkProtocol) : M States :=
  match s with
  | Disconnected s => disconnected_link_msg s id msg
  | Connecting s => connecting_link_msg s id msg
  | EpochMismatch s => epoch_mismatch_link_msg s id msg
  | Connected s => connected_link_msg s id msg
  | Reconnecting s => reconnecting_link_msg s id msg
  | GracePeriod s => grace_period_link_msg s id msg
  end.

Definition handle_timer (s : States) : M States :=
  match s with
  | Disconnected s => disconnected_timer s
  | Connecting s => connecting_timer s
  | EpochMismatch s => epoch_mismatch_timer s
  | Connected s => connected_timer_handler s
  | Reconnecting s => reconnecting_timer s
  | GracePeriod s => grace_period_timer s
  end.

Definition handle_debug (s : States) (cmd : DebugCommand) : M States :=
  match s with
  | Disconnected s => disconnected_debug s cmd
  | Connecting s => connecting_debug s cmd
  | EpochMismatch s => epoch_mismatch_debug s cmd
  | Connected s => connected_debug s cmd
  | Reconnecting s => reconnecting_debug s cmd
  | GracePeriod s => grace_period_debug s cmd
  end.

Definition handle_config (conf : LinkSetControlConfig) : M unit :=
  c ← get_common;
  put_common
    match conf with
    | AutoConnect connect => set_auto_connect c connect
    | ConnectTimeout timeout => set_connecting_timeout c timeout
    | ReconnectTimeout timeout => set_reconnecting_timeout c timeout
    | GracePeriodTimeout timeout => set_grace_period_timeout c timeout
    end.

Definition handle_ctrl_msg (s : States) (msg : LinkSetControl) : M States :=
  match msg with
  | Command cmd => ctrl_msg s cmd
  | Config conf => handle_config conf;; mret s
  end.

(** What the [select!] of the core's loop can yield. *)
Inductive Event : Type :=
  | EvCtrl (msg : LinkSetControl)
  | EvLink (id : Z) (msg : LinkProtocol)
  | EvTimer
  | EvDebug (cmd : DebugCommand).

(** The guards of the branches: packets come from a merged reader, the timer
    branch needs a deadline. *)
Definition enabled (ev : Event) (w : World) : bool :=
  match ev with
  | EvLink id _ => bool_decide (id ∈ readers (common w))
  | EvTimer => Deadline.has_deadline (timer (common w))
  | _ => true
  end.

(** The timer's future fired: polling it re-arms or disarms it. *)
Definition poll_timer : M unit :=
  c ← get_common;
  t ← now;
  '(_, d) ← lift (Deadline.poll true t (timer c));
  put_common (set_timer c d).

Definition handle (s : States) (ev : Event) : M States :=
  match ev with
  | EvCtrl msg => handle_ctrl_msg s msg
  | EvLink id msg => handle_link_msg s id msg
  | EvTimer => poll_timer;; handle_timer s
  | EvDebug cmd => handle_debug s cmd
  end.

(** A connector task of the current state makes a step. *)
Inductive states_task_step : States -> States -> Prop :=
  | connecting_task s cm :
      ConnectorManager.cm_step (cg_connector s) cm ->
      states_task_step (Connecting s) (Connecting (set_cg_connector s cm))
  | reconnecting_task s cm :
      ConnectorManager.cm_step (rc_connector s) cm ->
      states_task_step (Reconnecting s) (Reconnecting (set_rc_connector s cm)).

(** Runs of the core: any sequence of enabled events from the initial state.
    [run_ended] is a reader stream that finished. *)
Inductive run : list Event -> States -> World -> Prop :=
  | run_init : run [] states_new world_new
  | run_event evs s w ev s' w' :
      run evs s w -> enabled ev w = true -> handle s ev w = Ret (s', w') ->
      run (evs ++ [ev]) s' w'
  | run_task evs s w s' : run evs s w -> states_task_step s s' -> run evs s' w
  | run_ended evs s w id :
      run evs s w ->
      run evs s (set_common w (set_readers (common w) (filter (fun x => x <> id) (readers (common w))))).
End with_outside.
End Handlers.
