(* ===== verification/StateTraits.v ===== *)
(** * The traits of the states ([src/state/mod.rs], [src/state/transition.rs],
    [src/state/states/mod.rs])

    In the program the six states are reached through a trait object and
    transitions through traits; [Handlers] dispatches by cases.  Here are the
    traits, their implementations, and the agreement of the two. *)

From S2P Require Import Prelude Bytes Errors Epochs Proto BTree Slices Messages.
From S2P Require Import Clock Address Outside Connectors Common Links States Handlers.

Module StateTraits.
Import Epoch Protocol Control Common Links States Handlers.

Section with_outside.
Context {P : BuildProfile} {O : Outside}.

(** ** The trait [State] and its object-safe form *)

Class State (S : Type) := {
  on_ctrl_msg : S -> LinkSetControlCommand -> M States;
  on_link_msg : S -> Z -> LinkProtocol -> M States;
  on_timer : S -> M States;
  on_debug : S -> DebugCommand -> M States;
}.

(** [Box<dyn PinnedState>]: some state together with its implementation. *)
Record PinnedState : Type := pin { inner : Type; inner_state : State inner; inner_self : inner }.

Definition pinned_ctrl_msg (p : PinnedState) (msg : LinkSetControlCommand) : M States :=
  @on_ctrl_msg _ (inner_state p) (inner_self p) msg.
Definition pinned_link_msg (p : PinnedState) (id : Z) (msg : LinkProtocol) : M States :=
  @on_link_msg _ (inner_state p) (inner_self p) id msg.
Definition pinned_timer (p : PinnedState) : M States := @on_timer _ (inner_state p) (inner_self p).
Definition pinned_debug (p : PinnedState) (cmd : DebugCommand) : M States :=
  @on_debug _ (inner_state p) (inner_self p) cmd.

#[export] Instance disconnected_state : State DisconnectedState :=
  {| on_ctrl_msg := disconnected_ctrl_msg; on_link_msg := disconnected_link_msg;
     on_timer := disconnected_timer; on_debug := disconnected_debug |}.
#[export] Instance connecting_state : State ConnectingState :=
  {| on_ctrl_msg := connecting_ctrl_msg; on_link_msg := connecting_link_msg;
     on_timer := connecting_timer; on_debug := connecting_debug |}.
#[export] Instance epoch_mismatch_state : State EpochMismatchState :=
  {| on_ctrl_msg := epoch_mismatch_ctrl_msg; on_link_msg := epoch_mismatch_link_msg;
     on_timer := epoch_mismatch_timer; on_debug := epoch_mismatch_debug |}.
#[export] Instance connected_state : State ConnectedState :=
  {| on_ctrl_msg := connected_ctrl_msg; on_link_msg := connected_link_msg;
     on_timer := connected_timer_handler; on_debug := connected_debug |}.
#[export] Instance reconnecting_state : State ReconnectingState :=
  {| on_ctrl_msg := reconnecting_ctrl_msg; on_link_msg := reconnecting_link_msg;
     on_timer := reconnecting_timer; on_debug := reconnecting_debug |}.
#[export] Instance grace_period_state : State GracePeriodState :=
  {| on_ctrl_msg := grace_period_ctrl_msg; on_link_msg := grace_period_link_msg;
     on_timer := grace_period_timer; on_debug := grace_period_debug |}.

Definition into_boxed_inner (s : States) : PinnedState :=
  match s with
  | Disconnected s => pin _ disconnected_state s
  | Connecting s => pin _ connecting_state s
  | EpochMismatch s => pin _ epoch_mismatch_state s
  | Connected s => pin _ connected_state s
  | Reconnecting s => pin _ reconnecting_state s
  | GracePeriod s => pin _ grace_period_state s
  end.

(** The body of the loop, through the trait object. *)
Definition trait_handle (s : States) (ev : Event) : M States :=
  match ev with
  | EvCtrl (Command cmd) => pinned_ctrl_msg (into_boxed_inner s) cmd
  | EvCtrl (Config conf) => handle_config conf;; mret s
  | EvLink id msg => pinned_link_msg (into_boxed_inner s) id msg
  | EvTimer => poll_timer;; pinned_timer (into_boxed_inner s)
  | EvDebug cmd => pinned_debug (into_boxed_inner s) cmd
  end.

(** ** Transitions *)

Class IntoStates (S : Type) := into : S -> States.

#[export] Instance disconnected_into : IntoStates DisconnectedState := Disconnected.
#[export] Instance connecting_into : IntoStates ConnectingState := Connecting.
#[export] Instance epoch_mismatch_into : IntoStates EpochMismatchState := EpochMismatch.
#[export] Instance connected_into : IntoStates ConnectedState := Connected.
#[export] Instance reconnecting_into : IntoStates ReconnectingState := Reconnecting.
#[export] Instance grace_period_into : IntoStates GracePeriodState := GracePeriod.

(** [StateTransitionFrom] and [StateTransitionFromAsync]; and the form with a
    parameter. *)
Class StateTransitionFrom (F T : Type) := transition_from : F -> M T.
Class StateTransitionWithParam (F Q T : Type) := transition_from_with : F -> Q -> M T.

(** [to_state] and [to_state_async]; and [to_state_param_async]. *)
Definition to_state {F} (T : Type) `{StateTransitionFrom F T, IntoStates T} (from : F) : M States :=
  into <$> transition_from from.
Definition to_state_param {F Q} (T : Type) `{StateTransitionWithParam F Q T, IntoStates T} (from : F) (param : Q)
    : M States :=
  into <$> transition_from_with from param.

#[export] Instance connecting_to_disconnected : StateTransitionFrom ConnectingState DisconnectedState :=
  disconnected_from_connecting.
#[export] Instance epoch_mismatch_to_disconnected : StateTransitionFrom EpochMismatchState DisconnectedState :=
  disconnected_from_epoch_mismatch.
#[export] Instance connected_to_disconnected : StateTransitionFrom ConnectedState DisconnectedState :=
  disconnected_from_connected.
#[export] Instance reconnecting_to_disconnected : StateTransitionFrom ReconnectingState DisconnectedState :=
  disconnected_from_reconnecting.
#[export] Instance grace_period_to_disconnected : StateTransitionFrom GracePeriodState DisconnectedState :=
  disconnected_from_grace_period.
#[export] Instance disconnected_to_connecting : StateTransitionFrom DisconnectedState ConnectingState :=
  connecting_from_disconnected.
#[export] Instance epoch_mismatch_to_connecting : StateTransitionFrom EpochMismatchState ConnectingState :=
  connecting_from_epoch_mismatch.
#[export] Instance connected_to_connecting : StateTransitionFrom ConnectedState ConnectingState :=
  connecting_from_connected.
#[export] Instance reconnecting_to_connecting : StateTransitionFrom ReconnectingState ConnectingState :=
  connecting_from_reconnecting.
#[export] Instance grace_period_to_connecting : StateTransitionFrom GracePeriodState ConnectingState :=
  connecting_from_grace_period.
#[export] Instance connected_to_epoch_mismatch : StateTransitionFrom ConnectedState EpochMismatchState :=
  epoch_mismatch_from_connected.
#[export] Instance connected_to_reconnecting : StateTransitionFrom ConnectedState ReconnectingState :=
  reconnecting_from_connected.
#[export] Instance connected_to_grace_period : StateTransitionFrom ConnectedState GracePeriodState :=
  grace_period_from_connected.
#[export] Instance disconnected_to_connecting_msg : StateTransitionWithParam DisconnectedState bytes ConnectingState :=
  connecting_from_disconnected_msg.
#[export] Instance disconnected_to_epoch_mismatch :
    StateTransitionWithParam DisconnectedState LinkEntry EpochMismatchState := epoch_mismatch_from_disconnected.
#[export] Instance connecting_to_epoch_mismatch :
    StateTransitionWithParam ConnectingState LinkEntry EpochMismatchState := epoch_mismatch_from_connecting.
#[export] Instance epoch_mismatch_to_connected : StateTransitionWithParam EpochMismatchState Epoch ConnectedState :=
  connected_from_epoch_mismatch.
#[export] Instance reconnecting_to_connected : StateTransitionWithParam ReconnectingState LinkEntry ConnectedState :=
  connected_from_reconnecting.
#[export] Instance grace_period_to_connected : StateTransitionWithParam GracePeriodState LinkEntry ConnectedState :=
  connected_from_grace_period.

(** ** Agreement *)

(** Dispatch through the trait object is dispatch by cases. *)
Lemma trait_handle_eq s ev : trait_handle s ev = handle s ev.
Proof. by destruct s, ev as [[]| | |]. Qed.

(** The transition of a connected core without links, as [determine_state] writes
    it. *)
Lemma determine_state_traits s :
  determine_state s =
    (if lm_is_empty (cn_links s) then
       c ← get_common;
       if negb (skipped (reconnecting_timeout c)) then to_state ReconnectingState s
       else if negb (skipped (grace_period_timeout c)) then to_state GracePeriodState s
       else to_state DisconnectedState s
     else mret (Connected s)).
Proof. reflexivity. Qed.
End with_outside.
End StateTraits.
