(* ===== verification/Notify.v ===== *)
(** * The stream of notifications

    What the core tells the controller, as an abstract specification: a monitor
    that accepts the sequences of notifications an application may see.  Every
    run of the core is accepted, and the monitor's state agrees with the core's. *)

From S2P Require Import Prelude Bytes Errors Epochs Proto BTree Slices Messages.
From S2P Require Import Clock Address Outside Connectors Common Links Hoare States Handlers.

Module Notify.
Import Epoch Protocol Control Common Links Hoare States Handlers.

(** ** The specification *)

(** [told] is the last epoch announced (0 before the first), [status] the epoch
    of the connection the application believes in, [attempting] the last
    connection-attempt flag. *)
Record Monitor : Type := mk_monitor {
  told : Z;
  status : option Epoch;
  attempting : bool;
}.

Definition monitor_new : Monitor := mk_monitor 0 None false.

(** A new connection has a larger epoch than the one before (until epochs
    saturate), disconnections follow connections, attempt flags alternate, and
    messages belong to the current connection. *)
Definition observe (m : Monitor) (n : LinkSetMessageInner) : option Monitor :=
  match n with
  | Control.Connected e =>
      if (told m <? to_int e) || (told m =? U64_MAX)
      then Some (mk_monitor (to_int e) (Some e) (attempting m)) else None
  | Control.Disconnected =>
      match status m with
      | Some _ => Some (mk_monitor (told m) None (attempting m))
      | None => None
      end
  | AttemptingConnection b =>
      if Bool.eqb b (attempting m) then None else Some (mk_monitor (told m) (status m) b)
  | Received _ e => if bool_decide (status m = Some e) then Some m else None
  end.

Fixpoint watch (m : Monitor) (log : list LinkSetMessageInner) : option Monitor :=
  match log with
  | [] => Some m
  | n :: log => m ← observe m n; watch m log
  end.

Lemma watch_app m l1 l2 : watch m (l1 ++ l2) = (m ← watch m l1; watch m l2).
Proof.
  revert m. induction l1 as [|n l1 IH]; intros m; simpl; [done|].
  destruct (observe m n); simpl; [apply IH|done].
Qed.

Section with_outside.
Context {P : BuildProfile} {O : Outside}.

(** ** How the monitor and the core agree *)

Definition is_connected (s : States) : bool :=
  match s with Connected _ => true | _ => false end.

Definition is_attempting (s : States) : bool :=
  match s with Connecting _ | Reconnecting _ => true | _ => false end.

(** The epoch of the connection a state belongs to, if any. *)
Definition session (s : States) : option Epoch :=
  match s with
  | Connected s => Some (cn_epoch s)
  | Reconnecting s => Some (rc_epoch s)
  | GracePeriod s => Some (gp_epoch s)
  | _ => None
  end.

(** The epoch a state holds, as a number. *)
Definition state_epoch (s : States) : Z :=
  match s with
  | Disconnected s => opt_epoch_to_int (dc_epoch s)
  | Connecting s => opt_epoch_to_int (cg_epoch s)
  | EpochMismatch s => opt_epoch_to_int (em_epoch s)
  | Connected s => to_int (cn_epoch s)
  | Reconnecting s => to_int (rc_epoch s)
  | GracePeriod s => to_int (gp_epoch s)
  end.

(** An epoch that may be announced next. *)
Definition fresh (told n : Z) : Prop := told = 0 \/ told < n \/ told = U64_MAX /\ n = U64_MAX.

Record agrees_with (m : Monitor) (s : States) (active : bool) : Prop := {
  ag_active : active = is_connected s;
  ag_attempting : attempting m = is_attempting s;
  ag_session : forall e, session s = Some e -> status m = Some e /\ told m = to_int e;
  ag_fresh : session s = None -> fresh (told m) (state_epoch s);
}.

Definition agrees (s : States) (w : World) : Prop :=
  exists m, watch monitor_new (to_ctrl w) = Some m /\ agrees_with m s (is_active (common w)).

Lemma states_new_agrees : agrees states_new world_new.
Proof. exists monitor_new. split; [done|]. constructor; try done. by left. Qed.

(** ** Arithmetic of epochs *)

Lemma to_int_range e : 1 <= to_int e <= U64_MAX.
Proof. apply epoch_range. Qed.

Lemma fresh_increment e : fresh (to_int e) (to_int (increment e)).
Proof. rewrite increment_value. pose proof (to_int_range e). unfold fresh. lia. Qed.

Lemma fresh_opt_increment t e :
  fresh t (opt_epoch_to_int e) -> fresh t (opt_epoch_to_int (opt_epoch_increment e)).
Proof.
  destruct e as [e|]; [|done]. change (fresh t (to_int e) -> fresh t (to_int (increment e))).
  rewrite increment_value. pose proof (to_int_range e). unfold fresh. lia.
Qed.

(** Announcing a fresh epoch is allowed. *)
Lemma fresh_announce t e : fresh t (to_int e) -> (t <? to_int e) || (t =? U64_MAX) = true.
Proof. pose proof (to_int_range e). unfold fresh. rewrite orb_true_iff, Z.ltb_lt, Z.eqb_eq. lia. Qed.

(** An adopted epoch is fresh when the one it replaces was. *)
Lemma fresh_adopt t e1 e2 :
  fresh t (opt_epoch_to_int e1) -> compare_epochs e1 e2 = Lt -> fresh t (to_int (default ONE e2)).
Proof.
  destruct e1 as [e1|], e2 as [e2|]; simpl; try done; unfold fresh; intros Hf;
    rewrite ?Z.compare_lt_iff; pose proof (to_int_range ONE); try lia.
  pose proof (to_int_range e2). lia.
Qed.

Lemma opt_epoch_adopt e1 e2 :
  compare_epochs e1 e2 = Lt -> opt_epoch_to_int e1 <= to_int (default ONE e2).
Proof.
  destruct e1 as [e1|], e2 as [e2|]; simpl; try done; rewrite ?Z.compare_lt_iff; try lia.
  pose proof (to_int_range e2). lia.
Qed.

(** ** Steps of the agreement *)

Lemma agrees_same s w w' : agrees s w -> same w w' -> agrees s w'.
Proof. intros (m & Hm & Ha) [Hc Hl _]. exists m. by rewrite Hc, Hl. Qed.

(** States with the same shape are indistinguishable to the monitor. *)
Lemma agrees_shape s s' w w' :
  agrees s w -> to_ctrl w' = to_ctrl w -> is_active (common w') = is_active (common w) ->
  is_connected s' = is_connected s -> is_attempting s' = is_attempting s ->
  session s' = session s -> state_epoch s' = state_epoch s -> agrees s' w'.
Proof.
  intros (m & Hm & []) Ht Ha Hc Hat Hs He. exists m. split; [by rewrite Ht|].
  constructor; [congruence|congruence|by rewrite Hs|by rewrite Hs, He].
Qed.

(** ** Operations that notify nobody *)

Record unnoticed (w w' : World) : Prop := {
  un_ctrl : to_ctrl w' = to_ctrl w;
  un_active : is_active (common w') = is_active (common w);
}.

Definition silent {A} (m : M A) : Prop := forall w, post m w (fun _ w' => unnoticed w w').

Lemma silent_quiet {A} (m : M A) : quiet m -> silent m.
Proof. intros H w. eapply post_mono; [apply H|]. intros _ w' [Hc Hl _]. constructor; congruence. Qed.

Lemma silent_bind {A B} (m : M A) (f : A -> M B) :
  silent m -> (forall a, silent (f a)) -> silent (m ≫= f).
Proof.
  intros Hm Hf w. apply post_bind. eapply post_mono; [apply Hm|]. intros a w1 [? ?].
  eapply post_mono; [apply Hf|]. intros b w2 [? ?]. constructor; congruence.
Qed.

Lemma silent_get_common : silent get_common.
Proof. by intros w a w' [= <- <-]. Qed.

Lemma silent_reply r : silent (reply r).
Proof. by intros w a w' [= <- <-]. Qed.

Lemma silent_modify_timer f : silent (modify_timer f).
Proof. by intros w a w' [= <- <-]. Qed.

Ltac solve_silent := intros w; post_steps; constructor; use_same; done.

Lemma silent_timer_modify_repeat i : silent (timer_modify_repeat i).
Proof. unfold timer_modify_repeat. solve_silent. Qed.

Lemma silent_timer_modify_deadline d : silent (timer_modify_deadline_from_now d).
Proof. unfold timer_modify_deadline_from_now. solve_silent. Qed.

Lemma silent_wrap_link l : silent (wrap_link l).
Proof. unfold wrap_link. solve_silent. Qed.

Lemma silent_poll_timer : silent poll_timer.
Proof. unfold poll_timer. solve_silent. Qed.

Lemma silent_set_deadline_or_clear t : silent (set_deadline_or_clear t).
Proof.
  destruct t; [apply silent_timer_modify_deadline|apply silent_modify_timer].
Qed.

Lemma silent_determine_timer : silent determine_timer.
Proof.
  apply silent_bind; [apply silent_get_common|]. intros c. destruct (connecting_timeout c).
  - apply silent_bind; [apply silent_modify_timer|]. intros. apply silent_timer_modify_deadline.
  - apply silent_modify_timer.
Qed.

Lemma post_silent {A} (m : M A) w (Q : A -> World -> Prop) :
  silent m -> (forall a w', unnoticed w w' -> Q a w') -> post m w Q.
Proof. intros Hm HQ. eapply post_mono; [apply Hm|done]. Qed.

Create HintDb silent.
Hint Resolve silent_modify_timer silent_timer_modify_repeat silent_timer_modify_deadline
  silent_wrap_link silent_poll_timer silent_set_deadline_or_clear silent_determine_timer : silent.

(** [post_steps], keeping of the silent operations only that nothing was
    noticed. *)
Ltac notify_steps :=
  repeat (first [post_step | apply post_silent; [solve [auto with silent] | intros]]; cbv beta zeta).

Ltac use_unnoticed :=
  repeat match goal with
  | H : same _ _ |- _ => destruct H as [?Hcommon ?Hctrl _]
  | H : unnoticed _ _ |- _ => destruct H as [?Hctrl ?Hactive]
  end;
  repeat match goal with
  | H : common _ = _ |- context [common _] => rewrite H; simpl
  | H : is_active (common _) = _ |- _ => rewrite H; simpl
  | H : to_ctrl _ = _ |- _ => rewrite H; simpl
  end.

(** Solves [agrees s' w'] after a handler: the notifications added to the log
    are observed, the fields compared. *)
Ltac agree :=
  lazymatch goal with
  | H : agrees _ _ |- agrees _ _ =>
      destruct H as ([t st at_] & Hwatch & [Hact Hatt Hsess Hfresh]); simpl in *;
      try (destruct (Hsess _ eq_refl) as [-> ->]); clear Hsess;
      try specialize (Hfresh eq_refl);
      eexists; split;
      [ simpl; use_unnoticed; simpl; rewrite ?watch_app, Hwatch; simpl; rewrite ?Hatt; simpl;
        rewrite ?fresh_announce by eauto using fresh_adopt; simpl; reflexivity
      | constructor; simpl; use_unnoticed; simpl;
        first [done | by intros ? [= <-] | eauto using fresh_increment, fresh_opt_increment] ]
  end.

(** ** Transitions *)

Abbreviation keeps s m ctor := (forall w, agrees s w -> post m w (fun s' w' => agrees (ctor s') w')).

Lemma disconnected_from_connecting_agrees s :
  keeps (Connecting s) (disconnected_from_connecting s) Disconnected.
Proof. intros w H. unfold disconnected_from_connecting, timer_clear. notify_steps. agree. Qed.

Lemma disconnected_from_epoch_mismatch_agrees s :
  keeps (EpochMismatch s) (disconnected_from_epoch_mismatch s) Disconnected.
Proof. intros w H. unfold disconnected_from_epoch_mismatch, timer_clear. notify_steps. agree. Qed.

Lemma disconnected_from_connected_agrees s :
  keeps (Connected s) (disconnected_from_connected s) Disconnected.
Proof.
  intros w H. unfold disconnected_from_connected, timer_clear, store_active. notify_steps. agree.
Qed.

Lemma disconnected_from_reconnecting_agrees s :
  keeps (Reconnecting s) (disconnected_from_reconnecting s) Disconnected.
Proof. intros w H. unfold disconnected_from_reconnecting, timer_clear. notify_steps. agree. Qed.

Lemma disconnected_from_grace_period_agrees s :
  keeps (GracePeriod s) (disconnected_from_grace_period s) Disconnected.
Proof. intros w H. unfold disconnected_from_grace_period, timer_clear. notify_steps. agree. Qed.

Lemma connecting_from_disconnected_agrees s :
  keeps (Disconnected s) (connecting_from_disconnected s) Connecting.
Proof. intros w H. unfold connecting_from_disconnected. notify_steps. agree. Qed.

Lemma connecting_from_disconnected_msg_agrees s msg :
  keeps (Disconnected s) (connecting_from_disconnected_msg s msg) Connecting.
Proof. intros w H. unfold connecting_from_disconnected_msg. notify_steps. agree. Qed.

Lemma connecting_from_epoch_mismatch_agrees s :
  keeps (EpochMismatch s) (connecting_from_epoch_mismatch s) Connecting.
Proof. intros w H. unfold connecting_from_epoch_mismatch. notify_steps. agree. Qed.

Lemma connecting_from_reconnecting_agrees s :
  keeps (Reconnecting s) (connecting_from_reconnecting s) Connecting.
Proof. intros w H. unfold connecting_from_reconnecting. notify_steps. agree. Qed.

Lemma connecting_from_grace_period_agrees s :
  keeps (GracePeriod s) (connecting_from_grace_period s) Connecting.
Proof. intros w H. unfold connecting_from_grace_period. notify_steps. agree. Qed.

Lemma epoch_mismatch_from_disconnected_agrees s l :
  keeps (Disconnected s) (epoch_mismatch_from_disconnected s l) EpochMismatch.
Proof. intros w H. unfold epoch_mismatch_from_disconnected. notify_steps. agree. Qed.

Lemma epoch_mismatch_from_connecting_agrees s l :
  keeps (Connecting s) (epoch_mismatch_from_connecting s l) EpochMismatch.
Proof. intros w H. unfold epoch_mismatch_from_connecting. notify_steps. agree. Qed.

Lemma epoch_mismatch_from_connected_agrees s :
  keeps (Connected s) (epoch_mismatch_from_connected s) EpochMismatch.
Proof. intros w H. unfold epoch_mismatch_from_connected, store_active. notify_steps. agree. Qed.

Lemma reconnecting_from_connected_agrees s :
  keeps (Connected s) (reconnecting_from_connected s) Reconnecting.
Proof. intros w H. unfold reconnecting_from_connected, store_active. notify_steps. agree. Qed.

Lemma grace_period_from_connected_agrees s :
  keeps (Connected s) (grace_period_from_connected s) GracePeriod.
Proof. intros w H. unfold grace_period_from_connected, store_active. notify_steps. agree. Qed.

Lemma connected_from_epoch_mismatch_agrees s0 s e w :
  agrees (EpochMismatch s0) w ->
  (forall t, fresh t (opt_epoch_to_int (em_epoch s0)) -> fresh t (to_int e)) ->
  post (connected_from_epoch_mismatch s e) w (fun s' w' => agrees (Connected s') w').
Proof.
  intros H Hf. unfold connected_from_epoch_mismatch, connected_timer, timer_clear, store_active.
  notify_steps. agree.
Qed.

Lemma connected_from_reconnecting_agrees s l :
  keeps (Reconnecting s) (connected_from_reconnecting s l) Connected.
Proof.
  intros w H. unfold connected_from_reconnecting, connected_timer, timer_clear, store_active.
  notify_steps. agree.
Qed.

Lemma connected_from_grace_period_agrees s l :
  keeps (GracePeriod s) (connected_from_grace_period s l) Connected.
Proof.
  intros w H. unfold connected_from_grace_period, connected_timer, timer_clear, store_active.
  notify_steps. agree.
Qed.

(** ** Handlers *)

Lemma agrees_unnoticed s w w' : agrees s w -> unnoticed w w' -> agrees s w'.
Proof. intros (m & Hm & Ha) [Hl Hc]. exists m. by rewrite Hc, Hl. Qed.

Lemma emit_messages_agrees s e msgs w :
  agrees s w -> session s = Some e -> post (emit_messages msgs e) w (fun _ w' => agrees s w').
Proof.
  intros H He. revert w H. induction msgs as [|msg msgs IH]; intros w H; simpl; post_steps; [done|].
  apply IH. destruct H as (m & Hm & Ha). exists m. split; [|done]. simpl.
  rewrite watch_app, Hm. simpl. destruct (ag_session _ _ _ Ha _ He) as [-> _].
  by rewrite bool_decide_eq_true_2.
Qed.

(** Changing fields the monitor does not see. *)
Ltac shape_from H := by (eapply agrees_shape; [exact H|simpl; use_unnoticed; try done..]).
Ltac shape := match goal with H : agrees _ _ |- _ => shape_from H end.

Lemma determine_state_agrees s w :
  agrees (Connected s) w -> post (determine_state s) w agrees.
Proof.
  intros H. unfold determine_state. notify_steps; [..|done]; eapply post_mono;
    [by apply reconnecting_from_connected_agrees|done|by apply grace_period_from_connected_agrees
    |done|by apply disconnected_from_connected_agrees|done].
Qed.

Lemma disconnected_ctrl_msg_agrees s msg w :
  agrees (Disconnected s) w -> post (disconnected_ctrl_msg s msg) w agrees.
Proof.
  intros H. destruct msg; simpl.
  - apply post_fmap. by apply connecting_from_disconnected_agrees.
  - by apply post_ret.
  - apply post_ret. shape.
  - apply post_ret. shape.
  - notify_steps; [|by eapply agrees_unnoticed].
    apply epoch_mismatch_from_disconnected_agrees. by eapply agrees_unnoticed.
  - notify_steps; [|done]. by apply connecting_from_disconnected_msg_agrees.
Qed.

Lemma connecting_ctrl_msg_agrees s msg w :
  agrees (Connecting s) w -> post (connecting_ctrl_msg s msg) w agrees.
Proof.
  intros H. destruct msg; simpl.
  - by apply post_ret.
  - apply post_fmap. by apply disconnected_from_connecting_agrees.
  - notify_steps. shape.
  - apply post_ret. shape.
  - notify_steps; [|by eapply agrees_unnoticed].
    apply epoch_mismatch_from_connecting_agrees. by eapply agrees_unnoticed.
  - apply post_ret. case_bool_decide; [shape|done].
Qed.

Lemma epoch_mismatch_ctrl_msg_agrees s msg w :
  agrees (EpochMismatch s) w -> post (epoch_mismatch_ctrl_msg s msg) w agrees.
Proof.
  intros H. destruct msg; simpl.
  - by apply post_ret.
  - apply post_fmap. by apply disconnected_from_epoch_mismatch_agrees.
  - apply post_ret. shape.
  - apply post_ret. shape.
  - notify_steps; [shape|by eapply agrees_unnoticed].
  - apply post_ret. case_bool_decide; [shape|done].
Qed.

Lemma connected_ctrl_msg_agrees s msg w :
  agrees (Connected s) w -> post (connected_ctrl_msg s msg) w agrees.
Proof.
  intros H. destruct msg; simpl.
  - by apply post_ret.
  - apply post_fmap. by apply disconnected_from_connected_agrees.
  - apply post_ret. shape.
  - apply post_ret. shape.
  - notify_steps; [shape|by eapply agrees_unnoticed].
  - notify_steps; [done|..]; apply determine_state_agrees; shape.
Qed.

Lemma reconnecting_ctrl_msg_agrees s msg w :
  agrees (Reconnecting s) w -> post (reconnecting_ctrl_msg s msg) w agrees.
Proof.
  intros H. destruct msg; simpl.
  - by apply post_ret.
  - apply post_fmap. by apply disconnected_from_reconnecting_agrees.
  - notify_steps. shape.
  - apply post_ret. shape.
  - notify_steps; [|by eapply agrees_unnoticed].
    apply connected_from_reconnecting_agrees. by eapply agrees_unnoticed.
  - notify_steps; [done|shape].
Qed.

Lemma grace_period_ctrl_msg_agrees s msg w :
  agrees (GracePeriod s) w -> post (grace_period_ctrl_msg s msg) w agrees.
Proof.
  intros H. destruct msg; simpl.
  - by apply post_ret.
  - apply post_fmap. by apply disconnected_from_grace_period_agrees.
  - apply post_ret. shape.
  - apply post_ret. shape.
  - notify_steps; [|by eapply agrees_unnoticed].
    apply connected_from_grace_period_agrees. by eapply agrees_unnoticed.
  - notify_steps; [done|shape].
Qed.

Lemma epoch_mismatch_link_msg_agrees s id msg w :
  agrees (EpochMismatch s) w -> post (epoch_mismatch_link_msg s id msg) w agrees.
Proof.
  intros H. destruct msg as [epoch request| | | |]; simpl; try (notify_steps; shape).
  destruct (compare_epochs (em_epoch s) epoch) eqn:Hcmp.
  - apply compare_epochs_Eq in Hcmp as (e & He & ->). rewrite He.
    apply post_bind. eapply (post_mono _ _ (fun s' w' => agrees (EpochMismatch s) w' /\ em_epoch s' = Some e)).
    { destruct request; notify_steps; (split; [|exact He]); [by eapply agrees_same|done]. }
    intros s' w' [H' He']. rewrite He'. notify_steps.
    match goal with H : unwrap _ = _ |- _ => injection H as <- end.
    eapply connected_from_epoch_mismatch_agrees; [done|]. by rewrite He.
  - notify_steps. eapply connected_from_epoch_mismatch_agrees; [by eapply agrees_same|].
    intros t Ht. by eapply fresh_adopt.
  - notify_steps. shape.
Qed.

Lemma connected_link_msg_agrees s id msg w :
  agrees (Connected s) w -> post (connected_link_msg s id msg) w agrees.
Proof.
  intros H. destruct msg as [epoch request|epoch seq last_index|epoch seq seq_len first_index data| |];
    simpl; try (notify_steps; shape).
  - destruct request; [|by apply post_ret]. case_bool_decide.
    + notify_steps. apply determine_state_agrees. shape.
    + apply post_fmap. by apply epoch_mismatch_from_connected_agrees.
  - destruct (_ =? _); [|by apply post_ret]. notify_steps;
      (eapply post_mono; [apply (emit_messages_agrees (Connected s)); [shape|done]|]);
      intros ? w2 Hw2; apply determine_state_agrees; shape_from Hw2.
Qed.

Lemma reconnecting_link_msg_agrees s id msg w :
  agrees (Reconnecting s) w -> post (reconnecting_link_msg s id msg) w agrees.
Proof.
  intros H. destruct msg as [epoch request|epoch seq last_index|epoch seq seq_len first_index data| |];
    simpl; try (by apply post_ret).
  - destruct request; [|by apply post_ret]. case_bool_decide; [by apply post_ret|].
    apply post_fmap. by apply connecting_from_reconnecting_agrees.
  - notify_steps; [shape|done].
  - destruct (_ =? _); [|by apply post_ret]. notify_steps.
    eapply post_mono; [by apply (emit_messages_agrees (Reconnecting s))|].
    intros ? w2 Hw2. apply post_ret. shape_from Hw2.
Qed.

Lemma grace_period_link_msg_agrees s id msg w :
  agrees (GracePeriod s) w -> post (grace_period_link_msg s id msg) w agrees.
Proof.
  intros H. destruct msg as [epoch request|epoch seq last_index|epoch seq seq_len first_index data| |];
    simpl; try (by apply post_ret).
  - destruct request; [|by apply post_ret]. case_bool_decide; [by apply post_ret|].
    apply post_fmap. by apply disconnected_from_grace_period_agrees.
  - notify_steps; [shape|done].
  - destruct (_ =? _); [|by apply post_ret]. notify_steps.
    eapply post_mono; [by apply (emit_messages_agrees (GracePeriod s))|].
    intros ? w2 Hw2. apply post_ret. shape_from Hw2.
Qed.

Lemma handle_timer_agrees s w : agrees s w -> post (handle_timer s) w agrees.
Proof.
  intros H. destruct s as [s|s|s|s|s|s]; simpl.
  - unfold disconnected_timer, timer_clear. notify_steps. shape.
  - unfold connecting_timer, timer_clear. notify_steps. apply disconnected_from_connecting_agrees.
    by eapply agrees_unnoticed.
  - unfold epoch_mismatch_timer. notify_steps; [..|shape].
    + apply connecting_from_epoch_mismatch_agrees. shape.
    + apply disconnected_from_epoch_mismatch_agrees. shape.
  - unfold connected_timer_handler. notify_steps; apply determine_state_agrees; shape.
  - unfold reconnecting_timer. notify_steps;
      [by apply connecting_from_reconnecting_agrees|by apply disconnected_from_reconnecting_agrees].
  - unfold grace_period_timer. notify_steps;
      [by apply connecting_from_grace_period_agrees|by apply disconnected_from_grace_period_agrees].
Qed.

Lemma handle_debug_agrees s cmd w : agrees s w -> post (handle_debug s cmd) w agrees.
Proof.
  intros H. destruct s as [s|s|s|s|s|s], cmd; simpl;
    unfold disconnected_debug, connecting_debug, reconnecting_debug, grace_period_debug, debug_unlinked;
    notify_steps; shape.
Qed.

Lemma handle_agrees s ev w : agrees s w -> post (handle s ev) w agrees.
Proof.
  intros H. destruct ev as [[cmd|conf]|id msg| |cmd]; simpl.
  - destruct s; simpl.
    + by apply disconnected_ctrl_msg_agrees.
    + by apply connecting_ctrl_msg_agrees.
    + by apply epoch_mismatch_ctrl_msg_agrees.
    + by apply connected_ctrl_msg_agrees.
    + by apply reconnecting_ctrl_msg_agrees.
    + by apply grace_period_ctrl_msg_agrees.
  - unfold handle_config. notify_steps. destruct conf; shape.
  - destruct s; simpl.
    + unfold disconnected_link_msg. notify_steps. shape.
    + by apply post_ret.
    + by apply epoch_mismatch_link_msg_agrees.
    + by apply connected_link_msg_agrees.
    + by apply reconnecting_link_msg_agrees.
    + by apply grace_period_link_msg_agrees.
  - notify_steps. apply handle_timer_agrees. by eapply agrees_unnoticed.
  - by apply handle_debug_agrees.
Qed.

Lemma run_agrees evs s w : run evs s w -> agrees s w.
Proof.
  induction 1 as [|evs s w ev s' w' _ IH _ Heq|evs s w s' _ IH Hs|evs s w id _ IH].
  - apply states_new_agrees.
  - by eapply handle_agrees.
  - destruct Hs; shape.
  - shape.
Qed.

(** ** Epochs only grow *)

Lemma increment_le e : to_int e <= to_int (increment e).
Proof. rewrite increment_value. pose proof (to_int_range e). lia. Qed.

Lemma opt_increment_le e : opt_epoch_to_int e <= opt_epoch_to_int (opt_epoch_increment e).
Proof. destruct e as [e|]; [apply increment_le|done]. Qed.

Lemma unwrap_epoch_le oe e s : unwrap oe = Ret e -> cn_epoch s = e -> opt_epoch_to_int oe <= to_int (cn_epoch s).
Proof. destruct oe; [|done]. by intros [= ->] ->. Qed.

(** Runs a handler, forgetting about the world. *)
Ltac epoch_steps :=
  repeat (first [post_step | apply post_any; intros]; cbv beta zeta);
  repeat case_bool_decide;
  cbn [state_epoch dc_epoch cg_epoch em_epoch cn_epoch rc_epoch gp_epoch opt_epoch_to_int
       set_em_links set_cn_links set_cn_msg_mgr set_em_epoch set_cg_connector set_rc_connector
       set_rc_msg_mgr set_gp_msg_mgr];
  try first [reflexivity | apply increment_le | apply opt_increment_le].

Abbreviation grows n m := (forall w, post m w (fun s' _ => n <= state_epoch s')).

Lemma determine_state_grows s : grows (to_int (cn_epoch s)) (determine_state s).
Proof.
  intros w. unfold determine_state, reconnecting_from_connected, grace_period_from_connected,
    disconnected_from_connected. epoch_steps.
Qed.

Lemma connected_from_epoch_mismatch_grows s e w (Q : ConnectedState -> World -> Prop) :
  (forall s' w', cn_epoch s' = e -> Q s' w') -> post (connected_from_epoch_mismatch s e) w Q.
Proof. intros H. unfold connected_from_epoch_mismatch. epoch_steps. by apply H. Qed.

Ltac handler_steps :=
  repeat (first
    [ match goal with
      | |- post (determine_state _) _ _ => apply determine_state_grows
      | |- post (emit_messages _ _) _ _ => apply post_any; intros
      | |- post (connected_from_epoch_mismatch _ _) _ _ =>
          apply connected_from_epoch_mismatch_grows; intros
      end
    | post_step ]; cbv beta zeta); epoch_steps.

Lemma ctrl_msg_grows s msg : grows (state_epoch s) (ctrl_msg s msg).
Proof.
  intros w. destruct s as [s|s|s|s|s|s], msg; simpl ctrl_msg;
    unfold connecting_from_disconnected, connecting_from_disconnected_msg,
      epoch_mismatch_from_disconnected, epoch_mismatch_from_connecting,
      disconnected_from_connecting, disconnected_from_epoch_mismatch, disconnected_from_connected,
      disconnected_from_reconnecting, disconnected_from_grace_period, connected_from_reconnecting,
      connected_from_grace_period; handler_steps.
Qed.

Lemma handle_link_msg_grows s id msg : grows (state_epoch s) (handle_link_msg s id msg).
Proof.
  intros w. destruct s as [s|s|s|s|s|s], msg; simpl handle_link_msg;
    unfold disconnected_link_msg, connecting_link_msg, epoch_mismatch_from_connected,
      connecting_from_reconnecting, disconnected_from_grace_period; handler_steps.
  - by eapply unwrap_epoch_le.
  - by eapply unwrap_epoch_le.
  - match goal with H : cn_epoch _ = _ |- _ => rewrite H end. by apply opt_epoch_adopt.
Qed.

Lemma handle_grows s ev : grows (state_epoch s) (handle s ev).
Proof.
  intros w. destruct ev as [[cmd|conf]|id msg| |cmd]; simpl.
  - apply ctrl_msg_grows.
  - epoch_steps.
  - apply handle_link_msg_grows.
  - apply post_bind, post_any. intros _ w'. destruct s as [s|s|s|s|s|s]; simpl handle_timer;
      unfold disconnected_timer, connecting_timer, epoch_mismatch_timer, connected_timer_handler,
        reconnecting_timer, grace_period_timer, disconnected_from_connecting,
        connecting_from_epoch_mismatch, disconnected_from_epoch_mismatch,
        connecting_from_reconnecting, disconnected_from_reconnecting,
        connecting_from_grace_period, disconnected_from_grace_period; handler_steps.
  - destruct s as [s|s|s|s|s|s], cmd; simpl handle_debug; unfold disconnected_debug,
      connecting_debug, epoch_mismatch_debug, connected_debug, reconnecting_debug,
      grace_period_debug, debug_unlinked; handler_steps.
Qed.

(** ** Properties *)


(** C26. The shared [is_active] flag is set exactly while the core is in the
    [Connected] state. *)
Theorem active_iff_connected evs s w : run evs s w -> is_active (common w) = is_connected s.
Proof. intros H. by destruct (run_agrees _ _ _ H) as (m & _ & []). Qed.

(** C25. No event makes the epoch of the core smaller. *)
Theorem epoch_monotonic s ev w s' w' : handle s ev w = Ret (s', w') -> state_epoch s <= state_epoch s'.
Proof. apply handle_grows. Qed.
End with_outside.
End Notify.
