(* ===== verification/LinkSafety.v ===== *)
(** * Links under control

    The invariant of the link manager and the total correctness of its
    operations: they return whatever the links answer, never hand a link more
    than it can carry, and keep the ids of the links distinct. *)

From S2P Require Import Prelude Bytes Errors Epochs Proto BTree Slices SliceTheory Segments.
From S2P Require Import Messages Clock Address Outside Connectors Common Links Hoare.

Module LinkSafety.
Import Epoch Protocol Control Common Links Hoare SliceSets Segments.

(** [m] started in [w] returns, with a result that satisfies [Q]. *)
Definition spec {A} (m : M A) (w : World) (Q : A -> World -> Prop) : Prop :=
  exists a w', m w = Ret (a, w') /\ Q a w'.

Lemma spec_ret {A} (a : A) w (Q : A -> World -> Prop) : Q a w -> spec (mret a) w Q.
Proof. intros H. by exists a, w. Qed.

Lemma spec_bind {A B} (m : M A) (f : A -> M B) w Q :
  spec m w (fun a w' => spec (f a) w' Q) -> spec (m ≫= f) w Q.
Proof.
  intros (a & w1 & E1 & b & w2 & E2 & HQ). exists b, w2. split; [|done].
  unfold mbind, M_bind. by rewrite E1.
Qed.

Lemma spec_fmap {A B} (m : M A) (f : A -> B) w (Q : B -> World -> Prop) :
  spec m w (fun a w' => Q (f a) w') -> spec (f <$> m) w Q.
Proof. intros (a & w' & E & HQ). exists (f a), w'. split; [|done]. cbv [fmap M_fmap mbind M_bind]. by rewrite E. Qed.

Lemma spec_mono {A} (m : M A) w (Q R : A -> World -> Prop) :
  spec m w Q -> (forall a w', Q a w' -> R a w') -> spec m w R.
Proof. intros (a & w' & E & HQ) HR. exists a, w'. split; [done|by apply HR]. Qed.

Lemma spec_lift {A} (o : outcome A) a w (Q : A -> World -> Prop) : o = Ret a -> Q a w -> spec (lift o) w Q.
Proof. intros -> H. by exists a, w. Qed.

Lemma spec_get_common w (Q : CommonState -> World -> Prop) : Q (common w) w -> spec get_common w Q.
Proof. intros H. by exists (common w), w. Qed.

Lemma spec_put_common c w (Q : unit -> World -> Prop) : Q tt (set_common w c) -> spec (put_common c) w Q.
Proof. intros H. by exists tt, (set_common w c). Qed.

Lemma spec_emit m w (Q : unit -> World -> Prop) :
  Q tt (set_to_ctrl w (to_ctrl w ++ [m])) -> spec (emit m) w Q.
Proof. intros H. eexists _, _. split; [done|done]. Qed.

Lemma spec_reply r w (Q : unit -> World -> Prop) :
  Q tt (set_replies w (replies w ++ [r])) -> spec (reply r) w Q.
Proof. intros H. eexists _, _. split; [done|done]. Qed.

(** ** The size of packets *)

Lemma serialize_size p : len (serialize p) <= 41 + slice_size p.
Proof.
  destruct p; cbn [serialize slice_size]; autorewrite with lens;
    unfold u64_to_be_bytes; rewrite ?len_to_be_bytes; cbn [len length]; unfold len; simpl; lia.
Qed.

Definition fits (p : Sent) : Prop := len (serialize (sent_packet p)) <= sent_limit p.

Definition typed (p : Sent) : Prop := packet_ok (sent_packet p).

Definition wire_ok (w : World) : Prop := Forall (fun p => fits p /\ typed p) (wire w).

(** Only the links were used, and no packet was too large. *)
Definition links_step (w w' : World) : Prop := same w w' /\ (wire_ok w -> wire_ok w').

#[export] Instance links_step_refl : Reflexive links_step.
Proof. by split. Qed.
#[export] Instance links_step_trans : Transitive links_step.
Proof. intros a b c [? ?] [? ?]. split; [by transitivity b|auto]. Qed.

Section with_outside.
Context {P : BuildProfile} {O : Outside} {OL : OutsideLaws}.

(** ** Link entries *)

Record entry_ok (e : LinkEntry) : Prop := {
  eo_size : OVERHEAD < link_max_size (le_link e);
  eo_recent : Forall (fun d => 0 <= d <= SPAN) (le_recent e);
  eo_length : (length (le_recent e) <= HISTORY_LEN)%nat;
  eo_ping : forall t, le_ping e = Some t -> 0 <= t;
}.

Record entry_step (e : LinkEntry) (w : World) (e' : LinkEntry) (w' : World) : Prop := {
  es_ok : entry_ok e';
  es_id : le_id e' = le_id e;
  es_size : link_max_size (le_link e') = link_max_size (le_link e);
  es_links : links_step w w';
}.

Lemma entry_new_ok l id : OVERHEAD < link_max_size l -> entry_ok (entry_new l id).
Proof.
  intros H. constructor; simpl; try done. repeat constructor; unfold SPAN, from_secs, DEFAULT_LATENCY, from_millis; lia.
Qed.

(** The average latency is computed without overflow. *)
Lemma latency_ok e : entry_ok e -> exists d, latency e = Ret d.
Proof.
  intros [_ Hr Hl _]. unfold latency. destruct (le_recent e) as [|d r]; [eauto|].
  rewrite (sum_durations_ok _ _ SPAN); [eauto|done|..];
    unfold HISTORY_LEN, len, SPAN, from_secs, DURATION_MAX in *; lia.
Qed.

Lemma tick_spec w : spec tick w (fun _ w' => links_step w w').
Proof. eexists _, _. split; [done|]. split; [by constructor|done]. Qed.

Lemma now_spec w : spec now w (fun t w' => 0 <= t <= SPAN /\ links_step w w').
Proof.
  apply spec_bind. eapply spec_mono; [apply tick_spec|]. intros n w' Hw.
  apply spec_ret. split; [apply clock_range|done].
Qed.

Lemma entry_end_ping_spec e w :
  entry_ok e -> spec (entry_end_ping e) w (fun e' w' => entry_step e w e' w').
Proof.
  intros He. unfold entry_end_ping. destruct (le_ping e) as [t|] eqn:Hp; [|by apply spec_ret].
  apply spec_bind. eapply spec_mono; [apply now_spec|]. intros t' w' [Ht Hw]. apply spec_ret.
  destruct He as [Hs Hr Hl Hping]. pose proof (Hping _ Hp). constructor; try done. constructor; simpl; try done.
  - constructor; [unfold elapsed, saturating_sub; lia|]. by apply Forall_take.
  - rewrite length_take. unfold HISTORY_LEN. lia.
Qed.

Lemma send_spec e p w :
  entry_ok e -> len (serialize p) <= link_max_size (le_link e) -> packet_ok p ->
  spec (send e p) w (fun r w' => entry_step e w r.2 w').
Proof.
  intros He Hp Hwf. unfold send. apply spec_bind. eapply spec_mono; [apply tick_spec|].
  intros n w1 Hw1. apply spec_bind. eexists _, _. split; [done|].
  pose proof (max_size_send n (le_link e) (serialize p)) as Hm.
  destruct (link_send n (le_link e) (serialize p)) as [res l]. simpl in Hm. apply spec_ret. simpl.
  destruct He as [Hs Hr Hl Hping]. constructor; try done; [constructor; simpl; try done; congruence|].
  transitivity w1; [done|]. split; [by constructor|]. intros Hok. apply Forall_app. split; [done|].
  by constructor.
Qed.

Lemma control_size e p : entry_ok e -> slice_size p = 0 -> len (serialize p) <= link_max_size (le_link e).
Proof. intros [Hs _ _ _] Hp. pose proof (serialize_size p). unfold OVERHEAD in Hs. lia. Qed.

Lemma send_ping_spec e w : entry_ok e -> spec (send_ping e) w (fun r w' => entry_step e w r.2 w').
Proof.
  intros He. unfold send_ping. apply spec_bind. eapply spec_mono; [by apply entry_end_ping_spec|].
  intros e1 w1 [He1 Hi1 Hs1 Hw1]. apply spec_bind. eapply spec_mono; [apply now_spec|].
  intros t w2 [Ht Hw2].
  assert (entry_ok (set_ping e1 (Some t))) as He2.
  { destruct He1. constructor; simpl; try done. intros ? [= <-]. lia. }
  eapply spec_mono; [apply send_spec; [done|by apply control_size|done]|].
  intros r w3 [He3 Hi3 Hs3 Hw3]. constructor; [done|simpl in *; congruence..|].
  by transitivity w1; [|transitivity w2].
Qed.

Lemma is_closed_spec e w :
  entry_ok e -> spec (is_closed e) w (fun r w' => entry_step e w r.2 w' /\ wire w' = wire w).
Proof.
  intros He. unfold is_closed. apply spec_bind. eexists _, _. split; [done|].
  pose proof (max_size_is_closed (ticks w) (le_link e)) as Hm.
  destruct (link_is_closed (ticks w) (le_link e)) as [b l]. simpl in Hm. apply spec_ret. simpl.
  split; [|done]. destruct He. constructor; [|done|done|by split; [constructor|]].
  constructor; simpl; try done; congruence.
Qed.

Lemma Forall_sublist {A} (Q : A -> Prop) l k : sublist l k -> Forall Q k -> Forall Q l.
Proof. induction 1; intros Hk; inversion Hk; subst; auto. Qed.

(** ** The link manager *)

Definition ids (lm : LinkManager) : list Z := le_id <$> lm.

Record lm_step (lm : LinkManager) (w : World) (lm' : LinkManager) (w' : World) : Prop := {
  ls_ok : Forall entry_ok lm';
  ls_ids : sublist (ids lm') (ids lm);
  ls_links : links_step w w';
}.

Lemma usable_spec lm w : Forall entry_ok lm -> spec (usable lm) w (fun lm' w' => lm_step lm w lm' w').
Proof.
  intros H. revert w. induction H as [|e lm He Hlm IH]; intros w; simpl.
  { apply spec_ret. by constructor. }
  assert (forall w1, links_step w w1 -> spec (usable lm) w1 (fun lm' w' => lm_step (e :: lm) w lm' w'))
    as Hdrop.
  { intros w1 Hw1. eapply spec_mono; [apply IH|]. intros lm' w' []. constructor; [done|by constructor|].
    by transitivity w1. }
  apply spec_bind. eapply spec_mono; [by apply is_closed_spec|]. intros [closed e'] w1 [[He' Hi _ Hw1] _].
  simpl in *. destruct closed; [by apply Hdrop|]. destruct (latency_ok _ He') as [d Hd].
  apply spec_bind. eapply spec_lift; [done|]. destruct (MAX_LATENCY <? d); [by apply Hdrop|].
  apply spec_ret. constructor; [by constructor| |done]. unfold ids. simpl. by rewrite Hi.
Qed.

(** What an operation on the first link does to the manager. *)
Lemma head_step lm e rest w w1 e' w2 :
  lm_step lm w (e :: rest) w1 -> entry_step e w1 e' w2 -> lm_step lm w (e' :: rest) w2.
Proof.
  intros [Hok Hids Hw] [He Hi _ Hw']. apply Forall_cons in Hok as [_ Hok].
  constructor; [by constructor| |by transitivity w1]. unfold ids in *. simpl in *. by rewrite Hi.
Qed.

Lemma send_proto_spec lm p w :
  Forall entry_ok lm -> slice_size p = 0 -> packet_ok p ->
  spec (send_proto lm p) w (fun r w' => lm_step lm w r.2 w').
Proof.
  intros Hlm Hp Hwf. unfold send_proto. apply spec_bind. eapply spec_mono; [by apply usable_spec|].
  intros [|e rest] w1 H1; [by apply spec_ret|]. apply spec_bind.
  pose proof (ls_ok _ _ _ _ H1) as [He _]%Forall_cons.
  eapply spec_mono; [apply send_spec; [done|by apply control_size|done]|]. intros [res e'] w2 H2.
  apply spec_ret. by eapply head_step.
Qed.

Lemma send_all_spec e ps w :
  entry_ok e -> Forall (fun p => len (serialize p) <= link_max_size (le_link e) /\ packet_ok p) ps ->
  spec (send_all e ps) w (fun r w' => entry_step e w r.2 w').
Proof.
  revert e w. induction ps as [|p ps IH]; intros e w He Hps; simpl.
  { apply spec_ret. by constructor. }
  apply Forall_cons in Hps as [[Hp Hwf] Hps]. apply spec_bind. eapply spec_mono; [by apply send_spec|].
  intros [[|x] e'] w1 [He' Hi Hs Hw]; simpl in *; [|by apply spec_ret].
  eapply spec_mono; [apply IH; [done|by rewrite Hs]|]. intros r w2 [He2 Hi2 Hs2 Hw2].
  constructor; [done|congruence..|by transitivity w1].
Qed.

(** A link that was accepted has room for at least one byte of data. *)
Lemma entry_max_size_range e : entry_ok e -> 1 <= entry_max_size e <= U32_MAX.
Proof.
  intros [Hs _ _ _]. unfold entry_max_size, saturating_sub, OVERHEAD in *.
  pose proof (max_size_u32 (le_link e)). lia.
Qed.

Lemma send_slices_spec lm m w :
  Forall entry_ok lm -> sendable m -> spec (send_slices lm m) w (fun r w' => lm_step lm w r.2 w').
Proof.
  intros Hlm Hm. unfold send_slices. apply spec_bind. eapply spec_mono; [by apply usable_spec|].
  intros [|e rest] w1 H1; [by apply spec_ret|]. pose proof (ls_ok _ _ _ _ H1) as [He _]%Forall_cons.
  destruct (get_slices_wf m (entry_max_size e) Hm (entry_max_size_range e He)) as (ps & Hps & Hsz).
  apply spec_bind. eapply spec_lift; [done|]. apply spec_bind.
  eapply spec_mono; [apply send_all_spec; [done|]|].
  { eapply Forall_impl; [done|]. simpl. intros p [Hp Hwf]. split; [|done]. pose proof (serialize_size p).
    destruct He as [Hs _ _ _]. unfold entry_max_size, saturating_sub, OVERHEAD in *. lia. }
  intros [res e'] w2 H2. apply spec_ret. by eapply head_step.
Qed.

(** Consing an entry that kept its id. *)
Lemma cons_step e e' lm lm' w w1 w2 :
  entry_step e w e' w1 -> lm_step lm w1 lm' w2 -> lm_step (e :: lm) w (e' :: lm') w2.
Proof.
  intros [He Hi _ Hw] [Hok Hids Hw']. constructor; [by constructor| |by transitivity w1].
  unfold ids in *. simpl. rewrite Hi. by constructor.
Qed.

Lemma ping_all_spec lm w : Forall entry_ok lm -> spec (ping_all lm) w (fun lm' w' => lm_step lm w lm' w').
Proof.
  intros H. revert w. induction H as [|e lm He Hlm IH]; intros w; simpl.
  { apply spec_ret. by constructor. }
  apply spec_bind. eapply spec_mono; [by apply send_ping_spec|]. intros [res e'] w1 H1.
  apply spec_bind. eapply spec_mono; [apply IH|]. intros lm' w2 H2. apply spec_ret. by eapply cons_step.
Qed.

Lemma lm_step_refl lm w : Forall entry_ok lm -> lm_step lm w lm w.
Proof. by constructor. Qed.

Lemma entry_step_refl e w : entry_ok e -> entry_step e w e w.
Proof. by constructor. Qed.

Lemma pong_spec lm id w : Forall entry_ok lm -> spec (pong lm id) w (fun lm' w' => lm_step lm w lm' w').
Proof.
  intros H. revert w. induction H as [|e lm He Hlm IH]; intros w; simpl.
  { apply spec_ret. by constructor. }
  destruct (le_id e =? id); apply spec_bind.
  - eapply spec_mono; [apply send_spec; [done|by apply control_size|done]|]. intros [res e'] w1 H1.
    apply spec_ret. eapply cons_step; [done|by apply lm_step_refl].
  - eapply spec_mono; [apply IH|]. intros lm' w2 H2. apply spec_ret.
    eapply cons_step; [by apply entry_step_refl|done].
Qed.

Lemma end_ping_spec lm id w :
  Forall entry_ok lm -> spec (end_ping lm id) w (fun lm' w' => lm_step lm w lm' w').
Proof.
  intros H. revert w. induction H as [|e lm He Hlm IH]; intros w; simpl.
  { apply spec_ret. by constructor. }
  destruct (le_id e =? id); apply spec_bind.
  - eapply spec_mono; [by apply entry_end_ping_spec|]. intros e' w1 H1.
    apply spec_ret. eapply cons_step; [done|by apply lm_step_refl].
  - eapply spec_mono; [apply IH|]. intros lm' w2 H2. apply spec_ret.
    eapply cons_step; [by apply entry_step_refl|done].
Qed.

Lemma upkeep_spec lm w : Forall entry_ok lm -> spec (upkeep lm) w (fun lm' w' => lm_step lm w lm' w').
Proof.
  intros H. revert w. induction H as [|e lm He Hlm IH]; intros w; simpl.
  { apply spec_ret. by constructor. }
  apply spec_bind. eapply spec_mono; [by apply is_closed_spec|]. intros [closed e'] w1 [H1 _]. simpl in *.
  apply spec_bind, (spec_mono _ _ (fun _ w' => w' = w1)).
  { destruct closed; [by apply spec_ret|]. destruct (latency_ok _ (es_ok _ _ _ _ H1)) as [d Hd].
    apply spec_bind. eapply spec_lift; [done|]. by apply spec_ret. }
  intros keep ? ->. apply spec_bind. eapply spec_mono; [apply IH|]. intros lm' w2 H2. apply spec_ret.
  pose proof (cons_step _ _ _ _ _ _ _ H1 H2) as H3. destruct keep; [done|].
  destruct H3 as [Hok Hids Hw]. constructor; [apply H2|by constructor; apply H2|done].
Qed.

Lemma filter_ids (Q : LinkEntry -> Prop) `{!forall e, Decision (Q e)} (l : list LinkEntry) :
  sublist (le_id <$> filter Q l) (le_id <$> l).
Proof.
  induction l as [|e l IH]; [constructor|]. rewrite filter_cons.
  case_decide; rewrite !fmap_cons; by constructor.
Qed.

Lemma evict_link_ok lm id :
  Forall entry_ok lm -> Forall entry_ok (evict_link lm id).2 /\ sublist (ids (evict_link lm id).2) (ids lm).
Proof.
  intros H. split; [|apply filter_ids].
  apply Forall_forall. intros e [_ He]%list_elem_of_filter. rewrite Forall_forall in H. by apply H.
Qed.
End with_outside.
End LinkSafety.
