(* ===== verification/Safety.v ===== *)
(** * The core does not panic

    The invariant of the whole core and its total correctness: fed with
    well-formed events and while its counters have room, every handler returns,
    keeps the invariant, and hands no link a packet that is too large. *)

From S2P Require Import Prelude Bytes Errors Epochs Proto BTree Slices SliceTheory Segments.
From S2P Require Import Messages MessageTheory Clock Address Outside Connectors Common Links.
From S2P Require Import Hoare States Handlers LinkSafety.

Module Safety.
Import Epoch Protocol Control Common Links States Handlers Hoare LinkSafety.
Import SliceSets Segments MessageInvariant.
Import ConnectorManager(cm_wf, conns_wf, addrs_wf, cma_wf).

Section with_outside.
Context {P : BuildProfile} {O : Outside} {OL : OutsideLaws}.

(** ** The invariant *)

Definition span_ok (t : option Duration) : Prop := forall d, t = Some d -> 0 <= d <= SPAN.

Record common_ok (c : CommonState) : Prop := {
  co_next : 0 <= next_link_id c;
  co_repeat : span_ok (Deadline.repeat_ (timer c));
  co_connecting : span_ok (connecting_timeout c);
  co_reconnecting : span_ok (reconnecting_timeout c);
  co_grace : span_ok (grace_period_timeout c);
}.

Definition world_ok (w : World) : Prop := common_ok (common w) /\ wire_ok w.

Abbreviation next_id w := (next_link_id (common w)).

Record links_ok (lm : LinkManager) (n : Z) : Prop := {
  lo_entries : Forall entry_ok lm;
  lo_nodup : NoDup (ids lm);
  lo_below : Forall (fun i => i < n) (ids lm);
}.

Definition links_of (s : States) : LinkManager :=
  match s with
  | EpochMismatch s => em_links s
  | Connected s => cn_links s
  | _ => []
  end.

Definition msgs_ok (msgs : list bytes) : Prop := Forall (fun msg : bytes => len msg <= ISIZE_MAX) msgs.

Definition session_ok (mm : MessageManager.MessageManager) (e : Epoch) : Prop :=
  mm_wf mm /\ MessageManager.mm_epoch mm = e.

Definition body_ok (s : States) : Prop :=
  match s with
  | Disconnected s => conns_wf (dc_conns s) /\ addrs_wf (dc_addrs s)
  | Connecting s => cm_wf (cg_connector s) /\ msgs_ok (cg_queued_msgs s)
  | EpochMismatch s => conns_wf (em_conns s) /\ addrs_wf (em_addrs s) /\ msgs_ok (em_queued_msgs s)
  | Connected s => conns_wf (cn_conns s) /\ addrs_wf (cn_addrs s) /\ session_ok (cn_msg_mgr s) (cn_epoch s)
  | Reconnecting s => cm_wf (rc_connector s) /\ session_ok (rc_msg_mgr s) (rc_epoch s)
  | GracePeriod s => conns_wf (gp_conns s) /\ addrs_wf (gp_addrs s) /\ session_ok (gp_msg_mgr s) (gp_epoch s)
  end.

Record safe (s : States) (w : World) : Prop := {
  sf_world : world_ok w;
  sf_links : links_ok (links_of s) (next_id w);
  sf_body : body_ok s;
}.

(** Events as the outside may produce them. *)
Definition event_ok (ev : Event) : Prop :=
  match ev with
  | EvCtrl (Command (Message msg _)) => len msg <= ISIZE_MAX
  | EvCtrl (Command (AddAddress a)) => cma_wf (ConnectorManager.cma_addr a) a
  | EvCtrl (Config (ConnectTimeout t)) => span_ok t
  | EvCtrl (Config (ReconnectTimeout t)) => span_ok t
  | EvCtrl (Config (GracePeriodTimeout t)) => span_ok t
  | EvLink _ (MsgSlice _ seq seq_len first_index data) => packet_bounds seq first_index seq_len data
  | EvLink _ (Ack _ _ last_index) => 0 <= last_index
  | _ => True
  end.

(** The 64-bit counters are not exhausted. *)
Definition seq_room (s : States) : Prop :=
  match s with
  | EpochMismatch s => len (em_queued_msgs s) < U64_MAX
  | Connected s => MessageManager.next_seq (cn_msg_mgr s) < U64_MAX
  | Reconnecting s => MessageManager.next_seq (rc_msg_mgr s) < U64_MAX
  | GracePeriod s => MessageManager.next_seq (gp_msg_mgr s) < U64_MAX
  | _ => True
  end.

Definition room (s : States) (w : World) : Prop := next_id w < U64_MAX /\ seq_room s.

(** ** Links and the world *)

Lemma links_step_world w w' : links_step w w' -> world_ok w -> world_ok w' /\ next_id w' = next_id w.
Proof. intros [[Hc _ _] Hw] [Hok Hwire]. unfold world_ok. rewrite Hc. auto. Qed.

Lemma links_ok_nil n : links_ok [] n.
Proof. constructor; constructor. Qed.

Lemma sublist_links_ok lm lm' n :
  links_ok lm n -> Forall entry_ok lm' -> sublist (ids lm') (ids lm) -> links_ok lm' n.
Proof.
  intros [_ Hn Hb] Hok Hs. constructor; [done|by eapply sublist_NoDup|].
  by eapply Forall_sublist.
Qed.

Lemma lm_step_ok lm w lm' w' n : lm_step lm w lm' w' -> links_ok lm n -> links_ok lm' n.
Proof. intros [Hok Hids _] Hl. by eapply sublist_links_ok. Qed.

(** Links operations keep the world in order. *)
Lemma spec_links {A} (m : M A) (pr : A -> LinkManager) lm n w (Q : A -> World -> Prop) :
  (Forall entry_ok lm -> spec m w (fun a w' => lm_step lm w (pr a) w')) ->
  world_ok w -> links_ok lm n ->
  (forall a w', world_ok w' -> next_id w' = next_id w -> links_ok (pr a) n -> Q a w') ->
  spec m w Q.
Proof.
  intros Hs Hw Hl HQ. eapply spec_mono; [apply Hs, Hl|]. intros a w' H.
  destruct (links_step_world _ _ (ls_links _ _ _ _ H) Hw) as [Hw' Hn].
  apply HQ; [done..|]. exact (lm_step_ok _ _ _ _ _ H Hl).
Qed.

(** ** Benign operations: they return and keep the world in order *)

Definition benign {A} (m : M A) : Prop :=
  forall w, world_ok w -> spec m w (fun _ w' => world_ok w' /\ next_id w' = next_id w).

Lemma benign_now : benign now.
Proof.
  intros w Hw. eapply spec_mono; [apply now_spec|]. intros t w' [_ H]. by apply links_step_world.
Qed.

Lemma benign_emit m : benign (emit m).
Proof. intros w [Hc Hw]. by apply spec_emit. Qed.

Lemma benign_reply r : benign (reply r).
Proof. intros w [Hc Hw]. by apply spec_reply. Qed.

Lemma benign_store_active b : benign (store_active b).
Proof.
  intros w [[] Hw]. apply spec_bind, spec_get_common, spec_put_common. split; [|done]. split; [|done].
  by constructor.
Qed.

Lemma benign_timer_clear : benign timer_clear.
Proof.
  intros w [[] Hw]. apply spec_bind, spec_get_common, spec_put_common. split; [|done]. split; [|done].
  by constructor.
Qed.

Lemma benign_timer_clear_repeat : benign timer_clear_repeat.
Proof.
  intros w [[] Hw]. apply spec_bind, spec_get_common, spec_put_common. split; [|done]. split; [|done].
  by constructor.
Qed.

Lemma span_add t d : 0 <= t <= SPAN -> 0 <= d <= SPAN -> instant_add t d = Ret (t + d).
Proof. intros Ht Hd. apply instant_add_ok. unfold SPAN, INSTANT_END, from_secs in *. lia. Qed.

(** Setting the timer: any new timer whose repeat interval is in range. *)
Lemma benign_set_timer (f : Instant -> Deadline.Deadline -> outcome Deadline.Deadline) :
  (forall t d, 0 <= t <= SPAN -> span_ok (Deadline.repeat_ d) ->
    exists d', f t d = Ret d' /\ span_ok (Deadline.repeat_ d')) ->
  benign (c ← get_common; t ← now; d ← lift (f t (timer c)); put_common (set_timer c d)).
Proof.
  intros Hf w Hw. apply spec_bind, spec_get_common, spec_bind.
  eapply spec_mono; [apply now_spec|]. intros t w' [Ht H].
  destruct (links_step_world _ _ H Hw) as [[_ Hwire] Hn]. destruct Hw as [[] _].
  destruct (Hf t (timer (common w)) Ht) as (d' & Hd & Hr); [done|].
  apply spec_bind. eapply spec_lift; [done|]. apply spec_put_common.
  split; [|done]. split; [|done]. by constructor.
Qed.

Lemma benign_modify_repeat i : 0 <= i <= SPAN -> benign (timer_modify_repeat i).
Proof.
  intros Hi. apply (benign_set_timer (fun t d => Deadline.modify_repeat t d i)). intros t d Ht Hd.
  unfold Deadline.modify_repeat. destruct (Deadline.deadline d).
  - eexists. split; [done|]. by intros ? [= <-].
  - rewrite span_add by done. eexists. split; [done|]. by intros ? [= <-].
Qed.

Lemma benign_modify_deadline i : 0 <= i <= SPAN -> benign (timer_modify_deadline_from_now i).
Proof.
  intros Hi. apply (benign_set_timer (fun t d => Deadline.modify_deadline_from_now t d i)).
  intros t d Ht Hd. unfold Deadline.modify_deadline_from_now. rewrite span_add by done.
  eexists. split; [done|]. unfold Deadline.modify_deadline. by destruct (Deadline.deadline d).
Qed.

Lemma benign_poll_timer : benign poll_timer.
Proof.
  intros w Hw. unfold poll_timer. apply spec_bind, spec_get_common, spec_bind.
  eapply spec_mono; [apply now_spec|]. intros t w' [Ht H].
  destruct (links_step_world _ _ H Hw) as [[_ Hwire] Hn]. destruct Hw as [[] _].
  assert (exists b d, Deadline.poll true t (timer (common w)) = Ret (b, d) /\
    span_ok (Deadline.repeat_ d)) as (b & d & Hd & Hr).
  { unfold Deadline.poll. destruct (Deadline.deadline _); [|eauto].
    destruct (Deadline.repeat_ (timer (common w))) as [i|] eqn:E; [|eexists _, _; by split].
    rewrite span_add by eauto. eexists _, _. split; [done|]. by intros ? [= <-]; apply co_repeat0. }
  apply spec_bind. eapply spec_lift; [done|]. apply spec_put_common.
  split; [|done]. split; [|done]. by constructor.
Qed.

Lemma benign_bind {A B} (m : M A) (f : A -> M B) : benign m -> (forall a, benign (f a)) -> benign (m ≫= f).
Proof.
  intros Hm Hf w Hw. apply spec_bind. eapply spec_mono; [by apply Hm|]. intros a w1 [Hw1 Hn1].
  eapply spec_mono; [by apply Hf|]. intros b w2 [Hw2 Hn2]. split; [done|congruence].
Qed.

Lemma benign_set_deadline t : span_ok t -> benign (set_deadline_or_clear t).
Proof.
  intros Hs. destruct t as [d|]; [by apply benign_modify_deadline, Hs|apply benign_timer_clear].
Qed.

Lemma benign_determine_timer : benign determine_timer.
Proof.
  intros w Hw. apply spec_bind, spec_get_common. pose proof (co_connecting _ (proj1 Hw)) as Hs.
  destruct (connecting_timeout (common w)) as [d|]; [|by apply benign_timer_clear].
  apply benign_bind; [apply benign_timer_clear_repeat| |done]. intros _.
  apply benign_modify_deadline. by apply Hs.
Qed.

Lemma benign_emit_messages msgs e : benign (emit_messages msgs e).
Proof.
  induction msgs; simpl.
  - intros w Hw. by apply spec_ret.
  - apply benign_bind; [apply benign_emit|done].
Qed.

Lemma benign_connected_timer : benign connected_timer.
Proof.
  apply benign_bind; [apply benign_timer_clear|]. intros _.
  apply benign_bind; [apply benign_modify_repeat|intros _; apply benign_store_active].
  unfold CONNECTED_TIMER_INTERVAL, SPAN, from_secs. lia.
Qed.

Lemma spec_benign {A} (m : M A) w (Q : A -> World -> Prop) :
  benign m -> world_ok w ->
  (forall a w', world_ok w' -> next_id w' = next_id w -> Q a w') -> spec m w Q.
Proof. intros Hm Hw HQ. eapply spec_mono; [by apply Hm|]. intros a w' []. by apply HQ. Qed.

Lemma benign_ret {A} (a : A) : benign (mret a).
Proof. intros w Hw. by apply spec_ret. Qed.

Lemma mismatch_interval : 0 <= EPOCH_MISMATCH_TIMER_INTERVAL <= SPAN.
Proof. unfold EPOCH_MISMATCH_TIMER_INTERVAL, SPAN, from_secs. lia. Qed.

Lemma benign_mismatch_timer : benign (timer_modify_repeat EPOCH_MISMATCH_TIMER_INTERVAL).
Proof. apply benign_modify_repeat, mismatch_interval. Qed.

Create HintDb benign.
Hint Resolve benign_now benign_emit benign_reply benign_store_active benign_timer_clear
  benign_mismatch_timer benign_determine_timer benign_emit_messages benign_connected_timer
  benign_poll_timer : benign.

(** ** Running a handler

    The hypotheses carried along are [world_ok] of the current world, [links_ok]
    of the current links, and the equations between the next ids. *)

Ltac safe_step :=
  match goal with
  | |- spec (mret _) _ _ => apply spec_ret
  | |- spec (_ ≫= _) _ _ => apply spec_bind
  | |- spec (_ <$> _) _ _ => apply spec_fmap
  | |- spec get_common _ _ => apply spec_get_common
  | |- spec (ping_all ?lm) _ _ =>
      eapply (spec_links _ id lm); [apply ping_all_spec|eassumption|eassumption|intros]
  | |- spec (upkeep ?lm) _ _ =>
      eapply (spec_links _ id lm); [apply upkeep_spec|eassumption|eassumption|intros]
  | |- spec (pong ?lm _) _ _ =>
      eapply (spec_links _ id lm); [apply pong_spec|eassumption|eassumption|intros]
  | |- spec (end_ping ?lm _) _ _ =>
      eapply (spec_links _ id lm); [apply end_ping_spec|eassumption|eassumption|intros]
  | |- spec (reset ?lm _ _) _ _ =>
      eapply (spec_links _ snd lm);
      [intros; by apply send_proto_spec|eassumption|eassumption|intros [? ?] ? ? ? ?]
  | |- spec (ack ?lm _ _) _ _ =>
      eapply (spec_links _ snd lm);
      [intros; by apply send_proto_spec|eassumption|eassumption|intros [? ?] ? ? ? ?]
  | |- spec _ _ _ => apply spec_benign; [solve [auto with benign]|eassumption|intros]
  end.
Ltac safe_steps := cbv beta iota zeta; repeat (safe_step; cbv beta iota zeta; cbn [id snd] in *).

(** The end of a handler. *)
Ltac next_ids := repeat match goal with H : next_id _ = next_id _ |- _ => rewrite H; clear H end.
Ltac safe_done := constructor; cbn; [done|next_ids; try done; try apply links_ok_nil|auto].

Abbreviation safely s m ctor := (forall w, safe s w -> spec m w (fun s' w' => safe (ctor s') w')).

(** ** Transitions *)

Lemma disconnected_from_connecting_safe s :
  safely (Connecting s) (disconnected_from_connecting s) Disconnected.
Proof.
  intros w [Hw _ [Hcm Hq]]. unfold disconnected_from_connecting.
  pose proof (ConnectorManager.cancel_wf _ Hcm) as [? ?].
  destruct (ConnectorManager.cancel (cg_connector s)) as [conns addrs]. safe_steps. safe_done.
Qed.

Lemma disconnected_from_epoch_mismatch_safe s :
  safely (EpochMismatch s) (disconnected_from_epoch_mismatch s) Disconnected.
Proof. intros w [Hw _ (? & ? & ?)]. unfold disconnected_from_epoch_mismatch. safe_steps. safe_done. Qed.

Lemma disconnected_from_connected_safe s :
  safely (Connected s) (disconnected_from_connected s) Disconnected.
Proof. intros w [Hw _ (? & ? & ?)]. unfold disconnected_from_connected. safe_steps. safe_done. Qed.

Lemma disconnected_from_reconnecting_safe s :
  safely (Reconnecting s) (disconnected_from_reconnecting s) Disconnected.
Proof.
  intros w [Hw _ [Hcm Hq]]. unfold disconnected_from_reconnecting.
  pose proof (ConnectorManager.cancel_wf _ Hcm) as [? ?].
  destruct (ConnectorManager.cancel (rc_connector s)) as [conns addrs]. safe_steps. safe_done.
Qed.

Lemma disconnected_from_grace_period_safe s :
  safely (GracePeriod s) (disconnected_from_grace_period s) Disconnected.
Proof. intros w [Hw _ (? & ? & ?)]. unfold disconnected_from_grace_period. safe_steps. safe_done. Qed.

Lemma msgs_ok_nil : msgs_ok [].
Proof. constructor. Qed.
Hint Resolve msgs_ok_nil ConnectorManager.start_wf : core.

Lemma connecting_from_disconnected_safe s :
  safely (Disconnected s) (connecting_from_disconnected s) Connecting.
Proof. intros w [Hw _ (? & ?)]. unfold connecting_from_disconnected. safe_steps. safe_done. Qed.

Lemma connecting_from_disconnected_msg_safe s msg :
  len msg <= ISIZE_MAX -> safely (Disconnected s) (connecting_from_disconnected_msg s msg) Connecting.
Proof.
  intros Hm w [Hw _ (? & ?)]. unfold connecting_from_disconnected_msg. safe_steps. safe_done.
  split; [auto|by constructor].
Qed.

Lemma connecting_from_epoch_mismatch_safe s :
  safely (EpochMismatch s) (connecting_from_epoch_mismatch s) Connecting.
Proof. intros w [Hw _ (? & ? & ?)]. unfold connecting_from_epoch_mismatch. safe_steps. safe_done. Qed.

Lemma connecting_from_reconnecting_safe s :
  safely (Reconnecting s) (connecting_from_reconnecting s) Connecting.
Proof. intros w [Hw _ (? & ?)]. unfold connecting_from_reconnecting. safe_steps. safe_done. Qed.

Lemma connecting_from_grace_period_safe s :
  safely (GracePeriod s) (connecting_from_grace_period s) Connecting.
Proof. intros w [Hw _ (? & ? & ?)]. unfold connecting_from_grace_period. safe_steps. safe_done. Qed.

Lemma epoch_mismatch_from_connected_safe s :
  safely (Connected s) (epoch_mismatch_from_connected s) EpochMismatch.
Proof.
  intros w [Hw Hl (? & ? & ?)]. cbn in Hl. unfold epoch_mismatch_from_connected. safe_steps. safe_done.
Qed.

Lemma reconnecting_from_connected_safe s :
  safely (Connected s) (reconnecting_from_connected s) Reconnecting.
Proof.
  intros w [Hw _ (? & ? & ?)]. unfold reconnecting_from_connected. safe_steps.
  apply spec_benign; [|done|intros; safe_steps; safe_done].
  match goal with H : world_ok ?w |- context [common ?w] => by apply benign_set_deadline, H end.
Qed.

Lemma grace_period_from_connected_safe s :
  safely (Connected s) (grace_period_from_connected s) GracePeriod.
Proof.
  intros w [Hw _ (? & ? & ?)]. unfold grace_period_from_connected. safe_steps.
  apply spec_benign; [by apply benign_set_deadline, Hw|done|intros; safe_steps; safe_done].
Qed.

Lemma links_ok_one e n : entry_ok e -> le_id e < n -> links_ok [e] n.
Proof. intros He Hi. constructor; [by constructor|apply NoDup_singleton|by constructor]. Qed.

(** The entry a new link gets. *)
Definition new_entry (e : LinkEntry) (w : World) : Prop := entry_ok e /\ le_id e < next_id w.

Lemma epoch_mismatch_from_disconnected_safe s e w :
  safe (Disconnected s) w -> new_entry e w ->
  spec (epoch_mismatch_from_disconnected s e) w (fun s' w' => safe (EpochMismatch s') w').
Proof.
  intros [Hw _ (? & ?)] [He Hi]. pose proof (links_ok_one _ _ He Hi) as Hl.
  unfold epoch_mismatch_from_disconnected, add_link, lm_new. safe_steps. safe_done.
Qed.

Lemma epoch_mismatch_from_connecting_safe s e w :
  safe (Connecting s) w -> new_entry e w ->
  spec (epoch_mismatch_from_connecting s e) w (fun s' w' => safe (EpochMismatch s') w').
Proof.
  intros [Hw _ (Hcm & ?)] [He Hi]. pose proof (links_ok_one _ _ He Hi) as Hl.
  unfold epoch_mismatch_from_connecting, add_link, lm_new.
  pose proof (ConnectorManager.cancel_wf _ Hcm) as [? ?].
  destruct (ConnectorManager.cancel (cg_connector s)) as [conns addrs]. safe_steps. safe_done.
Qed.

Lemma connected_from_reconnecting_safe s e w :
  safe (Reconnecting s) w -> new_entry e w ->
  spec (connected_from_reconnecting s e) w (fun s' w' => safe (Connected s') w').
Proof.
  intros [Hw _ (Hcm & ?)] [He Hi]. pose proof (links_ok_one _ _ He Hi) as Hl.
  unfold connected_from_reconnecting, with_link.
  pose proof (ConnectorManager.cancel_wf _ Hcm) as [? ?].
  destruct (ConnectorManager.cancel (rc_connector s)) as [conns addrs]. safe_steps. safe_done.
Qed.

Lemma connected_from_grace_period_safe s e w :
  safe (GracePeriod s) w -> new_entry e w ->
  spec (connected_from_grace_period s e) w (fun s' w' => safe (Connected s') w').
Proof.
  intros [Hw _ (? & ? & ?)] [He Hi]. pose proof (links_ok_one _ _ He Hi) as Hl.
  unfold connected_from_grace_period, with_link. safe_steps. safe_done.
Qed.

(** Sending the queued messages numbers them one after the other. *)
Lemma send_queued_spec msgs mm lm n w (Q : MessageManager.MessageManager * LinkManager -> World -> Prop) :
  mm_wf mm -> msgs_ok msgs -> MessageManager.next_seq mm + len msgs <= U64_MAX ->
  world_ok w -> links_ok lm n ->
  (forall mm' lm' w', mm_wf mm' -> MessageManager.mm_epoch mm' = MessageManager.mm_epoch mm ->
    world_ok w' -> next_id w' = next_id w -> links_ok lm' n -> Q (mm', lm') w') ->
  spec (send_queued msgs mm lm) w Q.
Proof.
  intros Hmm Hmsgs. revert mm lm w Q Hmm.
  induction Hmsgs as [|msg msgs Hmsg Hmsgs IH]; intros mm lm w Q Hmm Hn Hw Hl HQ; simpl.
  { apply spec_ret. by apply HQ. }
  rewrite len_cons in Hn. pose proof (len_nonneg msgs).
  destruct (insert_msg_spec mm msg Hmm Hmsg) as (mm1 & Heq & Hmm1 & He & Hn1 & Hget & _); [lia|].
  apply spec_bind. eapply spec_lift; [done|]. apply spec_bind.
  eapply spec_lift; [by rewrite Hget|]. apply spec_bind.
  eapply (spec_links _ snd lm); [|done|done|].
  { intros Hok. apply send_slices_spec; [done|].
    by eapply (out_entries _ Hmm1) in Hget as [Hsm%entry_sendable _]. }
  intros [res lm1] w1 Hw1 Hid Hl1. apply IH; [done|lia|done|done|].
  intros mm' lm' w' ? ? ? ? ?. apply HQ; try done; congruence.
Qed.

Lemma connected_from_epoch_mismatch_safe s e w :
  safe (EpochMismatch s) w -> seq_room (EpochMismatch s) ->
  spec (connected_from_epoch_mismatch s e) w (fun s' w' => safe (Connected s') w').
Proof.
  intros [Hw Hl (? & ? & ?)] Hr. cbn in Hl, Hr. unfold connected_from_epoch_mismatch.
  safe_step. safe_step. cbv beta. safe_step. eapply send_queued_spec; try done.
  - apply new_wf.
  - simpl. lia.
  - intros. safe_steps. safe_done. by unfold session_ok.
Qed.

(** ** Handlers *)

(** A link is accepted with an id of its own, or refused. *)
Lemma wrap_link_spec l w (Q : LinkSetResult LinkEntry -> World -> Prop) :
  world_ok w -> next_id w < U64_MAX ->
  (forall r w', world_ok w' -> next_id w' = next_id w + 1 ->
    (forall e, r = Ok e -> entry_ok e /\ le_id e = next_id w) -> Q r w') ->
  spec (wrap_link l) w Q.
Proof.
  intros [Hc Hw] Hn HQ. pose proof (co_next _ Hc). unfold wrap_link.
  apply spec_bind, spec_get_common, spec_bind. eapply spec_lift; [apply u64_add_ok; lia|].
  apply spec_bind, spec_put_common.
  assert (world_ok (set_common w (set_next_link_id (common w) (next_id w + 1)))) as Hw1.
  { split; [|done]. destruct Hc. constructor; simpl; try done. lia. }
  set (w1 := set_common w _) in *. destruct (Z.leb_spec (link_max_size l) OVERHEAD).
  { apply spec_ret. by apply HQ. }
  apply spec_bind. unfold take_reader. apply spec_bind.
  eapply spec_mono; [apply tick_spec|]. intros n w2 H2.
  destruct (links_step_world _ _ H2 Hw1) as [Hw2 Hn2].
  pose proof (max_size_take_reader n (le_link (entry_new l (next_id w)))) as Hm.
  destruct (link_take_reader n _) as [[u|x] l'] eqn:Ht; simpl in Hm; apply spec_ret.
  - apply spec_bind, spec_get_common, spec_bind, spec_put_common, spec_ret. apply HQ.
    + destruct Hw2 as [[] ?]. split; [|done]. by constructor.
    + simpl. by rewrite Hn2.
    + intros e [= <-]. split; [|done]. destruct (entry_new_ok l (next_id w)); [done|].
      constructor; simpl in *; try done. congruence.
  - apply spec_ret. by apply HQ.
Qed.

Lemma links_ok_mono lm n m : links_ok lm n -> n <= m -> links_ok lm m.
Proof.
  intros [He Hn Hb] Hle. constructor; [done..|]. eapply Forall_impl; [done|]. simpl. lia.
Qed.

Lemma links_ok_add lm e n : links_ok lm n -> entry_ok e -> le_id e = n -> links_ok (add_link lm e) (n + 1).
Proof.
  intros [He Hn Hb] Hok Hid. unfold add_link. constructor.
  - by constructor.
  - unfold ids. rewrite fmap_cons. apply NoDup_cons. split; [|done]. rewrite Hid.
    rewrite Forall_forall in Hb. intros Hin. apply Hb in Hin. lia.
  - constructor; [lia|]. eapply Forall_impl; [done|]. simpl. lia.
Qed.

(** The state before the link was wrapped, in the world after. *)
Lemma safe_wrapped s w w' : safe s w -> world_ok w' -> next_id w' = next_id w + 1 -> safe s w'.
Proof.
  intros [_ Hl Hb] Hw' Hn. constructor; [done| |done]. rewrite Hn.
  eapply links_ok_mono; [done|lia].
Qed.

Lemma new_entry_wrapped e w w' : entry_ok e -> le_id e = next_id w -> next_id w' = next_id w + 1 -> new_entry e w'.
Proof. intros He Hi Hn. split; [done|]. lia. Qed.

Lemma determine_state_safe s w : safe (Connected s) w -> spec (determine_state s) w safe.
Proof.
  intros H. unfold determine_state. destruct (lm_is_empty (cn_links s)); [|by apply spec_ret].
  apply spec_bind, spec_get_common.
  destruct (negb _); [apply spec_fmap; by apply reconnecting_from_connected_safe|].
  destruct (negb _); apply spec_fmap;
    [by apply grace_period_from_connected_safe|by apply disconnected_from_connected_safe].
Qed.

Lemma insert_conn_wf conns conn : conns_wf conns -> conns_wf (insert_conn conns conn).
Proof. intros H. by apply map_Forall_insert_2. Qed.

Hint Resolve insert_conn_wf ConnectorManager.add_address_wf ConnectorManager.add_addr_wf : core.

(** Wraps the link and continues with either outcome. *)
Ltac wrap H :=
  apply spec_bind, wrap_link_spec; [apply H|done|];
  intros [?e|?x] ?w1 ?Hw1 ?Hn1 ?He1;
  [destruct (He1 _ eq_refl) as [? ?]|apply spec_ret; by eapply safe_wrapped].

Lemma disconnected_ctrl_msg_safe s msg w :
  safe (Disconnected s) w -> event_ok (EvCtrl (Command msg)) -> next_id w < U64_MAX ->
  spec (disconnected_ctrl_msg s msg) w safe.
Proof.
  intros H Hev Hn. destruct msg; simpl in *.
  - apply spec_fmap. by apply connecting_from_disconnected_safe.
  - by apply spec_ret.
  - apply spec_ret. destruct H as [? ? [? ?]]. constructor; simpl; auto.
  - apply spec_ret. destruct H as [? ? [? ?]]. constructor; simpl; auto.
  - wrap H. apply spec_fmap, epoch_mismatch_from_disconnected_safe;
      [by eapply safe_wrapped|by eapply new_entry_wrapped].
  - apply spec_bind, spec_get_common. destruct (_ && _); [|by apply spec_ret].
    apply spec_fmap. by apply connecting_from_disconnected_msg_safe.
Qed.

Lemma msgs_ok_snoc msgs msg : msgs_ok msgs -> len msg <= ISIZE_MAX -> msgs_ok (msgs ++ [msg]).
Proof. intros H Hm. apply Forall_app. split; [done|by constructor]. Qed.
Hint Resolve msgs_ok_snoc : core.

Lemma connecting_ctrl_msg_safe s msg w :
  safe (Connecting s) w -> event_ok (EvCtrl (Command msg)) -> next_id w < U64_MAX ->
  spec (connecting_ctrl_msg s msg) w safe.
Proof.
  intros H Hev Hn. destruct msg as [| |conn|a|l|msg epoch]; simpl in *.
  - by apply spec_ret.
  - apply spec_fmap. by apply disconnected_from_connecting_safe.
  - destruct H as [? ? [Hcm ?]]. destruct (ConnectorManager.add_connector_spec _ conn Hcm) as (cm & Heq & ? & _).
    apply spec_bind. eapply spec_lift; [done|]. apply spec_ret. constructor; simpl; auto.
  - apply spec_ret. destruct H as [? ? [? ?]]. constructor; simpl; auto.
  - wrap H. apply spec_fmap, epoch_mismatch_from_connecting_safe;
      [by eapply safe_wrapped|by eapply new_entry_wrapped].
  - apply spec_ret. case_bool_decide; [|done]. destruct H as [? ? [? ?]]. constructor; simpl; auto.
Qed.

Lemma epoch_mismatch_ctrl_msg_safe s msg w :
  safe (EpochMismatch s) w -> event_ok (EvCtrl (Command msg)) -> next_id w < U64_MAX ->
  spec (epoch_mismatch_ctrl_msg s msg) w safe.
Proof.
  intros H Hev Hn. destruct msg as [| |conn|a|l|msg epoch]; simpl in *.
  - by apply spec_ret.
  - apply spec_fmap. by apply disconnected_from_epoch_mismatch_safe.
  - apply spec_ret. destruct H as [? ? (? & ? & ?)]. constructor; simpl; auto.
  - apply spec_ret. destruct H as [? ? (? & ? & ?)]. constructor; simpl; auto.
  - wrap H. apply spec_ret. destruct H as [_ Hl Hb]. constructor; [done| |done]. simpl.
    rewrite Hn1. by apply links_ok_add.
  - apply spec_ret. case_bool_decide; [|done]. destruct H as [? ? (? & ? & ?)]. constructor; simpl; auto.
Qed.

(** A message accepted for the current session. *)
Lemma session_insert mm e msg :
  session_ok mm e -> len msg <= ISIZE_MAX -> MessageManager.next_seq mm < U64_MAX ->
  exists seq mm', MessageManager.insert_msg mm msg = Ret (seq, mm') /\ session_ok mm' e /\
    exists m, MessageManager.get_outgoing_slice mm' seq = Some m /\ sendable m.
Proof.
  intros [Hmm <-] Hm Hn. destruct (insert_msg_spec mm msg Hmm Hm Hn) as (mm' & Heq & Hmm' & He & _ & Hget & _).
  exists (MessageManager.next_seq mm), mm'. split_and!; [done|done|].
  eexists. split; [done|]. by eapply (out_entries _ Hmm') in Hget as [Hsm%entry_sendable _].
Qed.

Lemma connected_ctrl_msg_safe s msg w :
  safe (Connected s) w -> event_ok (EvCtrl (Command msg)) -> room (Connected s) w ->
  spec (connected_ctrl_msg s msg) w safe.
Proof.
  intros H Hev [Hn Hr]. destruct msg as [| |conn|a|l|msg epoch]; simpl in *.
  - by apply spec_ret.
  - apply spec_fmap. by apply disconnected_from_connected_safe.
  - apply spec_ret. destruct H as [? ? (? & ? & ?)]. constructor; simpl; auto.
  - apply spec_ret. destruct H as [? ? (? & ? & ?)]. constructor; simpl; auto.
  - wrap H. apply spec_ret. destruct H as [_ Hl Hb]. constructor; [done| |done]. simpl.
    rewrite Hn1. by apply links_ok_add.
  - destruct (wrong_epoch _ _); [by apply spec_ret|]. destruct H as [Hw Hl (? & ? & Hs)].
    destruct (session_insert _ _ _ Hs Hev Hr) as (seq & mm' & Heq & Hs' & m & Hm & Hsm).
    apply spec_bind. eapply spec_lift; [done|]. cbn [cn_msg_mgr set_cn_msg_mgr cn_links]. rewrite Hm.
    apply spec_bind, spec_bind. eapply (spec_links _ snd (cn_links s));
      [intros; by apply send_slices_spec|done|done|].
    intros [res lm] w1 Hw1 Hn1 Hl1. apply spec_ret, determine_state_safe. constructor; simpl; [done| |auto].
    simpl in *. by rewrite Hn1.
Qed.

Lemma reconnecting_ctrl_msg_safe s msg w :
  safe (Reconnecting s) w -> event_ok (EvCtrl (Command msg)) -> room (Reconnecting s) w ->
  spec (reconnecting_ctrl_msg s msg) w safe.
Proof.
  intros H Hev [Hn Hr]. destruct msg as [| |conn|a|l|msg epoch]; simpl in *.
  - by apply spec_ret.
  - apply spec_fmap. by apply disconnected_from_reconnecting_safe.
  - destruct H as [? ? [Hcm ?]]. destruct (ConnectorManager.add_connector_spec _ conn Hcm) as (cm & Heq & ? & _).
    apply spec_bind. eapply spec_lift; [done|]. apply spec_ret. constructor; simpl; auto.
  - apply spec_ret. destruct H as [? ? [? ?]]. constructor; simpl; auto.
  - wrap H. apply spec_fmap, connected_from_reconnecting_safe;
      [by eapply safe_wrapped|by eapply new_entry_wrapped].
  - destruct (wrong_epoch _ _); [by apply spec_ret|]. destruct H as [Hw Hl (? & Hs)].
    destruct (session_insert _ _ _ Hs Hev Hr) as (seq & mm' & Heq & Hs' & _).
    apply spec_bind. eapply spec_lift; [done|]. apply spec_ret. constructor; simpl; auto.
Qed.

Lemma grace_period_ctrl_msg_safe s msg w :
  safe (GracePeriod s) w -> event_ok (EvCtrl (Command msg)) -> room (GracePeriod s) w ->
  spec (grace_period_ctrl_msg s msg) w safe.
Proof.
  intros H Hev [Hn Hr]. destruct msg as [| |conn|a|l|msg epoch]; simpl in *.
  - by apply spec_ret.
  - apply spec_fmap. by apply disconnected_from_grace_period_safe.
  - apply spec_ret. destruct H as [? ? (? & ? & ?)]. constructor; simpl; auto.
  - apply spec_ret. destruct H as [? ? (? & ? & ?)]. constructor; simpl; auto.
  - wrap H. apply spec_fmap, connected_from_grace_period_safe;
      [by eapply safe_wrapped|by eapply new_entry_wrapped].
  - destruct (wrong_epoch _ _); [by apply spec_ret|]. destruct H as [Hw Hl (? & ? & Hs)].
    destruct (session_insert _ _ _ Hs Hev Hr) as (seq & mm' & Heq & Hs' & _).
    apply spec_bind. eapply spec_lift; [done|]. apply spec_ret. constructor; simpl; auto.
Qed.

Lemma session_recv mm e seq f n d :
  session_ok mm e -> packet_bounds seq f n d ->
  exists b mm', MessageManager.recv mm seq f n d = Ret (b, mm') /\ session_ok mm' e.
Proof.
  intros [Hmm <-] Hp. destruct (recv_safe mm seq f n d Hmm Hp) as (b & mm' & Heq & Hmm' & _ & _ & _ & He).
  by exists b, mm'.
Qed.

Lemma session_ack_wf mm e epoch :
  session_ok mm e -> packet_ok (Ack (to_int epoch) (fst (MessageManager.last_ack mm)) (snd (MessageManager.last_ack mm))).
Proof.
  intros [Hmm _]. destruct (ack_range _ Hmm). pose proof (epoch_range epoch). unfold packet_ok, to_int. simpl. lia.
Qed.

Lemma session_take mm e :
  session_ok mm e -> exists msgs mm', MessageManager.take_recvd mm = Ret (msgs, mm') /\ session_ok mm' e.
Proof.
  intros [Hmm <-]. destruct (take_recvd_spec mm Hmm) as [Heq Hmm']. by eexists _, _.
Qed.

Lemma session_ack mm e seq i :
  session_ok mm e -> 0 <= i ->
  exists mm', MessageManager.recv_ack mm (seq, i) = Ret mm' /\ session_ok mm' e.
Proof.
  intros [Hmm <-] Hi. destruct (recv_ack_out mm seq i Hmm Hi) as (out & Heq & _).
  destruct (recv_ack_spec mm seq i Hmm Hi) as (mm' & Heq' & Hmm' & _).
  rewrite Heq in Heq'. injection Heq' as <-. by eexists.
Qed.

Lemma safe_links_em s w lm w1 :
  safe (EpochMismatch s) w -> world_ok w1 -> next_id w1 = next_id w -> links_ok lm (next_id w) ->
  safe (EpochMismatch (set_em_links s lm)) w1.
Proof. intros [_ _ Hb] Hw1 Hn Hl. constructor; simpl; [done|by rewrite Hn|done]. Qed.

Lemma safe_links_cn s w lm w1 :
  safe (Connected s) w -> world_ok w1 -> next_id w1 = next_id w -> links_ok lm (next_id w) ->
  safe (Connected (set_cn_links s lm)) w1.
Proof. intros [_ _ Hb] Hw1 Hn Hl. constructor; simpl; [done|by rewrite Hn|done]. Qed.

Lemma epoch_mismatch_link_msg_safe s id msg w :
  safe (EpochMismatch s) w -> seq_room (EpochMismatch s) -> spec (epoch_mismatch_link_msg s id msg) w safe.
Proof.
  intros H Hr. pose proof H as [Hw Hl Hb]. cbn in Hl.
  destruct msg as [epoch request| | | |]; simpl;
    try (safe_steps; first [done | by eapply safe_links_em]).
  destruct (compare_epochs (em_epoch s) epoch) eqn:Hcmp.
  - apply compare_epochs_Eq in Hcmp as (e & He & ->). rewrite He. apply spec_bind.
    apply (spec_mono _ _ (fun s' w' => safe (EpochMismatch s') w' /\ em_epoch s' = Some e /\
      em_queued_msgs s' = em_queued_msgs s)).
    { destruct request; safe_steps; split_and!; try done. by eapply safe_links_em. }
    intros s' w' (H' & He' & Hq). rewrite He'. apply spec_bind. eapply spec_lift; [done|].
    apply spec_fmap, connected_from_epoch_mismatch_safe; [done|]. cbn. by rewrite Hq.
  - safe_steps. apply connected_from_epoch_mismatch_safe; [|done]. constructor; simpl; try done.
    by next_ids.
  - safe_steps. by eapply safe_links_em.
Qed.

Lemma connected_link_msg_safe s id msg w :
  safe (Connected s) w -> event_ok (EvLink id msg) -> spec (connected_link_msg s id msg) w safe.
Proof.
  intros H Hev. pose proof H as [Hw Hl Hb]. cbn in Hl, Hev.
  destruct msg as [epoch request|epoch seq last_index|epoch seq seq_len first_index data| |]; simpl in *.
  - destruct request; [|by apply spec_ret]. case_bool_decide.
    + safe_steps. apply determine_state_safe. by eapply safe_links_cn.
    + apply spec_fmap. by apply epoch_mismatch_from_connected_safe.
  - destruct (_ =? _); [|by apply spec_ret]. destruct Hb as (? & ? & Hs).
    destruct (session_ack _ _ seq last_index Hs Hev) as (mm & Heq & Hs').
    apply spec_bind. eapply spec_lift; [done|]. apply spec_ret. by constructor.
  - destruct (_ =? _); [|by apply spec_ret]. destruct Hb as (? & ? & Hs).
    destruct (session_recv _ _ _ _ _ _ Hs Hev) as (b & mm & Heq & Hs1).
    destruct (session_take _ _ Hs1) as (msgs & mm' & Htake & Hs2).
    pose proof (session_ack_wf _ _ (cn_epoch s) Hs1) as Hack.
    apply spec_bind. eapply spec_lift; [done|]. apply spec_bind.
    apply (spec_mono _ _ (fun s' w' => exists lm, s' = set_cn_links (set_cn_msg_mgr s mm) lm /\
      world_ok w' /\ next_id w' = next_id w /\ links_ok lm (next_id w))).
    { destruct b; safe_steps; [by eexists|]. exists (cn_links s). by split_and!. }
    intros s' w1 (lm & -> & Hw1 & Hn1 & Hl1). apply spec_bind. eapply spec_lift; [done|].
    safe_steps. apply determine_state_safe. constructor; simpl; [done|by next_ids|auto].
  - safe_steps. by eapply safe_links_cn.
  - safe_steps. by eapply safe_links_cn.
Qed.

Lemma reconnecting_link_msg_safe s id msg w :
  safe (Reconnecting s) w -> event_ok (EvLink id msg) -> spec (reconnecting_link_msg s id msg) w safe.
Proof.
  intros H Hev. pose proof H as [Hw _ [? Hs]]. cbn in Hev.
  destruct msg as [epoch request|epoch seq last_index|epoch seq seq_len first_index data| |]; simpl in *;
    try by apply spec_ret.
  - destruct request; [|by apply spec_ret]. case_bool_decide; [by apply spec_ret|].
    apply spec_fmap. by apply connecting_from_reconnecting_safe.
  - destruct (_ =? _); [|by apply spec_ret].
    destruct (session_ack _ _ seq last_index Hs Hev) as (mm & Heq & Hs').
    apply spec_bind. eapply spec_lift; [done|]. apply spec_ret. by constructor; [|apply links_ok_nil|].
  - destruct (_ =? _); [|by apply spec_ret].
    destruct (session_recv _ _ _ _ _ _ Hs Hev) as (b & mm & Heq & Hs1).
    destruct (session_take _ _ Hs1) as (msgs & mm' & Htake & Hs2).
    apply spec_bind. eapply spec_lift; [done|]. apply spec_bind. eapply spec_lift; [done|].
    safe_steps. safe_done.
Qed.

Lemma grace_period_link_msg_safe s id msg w :
  safe (GracePeriod s) w -> event_ok (EvLink id msg) -> spec (grace_period_link_msg s id msg) w safe.
Proof.
  intros H Hev. pose proof H as [Hw _ (? & ? & Hs)]. cbn in Hev.
  destruct msg as [epoch request|epoch seq last_index|epoch seq seq_len first_index data| |]; simpl in *;
    try by apply spec_ret.
  - destruct request; [|by apply spec_ret]. case_bool_decide; [by apply spec_ret|].
    apply spec_fmap. by apply disconnected_from_grace_period_safe.
  - destruct (_ =? _); [|by apply spec_ret].
    destruct (session_ack _ _ seq last_index Hs Hev) as (mm & Heq & Hs').
    apply spec_bind. eapply spec_lift; [done|]. apply spec_ret. by constructor; [|apply links_ok_nil|].
  - destruct (_ =? _); [|by apply spec_ret].
    destruct (session_recv _ _ _ _ _ _ Hs Hev) as (b & mm & Heq & Hs1).
    destruct (session_take _ _ Hs1) as (msgs & mm' & Htake & Hs2).
    apply spec_bind. eapply spec_lift; [done|]. apply spec_bind. eapply spec_lift; [done|].
    safe_steps. safe_done.
Qed.

Lemma connected_timer_safe s w : safe (Connected s) w -> spec (connected_timer_handler s) w safe.
Proof.
  intros H. pose proof H as [Hw Hl (? & ? & Hs)]. cbn in Hl. unfold connected_timer_handler.
  safe_step. safe_step. cbv beta. apply spec_bind.
  apply (spec_mono _ _ (fun lm w' => world_ok w' /\ next_id w' = next_id w /\ links_ok lm (next_id w))).
  { destruct (_ <? _); safe_steps; split_and!; try done; by next_ids. }
  intros lm w1 (Hw1 & Hn1 & Hl1). safe_step. safe_step. cbv beta. apply spec_bind. cbn [id] in *.
  apply (spec_mono _ _ (fun lm w' => world_ok w' /\ next_id w' = next_id w /\ links_ok lm (next_id w))).
  { destruct (lm_is_empty _); [apply spec_ret; split_and!; try done; by next_ids|].
    destruct (MessageManager.get_outgoing_slices (cn_msg_mgr s)) as [|m ms] eqn:Hms;
      [apply spec_ret; split_and!; try done; by next_ids|].
    assert (sendable m) as Hm.
    { assert (m ∈ MessageManager.get_outgoing_slices (cn_msg_mgr s)) as Hin by (rewrite Hms; left).
      apply list_elem_of_fmap in Hin as ([seq m'] & -> & Hin).
      apply BTreeMap.elem_of_get in Hin; [|apply Hs]. by eapply (out_entries _ (proj1 Hs)) in Hin as [?%entry_sendable _]. }
    apply spec_bind. eapply (spec_links _ snd); [intros; by apply send_slices_spec|done|done|].
    intros [res lm'] w3 Hw3 Hn3 Hl3. apply spec_ret. split_and!; try done. by next_ids. }
  intros lm' w3 (Hw3 & Hn3 & Hl3). apply determine_state_safe. by eapply safe_links_cn.
Qed.

Lemma handle_timer_safe s w : safe s w -> spec (handle_timer s) w safe.
Proof.
  intros H. destruct s as [s|s|s|s|s|s]; simpl.
  - pose proof H as [Hw _ ?]. unfold disconnected_timer. safe_steps. safe_done.
  - pose proof H as [Hw _ ?]. unfold connecting_timer. safe_steps.
    apply disconnected_from_connecting_safe. safe_done.
  - pose proof H as [Hw Hl ?]. cbn in Hl. unfold epoch_mismatch_timer. safe_steps.
    match goal with |- spec (if ?b then _ else _) _ _ => destruct b end.
    + safe_steps. destruct (auto_connect _); apply spec_fmap;
        [apply connecting_from_epoch_mismatch_safe|apply disconnected_from_epoch_mismatch_safe];
        (eapply safe_links_em; [done..|by next_ids|done]).
    + cbn [em_links set_em_links]. safe_steps. constructor; simpl; [done|by next_ids|done].
  - by apply connected_timer_safe.
  - unfold reconnecting_timer. apply spec_bind, spec_get_common. destruct (auto_connect _); apply spec_fmap;
      [by apply connecting_from_reconnecting_safe|by apply disconnected_from_reconnecting_safe].
  - unfold grace_period_timer. apply spec_bind, spec_get_common. destruct (auto_connect _); apply spec_fmap;
      [by apply connecting_from_grace_period_safe|by apply disconnected_from_grace_period_safe].
Qed.

Lemma handle_debug_safe s cmd w : safe s w -> spec (handle_debug s cmd) w safe.
Proof.
  intros H. pose proof H as [Hw Hl Hb]. destruct s as [s|s|s|s|s|s], cmd as [|id]; cbn in Hl; simpl handle_debug;
    unfold disconnected_debug, connecting_debug, reconnecting_debug, grace_period_debug, debug_unlinked;
    simpl; safe_steps; try safe_done.
  - destruct (evict_link_ok (em_links s) id) as [He Hs]; [apply Hl|].
    eapply safe_links_em; [done..|]. by eapply sublist_links_ok.
  - destruct (evict_link_ok (cn_links s) id) as [He Hs]; [apply Hl|].
    eapply safe_links_cn; [done..|]. by eapply sublist_links_ok.
Qed.

Lemma handle_config_safe s conf w :
  safe s w -> event_ok (EvCtrl (Config conf)) -> spec (handle_config conf;; mret s) w safe.
Proof.
  intros [[[] ?] Hl Hb] Hev. apply spec_bind, spec_bind, spec_get_common, spec_put_common, spec_ret.
  destruct conf; constructor; try done; split; try done; by constructor.
Qed.

Lemma handle_returns s ev w : safe s w -> event_ok ev -> room s w -> spec (handle s ev) w safe.
Proof.
  intros H Hev Hr. destruct ev as [[cmd|conf]|id msg| |cmd]; simpl.
  - destruct s; simpl.
    + apply disconnected_ctrl_msg_safe; [done..|apply Hr].
    + apply connecting_ctrl_msg_safe; [done..|apply Hr].
    + apply epoch_mismatch_ctrl_msg_safe; [done..|apply Hr].
    + by apply connected_ctrl_msg_safe.
    + by apply reconnecting_ctrl_msg_safe.
    + by apply grace_period_ctrl_msg_safe.
  - by apply handle_config_safe.
  - destruct s as [s| | | | |]; simpl.
    + destruct H as [[[] ?] _ ?]. apply spec_bind, spec_get_common, spec_bind, spec_put_common, spec_ret.
      constructor; [split; [by constructor|done]|apply links_ok_nil|done].
    + by apply spec_ret.
    + apply epoch_mismatch_link_msg_safe; [done|apply Hr].
    + by apply connected_link_msg_safe.
    + by apply reconnecting_link_msg_safe.
    + by apply grace_period_link_msg_safe.
  - apply spec_bind. pose proof (sf_world _ _ H) as Hw.
    eapply spec_benign; [apply benign_poll_timer|done|]. intros _ w1 Hw1 Hn1.
    apply handle_timer_safe. destruct H as [_ Hl Hb]. constructor; [done|by rewrite Hn1|done].
  - by apply handle_debug_safe.
Qed.

Lemma safe_new : safe states_new world_new.
Proof.
  constructor; [|apply links_ok_nil|].
  - split; [|constructor]. constructor; simpl; try done;
      intros d [= <-]; unfold SPAN, from_secs; lia.
  - split; apply map_Forall_empty.
Qed.

(** ** Runs *)

(** Runs of well-formed events in which no counter is exhausted. *)
Inductive safe_run : States -> World -> Prop :=
  | safe_init : safe_run states_new world_new
  | safe_event s w ev s' w' :
      safe_run s w -> event_ok ev -> room s w -> handle s ev w = Ret (s', w') -> safe_run s' w'
  | safe_task s w s' : safe_run s w -> states_task_step s s' -> safe_run s' w
  | safe_ended s w id :
      safe_run s w ->
      safe_run s (set_common w (set_readers (common w) (filter (fun x => x <> id) (readers (common w))))).

Lemma safe_run_safe s w : safe_run s w -> safe s w.
Proof.
  induction 1 as [|s w ev s' w' _ IH Hev Hr Heq|s w s' _ IH Hs|s w id _ IH].
  - apply safe_new.
  - destruct (handle_returns _ _ _ IH Hev Hr) as (s1 & w1 & Heq1 & H1). congruence.
  - destruct IH as [Hw Hl Hb]. destruct Hs as [s cm Hcm|s cm Hcm]; destruct Hb as [Hwf ?];
      (constructor; [done..|]); split; try done; by eapply ConnectorManager.cm_step_wf.
  - destruct IH as [[[] ?] Hl Hb]. constructor; [|done|done]. split; [by constructor|done].
Qed.

(** ** Properties *)

(** C5. The core never panics and never hangs: after any run of well-formed
    events, while the 64-bit counters have room, the handler of every next
    well-formed event returns. *)
Theorem core_never_panics s w ev :
  safe_run s w -> event_ok ev -> room s w -> exists s' w', handle s ev w = Ret (s', w').
Proof.
  intros H Hev Hr. destruct (handle_returns s ev w (safe_run_safe _ _ H) Hev Hr) as (s' & w' & Heq & _).
  by exists s', w'.
Qed.

(** C20. No link is ever handed more than its maximal size, as the [Link] trait
    promises to its implementations. *)
Theorem packets_fit s w : safe_run s w -> Forall fits (wire w).
Proof. intros H. eapply Forall_impl; [apply (sf_world _ _ (safe_run_safe _ _ H))|]. by intros p []. Qed.

(** C7. Every packet the core hands to a link is well-typed: its fields fit
    their 64 bits and slices carry data; so the decoder of the peer returns the
    very packet, whatever follows it. *)
Theorem packets_typed s w :
  safe_run s w ->
  Forall (fun p => proto_wf (sent_packet p) /\
    forall rest, deserialize (serialize (sent_packet p) ++ rest) = (Ok (sent_packet p), rest)) (wire w).
Proof.
  intros H. eapply Forall_impl; [apply (sf_world _ _ (safe_run_safe _ _ H))|]. intros p [_ [Hp _]].
  split; [done|]. intros rest. by apply deserialize_roundtrip.
Qed.

(** What a core sent is a well-formed event for its peer. *)
Lemma sent_packet_ok s w p : safe_run s w -> p ∈ wire w -> packet_ok (sent_packet p).
Proof.
  intros H Hp. pose proof (sf_world _ _ (safe_run_safe _ _ H)) as [_ Hw].
  by apply (proj1 (Forall_forall _ _) Hw) in Hp as [_ ?].
Qed.

Lemma link_event_ok id p : packet_ok p -> event_ok (EvLink id p).
Proof. intros [Hwf Hb]. destruct p; simpl in *; lia || done. Qed.

(** The links of a link set have distinct ids, each below the next id to be
    given out. *)
Theorem link_ids_distinct s w :
  safe_run s w -> NoDup (ids (links_of s)) /\ Forall (fun i => i < next_id w) (ids (links_of s)).
Proof. intros H. by destruct (sf_links _ _ (safe_run_safe _ _ H)). Qed.
End with_outside.
End Safety.
