(* ===== verification/Pairs.v ===== *)
(** * Two cores

    A pair of cores, each with its own application, links and clock, whose links
    carry the packets that the other one sent: in any order, any number of times
    or not at all. *)

From S2P Require Import Prelude Bytes Errors Epochs Proto BTree Slices SliceTheory Segments.
From S2P Require Import Messages Clock Address Outside Connectors Common Links.
From S2P Require Import States Handlers LinkSafety Safety.

Module Pairs.
Import Epoch Protocol Control Common States Handlers Segments Safety.

(** An event of the application, of the timer or of the debug handle, within the
    bounds of [event_ok].  The controller does not enforce them:
    [Findings.huge_timeout_panics] is what a larger timeout does. *)
Definition local `{Outside} (ev : Event) : Prop :=
  match ev with EvLink _ _ => False | _ => event_ok ev end.

Section side.
Context {P : BuildProfile} {O : Outside}.

(** One side moves while [peer] is what the other side has sent so far. *)
Inductive side_step (peer : list Sent) : States * World -> States * World -> Prop :=
  | side_local s w ev s' w' :
      local ev -> enabled ev w = true -> room s w -> handle s ev w = Ret (s', w') ->
      side_step peer (s, w) (s', w')
  | side_packet s w id p s' w' :
      p ∈ peer -> enabled (EvLink id (sent_packet p)) w = true -> room s w ->
      handle s (EvLink id (sent_packet p)) w = Ret (s', w') ->
      side_step peer (s, w) (s', w')
  | side_task s w s' : states_task_step s s' -> side_step peer (s, w) (s', w)
  | side_ended s w id :
      side_step peer (s, w)
        (s, set_common w (set_readers (common w) (filter (fun x => x <> id) (readers (common w))))).

Lemma local_ok ev : local ev -> event_ok ev.
Proof. by destruct ev. Qed.

Lemma side_step_safe peer s w s' w' :
  Forall (fun p => packet_ok (sent_packet p)) peer -> safe_run s w -> side_step peer (s, w) (s', w') ->
  safe_run s' w'.
Proof.
  intros Hp Hr Hs. inversion Hs as [? ? ev ? ? Hl _ Hroom Hh|? ? id p ? ? Hin _ Hroom Hh|? ? ? Ht|? ? id]; subst.
  - eapply safe_event; [done|by apply local_ok|done|done].
  - rewrite Forall_forall in Hp. eapply safe_event; [done|by apply link_event_ok, Hp|done|done].
  - by eapply safe_task.
  - by eapply safe_ended.
Qed.
End side.

Section pair.
Context {P1 P2 : BuildProfile} {O1 O2 : Outside} {OL1 : @OutsideLaws O1} {OL2 : @OutsideLaws O2}.

Inductive pair_run : @States O1 * World -> @States O2 * World -> Prop :=
  | pair_init : pair_run (@states_new O1, world_new) (@states_new O2, world_new)
  | pair_left a b a' : pair_run a b -> @side_step P1 O1 (wire b.2) a a' -> pair_run a' b
  | pair_right a b b' : pair_run a b -> @side_step P2 O2 (wire a.2) b b' -> pair_run a b'.

Lemma wire_packets_ok `{Outside} `{!OutsideLaws} {P : BuildProfile} s w :
  safe_run s w -> Forall (fun p => packet_ok (sent_packet p)) (wire w).
Proof. intros Hr. apply Forall_forall. intros p Hp. by eapply sent_packet_ok. Qed.

Lemma pair_safe a b :
  pair_run a b -> @safe_run P1 O1 a.1 a.2 /\ @safe_run P2 O2 b.1 b.2.
Proof.
  induction 1 as [|a b a' _ [IHa IHb] Hs|a b b' _ [IHa IHb] Hs].
  - split; constructor.
  - split; [|done]. destruct a as [s w], a' as [s' w'].
    eapply (side_step_safe (wire b.2)); [|exact IHa|exact Hs]. eapply (wire_packets_ok (P := P2) b.1), IHb.
  - split; [done|]. destruct b as [s w], b' as [s' w'].
    eapply (side_step_safe (wire a.2)); [|exact IHb|exact Hs]. eapply (wire_packets_ok (P := P1) a.1), IHa.
Qed.

(** C6. Two cores never bring each other down: as long as each application keeps
    to the bounds of [event_ok] (messages that fit in memory, addresses with at most
    eleven permits, timeouts of at most [SPAN], which can be added to the clock)
    and no 64-bit counter is exhausted ([room]), then however the network reorders,
    repeats or loses what the cores send each other, the handler of every packet
    that one has sent returns at the other. *)
Theorem peers_never_panic s1 w1 s2 w2 id p :
  pair_run (s1, w1) (s2, w2) -> p ∈ wire w2 -> room s1 w1 ->
  exists s' w', @handle P1 O1 s1 (EvLink id (sent_packet p)) w1 = Ret (s', w').
Proof.
  intros [Ha Hb]%pair_safe Hp Hr. simpl in *.
  destruct (@handle_returns P1 O1 OL1 s1 (EvLink id (sent_packet p)) w1) as (s' & w' & Heq & _);
    [by apply safe_run_safe|by eapply link_event_ok, sent_packet_ok|done|]. by exists s', w'.
Qed.
End pair.
End Pairs.
