(* ===== verification/Timers.v ===== *)
(** * The timer is armed when it has to be

    The states that must act on their own (retransmit, repeat a request, check
    their links) always have a repeating timer, and act when it fires; a
    disconnected core has none. *)

From S2P Require Import Prelude Bytes Errors Epochs Proto BTree Slices Messages.
From S2P Require Import Clock Address Outside Connectors Common Links Hoare Wire States Handlers.

Module Timers.
Import Epoch Protocol Control Common Links Hoare Wire States Handlers.

Section with_outside.
Context {P : BuildProfile} {O : Outside}.

Definition repeating (d : Deadline.Deadline) : Prop :=
  is_Some (Deadline.deadline d) /\ is_Some (Deadline.repeat_ d).

Definition timed (s : States) (c : CommonState) : Prop :=
  match s with
  | Disconnected _ => Deadline.deadline (timer c) = None
  | EpochMismatch _ | Connected _ => repeating (timer c)
  | _ => True
  end.

Lemma modify_repeat_repeating t d i d' : Deadline.modify_repeat t d i = Ret d' -> repeating d'.
Proof.
  unfold Deadline.modify_repeat. destruct (Deadline.deadline d).
  - intros [= <-]. by split.
  - intros H. apply bind_Ret_inv in H as (x & _ & [= <-]). by split.
Qed.

Lemma poll_repeating ready t d b d' : Deadline.poll ready t d = Ret (b, d') -> repeating d -> repeating d'.
Proof.
  unfold Deadline.poll. intros H [[x Hx] [i Hi]]. rewrite Hx in H. destruct ready.
  - rewrite Hi in H. apply bind_Ret_inv in H as (y & _ & [= _ <-]). by split.
  - injection H as _ <-. split; eauto.
Qed.

Lemma post_modify_repeat i w (Q : unit -> World -> Prop) :
  (forall w', repeating (timer (common w')) -> Q tt w') -> post (timer_modify_repeat i) w Q.
Proof.
  intros H. unfold timer_modify_repeat. post_steps. apply H. by eapply modify_repeat_repeating.
Qed.

(** Operations that leave the timer alone. *)
Definition untimed {A} (m : M A) : Prop :=
  forall w, post m w (fun _ w' => timer (common w') = timer (common w)).

Lemma untimed_quiet {A} (m : M A) : quiet m -> untimed m.
Proof. intros H w. eapply post_mono; [apply H|]. intros _ w' [Hc _ _]. by rewrite Hc. Qed.

Lemma untimed_emit m : untimed (emit m).
Proof. by intros w a w' [= <- <-]. Qed.
Lemma untimed_store_active b : untimed (store_active b).
Proof. by intros w a w' [= <- <-]. Qed.
Lemma untimed_reply r : untimed (reply r).
Proof. by intros w a w' [= <- <-]. Qed.

Lemma untimed_wrap_link l : untimed (wrap_link l).
Proof. intros w. unfold wrap_link. post_steps; use_same; done. Qed.

Lemma untimed_emit_messages msgs e : untimed (emit_messages msgs e).
Proof.
  induction msgs as [|m msgs IH]; intros w; simpl; post_steps; [done|].
  eapply post_mono; [apply IH|]. done.
Qed.

Lemma post_untimed {A} (m : M A) w (Q : A -> World -> Prop) :
  untimed m -> (forall a w', timer (common w') = timer (common w) -> Q a w') -> post m w Q.
Proof. intros Hm HQ. eapply post_mono; [apply Hm|done]. Qed.

Create HintDb untimed.
Hint Resolve untimed_emit untimed_store_active untimed_reply untimed_wrap_link untimed_emit_messages
  : untimed.
Hint Extern 2 (untimed _) => apply untimed_quiet; solve [auto with quiet] : untimed.

(** Runs a transition or handler, tracking the timer. *)
Ltac timer_step :=
  match goal with
  | |- post (mret _) _ _ => apply post_ret
  | |- post (_ ≫= _) _ _ => apply post_bind
  | |- post (_ <$> _) _ _ => apply post_fmap
  | |- post (lift _) _ _ => apply post_lift; intros
  | |- post get_common _ _ => apply post_get_common
  | |- post timer_clear _ _ => intros ? ? [= <- <-]
  | |- post (timer_modify_repeat _) _ _ => apply post_modify_repeat; intros
  | |- post determine_timer _ _ => apply post_any; intros
  | |- post (set_deadline_or_clear _) _ _ => apply post_any; intros
  | |- post (match ?x with _ => _ end) _ _ => destruct x eqn:?
  | |- post (let (_, _) := ?x in _) _ _ => destruct x eqn:?
  | |- post _ _ _ => apply post_untimed; [solve [auto with untimed] | intros]
  end.
Ltac timer_steps := repeat (timer_step; cbv beta zeta).

(** The end: only the equations between timers matter. *)
Ltac timed_done :=
  cbn [timed]; repeat match goal with H : timer _ = timer _ |- _ => rewrite H; clear H end;
  simpl in *; try done.

Lemma determine_state_timed s w :
  timed (Connected s) (common w) -> post (determine_state s) w (fun s' w' => timed s' (common w')).
Proof.
  intros H. unfold determine_state, reconnecting_from_connected, grace_period_from_connected,
    disconnected_from_connected. timer_steps; timed_done.
Qed.

Ltac handler_step :=
  match goal with
  | |- post (determine_state _) _ _ => apply determine_state_timed
  | _ => timer_step
  end.
Ltac handler_steps := repeat (handler_step; cbv beta zeta); timed_done.

Lemma ctrl_msg_timed s msg w :
  timed s (common w) -> post (ctrl_msg s msg) w (fun s' w' => timed s' (common w')).
Proof.
  intros H. destruct s as [s|s|s|s|s|s], msg; simpl ctrl_msg; cbn [timed] in H;
    unfold disconnected_ctrl_msg, connecting_ctrl_msg, epoch_mismatch_ctrl_msg, connected_ctrl_msg,
      reconnecting_ctrl_msg, grace_period_ctrl_msg,
      connecting_from_disconnected, connecting_from_disconnected_msg,
      epoch_mismatch_from_disconnected, epoch_mismatch_from_connecting,
      disconnected_from_connecting, disconnected_from_epoch_mismatch, disconnected_from_connected,
      disconnected_from_reconnecting, disconnected_from_grace_period, connected_from_reconnecting,
      connected_from_grace_period, connected_timer; handler_steps.
Qed.

Lemma link_msg_timed s id msg w :
  timed s (common w) -> post (handle_link_msg s id msg) w (fun s' w' => timed s' (common w')).
Proof.
  intros H. destruct s as [s|s|s|s|s|s], msg; simpl handle_link_msg; cbn [timed] in H;
    unfold connecting_link_msg, epoch_mismatch_link_msg, connected_link_msg, reconnecting_link_msg,
      grace_period_link_msg, connected_from_epoch_mismatch, epoch_mismatch_from_connected,
      connecting_from_reconnecting, disconnected_from_grace_period, connected_timer;
    try (by intros ? ? [= <- <-]); handler_steps.
Qed.

Lemma handle_timer_timed s w :
  timed s (common w) -> post (handle_timer s) w (fun s' w' => timed s' (common w')).
Proof.
  intros H. destruct s as [s|s|s|s|s|s]; simpl handle_timer; cbn [timed] in H;
    unfold disconnected_timer, connecting_timer, epoch_mismatch_timer, connected_timer_handler,
      reconnecting_timer, grace_period_timer, disconnected_from_connecting,
      connecting_from_epoch_mismatch, disconnected_from_epoch_mismatch, connecting_from_reconnecting,
      disconnected_from_reconnecting, connecting_from_grace_period, disconnected_from_grace_period;
    handler_steps.
Qed.

Lemma poll_timer_timed s w :
  timed s (common w) -> enabled EvTimer w = true ->
  post poll_timer w (fun _ w' => timed s (common w')).
Proof.
  intros H He. unfold poll_timer. post_steps. use_same. simpl.
  match goal with H : Deadline.poll _ _ _ = _ |- _ => rename H into Hp end.
  destruct s; simpl in *; try done; try by eapply poll_repeating.
  unfold Deadline.poll in Hp. rewrite H in Hp. by injection Hp as _ <-.
Qed.

Lemma handle_timed s ev w :
  timed s (common w) -> enabled ev w = true -> post (handle s ev) w (fun s' w' => timed s' (common w')).
Proof.
  intros H He. destruct ev as [[cmd|conf]|id msg| |cmd]; simpl.
  - by apply ctrl_msg_timed.
  - unfold handle_config. post_steps. by destruct s, conf.
  - by apply link_msg_timed.
  - apply post_bind. eapply post_mono; [by apply poll_timer_timed|]. intros ? w' Hw.
    by apply handle_timer_timed.
  - destruct s as [s|s|s|s|s|s], cmd; simpl handle_debug; cbn [timed] in H;
      unfold disconnected_debug, connecting_debug, epoch_mismatch_debug, connected_debug,
        reconnecting_debug, grace_period_debug, debug_unlinked; handler_steps.
Qed.

Lemma run_timed evs s w : run evs s w -> timed s (common w).
Proof.
  induction 1 as [|evs s w ev s' w' _ IH He Heq|evs s w s' _ IH Hs|evs s w id _ IH].
  - done.
  - by eapply handle_timed.
  - by destruct Hs.
  - by destruct s.
Qed.

(** ** What the timer does *)

Lemma unwired_poll_timer : unwired poll_timer.
Proof. unfold poll_timer. unwired_steps. Qed.

Lemma determine_stays s w s1 w' :
  determine_state s w = Ret (Connected s1, w') -> cn_links s <> [] /\ w' = w.
Proof.
  unfold determine_state, lm_is_empty. case_bool_decide as Hl; [|by intros [= _ <-]]. intros H. exfalso.
  revert H. match goal with |- ?m w = _ -> _ =>
    assert (post m w (fun s' _ => forall s1, s' <> Connected s1)) as Hp end.
  { unfold reconnecting_from_connected, grace_period_from_connected, disconnected_from_connected.
    by repeat (first [post_step | apply post_any; intros]; cbv beta zeta). }
  intros H. by eapply Hp.
Qed.

(** The request is repeated. *)
Lemma mismatch_repeats s w s1 w' :
  handle (EpochMismatch s) EvTimer w = Ret (EpochMismatch s1, w') -> em_links s1 <> [] ->
  exists n, packets w' = packets w ++ replicate n Ping ++ [Reset (em_epoch s) true].
Proof.
  intros Heq. revert Heq. cut (post (handle (EpochMismatch s) EvTimer) w (fun s' w' => forall s1,
    s' = EpochMismatch s1 -> em_links s1 <> [] ->
    exists n, packets w' = packets w ++ replicate n Ping ++ [Reset (em_epoch s) true])).
  { intros H Heq Hl. by eapply (H _ _ Heq). }
  simpl. apply post_bind. intros [] w0 Hw0%unwired_poll_timer. unfold epoch_mismatch_timer.
  apply post_bind. intros lm w1 Hw1%unwired_upkeep. apply post_bind.
  eapply post_mono; [apply post_ping_all|]. intros lm2 w2 [_ Hw2]. cbv zeta. destruct (lm_is_empty _).
  - repeat (first [post_step | apply post_any; intros]; cbv beta zeta); done.
  - apply post_bind. eapply post_mono; [apply post_send_proto_kept|]. simpl.
    intros [res lm3] w3 Hw3. apply post_ret. intros s2 [= <-] Hl. simpl in Hl, Hw3.
    destruct Hw3 as [[_ Hw3]|[? _]]; [|done]. exists (length lm). rewrite Hw3, Hw2, <- app_assoc.
    f_equal. unfold packets. by rewrite Hw1, Hw0.
Qed.

(** The earliest message that is not acknowledged is sent again. *)
Lemma connected_resends s w s1 w' m rest :
  handle (Connected s) EvTimer w = Ret (Connected s1, w') -> MessageManager.get_outgoing_slices (cn_msg_mgr s) = m :: rest ->
  exists n ps, packets w' = packets w ++ replicate n Ping ++ ps /\ transmitted m ps.
Proof.
  intros Heq Hm. revert Heq. cut (post (handle (Connected s) EvTimer) w (fun s' w' => forall s1,
    s' = Connected s1 -> exists n ps, packets w' = packets w ++ replicate n Ping ++ ps /\ transmitted m ps)).
  { intros H Heq. by eapply (H _ _ Heq). }
  simpl. apply post_bind. intros [] w0 Hw0%unwired_poll_timer. unfold connected_timer_handler.
  apply post_bind. intros t w1 Hw1%unwired_now. apply post_bind.
  eapply (post_mono _ _ (fun _ w2 => exists n, packets w2 = packets w1 ++ replicate n Ping)).
  { destruct (_ <? _); [|apply post_ret; exists 0%nat; by rewrite app_nil_r].
    eapply post_mono; [apply post_ping_all|]. intros lm w2 [_ Hw2]. eauto. }
  intros lm w2 [n Hw2]. apply post_bind. intros lm1 w3 Hw3%unwired_upkeep. apply post_bind. rewrite Hm.
  assert (packets w3 = packets w ++ replicate n Ping) as Hw
    by (unfold packets in *; by rewrite Hw3, Hw2, Hw1, Hw0).
  unfold lm_is_empty. case_bool_decide as Hl.
  - apply post_ret. intros s' w4 Heq s2 ->. by apply determine_stays in Heq as [? _].
  - apply post_bind. eapply post_mono; [apply post_send_slices|]. intros [res lm2] w4 Hw4. apply post_ret.
    intros s' w5 Heq s2 ->. apply determine_stays in Heq as [Hne ->]. simpl in Hne, Hw4.
    destruct Hw4 as [[_ (ps & Htr & Hw4)]|[? _]]; [|done]. exists n, ps. by rewrite Hw4, Hw, <- app_assoc.
Qed.

(** C27. The timer drives the protocol.  In every run, the [EpochMismatch] and
    [Connected] states have a repeating timer, and in the [Disconnected] state no
    timer runs.  When it fires, a negotiating core that still has a link hands
    over the request for its epoch again, and a core that stays connected the
    slices of the earliest message that is not acknowledged (up to the first that
    the link refuses), after nothing but pings. *)
Theorem timer_armed evs s w :
  run evs s w ->
  match s with
  | Disconnected _ => Deadline.has_deadline (timer (common w)) = false
  | EpochMismatch em =>
      Deadline.has_deadline (timer (common w)) = true /\ Deadline.has_repeat (timer (common w)) = true /\
      (forall em' w', handle s EvTimer w = Ret (EpochMismatch em', w') -> em_links em' <> [] ->
        exists n, packets w' = packets w ++ replicate n Ping ++ [Reset (em_epoch em) true])
  | Connected cn =>
      Deadline.has_deadline (timer (common w)) = true /\ Deadline.has_repeat (timer (common w)) = true /\
      (forall cn' w' m rest, handle s EvTimer w = Ret (Connected cn', w') ->
        MessageManager.get_outgoing_slices (cn_msg_mgr cn) = m :: rest ->
        exists n ps, packets w' = packets w ++ replicate n Ping ++ ps /\ transmitted m ps)
  | _ => True
  end.
Proof.
  intros H%run_timed. unfold Deadline.has_deadline, Deadline.has_repeat.
  destruct s; simpl in H; try done; rewrite ?bool_decide_eq_true.
  - rewrite H. by apply bool_decide_eq_false_2.
  - split_and!; [apply H..|]. intros em' w'. apply mismatch_repeats.
  - split_and!; [apply H..|]. intros cn' w' m rest. apply connected_resends.
Qed.
End with_outside.
End Timers.
