(* ===== verification/Handshake.v ===== *)
(** * Agreeing on an epoch

    The part of the state machine that settles the epoch of a connection, as an
    abstract peer that only knows epochs and [Reset] packets; the handlers refine
    it; and two peers with an unreliable network between them are never connected
    under different epochs, and can always reach agreement. *)

From S2P Require Import Prelude Bytes Errors Epochs Proto BTree Slices Messages.
From S2P Require Import Clock Address Outside Connectors Common Links Hoare Wire States Handlers.

Module Handshake.
Import Epoch Protocol Control Common Links Hoare Wire States Handlers.

(** ** The abstract peer *)

Inductive Peer : Type :=
  | Negotiating (epoch : option Epoch)
  | Joined (epoch : Epoch).

(** A [Reset] packet: its epoch and whether it is a request. *)
Abbreviation Packet := (option Epoch * bool)%type.

Definition peer_step (p : Peer) (theirs : option Epoch) (request : bool) : Peer * list Packet :=
  match p with
  | Negotiating mine =>
      match compare_epochs mine theirs with
      | Gt => (Negotiating mine, [(mine, false)])
      | Eq =>
          (match mine with Some e => Joined e | None => Negotiating None end,
           if request then [(mine, false)] else [])
      | Lt => (Joined (default ONE theirs), [(Some (default ONE theirs), false)])
      end
  | Joined e =>
      if request then
        if bool_decide (theirs = Some e) then (Joined e, [(Some e, false)])
        else (Negotiating (Some (increment e)), [(Some (increment e), true)])
      else (Joined e, [])
  end.

Section with_outside.
Context {P : BuildProfile} {O : Outside}.

Definition peer_of (s : States) : option Peer :=
  match s with
  | EpochMismatch s => Some (Negotiating (em_epoch s))
  | Connected s => Some (Joined (cn_epoch s))
  | _ => None
  end.

(** ** What is sent *)

Definition as_reset (p : LinkProtocol) : option Packet :=
  match p with Reset e r => Some (e, r) | _ => None end.

(** The [Reset] packets handed to links so far. *)
Definition resets (w : World) : list Packet := omap as_reset (packets w).

Lemma resets_app w w' ps : packets w' = packets w ++ ps -> resets w' = resets w ++ omap as_reset ps.
Proof. unfold resets. intros ->. apply omap_app. Qed.

(** [m] sends no [Reset] packet. *)
Definition resetless {A} (m : M A) : Prop := forall w, post m w (fun _ w' => resets w' = resets w).

Lemma resetless_unwired {A} (m : M A) : unwired m -> resetless m.
Proof. intros H w. eapply post_mono; [apply H|]. intros a w' Hw. unfold resets. by rewrite (packets_unwired _ _ Hw). Qed.

Lemma resetless_bind {A B} (m : M A) (f : A -> M B) :
  resetless m -> (forall a, resetless (f a)) -> resetless (m ≫= f).
Proof.
  intros Hm Hf w. apply post_bind. eapply post_mono; [apply Hm|]. intros a w1 H1.
  eapply post_mono; [apply Hf|]. intros b w2 H2. by rewrite H2.
Qed.

Create HintDb resetless.
Hint Extern 2 (resetless _) => apply resetless_unwired; solve [auto with unwired] : resetless.

(** Slicing a message produces nothing but slices. *)
Definition is_slice (p : LinkProtocol) : Prop := exists e s n f d, p = MsgSlice e s n f d.

Lemma make_loop_slices fuel d e seq c size end_ ret ps :
  SliceManager.make_loop fuel d e seq c size end_ ret = Ret ps ->
  Forall is_slice ret -> Forall is_slice ps.
Proof.
  revert c ret. induction fuel as [|fuel IH]; intros c ret; simpl; [done|].
  intros H Hret.
  repeat match goal with
  | H : (_ ≫= _) = Ret _ |- _ => apply bind_Ret_inv in H as (? & ? & H)
  | H : (if ?b then _ else _) = Ret _ |- _ => destruct b
  end; simplify_eq; try done;
    first [ eapply IH; [done|] | idtac ]; apply Forall_app; split; try done;
    constructor; try done; by eexists _, _, _, _, _.
Qed.

Lemma get_slices_slices m size ps : SliceManager.get_slices m size = Ret ps -> Forall is_slice ps.
Proof.
  unfold SliceManager.get_slices. generalize (SliceManager.sm_slices m) as l.
  assert (Forall is_slice []) as Hnil by constructor. revert Hnil. generalize (@nil LinkProtocol) as ret.
  intros ret Hret l. revert ret Hret. induction l as [|[s e] l IH]; intros ret Hret; simpl.
  { by intros [= <-]. }
  intros H. apply bind_Ret_inv in H as (new & Hnew & H). eapply IH; [|done]. apply Forall_app.
  split; [done|]. unfold SliceManager.make_slices in Hnew. destruct (_ =? _).
  - by injection Hnew as <-.
  - by eapply make_loop_slices in Hnew; [|constructor].
Qed.

Lemma slices_no_resets ps : Forall is_slice ps -> omap as_reset ps = [].
Proof. by induction 1 as [|p ps (? & ? & ? & ? & ? & ->) Hps IH]. Qed.

Lemma resetless_send_slices lm m : resetless (send_slices lm m).
Proof.
  intros w. eapply post_mono; [apply post_send_slices|].
  intros [res lm'] w' [[_ (ps & (e & all & k & Hall & _ & _ & ->) & Hw)]|[_ Hw]]; [|unfold resets; by rewrite Hw].
  rewrite (resets_app _ _ _ Hw), slices_no_resets, app_nil_r; [done|]. by eapply Forall_take, get_slices_slices.
Qed.
Hint Resolve resetless_send_slices : resetless.

Lemma resetless_send_queued msgs mm lm : resetless (send_queued msgs mm lm).
Proof.
  revert mm lm. induction msgs as [|msg msgs IH]; intros mm lm; simpl; [auto with resetless|].
  apply resetless_bind; [auto with resetless|]. intros [seq mm'].
  apply resetless_bind; [auto with resetless|]. intros m.
  apply resetless_bind; [auto with resetless|]. intros [res lm']. apply IH.
Qed.
Hint Resolve resetless_send_queued : resetless.

Lemma resetless_connected s e : resetless (connected_from_epoch_mismatch s e).
Proof.
  apply resetless_bind; [auto with resetless|]. intros _. apply resetless_bind; [auto with resetless|]. intros [mm lm].
  apply resetless_bind; auto with resetless.
Qed.

(** ** Refinement *)

(** The links of a state in which packets are exchanged. *)
Definition links_of (s : States) : LinkManager :=
  match s with
  | EpochMismatch s => em_links s
  | Connected s => cn_links s
  | _ => []
  end.

Lemma post_reset lm e r w :
  post (reset lm e r) w (fun res w' =>
    (has_usable lm w -> res.2 <> [] /\ resets w' = resets w ++ [(e, r)]) /\
    (no_usable lm w -> res.2 = [] /\ resets w' = resets w)).
Proof.
  eapply post_mono; [apply post_send_proto|]. intros res w' [H1 H2]. split.
  - intros H. destruct (H1 H) as [? Hw]. by rewrite (resets_app _ _ _ Hw).
  - intros H. destruct (H2 H) as [? Hw]. unfold resets. by rewrite Hw.
Qed.

Lemma post_connected s e w :
  post (connected_from_epoch_mismatch s e) w (fun s' w' => cn_epoch s' = e /\ resets w' = resets w).
Proof.
  intros s' w' H. split; [|by apply resetless_connected in H]. revert s' w' H.
  change (post (connected_from_epoch_mismatch s e) w (fun s' _ => cn_epoch s' = e)).
  unfold connected_from_epoch_mismatch. by repeat (first [post_step | apply post_any; intros]; cbv beta zeta).
Qed.

(** With a link left the connected state stays, without one it is left. *)
Lemma post_determine_state s w :
  post (determine_state s) w (fun s' w' => resets w' = resets w /\
    (cn_links s <> [] -> s' = Connected s) /\ (cn_links s = [] -> peer_of s' = None)).
Proof.
  intros s' w' H. split.
  - assert (resetless (determine_state s)) as Hr; [|by apply Hr in H].
    apply resetless_unwired. unfold determine_state, reconnecting_from_connected, grace_period_from_connected,
      disconnected_from_connected.
    unwired_steps.
  - unfold determine_state, lm_is_empty in H. split; intros Hl.
    + rewrite bool_decide_eq_false_2 in H by done. by injection H.
    + rewrite bool_decide_eq_true_2 in H by done. revert s' w' H.
      match goal with |- forall s' w', ?m w = _ -> _ => change (post m w (fun s' _ => peer_of s' = None)) end.
      unfold reconnecting_from_connected, grace_period_from_connected, disconnected_from_connected.
      by repeat (first [post_step | apply post_any; intros]; cbv beta zeta).
Qed.

(** What a handler makes of a [Reset] when it has a usable link, and without. *)
Definition refines (s : States) (w : World) (step : Peer * list Packet) (leaves : Prop)
    (s' : States) (w' : World) : Prop :=
  (has_usable (links_of s) w -> peer_of s' = Some step.1 /\ resets w' = resets w ++ step.2) /\
  (no_usable (links_of s) w -> resets w' = resets w /\
    (peer_of s' = Some step.1 \/ leaves /\ peer_of s' = None)).

Lemma mismatch_refines s id theirs request w :
  post (epoch_mismatch_link_msg s id (Reset theirs request)) w
    (refines (EpochMismatch s) w (peer_step (Negotiating (em_epoch s)) theirs request) False).
Proof.
  unfold refines. simpl. destruct (compare_epochs (em_epoch s) theirs) eqn:Hcmp; simpl.
  - apply compare_epochs_Eq in Hcmp as (e & He & ->). rewrite He. destruct request.
    + apply post_bind, post_bind. eapply post_mono; [apply post_reset|]. intros [res lm] w1 [H1 H2].
      apply post_ret, post_bind, post_lift. simpl. rewrite He. intros x [= <-].
      apply post_fmap. eapply post_mono; [apply post_connected|]. simpl. intros s1 w2 [-> Hw].
      split; intros Hu; [destruct (H1 Hu) as [_ H]|destruct (H2 Hu) as [_ H]]; rewrite Hw, H; auto.
    + apply post_bind, post_ret, post_bind, post_lift. rewrite He. intros x [= <-].
      apply post_fmap. eapply post_mono; [apply post_connected|]. simpl. intros s1 w2 [-> Hw].
      rewrite app_nil_r. auto.
  - apply post_bind. eapply post_mono; [apply post_reset|]. intros [res lm] w1 [H1 H2].
    apply post_fmap. eapply post_mono; [apply post_connected|]. simpl. intros s1 w2 [-> Hw].
    split; intros Hu; [destruct (H1 Hu) as [_ H]|destruct (H2 Hu) as [_ H]]; rewrite Hw, H; auto.
  - apply post_bind. eapply post_mono; [apply post_reset|]. intros [res lm] w1 [H1 H2]. apply post_ret. simpl.
    split; intros Hu; [destruct (H1 Hu) as [_ H]|destruct (H2 Hu) as [_ H]]; auto.
Qed.

Lemma connected_refines s id theirs request w :
  post (connected_link_msg s id (Reset theirs request)) w
    (refines (Connected s) w (peer_step (Joined (cn_epoch s)) theirs request)
      (request = true /\ theirs = Some (cn_epoch s))).
Proof.
  unfold refines. simpl. destruct request; [|apply post_ret; simpl; rewrite app_nil_r; auto].
  case_bool_decide as Ht; simpl.
  - apply post_bind. eapply post_mono; [apply post_reset|]. intros [res lm] w1 [H1 H2].
    eapply post_mono; [apply post_determine_state|]. simpl. intros s' w2 (Hw & Hstay & Hleave).
    split; intros Hu; [destruct (H1 Hu) as [Hl H]|destruct (H2 Hu) as [Hl H]]; simpl in Hl; rewrite Hw, H.
    + by rewrite Hstay.
    + auto.
  - apply post_fmap. unfold epoch_mismatch_from_connected. apply post_bind.
    eapply post_mono; [apply post_reset|]. intros [res lm] w1 [H1 H2].
    apply post_bind. intros [] w2 Hw2%unwired_timer_modify_repeat. apply post_bind.
    intros [] w3 Hw3%unwired_store_active. apply post_ret. simpl.
    assert (resets w3 = resets w1) as Hw by (unfold resets, packets; by rewrite Hw3, Hw2).
    split; intros Hu; [destruct (H1 Hu) as [_ H]|destruct (H2 Hu) as [_ H]]; rewrite Hw, H; auto.
Qed.

(** ** Properties *)

(** C11. The handlers of the [EpochMismatch] and [Connected] states answer a
    [Reset] exactly as the abstract peer does.  With a usable link they end up as
    it does and hand over exactly its packets; when no link is usable any more
    they send nothing, and end up as it does, except that a connected state that
    could not confirm its epoch leaves the connection. *)
Theorem reset_refines_peer s p id theirs request w s' w' :
  peer_of s = Some p -> handle_link_msg s id (Reset theirs request) w = Ret (s', w') ->
  (has_usable (links_of s) w ->
     peer_of s' = Some (peer_step p theirs request).1 /\
     resets w' = resets w ++ (peer_step p theirs request).2) /\
  (no_usable (links_of s) w ->
     resets w' = resets w /\
     (peer_of s' = Some (peer_step p theirs request).1 \/
      request = true /\ (exists e, p = Joined e /\ theirs = Some e) /\ peer_of s' = None)).
Proof.
  intros Hp Heq. destruct s as [|s0|s|s| |]; try done; injection Hp as <-.
  - destruct (mismatch_refines s id theirs request w _ _ Heq) as [H1 H2]. split; [done|].
    intros Hu. destruct (H2 Hu) as [? [?|[[] _]]]. auto.
  - destruct (connected_refines s id theirs request w _ _ Heq) as [H1 H2]. split; [done|].
    intros Hu. destruct (H2 Hu) as [? [?|[[? ?] ?]]]; [auto|]. split; [done|]. right. eauto.
Qed.

End with_outside.

(** ** Two peers and an unreliable network *)

(** Both sides of a connection, and every [Reset] packet that was ever sent to
    each. *)
Record Pair : Type := mk_pair {
  peer_a : Peer;
  peer_b : Peer;
  to_a : list Packet;
  to_b : list Packet;
}.

(** The epoch a peer has come to; having none counts as the first. *)
Definition current (p : Peer) : Z :=
  match p with
  | Negotiating e => to_int (default ONE e)
  | Joined e => to_int e
  end.

(** What one side does, and what it sends: it handles any packet that was ever
    sent to it; while negotiating, its timer repeats the request; and, with
    [restarts], it may give up the connection at any time and negotiate again
    under an epoch that is not smaller than its last. *)
Inductive act (restarts : bool) : Peer -> list Packet -> Peer -> list Packet -> Prop :=
  | act_deliver p inbox theirs request :
      (theirs, request) ∈ inbox ->
      act restarts p inbox (peer_step p theirs request).1 (peer_step p theirs request).2
  | act_timer e inbox : act restarts (Negotiating e) inbox (Negotiating e) [(e, true)]
  | act_restart p inbox e :
      restarts = true -> current p <= to_int e ->
      act restarts p inbox (Negotiating (Some e)) [(Some e, true)].

Inductive step (restarts : bool) : Pair -> Pair -> Prop :=
  | step_a st a out :
      act restarts (peer_a st) (to_a st) a out ->
      step restarts st (mk_pair a (peer_b st) (to_a st) (to_b st ++ out))
  | step_b st b out :
      act restarts (peer_b st) (to_b st) b out ->
      step restarts st (mk_pair (peer_a st) b (to_a st ++ out) (to_b st)).

(** Two sides that found a link; nothing was sent yet. *)
Definition start (a b : option Epoch) : Pair := mk_pair (Negotiating a) (Negotiating b) [] [].

Definition packet_epoch (x : Packet) : Z := to_int (default ONE x.1).

(** A packet never carries more than its sender has come to, and a side that
    joined an epoch did so because the other one had come to it. *)
Record agree_inv (st : Pair) : Prop := {
  ai_to_b : Forall (fun x => packet_epoch x <= current (peer_a st)) (to_b st);
  ai_to_a : Forall (fun x => packet_epoch x <= current (peer_b st)) (to_a st);
  ai_a : forall e, peer_a st = Joined e -> to_int e <= current (peer_b st);
  ai_b : forall e, peer_b st = Joined e -> to_int e <= current (peer_a st);
}.

Lemma to_int_pos e : to_int ONE <= to_int e.
Proof. pose proof (epoch_range e). unfold to_int, ONE. simpl. lia. Qed.

Lemma le_increment e : to_int e <= to_int (increment e).
Proof. rewrite increment_value. pose proof (epoch_range e). unfold to_int. lia. Qed.

Lemma peer_step_agree p theirs request bound :
  packet_epoch (theirs, request) <= bound -> (forall e, p = Joined e -> to_int e <= bound) ->
  let r := peer_step p theirs request in
  current p <= current r.1 /\ Forall (fun x => packet_epoch x <= current r.1) r.2 /\
  (forall e, r.1 = Joined e -> to_int e <= bound).
Proof.
  unfold packet_epoch. intros Hb Hj. destruct p as [mine|e]; simpl in *.
  - destruct (compare_epochs mine theirs) eqn:Hcmp; simpl.
    + apply compare_epochs_Eq in Hcmp as (e & -> & ->). simpl in *.
      split_and!; [lia|destruct request; repeat constructor; simpl; lia|by intros ? [= <-]].
    + split_and!; [|repeat constructor; simpl; lia|by intros ? [= <-]].
      destruct mine as [m|], theirs as [t|]; try done; [by apply Z.lt_le_incl, Z.compare_lt_iff|apply to_int_pos].
    + split_and!; [lia|repeat constructor; simpl; lia|done].
  - destruct request; simpl; [|split_and!; [lia|constructor|done]]. case_bool_decide; simpl.
    + split_and!; [lia|repeat constructor; simpl; lia|done].
    + split_and!; [apply le_increment|repeat constructor; simpl; lia|done].
Qed.

Lemma act_agree restarts p inbox p' out bound :
  act restarts p inbox p' out -> Forall (fun x => packet_epoch x <= bound) inbox ->
  (forall e, p = Joined e -> to_int e <= bound) ->
  current p <= current p' /\ Forall (fun x => packet_epoch x <= current p') out /\
  (forall e, p' = Joined e -> to_int e <= bound).
Proof.
  intros Ha Hin Hj. destruct Ha as [p inbox theirs request Hx|e inbox|p inbox e _ He].
  - rewrite Forall_forall in Hin. apply peer_step_agree; [by apply Hin|done].
  - split_and!; [lia|repeat constructor; unfold packet_epoch; simpl; lia|done].
  - split_and!; [done|repeat constructor; unfold packet_epoch; simpl; lia|done].
Qed.

Lemma Forall_le_mono {A} (f : A -> Z) (l : list A) x y :
  x <= y -> Forall (fun a => f a <= x) l -> Forall (fun a => f a <= y) l.
Proof. intros H Hl. eapply Forall_impl; [exact Hl|]. intros a. simpl. lia. Qed.

Lemma agree_step restarts st st' : agree_inv st -> step restarts st st' -> agree_inv st'.
Proof.
  intros [Hb Ha Hja Hjb] Hs. destruct Hs as [st a out Hact|st b out Hact].
  - destruct (act_agree _ _ _ _ _ _ Hact Ha Hja) as (Hmono & Hout & Hj). constructor; simpl; try done.
    + apply Forall_app. split; [by eapply Forall_le_mono|done].
    + intros e He. apply Hjb in He. lia.
  - destruct (act_agree _ _ _ _ _ _ Hact Hb Hjb) as (Hmono & Hout & Hj). constructor; simpl; try done.
    + apply Forall_app. split; [by eapply Forall_le_mono|done].
    + intros e He. apply Hja in He. lia.
Qed.

Lemma agree_run a b st : rtc (step true) (start a b) st -> agree_inv st.
Proof.
  revert st. apply rtc_ind_r; [by constructor; simpl|]. intros y z _ Hyz IH. by eapply agree_step.
Qed.

(** *** Progress *)

(** The sides exchanged. *)
Definition swap (st : Pair) : Pair := mk_pair (peer_b st) (peer_a st) (to_b st) (to_a st).

Lemma swap_swap st : swap (swap st) = st.
Proof. by destruct st. Qed.

Lemma step_swap r st st' : step r st st' -> step r (swap st) (swap st').
Proof. destruct 1; [by apply (step_b r (swap st))|by apply (step_a r (swap st))]. Qed.

Lemma run_swap r st st' : rtc (step r) st st' -> rtc (step r) (swap st) (swap st').
Proof. induction 1 as [|x y z H _ IH]; [done|]. econstructor; [by apply step_swap|done]. Qed.

(** A side handles packets in order, and answers. *)
Fixpoint handle_all (p : Peer) (xs : list Packet) : Peer * list Packet :=
  match xs with
  | [] => (p, [])
  | (theirs, request) :: xs =>
      let '(p, out) := peer_step p theirs request in
      let '(p, out') := handle_all p xs in (p, out ++ out')
  end.

(** [p] has sent [xs]; the sides take turns, and nothing is lost. *)
Fixpoint talk (turns : nat) (p q : Peer) (xs : list Packet) : Peer * Peer :=
  match turns with
  | 0%nat => (p, q)
  | S turns =>
      let '(q, ys) := handle_all q xs in
      let '(q, p) := talk turns q p ys in (p, q)
  end.

Lemma handle_all_run xs st :
  xs ⊆ to_b st ->
  rtc (step false) st (mk_pair (peer_a st) (handle_all (peer_b st) xs).1
    (to_a st ++ (handle_all (peer_b st) xs).2) (to_b st)).
Proof.
  revert st. induction xs as [|[theirs request] xs IH]; intros st Hin; simpl.
  { rewrite app_nil_r. by destruct st. }
  pose proof (act_deliver false (peer_b st) (to_b st) theirs request) as Hact.
  apply step_b in Hact; [|apply Hin; left]. destruct (peer_step (peer_b st) theirs request) as [q out] eqn:E. simpl in Hact.
  eapply rtc_l; [exact Hact|]. specialize (IH (mk_pair (peer_a st) q (to_a st ++ out) (to_b st))). simpl in IH.
  destruct (handle_all q xs) as [q' out']. simpl in IH |- *. rewrite app_assoc. apply IH.
  intros x Hx. apply Hin. by right.
Qed.

Lemma talk_run turns st xs :
  xs ⊆ to_b st ->
  exists st', rtc (step false) st st' /\ (peer_a st', peer_b st') = talk turns (peer_a st) (peer_b st) xs.
Proof.
  revert st xs. induction turns as [|turns IH]; intros st xs Hin; simpl; [by exists st|].
  pose proof (handle_all_run xs st Hin) as Hrun. destruct (handle_all (peer_b st) xs) as [q ys]. simpl in Hrun.
  destruct (IH (swap (mk_pair (peer_a st) q (to_a st ++ ys) (to_b st))) ys) as (st' & Hrun' & Heq).
  { simpl. intros x Hx. apply elem_of_app. by right. }
  exists (swap st'). split.
  - etrans; [exact Hrun|]. by apply run_swap in Hrun'.
  - simpl in *. by destruct (talk turns q (peer_a st) ys) as [q' p']; simplify_eq/=.
Qed.

Lemma compare_cases a b :
  a = b /\ (to_int a ?= to_int b) = Eq \/
  (to_int a ?= to_int b) = Lt /\ (to_int b ?= to_int a) = Gt \/
  (to_int a ?= to_int b) = Gt /\ (to_int b ?= to_int a) = Lt.
Proof.
  rewrite (Z.compare_antisym (to_int a) (to_int b)). destruct (to_int a ?= to_int b) eqn:E; auto.
  left. split; [|done]. by apply epoch_eq, Z.compare_eq_iff.
Qed.

(** Evaluates a dialogue with the comparisons among the hypotheses. *)
Ltac settle :=
  repeat (cbn [talk handle_all peer_step compare_epochs default app negb];
    repeat match goal with H : (_ ?= _) = _ |- _ => rewrite H end;
    rewrite ?Z.compare_refl, ?bool_decide_eq_true_2 by done;
    rewrite ?bool_decide_eq_false_2 by done).

(** The request of a side that negotiates settles the epoch within five turns. *)
Lemma talk_joins a q :
  exists e, talk 5 (Negotiating a) q [(a, true)] = (Joined e, Joined e).
Proof.
  destruct q as [b|b].
  - destruct a as [a|], b as [b|]; try (by eexists; settle).
    destruct (compare_cases a b) as [[-> _]|[[H1 H2]|[H1 H2]]]; by eexists; settle.
  - destruct (decide (a = Some b)) as [->|Hne]; [by eexists; settle|]. destruct a as [a|]; [|by eexists; settle].
    destruct (compare_cases a (increment b)) as [[-> _]|[[H1 H2]|[H1 H2]]]; by eexists; settle.
Qed.

Definition joined (st : Pair) : Prop := exists e, peer_a st = Joined e /\ peer_b st = Joined e.

Lemma negotiating_joins st a :
  peer_a st = Negotiating a -> exists st', rtc (step false) st st' /\ joined st'.
Proof.
  intros Ha. set (st1 := mk_pair (peer_a st) (peer_b st) (to_a st) (to_b st ++ [(a, true)])).
  assert (step false st st1) as H1 by (apply step_a; rewrite Ha; apply act_timer).
  destruct (talk_run 5 st1 [(a, true)]) as (st' & Hrun & Heq).
  { intros x Hx. apply elem_of_app. by right. }
  destruct (talk_joins a (peer_b st)) as [e He]. change (peer_b st) with (peer_b st1) in He.
  rewrite <- Ha in He. change (peer_a st) with (peer_a st1) in He. rewrite He in Heq.
  exists st'. split; [by econstructor|]. exists e. by simplify_eq.
Qed.

(** C10. Two peers, which answer as the handlers do (C11), never hold a connection
    under different epochs: whatever packets are lost, repeated, delayed or reordered, however often requests are repeated
    and either side gives up and starts again, when both are connected they are
    so under the same epoch.  And agreement can always be reached: from every such
    state, repeated requests and deliveries (and no new start) connect both. *)
Theorem peers_agree a b st :
  rtc (step true) (start a b) st ->
  (forall x y, peer_a st = Joined x -> peer_b st = Joined y -> x = y) /\
  (exists st', rtc (step false) st st' /\ joined st').
Proof.
  intros [Hb Ha Hja Hjb]%agree_run. assert (Heq : forall x y, peer_a st = Joined x -> peer_b st = Joined y -> x = y).
  { intros x y Hx Hy. apply epoch_eq. specialize (Hja x Hx). specialize (Hjb y Hy).
    rewrite Hx in Hjb. rewrite Hy in Hja. simpl in *. unfold to_int in *. lia. }
  split; [done|]. destruct (peer_a st) as [ea|x] eqn:Hx; [by eapply negotiating_joins|].
  destruct (peer_b st) as [eb|y] eqn:Hy.
  - destruct (negotiating_joins (swap st) eb) as (st' & Hrun & e & H1 & H2); [done|].
    exists (swap st'). split; [|by exists e]. apply run_swap in Hrun. by rewrite swap_swap in Hrun.
  - exists st. split; [done|]. exists x. split; [done|]. rewrite Hy. f_equal. symmetry. by apply Heq.
Qed.
End Handshake.
