(* ===== verification/Controller.v ===== *)
(** * The application's handle ([src/link_set/controller.rs],
    [src/link_set/reader.rs])

    [LinkSet] and [LinkSetReader]: commands to the core, and receiving, which
    also maintains the epoch that the handles share. *)

From S2P Require Import Prelude Bytes Errors Epochs Proto BTree Slices Messages.
From S2P Require Import Clock Address Outside Connectors Common Links Hoare States Handlers Notify.

Module Controller.
Import Epoch Protocol Control.

(** The trait of the messages an application sends; errors by their rendering. *)
Class LinkSetSendable (T : Type) := {
  to_bytes : T -> result BoxError bytes;
  from_bytes : bytes -> result BoxError T;
}.

Inductive LinkSetMessage (T : Type) : Type :=
  | LsDisconnected
  | LsConnected (epoch : Epoch)
  | LsAttemptingConnection (b : bool)
  | LsMessage (m : T) (epoch : Epoch).
Arguments LsDisconnected {_}. Arguments LsConnected {_}.
Arguments LsAttemptingConnection {_}. Arguments LsMessage {_}.

(** The receiving half of the channel from the core: what is queued, and
    whether the core is gone. *)
Record Receiver : Type := mk_receiver { queue : list LinkSetMessageInner; closed : bool }.

(** [Receiver::recv]: [None] while it has to wait. *)
Definition chan_recv (r : Receiver) : option (option LinkSetMessageInner * Receiver) :=
  match queue r with
  | m :: q => Some (Some m, mk_receiver q (closed r))
  | [] => if closed r then Some (None, r) else None
  end.

Definition finished (r : Receiver) : bool := closed r && bool_decide (queue r = []).

Section with_outside.
Context {O : Outside} {T : Type} `{LinkSetSendable T}.

(** The epoch is in a cell shared by all handles: it is passed and returned. *)
Abbreviation Cell := (option Epoch).

Record LinkSet : Type := mk_link_set { from_core : option Receiver }.
Record LinkSetReader : Type := mk_reader { reader_from_core : Receiver }.

Definition try_from (value : LinkSetMessageInner) : LinkSetResult (LinkSetMessage T) :=
  match value with
  | Control.Disconnected => Ok LsDisconnected
  | Control.Connected epoch => Ok (LsConnected epoch)
  | AttemptingConnection is_connecting => Ok (LsAttemptingConnection is_connecting)
  | Received bytes epoch =>
      match from_bytes bytes with
      | Ok m => Ok (LsMessage m epoch)
      | Err e => Err (SendableDeserialization e)
      end
  end.

(** ** Receiving *)

(** The two updates of the shared epoch after a message was converted. *)
Definition note_epoch (cell : Cell) (ret : LinkSetMessage T) : Cell :=
  match ret with
  | LsConnected epoch => Some epoch
  | LsDisconnected => None
  | _ => cell
  end.

(** What [recv] makes of the message it got from the channel. *)
Definition converted (cell : Cell) (value : LinkSetMessageInner)
    : LinkSetResult (LinkSetMessage T) * Cell :=
  match try_from value with
  | Ok ret => (Ok ret, note_epoch cell ret)
  | Err e => (Err e, cell)
  end.

(** [LinkSet::recv]; [None] while it waits. *)
Definition recv (ls : LinkSet) (cell : Cell)
    : option (LinkSetResult (LinkSetMessage T) * LinkSet * Cell) :=
  match from_core ls with
  | None => Some (Err ReceiverTaken, ls, cell)
  | Some r =>
      '(item, r) ← chan_recv r;
      let ls := mk_link_set (Some r) in
      match item with
      | None => Some (Err Terminated, ls, cell)
      | Some value => let (res, cell) := converted cell value in Some (res, ls, cell)
      end
  end.

(** [LinkSetReader::recv]: also forgets the epoch when the core is gone. *)
Definition reader_recv (rd : LinkSetReader) (cell : Cell)
    : option (LinkSetResult (LinkSetMessage T) * LinkSetReader * Cell) :=
  '(item, r) ← chan_recv (reader_from_core rd);
  let rd := mk_reader r in
  match item with
  | None => Some (Err Terminated, rd, None)
  | Some value => let (res, cell) := converted cell value in Some (res, rd, cell)
  end.

Definition reader_drop (rd : LinkSetReader) (cell : Cell) : Cell := None.

Definition take_recv (ls : LinkSet) : option LinkSetReader * LinkSet :=
  match from_core ls with
  | Some r => (Some (mk_reader r), mk_link_set None)
  | None => (None, ls)
  end.

Definition clone_sender (ls : LinkSet) : LinkSet := mk_link_set None.

Definition current_epoch (ls : LinkSet) (cell : Cell) : option Epoch :=
  match from_core ls with
  | Some r => if finished r then None else cell
  | None => cell
  end.

Definition reader_current_epoch (rd : LinkSetReader) (cell : Cell) : option Epoch :=
  if finished (reader_from_core rd) then None else cell.

(** [is_active()]: the shared flag, and the core still runs. *)
Definition is_active (flag alive : bool) : bool := flag && alive.

(** ** Commands: what is put on the channel to the core, while it is [alive] *)

Definition to_core (alive : bool) (msg : LinkSetControl) : LinkSetResult unit * list LinkSetControl :=
  if alive then (Ok tt, [msg]) else (Err Terminated, []).

Definition connect alive := to_core alive (Command Connect).
Definition disconnect alive := to_core alive (Command Disconnect).
Definition add_connector alive (conn : connector) := to_core alive (Command (AddConnector conn)).
Definition set_auto_connect alive (b : bool) := to_core alive (Config (AutoConnect b)).
Definition set_connection_timeout alive (t : option Duration) := to_core alive (Config (ConnectTimeout t)).
Definition set_reconnection_timeout alive (t : option Duration) := to_core alive (Config (ReconnectTimeout t)).
Definition set_grace_period_timeout alive (t : option Duration) := to_core alive (Config (GracePeriodTimeout t)).

Definition add_addr alive (addr : Address) :=
  to_core alive (Command (AddAddress (ConnectorManager.repeat (ConnectorManager.new addr)))).

Definition try_addr alive (addr : Address) :=
  to_core alive (Command (AddAddress (ConnectorManager.add_count (ConnectorManager.new addr) 1))).

Definition add_link_boxed alive (l : link) := to_core alive (Command (AddLink l)).

Definition send_opt_epoch alive (msg : T) (epoch : option Epoch)
    : LinkSetResult unit * list LinkSetControl :=
  match to_bytes msg with
  | Err e => (Err (SendableSerialization e), [])
  | Ok bytes => to_core alive (Command (Message bytes epoch))
  end.

Definition send alive (msg : T) := send_opt_epoch alive msg None.
Definition send_with_epoch alive (msg : T) (epoch : Epoch) := send_opt_epoch alive msg (Some epoch).

(** ** Reading everything the core sent *)

(** Calls [recv] until nothing is left. *)
Fixpoint drain (fuel : nat) (ls : LinkSet) (cell : Cell) : LinkSet * Cell :=
  match fuel with
  | 0%nat => (ls, cell)
  | S fuel =>
      match from_core ls with
      | Some r =>
          if bool_decide (queue r = []) then (ls, cell)
          else match recv ls cell with
               | Some (_, ls, cell) => drain fuel ls cell
               | None => (ls, cell)
               end
      | None => (ls, cell)
      end
  end.

Lemma converted_observe m value m' :
  Notify.observe m value = Some m' -> (converted (Notify.status m) value).2 = Notify.status m'.
Proof.
  destruct value as [|e|b|msg e]; unfold converted; simpl.
  - destruct (Notify.status m); [|done]. by intros [= <-].
  - destruct (_ || _); [|done]. by intros [= <-].
  - destruct (Bool.eqb _ _); [done|]. by intros [= <-].
  - case_bool_decide; [|done]. intros [= <-]. by destruct (from_bytes msg).
Qed.

(** Reading notifications that the monitor accepts leaves its status in the
    shared epoch. *)
Lemma drain_status log m m' b :
  Notify.watch m log = Some m' ->
  drain (length log) (mk_link_set (Some (mk_receiver log b))) (Notify.status m) =
    (mk_link_set (Some (mk_receiver [] b)), Notify.status m').
Proof.
  revert m. induction log as [|value log IH]; intros m Hw; simpl in *; [by injection Hw as <-|].
  destruct (Notify.observe m value) as [m1|] eqn:Ho; [|done]. simpl in Hw.
  apply converted_observe in Ho. unfold recv. simpl.
  destruct (converted (Notify.status m) value) as [res cell]. simpl in Ho. subst cell. by apply IH.
Qed.

(** ** Properties *)

(** C28. An application that has read everything the core sent sees the epoch of
    the session the core is in, in every run, whether or not messages could be
    deserialized. *)
Theorem current_epoch_in_session {P : BuildProfile} evs s w e :
  Handlers.run evs s w -> Notify.session s = Some e ->
  let (ls, cell) := drain (length (Common.to_ctrl w))
    (mk_link_set (Some (mk_receiver (Common.to_ctrl w) false))) None in
  current_epoch ls cell = Some e.
Proof.
  intros Hrun Hs. destruct (Notify.run_agrees _ _ _ Hrun) as (m & Hm & Ha).
  pose proof (drain_status _ _ _ false Hm) as Hd. simpl in Hd. rewrite Hd. by destruct (Notify.ag_session _ _ _ Ha _ Hs) as [-> _].
Qed.

(** A failed serialization sends nothing, and a message that was tied to an
    epoch is dropped by every session of another epoch: nothing is sent and the
    core stays as it is. *)
Theorem wrong_epoch_dropped {P : BuildProfile} s (msg : T) epoch e w cmd :
  Notify.session s = Some e -> epoch <> e ->
  cmd ∈ (send_with_epoch true msg epoch).2 -> Handlers.handle s (Handlers.EvCtrl cmd) w = Ret (s, w).
Proof.
  intros Hs Hne Hcmd. unfold send_with_epoch, send_opt_epoch in Hcmd.
  destruct (to_bytes msg) as [b|]; [|by apply not_elem_of_nil in Hcmd].
  apply list_elem_of_singleton in Hcmd as ->.
  assert (Handlers.wrong_epoch (Some epoch) e = true) as Hw
    by (unfold Handlers.wrong_epoch; by rewrite bool_decide_eq_false_2).
  destruct s as [|?|?|s|s|s]; try done; injection Hs as <-;
    cbn [Handlers.handle Handlers.handle_ctrl_msg Handlers.ctrl_msg Handlers.connected_ctrl_msg
      Handlers.reconnecting_ctrl_msg Handlers.grace_period_ctrl_msg]; by rewrite Hw.
Qed.

(** [try_addr] asks for exactly one attempt: an address that is new to the
    core gets one permit and no repetition, so its task never completes more
    than one attempt. *)
Theorem try_addr_once {P : BuildProfile} addr conn n a' t' cmd :
  (try_addr true addr).2 = [Command (AddAddress cmd)] ->
  ConnectorManager.task_run cmd (ConnectorManager.create_task conn) n a' t' -> 0 <= n <= 1.
Proof.
  intros [= <-] Hrun. set (a := ConnectorManager.add_count _ _) in *.
  assert (ConnectorManager.cma_count a = 1) as Ha by done.
  destruct (ConnectorManager.task_run_budget _ _ _ _ _ Hrun) as (_ & Hc & _ & Hn & Hb); [done..|lia|].
  pose proof (ConnectorManager.abort_count a' (Some t')). unfold ConnectorManager.budget in Hb. lia.
Qed.
End with_outside.
End Controller.
