(* ===== verification/CoreTask.v ===== *)
(** * The task of the core and its handles ([src/core.rs],
    [src/link_set/controller.rs], [src/debug.rs])

    [start_core] spawns the loop of the core and returns the channels to it; the
    loop takes commands, packets, timeouts and debug requests from them.  Handles,
    connector tasks and the core itself hold senders of the control channel. *)

From S2P Require Import Prelude Bytes Errors Epochs Proto BTree Slices Messages.
From S2P Require Import Clock Address Outside Channels Connectors Common Links States Handlers.

Module CoreTask.
Import Epoch Protocol Control Common States Handlers.

(** How the spawned task stands: it loops, it returned, or a handler panicked. *)
Inductive Status : Type :=
  | Running
  | Returned
  | Panicked.

#[export] Instance Status_eq_dec : EqDecision Status.
Proof. solve_decision. Defined.

Section with_outside.
Context {P : BuildProfile} {O : Outside}.

(** Debug requests carry the name of their oneshot channel; [snapshots] and
    [evictions] are the replies that were sent on those.  [handles], [tasks] and
    [debuggers] count the handles, the connector tasks and the debug handles that
    hold a sender; [accepted] are all commands that ever entered the channel. *)
Record Core : Type := mk_core {
  ctrl : Channel.Chan LinkSetControl;
  handles : nat;
  tasks : nat;
  accepted : list LinkSetControl;
  debug : option (Channel.Chan (Z * DebugCommand));
  next_oneshot : Z;
  snapshots : gmap Z DebugReplySnapshot;
  evictions : gmap Z bool;
  status : Status;
  state : States;
  world : World;
}.

Definition set_ctrl (c : Core) x :=
  mk_core x (handles c) (tasks c) (accepted c) (debug c) (next_oneshot c) (snapshots c) (evictions c)
    (status c) (state c) (world c).
Definition set_handles (c : Core) x :=
  mk_core (ctrl c) x (tasks c) (accepted c) (debug c) (next_oneshot c) (snapshots c) (evictions c)
    (status c) (state c) (world c).
Definition set_tasks (c : Core) x :=
  mk_core (ctrl c) (handles c) x (accepted c) (debug c) (next_oneshot c) (snapshots c) (evictions c)
    (status c) (state c) (world c).
Definition set_accepted (c : Core) x :=
  mk_core (ctrl c) (handles c) (tasks c) x (debug c) (next_oneshot c) (snapshots c) (evictions c)
    (status c) (state c) (world c).
Definition set_debug (c : Core) x :=
  mk_core (ctrl c) (handles c) (tasks c) (accepted c) x (next_oneshot c) (snapshots c) (evictions c)
    (status c) (state c) (world c).
Definition set_next_oneshot (c : Core) x :=
  mk_core (ctrl c) (handles c) (tasks c) (accepted c) (debug c) x (snapshots c) (evictions c)
    (status c) (state c) (world c).
Definition set_snapshots (c : Core) x :=
  mk_core (ctrl c) (handles c) (tasks c) (accepted c) (debug c) (next_oneshot c) x (evictions c)
    (status c) (state c) (world c).
Definition set_evictions (c : Core) x :=
  mk_core (ctrl c) (handles c) (tasks c) (accepted c) (debug c) (next_oneshot c) (snapshots c) x
    (status c) (state c) (world c).
Definition set_status (c : Core) x :=
  mk_core (ctrl c) (handles c) (tasks c) (accepted c) (debug c) (next_oneshot c) (snapshots c) (evictions c)
    x (state c) (world c).
Definition set_state (c : Core) s w :=
  mk_core (ctrl c) (handles c) (tasks c) (accepted c) (debug c) (next_oneshot c) (snapshots c) (evictions c)
    (status c) s w.

(** ** Starting *)

(** [start_core]: the core keeps a sender of its own control channel, in
    [CommonState], next to the one it returns. *)
Definition start_core (debug_channel : option (Channel.Chan (Z * DebugCommand))) : Core :=
  mk_core (Channel.clone_sender (Channel.mk_chan [] 10 false 1)) 1 0 [] debug_channel 0 ∅ ∅
    Running states_new world_new.

(** [LinkSet::new] and [LinkSet::new_debug]. *)
Definition new : Core := start_core None.
Definition new_debug : Core := start_core (Some (Channel.mk_chan [] 10 false 1)).

(** ** What the handles do *)

Definition is_terminated (c : Core) : bool := Channel.is_closed (ctrl c).

(** A sender of the control channel sends; the errors become [Terminated]. *)
Definition send_ctrl (c : Core) (msg : LinkSetControl) : Poll (LinkSetResult unit) * Core :=
  match Channel.send (ctrl c) msg with
  | (Ready (Ok _), ch) => (Ready (Ok tt), set_accepted (set_ctrl c ch) (accepted c ++ [msg]))
  | (Ready (Err _), _) => (Ready (Err Terminated), c)
  | (Pending, _) => (Pending, c)
  end.

(** [clone_sender] and the drop of a handle; a connector task starts with a clone
    and drops it at its end. *)
Definition clone_sender (c : Core) : Core := set_handles (set_ctrl c (Channel.clone_sender (ctrl c))) (S (handles c)).
Definition drop_handle (c : Core) : Core := set_handles (set_ctrl c (Channel.drop_sender (ctrl c))) (pred (handles c)).
Definition spawn_task (c : Core) : Core := set_tasks (set_ctrl c (Channel.clone_sender (ctrl c))) (S (tasks c)).
Definition end_task (c : Core) : Core := set_tasks (set_ctrl c (Channel.drop_sender (ctrl c))) (pred (tasks c)).

(** ** The debug handle *)

(** Sending a debug command together with a fresh oneshot channel. *)
Definition request (c : Core) (cmd : DebugCommand) : Poll (LinkSetResult Z) * Core :=
  match debug c with
  | None => (Ready (Err Terminated), c)
  | Some ch =>
      let k := next_oneshot c in
      let c := set_next_oneshot c (k + 1) in
      match Channel.send ch (k, cmd) with
      | (Ready (Ok _), ch) => (Ready (Ok k), set_debug c (Some ch))
      | (Ready (Err _), _) => (Ready (Err Terminated), c)
      | (Pending, _) => (Pending, c)
      end
  end.

(** [DebugHandle::snapshot] and [DebugHandle::evict_link], up to the reply. *)
Definition snapshot (c : Core) : Poll (LinkSetResult Z) * Core := request c Snapshot.
Definition evict_link (c : Core) (id : Z) : Poll (LinkSetResult Z) * Core := request c (EvictLink id).

(** Awaiting a reply: an error once the oneshot's sender is gone without one. *)
Definition await {A} (c : Core) (reply : option A) : Poll (LinkSetResult A) :=
  match reply with
  | Some r => Ready (Ok r)
  | None => if bool_decide (status c = Running) then Pending else Ready (Err Terminated)
  end.

Definition await_snapshot (c : Core) (k : Z) : Poll (LinkSetResult DebugReplySnapshot) := await c (snapshots c !! k).
Definition await_evict (c : Core) (k : Z) : Poll (LinkSetResult bool) := await c (evictions c !! k).

(** ** The loop *)

(** The task is over: it drops the receivers of its channels, its own sender, and
    with the queued requests their oneshots. *)
Definition finish (st : Status) (c : Core) : Core :=
  let c := set_ctrl c (Channel.drop_sender (Channel.drop_receiver (ctrl c))) in
  set_status (set_debug c (Channel.drop_receiver <$> debug c)) st.

(** The reply of a handler to the debug request [k]. *)
Definition answer (k : Z) (r : DebugReply) (c : Core) : Core :=
  match r with
  | SnapshotReply s => set_snapshots c (<[k := s]> (snapshots c))
  | EvictReply b => set_evictions c (<[k := b]> (evictions c))
  end.

(** A handler runs to its end. *)
Definition dispatch (c : Core) (ev : Event) : Core :=
  match handle (state c) ev (world c) with
  | Ret (s, w) => set_state c s w
  | _ => finish Panicked c
  end.

(** The branch of the control channel. *)
Definition on_ctrl (c : Core) : Poll Core :=
  match Channel.recv (ctrl c) with
  | (Ready (Some msg), ch) => Ready (dispatch (set_ctrl c ch) (EvCtrl msg))
  | (Ready None, _) => Ready (finish Returned c)
  | (Pending, _) => Pending
  end.

(** The branches of the links and of the timer. *)
Definition on_event (c : Core) (ev : Event) : Poll Core :=
  if enabled ev (world c) then Ready (dispatch c ev) else Pending.

(** [recv_opt]: the next debug command; the channel is given up once it is
    closed. *)
Definition recv_opt (opt_receiver : option (Channel.Chan (Z * DebugCommand)))
    : Poll (Z * DebugCommand) * option (Channel.Chan (Z * DebugCommand)) :=
  match opt_receiver with
  | Some receiver =>
      match Channel.recv receiver with
      | (Ready (Some cmd), receiver) => (Ready cmd, Some receiver)
      | (Ready None, _) => (Pending, None)
      | (Pending, receiver) => (Pending, Some receiver)
      end
  | None => (Pending, None)
  end.

(** The branch of the debug channel; a handler replies at most once. *)
Definition on_debug (c : Core) : Poll Core :=
  match recv_opt (debug c) with
  | (Ready (k, cmd), ch) =>
      let c' := dispatch (set_debug c ch) (EvDebug cmd) in
      Ready (foldr (answer k) c' (dropZ (len (replies (world c))) (replies (world c'))))
  | (Pending, _) => Pending
  end.

(** ** Steps *)

Inductive step : Core -> Core -> Prop :=
  | step_send c msg r c' :
      (0 < handles c + tasks c)%nat -> send_ctrl c msg = (Ready r, c') -> step c c'
  | step_clone c : (0 < handles c)%nat -> step c (clone_sender c)
  | step_drop c : (0 < handles c)%nat -> step c (drop_handle c)
  | step_spawn c : status c = Running -> step c (spawn_task c)
  | step_end c : (0 < tasks c)%nat -> step c (end_task c)
  | step_task c s : states_task_step (state c) s -> step c (set_state c s (world c))
  | step_ended c id :
      step c (set_state c (state c)
        (set_common (world c) (set_readers (common (world c)) (filter (fun x => x <> id) (readers (common (world c)))))))
  | step_request c ch cmd r c' :
      debug c = Some ch -> 0 < Channel.senders ch -> request c cmd = (Ready r, c') -> step c c'
  | step_hangup c ch :
      debug c = Some ch -> 0 < Channel.senders ch -> step c (set_debug c (Some (Channel.drop_sender ch)))
  | step_debug_gone c d : status c = Running -> recv_opt (debug c) = (Pending, d) -> step c (set_debug c d)
  | step_ctrl c c' : status c = Running -> on_ctrl c = Ready c' -> step c c'
  | step_link c id msg c' : status c = Running -> on_event c (EvLink id msg) = Ready c' -> step c c'
  | step_timer c c' : status c = Running -> on_event c EvTimer = Ready c' -> step c c'
  | step_debug c c' : status c = Running -> on_debug c = Ready c' -> step c c'.

Inductive reachable : Core -> Prop :=
  | reach_new : reachable new
  | reach_new_debug : reachable new_debug
  | reach_step c c' : reachable c -> step c c' -> reachable c'.

(** The commands among the events of a run. *)
Definition commands (evs : list Event) : list LinkSetControl :=
  omap (fun ev => match ev with EvCtrl msg => Some msg | _ => None end) evs.

(** ** The invariant *)

Record inv (c : Core) : Prop := {
  inv_not_returned : status c <> Returned;
  inv_closed : Channel.rx_closed (ctrl c) = bool_decide (status c = Panicked);
  inv_senders : status c = Running -> Channel.senders (ctrl c) = 1 + Z.of_nat (handles c) + Z.of_nat (tasks c);
  inv_run : exists evs, run evs (state c) (world c) /\ commands evs `prefix_of` accepted c /\
    (status c = Running -> accepted c = commands evs ++ Channel.queue (ctrl c));
}.

Lemma commands_snoc evs ev : commands (evs ++ [ev]) = commands evs ++ commands [ev].
Proof. apply omap_app. Qed.

(** A handler that panics ends the task and closes the channel. *)
Lemma core_finish_inv c evs :
  run evs (state c) (world c) -> commands evs `prefix_of` accepted c -> inv (finish Panicked c).
Proof. intros Hrun Hpre. constructor; simpl; [done|done|done|by exists evs]. Qed.

(** A dispatched event extends the run. *)
Lemma dispatch_inv c evs ev :
  run evs (state c) (world c) -> status c = Running -> Channel.rx_closed (ctrl c) = false ->
  Channel.senders (ctrl c) = 1 + Z.of_nat (handles c) + Z.of_nat (tasks c) ->
  enabled ev (world c) = true -> accepted c = commands evs ++ commands [ev] ++ Channel.queue (ctrl c) ->
  inv (dispatch c ev).
Proof.
  intros Hrun Hst Hcl Hsd Hen Hacc. unfold dispatch.
  destruct (handle (state c) ev (world c)) as [[s' w']| |] eqn:Hh.
  2,3: eapply core_finish_inv; [done|rewrite Hacc; by eexists].
  rewrite app_assoc, <- commands_snoc in Hacc. constructor; simpl; [by rewrite Hst|by rewrite Hst|done|].
  exists (evs ++ [ev]). split_and!; [by eapply run_event|rewrite Hacc; by eexists|done].
Qed.

Lemma inv_debug c d n : inv c -> inv (set_next_oneshot (set_debug c d) n).
Proof. by intros []. Qed.

Lemma answer_inv k rs c : inv c -> inv (foldr (answer k) c rs).
Proof.
  intros Hc. induction rs as [|r rs IH]; simpl; [done|]. destruct IH, r; by constructor.
Qed.

Lemma new_inv d : inv (start_core d).
Proof. constructor; simpl; [done|done|done|]. exists []. by split_and!; [constructor|..]. Qed.

(** Only the senders change, or the channel gets another element. *)
Lemma senders_inv c n h t :
  inv c -> (status c = Running -> n = 1 + Z.of_nat h + Z.of_nat t) ->
  inv (set_tasks (set_handles (set_ctrl c
    (Channel.mk_chan (Channel.queue (ctrl c)) (Channel.capacity (ctrl c)) (Channel.rx_closed (ctrl c)) n)) h) t).
Proof. intros [] Hn. by constructor. Qed.

Lemma send_inv c msg r c' : inv c -> send_ctrl c msg = (Ready r, c') -> inv c'.
Proof.
  intros Hi. unfold send_ctrl. destruct (Channel.send (ctrl c) msg) as [[[]|] ch] eqn:Hs; intros [= <- <-]; [|done].
  apply Channel.send_Ready in Hs as [[_ ->]|[? _]]; [|done].
  destruct Hi as [Hret Hcl Hsd (evs & Hrun & Hpre & Hacc)]. constructor; simpl; [done|done|done|].
  exists evs. split_and!; [done|by apply prefix_app_r|]. intros Hst. by rewrite Hacc, app_assoc.
Qed.

Lemma ctrl_inv c c' : inv c -> status c = Running -> on_ctrl c = Ready c' -> inv c'.
Proof.
  intros [_ Hcl Hsd (evs & Hrun & Hpre & Hacc)] Hst. specialize (Hsd Hst). specialize (Hacc Hst).
  rewrite Hst in Hcl. unfold on_ctrl.
  destruct (Channel.recv (ctrl c)) as [[[msg|]|] ch] eqn:Hr; intros [= <-].
  - apply Channel.recv_Some in Hr as [Hq ->]. eapply dispatch_inv; simpl; try done. by rewrite Hacc, Hq.
  - exfalso. unfold Channel.recv in Hr. destruct (Channel.queue (ctrl c)); [|done].
    rewrite Hcl, (proj2 (Z.eqb_neq _ _)) in Hr by lia. done.
Qed.

Lemma event_inv c ev c' : inv c -> status c = Running -> commands [ev] = [] -> on_event c ev = Ready c' -> inv c'.
Proof.
  intros [_ Hcl Hsd (evs & Hrun & Hpre & Hacc)] Hst Hev. unfold on_event.
  destruct (enabled ev (world c)) eqn:Hen; intros [= <-].
  eapply dispatch_inv; [done|done|by rewrite Hcl, Hst|by apply Hsd|done|]. rewrite Hev. by apply Hacc.
Qed.

Lemma debug_inv c c' : inv c -> status c = Running -> on_debug c = Ready c' -> inv c'.
Proof.
  intros [_ Hcl Hsd (evs & Hrun & Hpre & Hacc)] Hst. unfold on_debug.
  destruct (recv_opt (debug c)) as [[[k cmd]|] ch]; intros [= <-]. apply answer_inv.
  eapply dispatch_inv; [done|done|by simpl; rewrite Hcl, Hst|by apply Hsd|done|by apply Hacc].
Qed.

Lemma core_step_inv c c' : inv c -> step c c' -> inv c'.
Proof.
  intros Hi Hs. destruct Hs as [c msg r c' _ Hsend|c Hh|c Hh|c Hst|c Ht|c s Hts|c id|c ch cmd r c' _ _ Hreq
    |c ch _ _|c d _ _|c c' Hst Hc|c id msg c' Hst Hc|c c' Hst Hc|c c' Hst Hc].
  - by eapply send_inv.
  - eapply (senders_inv c _ (S (handles c)) (tasks c)); [done|]. intros Hst%(inv_senders _ Hi). lia.
  - eapply (senders_inv c _ (pred (handles c)) (tasks c)); [done|]. intros Hst%(inv_senders _ Hi). lia.
  - eapply (senders_inv c _ (handles c) (S (tasks c))); [done|]. intros Hst'%(inv_senders _ Hi). lia.
  - eapply (senders_inv c _ (handles c) (pred (tasks c))); [done|]. intros Hst%(inv_senders _ Hi). lia.
  - destruct Hi as [Hret Hcl Hsd (evs & Hrun & Hpre & Hacc)]. constructor; simpl; try done.
    exists evs. split_and!; [by eapply run_task|done|done].
  - destruct Hi as [Hret Hcl Hsd (evs & Hrun & Hpre & Hacc)]. constructor; simpl; try done.
    exists evs. split_and!; [by eapply run_ended|done|done].
  - unfold request in Hreq. destruct (debug c) as [ch'|]; [|by injection Hreq as <- <-].
    destruct (Channel.send ch' _) as [[[]|] ?]; [..|done]; injection Hreq as <- <-; by destruct Hi.
  - by destruct Hi.
  - by destruct Hi.
  - by eapply ctrl_inv.
  - by eapply (event_inv c (EvLink id msg)).
  - by eapply (event_inv c EvTimer).
  - by eapply debug_inv.
Qed.

Lemma core_reachable_inv c : reachable c -> inv c.
Proof. induction 1; [apply new_inv..|by eapply core_step_inv]. Qed.

(** ** Properties *)

(** C8. The commands that handles and connector tasks put on the channel are
    executed in their order, each once: the core is always in a state of a run
    whose commands are the accepted ones, up to those still queued. *)
Theorem commands_in_order c :
  reachable c ->
  exists evs, run evs (state c) (world c) /\ commands evs `prefix_of` accepted c /\
    (status c = Running -> accepted c = commands evs ++ Channel.queue (ctrl c)).
Proof. intros H%core_reachable_inv. apply H. Qed.

(** C34. A link set counts as terminated exactly when a handler has panicked;
    the loop never returns.  The core holds a sender of its own control channel,
    so the channel does not close when the last handle is dropped. *)
Theorem terminated_iff_panicked c :
  reachable c -> (is_terminated c = true <-> status c = Panicked) /\ status c <> Returned.
Proof.
  intros H%core_reachable_inv. unfold is_terminated, Channel.is_closed. rewrite (inv_closed _ H).
  split; [by rewrite bool_decide_eq_true|apply H].
Qed.

(** ** Debug requests *)

(** Every state answers every debug command, exactly once; a snapshot shows the
    state and changes nothing. *)
Lemma handle_debug_replies s cmd w :
  exists s' r, handle s (EvDebug cmd) w = Ret (s', set_replies w (replies w ++ [r])) /\
    match cmd with
    | Snapshot => s' = s /\ exists snap, r = SnapshotReply snap /\ ds_state_name snap = get_name s
    | EvictLink _ => exists b, r = EvictReply b
    end.
Proof. destruct s, cmd; eexists _, _; split; eauto. Qed.

(** The core takes one debug request. *)
Definition debug_step (c c' : Core) : Prop := status c = Running /\ on_debug c = Ready c'.

Lemma on_debug_next c ch k cmd q :
  debug c = Some ch -> Channel.queue ch = (k, cmd) :: q ->
  exists s' r, on_debug c = Ready (answer k r (set_state (set_debug c (Some (Channel.set_queue ch q))) s'
      (set_replies (world c) (replies (world c) ++ [r])))) /\
    match cmd with
    | Snapshot => s' = state c /\ exists snap, r = SnapshotReply snap /\ ds_state_name snap = get_name (state c)
    | EvictLink _ => exists b, r = EvictReply b
    end.
Proof.
  intros Hd Hq. destruct (handle_debug_replies (state c) cmd (world c)) as (s' & r & Hh & Hr).
  exists s', r. split; [|done]. unfold on_debug, recv_opt, Channel.recv. rewrite Hd, Hq. unfold dispatch.
  cbn [state world set_debug]. rewrite Hh. cbn [world set_state replies set_replies].
  by rewrite dropZ_app.
Qed.

Lemma queued_snapshot_answered q c ch k q' :
  status c = Running -> debug c = Some ch -> Channel.queue ch = q ++ (k, Snapshot) :: q' ->
  exists c' snap, rtc debug_step c c' /\ await_snapshot c' k = Ready (Ok snap) /\
    ds_state_name snap = get_name (state c').
Proof.
  revert c ch. induction q as [|[k' cmd] q IH]; intros c ch Hst Hd Hq; simpl in Hq;
    destruct (on_debug_next _ _ _ _ _ Hd Hq) as (s' & r & Hon & Hr).
  - destruct Hr as [-> (snap & -> & Hname)]. eexists _, snap. split_and!; [by apply rtc_once|..|done].
    unfold await_snapshot. simpl. by rewrite lookup_insert_eq.
  - edestruct (IH (answer k' r (set_state (set_debug c (Some (Channel.set_queue ch (q ++ (k, Snapshot) :: q')))) s'
      (set_replies (world c) (replies (world c) ++ [r]))))) as (c' & snap & Hsteps & Hrest); [by destruct r..|].
    exists c', snap. split; [by eapply rtc_l|done].
Qed.

(** C33. A snapshot that was requested from a running core arrives: the core
    needs only to take the debug requests that are queued, and the snapshot names
    the state it is in then. *)
Theorem snapshot_answered c k c1 :
  status c = Running -> snapshot c = (Ready (Ok k), c1) ->
  exists c2 snap, rtc debug_step c1 c2 /\ await_snapshot c2 k = Ready (Ok snap) /\
    ds_state_name snap = get_name (state c2).
Proof.
  intros Hst. unfold snapshot, request. destruct (debug c) as [ch|]; [|done].
  destruct (Channel.send ch _) as [[[]|] ch'] eqn:Hs; intros [= <- <-].
  apply Channel.send_Ready in Hs as [[_ ->]|[? _]]; [|done]. by eapply queued_snapshot_answered.
Qed.
End with_outside.
End CoreTask.
