(* ===== verification/Serde.v ===== *)
(** * Messages through a serializer ([src/link_set/serde.rs])

    The blanket implementation of [LinkSetSendable] by an external serializer
    ([bincode]), which is a parameter with the law the code relies on. *)

From S2P Require Import Prelude Bytes Errors Epochs Proto BTree Slices Messages Clock Address Outside.
From S2P Require Import Connectors Common Links States Handlers Controller.

(** [bincode::serde::encode_to_vec] and [decode_from_slice] with the standard
    configuration; decoding also says how many bytes it consumed. *)
Class Bincode (T : Type) := {
  EncodeError : Type;
  DecodeError : Type;
  OtherString : string -> DecodeError;
  show_encode : EncodeError -> string;
  show_decode : DecodeError -> string;
  encode_to_vec : T -> result EncodeError bytes;
  decode_from_slice : bytes -> result DecodeError (T * Z);
}.

(** Decoding reads back what was encoded, and no more than that. *)
Class BincodeLaws (T : Type) `{Bincode T} : Prop :=
  decode_encode_app x b rest :
    encode_to_vec x = Ok b -> decode_from_slice (b ++ rest) = Ok (x, len b).

Module Serde.
Section with_bincode.
Context {T : Type} `{Bincode T}.

Inductive SerdeError : Type :=
  | Encode (e : EncodeError)
  | Decode (e : DecodeError).

(** [Display for SerdeError]. *)
Definition show (e : SerdeError) : string :=
  match e with
  | Encode e => "EncodeError: " +:+ show_encode e
  | Decode e => "DecodeError: " +:+ show_decode e
  end.

Definition to_bytes (x : T) : result SerdeError bytes := map_err Encode (encode_to_vec x).

Definition from_bytes (b : bytes) : result SerdeError T :=
  match decode_from_slice b with
  | Err e => Err (Decode e)
  | Ok (msg, n) =>
      if n <? len b
      then Err (Decode (OtherString "Deserialization finished, but there are more bytes"))
      else Ok msg
  end.

Definition serde_sendable : Controller.LinkSetSendable T := {|
  Controller.to_bytes := fun x => map_err show (to_bytes x);
  Controller.from_bytes := fun b => map_err show (from_bytes b);
|}.

(** C38. A message that could be serialized is read back unchanged, and is
    refused when anything follows it. *)
Theorem serde_roundtrip `{!BincodeLaws T} x b rest :
  to_bytes x = Ok b ->
  from_bytes b = Ok x /\
  (rest <> [] -> from_bytes (b ++ rest) =
    Err (Decode (OtherString "Deserialization finished, but there are more bytes"))).
Proof.
  unfold to_bytes, from_bytes. destruct (encode_to_vec x) as [b'|] eqn:E; [|done]. intros [= ->].
  split.
  - rewrite <- (app_nil_r b) at 1. rewrite (decode_encode_app _ _ [] E). by rewrite Z.ltb_irrefl.
  - intros Hr%len_pos. rewrite (decode_encode_app _ _ rest E), len_app. by rewrite (proj2 (Z.ltb_lt _ _)) by lia.
Qed.
End with_bincode.
End Serde.
