(* ===== verification/Session.v ===== *)
(** * From the handlers to the message managers

    How the session states use their message manager: a received slice is
    handled as [Transfer.on_slice] describes, queued messages are numbered and sent
    in the order they were queued, and in any order of operations the manager keeps
    its invariant. *)

From S2P Require Import Prelude Bytes Errors Epochs Proto BTree Slices SliceTheory Segments.
From S2P Require Import Messages MessageTheory Transfer Clock Address Outside Connectors Common.
From S2P Require Import Links States Hoare Wire Handlers.

Module Session.
Import Epoch Protocol Control Common Links States Hoare Wire Handlers.
Import MessageInvariant Transfer Segments.
Import MessageManager(MessageManager, insert_msg, recv_ack, recv, take_recvd, get_outgoing_slice,
  next_seq, mm_epoch).

Section managers.
Context {P : BuildProfile}.

(** ** Any order of operations *)

(** The managers an application and a peer that sends well-formed packets can
    bring about. *)
Inductive used (e : Epoch) : MessageManager -> Prop :=
  | used_new : used e (MessageManager.new e)
  | used_insert mm msg seq mm' :
      used e mm -> len msg <= ISIZE_MAX -> next_seq mm < U64_MAX ->
      insert_msg mm msg = Ret (seq, mm') -> used e mm'
  | used_ack mm seq i mm' :
      used e mm -> 0 <= i -> recv_ack mm (seq, i) = Ret mm' -> used e mm'
  | used_recv mm seq f n d b mm' :
      used e mm -> packet_bounds seq f n d -> recv mm seq f n d = Ret (b, mm') -> used e mm'
  | used_take mm msgs mm' : used e mm -> take_recvd mm = Ret (msgs, mm') -> used e mm'.

Lemma used_wf e mm : used e mm -> mm_wf mm /\ mm_epoch mm = e.
Proof.
  induction 1 as [|mm msg seq mm' _ [IH <-] Hm Hn Heq|mm seq i mm' _ [IH <-] Hi Heq
    |mm seq f n d b mm' _ [IH <-] Hp Heq|mm msgs mm' _ [IH <-] Heq].
  - split; [apply new_wf|done].
  - destruct (insert_msg_spec mm msg IH Hm Hn) as (mm1 & Heq1 & Hwf & He & _).
    rewrite Heq in Heq1. by injection Heq1 as _ <-.
  - destruct (recv_ack_out mm seq i IH Hi) as (out & Heq1 & _).
    destruct (recv_ack_spec mm seq i IH Hi) as (mm1 & Heq2 & Hwf & _).
    rewrite Heq in Heq1, Heq2. injection Heq2 as <-. by injection Heq1 as ->.
  - destruct (recv_safe mm seq f n d IH Hp) as (b1 & mm1 & Heq1 & Hwf & _ & _ & _ & He).
    rewrite Heq in Heq1. by injection Heq1 as _ <-.
  - destruct (take_recvd_spec mm IH) as [Heq1 Hwf]. rewrite Heq in Heq1. by injection Heq1 as _ ->.
Qed.

(** C21. A message manager never panics, in any order of sending, acknowledging,
    receiving and releasing: each operation on well-formed input returns, and
    releasing yields exactly the entries before the acknowledged position. *)
Theorem manager_total e mm :
  used e mm ->
  (forall msg, len msg <= ISIZE_MAX -> next_seq mm < U64_MAX ->
    exists mm', insert_msg mm msg = Ret (next_seq mm, mm') /\
      get_outgoing_slice mm' (next_seq mm) = Some (SliceManager.from_vec e (next_seq mm) msg)) /\
  (forall seq i, 0 <= i -> exists mm', recv_ack mm (seq, i) = Ret mm' /\
    forall s, s < seq -> get_outgoing_slice mm' s = None) /\
  (forall seq f n d, packet_bounds seq f n d -> returns (recv mm seq f n d)) /\
  (exists mm', take_recvd mm =
    Ret ((fun kv => SliceManager.sm_data kv.2) <$>
           BTreeMap.range_to (fst (MessageManager.last_ack mm)) (MessageManager.incoming_slices mm), mm')).
Proof.
  intros [Hwf <-]%used_wf. split_and!.
  - intros msg Hm Hn. destruct (insert_msg_spec mm msg Hwf Hm Hn) as (mm' & Heq & _ & _ & _ & Hget & _).
    by exists mm'.
  - intros seq i Hi. destruct (recv_ack_spec mm seq i Hwf Hi) as (mm' & Heq & _ & Hlow & _). by exists mm'.
  - intros seq f n d Hp. destruct (recv_safe mm seq f n d Hwf Hp) as (b & mm' & Heq & _). by eexists.
  - destruct (take_recvd_spec mm Hwf) as [Heq _]. by eexists.
Qed.

(** C22. What is retransmitted after an acknowledgement of byte [i] is exactly
    the rest of the message, as consecutive slices of at most [size] bytes; an
    acknowledgement of byte 0 alone is ignored, and the whole message is sent
    again. *)
Theorem retransmission_exact e seq msg i size :
  0 <= i < len msg -> len msg <= ISIZE_MAX -> 1 <= size <= U32_MAX ->
  let start := if i =? 0 then 0 else i + 1 in
  exists m ps, SliceManager.ack (SliceManager.from_vec e seq msg) e seq i = Ret m /\
    SliceManager.get_slices m size = Ret ps /\
    contiguous (to_int e) seq (len msg) start ps (dropZ start msg) /\
    Forall (fun p => slice_size p <= size) ps.
Proof.
  intros Hi Hn Hs start.
  destruct (ack_pending _ _ i (from_vec_pending e seq msg)) as (m & Heq & Hp & Hd & He & Hq); [done|lia|].
  simpl in *. assert (acked (len msg) 0 i = start) as Ha.
  { unfold acked, start. rewrite (proj2 (Z.eqb_neq 0 _)), orb_false_r by lia. destruct (i =? 0); lia. }
  rewrite Ha in Hp. destruct (get_slices_pending m start size Hp) as (ps & Hps & Hc & Hsz);
    [by rewrite Hd|done|]. exists m, ps. rewrite Hd, He, Hq in Hc. by split_and!.
Qed.
End managers.

Section handlers.
Context {P : BuildProfile} {O : Outside}.

(** ** Received slices *)

Lemma post_emit_messages msgs e w (Q : unit -> World -> Prop) :
  (forall w', to_ctrl w' = to_ctrl w ++ ((fun m => Received m e) <$> msgs) -> common w' = common w -> Q tt w') ->
  post (emit_messages msgs e) w Q.
Proof.
  revert w Q. induction msgs as [|m msgs IH]; intros w Q H; simpl.
  - apply post_ret, H; [by rewrite app_nil_r|done].
  - apply post_bind, post_emit, IH. intros w' Hw Hc. apply H; [|done]. rewrite Hw. simpl. by rewrite <- app_assoc.
Qed.

Lemma post_determine_connected s w (Q : ConnectedState -> World -> Prop) :
  Q s w -> post (determine_state s) w (fun s' w' => forall s1, s' = Connected s1 -> Q s1 w').
Proof.
  intros H. unfold determine_state. post_step; [|by apply post_ret; intros ? [= <-]].
  post_steps; unfold reconnecting_from_connected, grace_period_from_connected,
    disconnected_from_connected; repeat (first [post_step | apply post_any; intros]; cbv beta zeta); done.
Qed.

(** ** Queued messages *)

Lemma send_queued_numbers msgs mm lm w :
  mm_wf mm -> Forall (fun m : bytes => len m <= ISIZE_MAX) msgs -> next_seq mm + len msgs <= U64_MAX ->
  post (send_queued msgs mm lm) w (fun r _ =>
    (forall seq, seq < next_seq mm -> get_outgoing_slice r.1 seq = get_outgoing_slice mm seq) /\
    (forall i msg, 0 <= i -> atZ msgs i = Some msg ->
      get_outgoing_slice r.1 (next_seq mm + i) =
        Some (SliceManager.from_vec (mm_epoch mm) (next_seq mm + i) msg))).
Proof.
  intros Hmm Hmsgs. revert mm lm w Hmm. induction Hmsgs as [|msg msgs Hmsg Hmsgs IH]; intros mm lm w Hmm Hn; simpl.
  { apply post_ret. split; [done|]. intros i msg _ H. by destruct (Z.to_nat i). }
  rewrite len_cons in Hn. pose proof (len_nonneg msgs).
  destruct (insert_msg_spec mm msg Hmm Hmsg) as (mm1 & Heq & Hmm1 & He & Hn1 & Hget & Hold & _); [lia|].
  apply post_bind, post_lift. intros [seq mm'] Heq'. rewrite Heq in Heq'. injection Heq' as <- <-.
  apply post_bind, post_lift. intros m _. apply post_bind, post_any. intros [res lm1] w1.
  eapply post_mono; [apply IH; [done|lia]|]. intros r _ [Hlow Hnew]. split.
  - intros seq Hseq. rewrite Hlow by lia. apply Hold. lia.
  - intros i x Hi Hx. destruct (decide (i = 0)) as [->|Hne].
    + simpl in Hx. injection Hx as <-. rewrite Z.add_0_r, Hlow by lia. done.
    + replace (next_seq mm + i) with (next_seq mm1 + (i - 1)) by lia. rewrite <- He. apply Hnew; [lia|].
      unfold atZ in *. replace (Z.to_nat i) with (S (Z.to_nat (i - 1))) in Hx by lia. done.
Qed.

(** Without a link nothing is sent. *)
Lemma send_queued_unlinked msgs mm w :
  post (send_queued msgs mm []) w (fun r w' => r.2 = [] /\ packets w' = packets w).
Proof.
  revert mm w. induction msgs as [|msg msgs IH]; intros mm w; simpl; [by apply post_ret|].
  apply post_bind, post_lift. intros [seq mm'] _. apply post_bind, post_lift. intros m _.
  apply post_bind. intros [res lm] w1 Hs. injection Hs as _ <- <-. apply IH.
Qed.

(** The messages go out one after the other, each as the slices of its own
    number, as long as there is a link. *)
Lemma send_queued_wire msgs mm lm w :
  mm_wf mm -> Forall (fun m : bytes => len m <= ISIZE_MAX) msgs -> next_seq mm + len msgs <= U64_MAX ->
  post (send_queued msgs mm lm) w (fun r w' => exists groups,
    packets w' = packets w ++ concat groups /\ (length groups <= length msgs)%nat /\
    (r.2 <> [] -> length groups = length msgs) /\
    forall i msg ps, msgs !! i = Some msg -> groups !! i = Some ps ->
      transmitted (SliceManager.from_vec (mm_epoch mm) (next_seq mm + Z.of_nat i) msg) ps).
Proof.
  intros Hmm Hmsgs. revert mm lm w Hmm. induction Hmsgs as [|msg msgs Hmsg Hmsgs IH]; intros mm lm w Hmm Hn; simpl.
  { apply post_ret. exists []. simpl. by rewrite app_nil_r. }
  rewrite len_cons in Hn. pose proof (len_nonneg msgs).
  destruct (insert_msg_spec mm msg Hmm Hmsg) as (mm1 & Heq & Hmm1 & He & Hn1 & Hget & _); [lia|].
  apply post_bind, post_lift. intros [seq mm'] Heq'. rewrite Heq in Heq'. injection Heq' as <- <-.
  apply post_bind, post_lift. rewrite Hget. intros m [= <-]. apply post_bind.
  eapply post_mono; [apply post_send_slices|]. intros [res lm1] w1 [[_ (ps & Htr & Hw1)]|[Hlm Hw1]]; simpl in *.
  - eapply post_mono; [apply IH; [done|lia]|]. intros r w2 (groups & Hw2 & Hle & Hall & Hg).
    exists (ps :: groups). simpl. split_and!; [by rewrite Hw2, Hw1, <- app_assoc|lia|intros Hr; f_equal; by apply Hall|].
    intros [|i] x qs Hx Hqs; simpl in *.
    + injection Hx as ->. injection Hqs as ->. by rewrite Z.add_0_r.
    + replace (next_seq mm + Z.of_nat (S i)) with (next_seq mm1 + Z.of_nat i) by lia. rewrite <- He. by apply Hg.
  - subst lm1. eapply post_mono; [apply send_queued_unlinked|]. intros r w2 [Hr Hw2].
    exists []. simpl. rewrite app_nil_r, Hw2. split_and!; [done|lia|done|done].
Qed.

(** ** Properties *)

(** C12. While connected, the handler of a slice is [on_slice]: it releases the
    same messages to the application, in the same order and under the
    connection's epoch, and leaves the same message manager behind. *)
Theorem connected_slice_refines s id seq n f d w s1 w' :
  connected_link_msg s id (MsgSlice (to_int (cn_epoch s)) seq n f d) w = Ret (Connected s1, w') ->
  exists ack msgs,
    on_slice (cn_epoch s) (cn_msg_mgr s) (MsgSlice (to_int (cn_epoch s)) seq n f d) =
      Ret (ack, msgs, cn_msg_mgr s1) /\
    to_ctrl w' = to_ctrl w ++ ((fun m => Received m (cn_epoch s)) <$> msgs).
Proof.
  intros Heq.
  cut (post (connected_link_msg s id (MsgSlice (to_int (cn_epoch s)) seq n f d)) w
    (fun s' w' => forall s1, s' = Connected s1 -> exists ack msgs,
      on_slice (cn_epoch s) (cn_msg_mgr s) (MsgSlice (to_int (cn_epoch s)) seq n f d) =
        Ret (ack, msgs, cn_msg_mgr s1) /\
      to_ctrl w' = to_ctrl w ++ ((fun m => Received m (cn_epoch s)) <$> msgs))).
  { intros H. by apply (H _ _ Heq). }
  unfold connected_link_msg, on_slice. rewrite Z.eqb_refl.
  apply post_bind, post_lift. intros [b mm] Hrecv. rewrite Hrecv, bind_Ret. apply post_bind.
  eapply (post_mono _ _ (fun s' w' => cn_msg_mgr s' = mm /\ cn_epoch s' = cn_epoch s /\ to_ctrl w' = to_ctrl w)).
  { destruct b; post_steps; use_same; done. }
  intros s2 w2 (Hm2 & He2 & Hw2). apply post_bind, post_lift. rewrite Hm2. intros [msgs mm'] Htake.
  rewrite Htake. apply post_bind. apply post_emit_messages. intros w3 Hw3 _.
  apply post_determine_connected. rewrite He2, Hw2 in Hw3. eexists _, msgs. by split.
Qed.

(** C24. Entering the [Connected] state sends every message that was queued, in
    order, and keeps it: the [i]-th one gets sequence number [i] and is kept whole
    for retransmission; and what is handed to the links meanwhile is, message by
    message, the slices of number 0, 1, 2, ... (each message's up to the first one
    that its link refuses), all of the messages when a link is left at the end. *)
Theorem queued_messages_numbered s e w s1 w' :
  Forall (fun m : bytes => len m <= ISIZE_MAX) (em_queued_msgs s) -> len (em_queued_msgs s) <= U64_MAX ->
  connected_from_epoch_mismatch s e w = Ret (s1, w') ->
  (forall i msg, 0 <= i -> atZ (em_queued_msgs s) i = Some msg ->
    get_outgoing_slice (cn_msg_mgr s1) i = Some (SliceManager.from_vec e i msg)) /\
  exists groups, packets w' = packets w ++ concat groups /\
    (length groups <= length (em_queued_msgs s))%nat /\
    (cn_links s1 <> [] -> length groups = length (em_queued_msgs s)) /\
    (forall i msg ps, em_queued_msgs s !! i = Some msg -> groups !! i = Some ps ->
      transmitted (SliceManager.from_vec e (Z.of_nat i) msg) ps).
Proof.
  intros Hl Hn Heq. unfold connected_from_epoch_mismatch in Heq. revert s1 w' Heq.
  match goal with |- forall s1 w', ?m w = Ret _ -> @?Q s1 w' => change (post m w Q) end.
  apply post_bind, post_emit, post_bind.
  intros [mm lm] w1 Hsend.
  destruct (send_queued_numbers _ _ _ _ (new_wf e) Hl Hn _ _ Hsend) as [_ Hnew].
  destruct (send_queued_wire _ _ _ _ (new_wf e) Hl Hn _ _ Hsend) as (groups & Hw & Hle & Hall & Hg).
  apply post_bind. intros [] w2 Hw2%unwired_connected_timer. apply post_ret. simpl in *. split; [done|].
  exists groups. split_and!; [|done..]. rewrite (packets_unwired _ _ Hw2), Hw. done.
Qed.
End handlers.
End Session.
