(* ===== verification/Sample.v ===== *)
(** * Concrete environments and runs

    Links that work or fail as the interactions pass, a clock that advances; and the
    execution of event sequences, so that statements about runs can be tried on
    actual inputs. *)

From S2P Require Import Prelude Bytes Errors Epochs Proto BTree Slices SliceTheory Segments.
From S2P Require Import Messages MessageTheory Clock Address Outside Connectors Common Links.
From S2P Require Import States Hoare Handlers Notify LinkSafety Safety Transfer Network Controller.

Module Sample.
Import Epoch Protocol Control Common Links States Handlers.

(** The profile with overflow checks. *)
#[export] Instance dev : BuildProfile := true.

(** A link is its maximal size, which is 1000 or 50 bytes; it works while
    [works] says so. *)
Definition environment (works : nat -> bool) : Outside := {|
  link := bool;
  link_scheme := fun _ => [x74];
  link_max_size := fun l => if l : bool then 1000 else 50;
  link_send := fun n l _ => (if works n then Ok tt else Err (LinkError "closed"), l);
  link_is_closed := fun n l => (negb (works n), l);
  link_take_reader := fun n l => (Ok tt, l);
  connector := Str;
  connector_scheme := fun c => c;
  clock := fun n => Z.min (from_secs (Z.of_nat n)) SPAN;
|}.

Lemma environment_laws works : @OutsideLaws (environment works).
Proof.
  constructor; simpl; try done.
  - intros []; lia.
  - intros n. unfold SPAN, from_secs. change (10 ^ 9) with 1000000000. lia.
Qed.

Section exec.
Context {O : Outside}.

(** Handles the events one after the other. *)
Fixpoint exec (evs : list Event) (s : States) (w : World) : outcome (States * World) :=
  match evs with
  | [] => Ret (s, w)
  | ev :: evs =>
      if enabled ev w then
        match handle s ev w with
        | Ret (s, w) => exec evs s w
        | Panic => Panic
        | Diverge => Diverge
        end
      else Diverge
  end.

Lemma exec_run evs done s w s' w' :
  run done s w -> exec evs s w = Ret (s', w') -> run (done ++ evs) s' w'.
Proof.
  revert done s w. induction evs as [|ev evs IH]; intros done s w Hr; simpl.
  { intros [= <- <-]. by rewrite app_nil_r. }
  destruct (enabled ev w) eqn:He; [|done]. destruct (handle s ev w) as [[s1 w1]| |] eqn:Hh; try done.
  intros Hx. replace (done ++ ev :: evs) with ((done ++ [ev]) ++ evs) by (by rewrite <- app_assoc).
  eapply IH; [|done]. by econstructor.
Qed.

Lemma exec_new evs s w : exec evs states_new world_new = Ret (s, w) -> run evs s w.
Proof. intros H. eapply (exec_run evs []); [constructor|done]. Qed.

(** Where a sequence of events leads (the initial state when it does not). *)
Definition final (evs : list Event) : States * World :=
  match exec evs states_new world_new with Ret r => r | _ => (states_new, world_new) end.

Definition completes (evs : list Event) : bool :=
  match exec evs states_new world_new with Ret _ => true | _ => false end.

Lemma final_run evs : completes evs = true -> run evs (final evs).1 (final evs).2.
Proof.
  unfold completes, final. intros H. apply exec_new.
  destruct (exec evs states_new world_new) as [[s w]| |]; done.
Qed.
End exec.

(** ** Runs *)

Definition epoch5 : Epoch := mk_epoch 5 eq_refl.

Definition always : Outside := environment (fun _ => true).
#[export] Instance always_laws : @OutsideLaws always := environment_laws _.

(** A link arrives, the epoch is settled, a message is sent. *)
Definition connect_and_send : list (@Event always) :=
  [EvCtrl (Command (@AddLink always true)); EvLink 0 (Reset None true);
   EvCtrl (Command (Message [x01; x02; x03] None))].

Lemma connect_and_send_run :
  run connect_and_send (final connect_and_send).1 (final connect_and_send).2.
Proof. apply final_run. vm_compute. reflexivity. Qed.

(** Messages that are bytes. *)
#[export] Instance bytes_sendable : Controller.LinkSetSendable bytes :=
  {| Controller.to_bytes := Ok; Controller.from_bytes := Ok |}.

(** ** A transfer between two message managers *)

(** Sends a message in slices of [size] bytes. *)
Definition do_send (msg : bytes) (size : Z) (s : Network.System) : option Network.System :=
  match MessageManager.insert_msg (Network.sender s) msg with
  | Ret (seq, mm) =>
      m ← MessageManager.get_outgoing_slice mm seq;
      match SliceManager.get_slices m size with
      | Ret ps => Some (Network.mk_system mm (Network.receiver s) (Network.sent s ++ [msg])
          (Network.delivered s) (Network.net s ++ take (length ps) ps) (Network.acks s))
      | _ => None
      end
  | _ => None
  end.

(** Delivers the [i]-th slice that was put on the network. *)
Definition do_deliver (i : nat) (s : Network.System) : option Network.System :=
  p ← Network.net s !! i;
  match Transfer.on_slice ONE (Network.receiver s) p with
  | Ret (ack, msgs, mm) => Some (Network.mk_system (Network.sender s) mm (Network.sent s)
      (Network.delivered s ++ msgs) (Network.net s) (Network.acks s ++ option_list ack))
  | _ => None
  end.

Lemma do_send_step msg size s s' :
  len msg <= ISIZE_MAX -> 1 <= size <= U32_MAX -> MessageManager.next_seq (Network.sender s) < U64_MAX ->
  do_send msg size s = Some s' -> Network.step ONE s s'.
Proof.
  intros Hm Hs Hn. unfold do_send. destruct (MessageManager.insert_msg _ _) as [[seq mm]| |] eqn:Hi; try done.
  destruct (MessageManager.get_outgoing_slice mm seq) as [m|] eqn:Hg; [|done]. simpl.
  destruct (SliceManager.get_slices m size) as [ps| |] eqn:Hp; try done. intros [= <-].
  by eapply Network.step_send.
Qed.

Lemma do_deliver_step i s s' :
  match Network.net s !! i with
  | Some (MsgSlice _ seq _ f _) => f <=? Transfer.got (Network.receiver s) seq
  | _ => false
  end = true ->
  do_deliver i s = Some s' -> Network.step ONE s s'.
Proof.
  intros Ho. unfold do_deliver. destruct (Network.net s !! i) as [p|] eqn:Hp; [|done]. simpl.
  destruct (Transfer.on_slice ONE (Network.receiver s) p) as [[[ack msgs] mm]| |] eqn:He; try done.
  intros [= <-]. eapply Network.step_deliver; [by eapply list_elem_of_lookup_2| |done].
  destruct p; try done. by apply Z.leb_le.
Qed.

(** Two slices of one message, then the second message before the rest of the
    first. *)
Definition or_init (s : option Network.System) : Network.System := default (Network.init ONE) s.
Definition net1 : Network.System := or_init (do_send [x01; x02; x03] 2 (Network.init ONE)).
Definition net2 : Network.System := or_init (do_send [x04] 2 net1).
Definition net3 : Network.System := or_init (do_deliver 0 net2).
Definition net4 : Network.System := or_init (do_deliver 2 net3).
Definition net5 : Network.System := or_init (do_deliver 1 net4).

Lemma net1_reachable : Network.reachable ONE net1.
Proof.
  eapply Network.reach_step; [apply Network.reach_init|].
  apply (do_send_step [x01; x02; x03] 2); [vm_compute; congruence|lia|vm_compute; congruence|vm_compute; reflexivity].
Qed.

Lemma net2_reachable : Network.reachable ONE net2.
Proof.
  eapply Network.reach_step; [apply net1_reachable|].
  apply (do_send_step [x04] 2); [vm_compute; congruence|lia|vm_compute; congruence|vm_compute; reflexivity].
Qed.

Lemma net3_reachable : Network.reachable ONE net3.
Proof.
  eapply Network.reach_step; [apply net2_reachable|].
  apply (do_deliver_step 0); vm_compute; reflexivity.
Qed.

Lemma net4_reachable : Network.reachable ONE net4.
Proof.
  eapply Network.reach_step; [apply net3_reachable|].
  apply (do_deliver_step 2); vm_compute; reflexivity.
Qed.

Lemma net5_reachable : Network.reachable ONE net5.
Proof.
  eapply Network.reach_step; [apply net4_reachable|].
  apply (do_deliver_step 1); vm_compute; reflexivity.
Qed.

Example net5_delivered : Network.delivered net5 = [[x01; x02; x03]; [x04]].
Proof. vm_compute. reflexivity. Qed.
End Sample.
