(* ===== verification/Findings.v ===== *)
(** * Where the code does something else than it says

    Behaviours that contradict a comment, the documentation or the purpose of
    the code, each as a theorem about the definitions. *)

From S2P Require Import Prelude Bytes Errors Epochs Proto BTree Slices SliceTheory Segments.
From S2P Require Import Messages MessageTheory Clock Address Outside Connectors Common Links.
From S2P Require Import States Hoare Handlers Notify Controller Sample.

Module Findings.
Import Epoch Protocol Control Common Links States Hoare Handlers Sample.

(** ** Reassembly *)

(** C40. A slice that lies before another one, with bytes missing between them,
    swallows the gap: the missing bytes count as received. *)
Theorem add_slice_swallows_gap {P : BuildProfile} m start end_ s2 e2 :
  SliceManager.sm_slices m = [(s2, e2)] -> 0 <= start <= end_ -> end_ + 1 < s2 -> s2 <= e2 ->
  SliceManager.add_slice m start end_ = Ret (SliceManager.set_slices m [(start, e2)]).
Proof.
  intros Hm Hs Hgap He. unfold SliceManager.add_slice. rewrite Hm. cbn [length SliceManager.add_loop].
  rewrite BTreeMap.range_from_all by (constructor; [simpl; lia|done]). simpl.
  rewrite (proj2 (Z.leb_gt _ _)) by lia.
  assert (BTreeMap.remove s2 [(s2, e2)] = []) as -> 
    by (unfold BTreeMap.remove; rewrite filter_cons_False by (intros H; by apply H); done).
  done.
Qed.

(** So a message whose slices arrive out of order is released with zero bytes
    in place of the bytes that never arrived: here bytes 3 to 5 of 9. *)
Theorem unreceived_bytes_released :
  (m ← SliceManager.new ONE 0 9;
   m ← SliceManager.recv_slice m ONE 0 6 [x07; x08; x09];
   m ← SliceManager.recv_slice m ONE 0 0 [x01; x02; x03];
   SliceManager.data m) = Ret (Some [x01; x02; x03; x00; x00; x00; x07; x08; x09]).
Proof. vm_compute. reflexivity. Qed.

(** [recv] reports the opposite of what it says for an incomplete message:
    the first half of a message advances the acknowledgement without a report,
    and receiving it again changes nothing and is reported. *)
Theorem recv_report_inverted :
  (let first_half mm := MessageManager.recv mm 0 0 4 [x01; x02] in
   '(b1, mm1) ← first_half (MessageManager.new ONE);
   '(b2, mm2) ← first_half mm1;
   Ret (b1, MessageManager.last_ack mm1, b2, MessageManager.last_ack mm2)) =
  Ret (false, (0, 1), true, (0, 1)).
Proof. vm_compute. reflexivity. Qed.

(** ** Notifications *)

(** A connection, then a peer that asks for another epoch, then the
    application disconnects. *)
Definition mismatch_then_disconnect : list (@Event always) :=
  [EvCtrl (Command (@AddLink always true)); EvLink 0 (Reset None true);
   EvLink 0 (Reset (Some epoch5) true); EvCtrl (Command Disconnect)].

(** A connection that ends while its epoch is renegotiated is never reported
    as ended: the core is disconnected, the application was only ever told of
    the connection, and its handle still shows the epoch. *)
Theorem unannounced_disconnect :
  let (s, w) := final mismatch_then_disconnect in
  completes mismatch_then_disconnect = true /\
  get_name s = "Disconnected"%string /\ to_ctrl w = [Control.Connected ONE] /\
  (let (ls, cell) := Controller.drain (T := bytes) (length (to_ctrl w))
     (Controller.mk_link_set (Some (Controller.mk_receiver (to_ctrl w) false))) None in
   Controller.current_epoch ls cell) = Some ONE.
Proof. vm_compute. repeat split. Qed.

(** Links work for the first interactions only. *)
Definition failing : Outside := environment (fun n => (n <? 9)%nat).

Definition queue_then_fail : list (@Event failing) :=
  [EvCtrl (Command (Message [x01] None)); EvCtrl (Command (@AddLink failing true)); EvTimer].

(** Messages accepted while connecting are dropped when the first link fails
    before the epoch is settled: the queue of the new attempt is empty. *)
Theorem queued_messages_dropped :
  completes queue_then_fail = true /\
  match (final (take 2 queue_then_fail)).1, (final queue_then_fail).1 with
  | EpochMismatch before, Connecting after =>
      em_queued_msgs before = [[x01]] /\ cg_queued_msgs after = []
  | _, _ => False
  end.
Proof. vm_compute. repeat split. Qed.

(** ** Handlers *)

Section with_outside.
Context {P : BuildProfile} {O : Outside}.

(** In the grace period a request for the current epoch ends the connection,
    and a request for another epoch is ignored: the two branches are the wrong
    way round. *)
Theorem grace_period_reset_swapped s id w :
  (exists s' w', grace_period_link_msg s id (Reset (Some (gp_epoch s)) true) w =
    Ret (Disconnected s', w')) /\
  (forall e, e <> Some (gp_epoch s) ->
    grace_period_link_msg s id (Reset e true) w = Ret (GracePeriod s, w)).
Proof.
  split.
  - simpl. rewrite bool_decide_eq_false_2 by (intros H; by apply H). by eexists _, _.
  - intros e He. simpl. by rewrite bool_decide_eq_true_2.
Qed.

Lemma filter_absent id (l : list LinkEntry) :
  id ∉ (le_id <$> l) -> filter (fun e => le_id e <> id) l = l.
Proof.
  induction l as [|e l IH]; [done|]. rewrite fmap_cons, not_elem_of_cons. intros [He Hl].
  rewrite filter_cons_True by done. f_equal. by apply IH.
Qed.

(** Evicting a link that is not there is reported as a success. *)
Theorem evict_unknown_succeeds s id w :
  id ∉ (le_id <$> (cn_links s : list LinkEntry)) ->
  connected_debug s (EvictLink id) w = Ret (Connected s, set_replies w (replies w ++ [EvictReply true])).
Proof.
  intros Hid. destruct s as [conns addrs links mm epoch last_ping].
  change (Ret (Connected (mk_connected conns addrs (filter (fun e => le_id e <> id) (links : list LinkEntry))
    mm epoch last_ping), set_replies w (replies w ++ [EvictReply true])) =
    Ret (Connected (mk_connected conns addrs links mm epoch last_ping),
      set_replies w (replies w ++ [EvictReply true]))).
  by rewrite (filter_absent id).
Qed.

(** The time of the last ping is never updated while connected, so once the
    ping interval has passed every timer event pings all links. *)
Theorem last_ping_never_updated s w s' w' :
  connected_timer_handler s w = Ret (Connected s', w') -> cn_last_ping s' = cn_last_ping s.
Proof.
  intros Heq. cut (post (connected_timer_handler s) w (fun s1 _ => forall s', s1 = Connected s' ->
    cn_last_ping s' = cn_last_ping s)); [intros H; by apply (H _ _ Heq)|].
  unfold connected_timer_handler, determine_state, reconnecting_from_connected,
    grace_period_from_connected, disconnected_from_connected.
  repeat (first [post_step | apply post_any; intros]; cbv beta zeta); by intros ? [= <-].
Qed.

(** The epoch request of a link found while connecting is repeated when the
    connection timeout expires, not after the mismatch interval: the pending
    deadline stays. *)
Theorem mismatch_deadline_kept s e w s' w' t :
  Deadline.deadline (timer (common w)) = Some t ->
  epoch_mismatch_from_connecting s e w = Ret (s', w') ->
  Deadline.deadline (timer (common w')) = Some t.
Proof.
  intros Ht Heq. cut (post (epoch_mismatch_from_connecting s e) w (fun _ w' =>
    Deadline.deadline (timer (common w')) = Some t)); [intros H; by apply (H _ _ Heq)|].
  unfold epoch_mismatch_from_connecting, timer_modify_repeat. post_steps.
  repeat (progress use_same; simpl in *).
  match goal with H : Deadline.modify_repeat _ _ _ = _ |- _ => rename H into Hr end.
  rewrite (Deadline.modify_repeat_armed _ _ t) in Hr by done. by injection Hr as <-.
Qed.
End with_outside.

(** ** Timeouts *)

(** A reconnection timeout is not bounded by the controller: with [Duration::MAX],
    losing the last link panics when the deadline is computed. *)
Theorem huge_timeout_panics {P : BuildProfile} {O : Outside} s w :
  cn_links s = [] -> reconnecting_timeout (common w) = Some DURATION_MAX -> 0 <= clock (ticks w) ->
  determine_state s w = Panic.
Proof.
  intros Hl Ht Hc. unfold determine_state. rewrite Hl. unfold mbind, M_bind, get_common. simpl. rewrite Ht.
  unfold skipped. rewrite bool_decide_eq_false_2 by done. simpl.
  unfold reconnecting_from_connected, fmap, M_fmap, mbind, M_bind, emit, get_common. simpl. rewrite Ht. simpl.
  unfold timer_modify_deadline_from_now, now, tick, lift, mbind, M_bind, get_common. simpl.
  unfold Deadline.modify_deadline_from_now, instant_add. rewrite (proj2 (Z.ltb_ge _ _)); [done|].
  unfold DURATION_MAX, INSTANT_END. lia.
Qed.

(** ** Acknowledgements *)

(** An acknowledgement of byte 0 alone is ignored: a message of one byte stays
    kept although all of it was acknowledged. *)
Theorem ack_of_byte_zero_ignored {P : BuildProfile} e seq msg :
  SliceManager.ack (SliceManager.from_vec e seq msg) e seq 0 = Ret (SliceManager.from_vec e seq msg).
Proof.
  unfold SliceManager.ack. simpl. by rewrite bool_decide_eq_true_2, Z.eqb_refl.
Qed.
End Findings.
