(* ===== verification/Witnesses.v ===== *)
(** * The properties on concrete inputs

    For every property with hypotheses, an input at which they hold. *)

From S2P Require Import Prelude Bytes Errors Epochs Proto BTree Slices SliceTheory Segments.
From S2P Require Import Messages MessageTheory Transfer Network Fifo Clock Address Base64Codec Outside.
From S2P Require Import Channels Connectors.
From S2P Require Import Common Links States Hoare Wire Handlers Notify LinkSafety Safety Pairs Timers.
From S2P Require Import Handshake Controller CoreTask Session Sample Findings.

Module Witnesses.
Import Epoch Protocol Control Common Links States Handlers Sample.
#[local] Existing Instance always.

(** ** The transfer *)

Lemma delivered_prefix_witness : Network.delivered net5 `prefix_of` Network.sent net5.
Proof. apply (Network.delivered_prefix ONE net5). apply net5_reachable. Defined.

Lemma transfer_completes_witness :
  exists s', Network.ticks ONE net3 [2; 1; 3; 7; 2] = Ret s' /\ Network.sent s' = Network.sent net3 /\
    Network.delivered s' = Network.sent net3 /\
    MessageManager.get_outgoing_slices (Network.sender s') = [].
Proof.
  apply (Network.transfer_completes ONE net3 [2; 1; 3; 7; 2]); [apply net3_reachable| | |vm_compute; reflexivity].
  - vm_compute. repeat constructor; discriminate.
  - repeat constructor; lia.
Defined.

Lemma undelivered_kept_witness :
  exists m a, MessageManager.get_outgoing_slice (Network.sender net3) 0 = Some m /\
    SliceManager.sm_data m = [x01; x02; x03] /\ Segments.pending m a /\
    a <= Transfer.got (Network.receiver net3) 0.
Proof.
  apply (Network.undelivered_kept ONE net3 0 [x01; x02; x03]);
    [apply net3_reachable|vm_compute; congruence|vm_compute; reflexivity|discriminate].
Defined.

(** The same two messages over an ordered link; nothing has arrived yet. *)
Definition fifo1 : Fifo.Fifo := Fifo.mk_fifo net1 (Network.net net1).
Definition fifo2 : Fifo.Fifo := Fifo.mk_fifo net2 (Network.net net2).

Lemma do_send_fifo msg size f s' :
  len msg <= ISIZE_MAX -> 1 <= size <= U32_MAX -> MessageManager.next_seq (Network.sender (Fifo.sys f)) < U64_MAX ->
  Fifo.transit f = Network.net (Fifo.sys f) -> do_send msg size (Fifo.sys f) = Some s' ->
  Fifo.step ONE true f (Fifo.mk_fifo s' (Network.net s')).
Proof.
  intros Hm Hs Hn Ht. unfold do_send. destruct (MessageManager.insert_msg _ _) as [[seq mm]| |] eqn:Hi; try done.
  destruct (MessageManager.get_outgoing_slice mm seq) as [m|] eqn:Hg; [|done]. simpl.
  destruct (SliceManager.get_slices m size) as [ps| |] eqn:Hp; try done. intros [= <-]. simpl. rewrite <- Ht at 2.
  by eapply Fifo.step_send.
Qed.

Lemma fifo2_steps : rtc (Fifo.step ONE true) (Fifo.init ONE) fifo2.
Proof.
  apply (rtc_l _ _ fifo1); [|apply rtc_once].
  - apply (do_send_fifo [x01; x02; x03] 2 (Fifo.init ONE) net1);
      [vm_compute; congruence|lia|vm_compute; congruence|reflexivity|vm_compute; reflexivity].
  - apply (do_send_fifo [x04] 2 fifo1 net2);
      [vm_compute; congruence|lia|vm_compute; congruence|reflexivity|vm_compute; reflexivity].
Qed.

Lemma fifo_delivers_witness :
  exists s', Fifo.arrive ONE (Fifo.sys fifo2) (Fifo.transit fifo2) = Ret s' /\
    Network.sender s' = Network.sender (Fifo.sys fifo2) /\ Network.net s' = Network.net (Fifo.sys fifo2) /\
    Network.sent s' = Network.sent (Fifo.sys fifo2) /\
    Network.delivered s' = Network.sent (Fifo.sys fifo2).
Proof.
  apply (Fifo.fifo_delivers ONE fifo2); [apply fifo2_steps|].
  vm_compute. repeat constructor; discriminate.
Defined.

(** An empty message, and one after it. *)
Definition blocked : Network.System := or_init (do_send [] 2 (Network.init ONE)).

Lemma blocked_reachable : Network.reachable ONE blocked.
Proof.
  eapply Network.reach_step; [apply Network.reach_init|].
  apply (do_send_step [] 2); [vm_compute; congruence|lia|vm_compute; congruence|vm_compute; reflexivity].
Qed.

Lemma empty_message_blocks_witness : len (Network.delivered blocked) <= 0.
Proof.
  apply (Network.empty_message_blocks ONE blocked 0); [apply blocked_reachable|lia|vm_compute; reflexivity].
Defined.

(** ** Runs of the core *)

Abbreviation end_state := (final connect_and_send).1.
Abbreviation end_world := (final connect_and_send).2.


Lemma active_iff_connected_witness : Common.is_active (common end_world) = Notify.is_connected end_state.
Proof. apply (Notify.active_iff_connected connect_and_send). apply connect_and_send_run. Defined.

Lemma timer_armed_witness :
  match end_state with
  | Disconnected _ => Deadline.has_deadline (timer (common end_world)) = false
  | EpochMismatch em =>
      Deadline.has_deadline (timer (common end_world)) = true /\
      Deadline.has_repeat (timer (common end_world)) = true /\
      (forall em' w', handle end_state EvTimer end_world = Ret (EpochMismatch em', w') -> em_links em' <> [] ->
        exists n, Wire.packets w' = Wire.packets end_world ++ replicate n Ping ++ [Reset (em_epoch em) true])
  | Connected cn =>
      Deadline.has_deadline (timer (common end_world)) = true /\
      Deadline.has_repeat (timer (common end_world)) = true /\
      (forall cn' w' m rest, handle end_state EvTimer end_world = Ret (Connected cn', w') ->
        MessageManager.get_outgoing_slices (cn_msg_mgr cn) = m :: rest ->
        exists n ps, Wire.packets w' = Wire.packets end_world ++ replicate n Ping ++ ps /\ Wire.transmitted m ps)
  | _ => True
  end.
Proof. apply (Timers.timer_armed connect_and_send). apply connect_and_send_run. Defined.

Lemma current_epoch_in_session_witness :
  let (ls, cell) := Controller.drain (T := bytes) (length (to_ctrl end_world))
    (Controller.mk_link_set (Some (Controller.mk_receiver (to_ctrl end_world) false))) None in
  Controller.current_epoch ls cell = Some ONE.
Proof.
  apply (Controller.current_epoch_in_session connect_and_send end_state end_world ONE);
    [apply connect_and_send_run|vm_compute; reflexivity].
Defined.

(** One event, as a function. *)
Definition next (s : States) (ev : @Event always) (w : World) : States * World :=
  match handle s ev w with Ret r => r | _ => (s, w) end.

Lemma next_Ret s ev w :
  match handle s ev w with Ret _ => true | _ => false end = true ->
  handle s ev w = Ret ((next s ev w).1, (next s ev w).2).
Proof. unfold next. by destruct (handle s ev w) as [[s' w']| |]. Qed.

Definition mismatch_event : @Event always := EvLink 0 (Reset (Some epoch5) true).

Lemma epoch_monotonic_witness :
  Notify.state_epoch end_state <= Notify.state_epoch (next end_state mismatch_event end_world).1.
Proof.
  apply (Notify.epoch_monotonic end_state mismatch_event end_world _ (next end_state mismatch_event end_world).2).
  apply next_Ret. vm_compute. reflexivity.
Defined.

Lemma wrong_epoch_dropped_witness :
  handle end_state (EvCtrl (Command (@Message always [x05] (Some epoch5)))) end_world =
    Ret (end_state, end_world).
Proof.
  apply (Controller.wrong_epoch_dropped (T := bytes) end_state [x05] epoch5 ONE);
    [vm_compute; reflexivity|discriminate|by apply list_elem_of_singleton].
Defined.

(** ** Safe runs *)

Lemma safe_next s w ev :
  Safety.safe_run s w -> Safety.event_ok ev -> Safety.room s w ->
  match handle s ev w with Ret _ => true | _ => false end = true ->
  Safety.safe_run (next s ev w).1 (next s ev w).2.
Proof. intros H He Hr Hx. eapply Safety.safe_event; [done..|by apply next_Ret]. Qed.

Definition after (r : States * World) (ev : @Event always) : States * World := next r.1 ev r.2.
Definition at0 : States * World := (states_new, world_new).
Definition at1 : States * World := after at0 (EvCtrl (Command (@AddLink always true))).
Definition at2 : States * World := after at1 (EvLink 0 (Reset None true)).
Definition at3 : States * World := after at2 (EvCtrl (Command (Message [x01; x02; x03] None))).

Lemma at1_safe : Safety.safe_run at1.1 at1.2.
Proof.
  apply (safe_next states_new world_new);
    [apply Safety.safe_init|exact I|split; vm_compute; exact I || reflexivity|vm_compute; reflexivity].
Qed.

Lemma at2_safe : Safety.safe_run at2.1 at2.2.
Proof.
  apply (safe_next at1.1 at1.2);
    [apply at1_safe|exact I|split; vm_compute; exact I || reflexivity|vm_compute; reflexivity].
Qed.

Lemma at3_safe : Safety.safe_run at3.1 at3.2.
Proof.
  apply (safe_next at2.1 at2.2);
    [apply at2_safe|vm_compute; discriminate|split; vm_compute; exact I || reflexivity|vm_compute; reflexivity].
Qed.

Definition slice_event : @Event always := EvLink 0 (MsgSlice 1 0 4 0 [x01; x02]).

Lemma core_never_panics_witness : exists s' w', handle at3.1 slice_event at3.2 = Ret (s', w').
Proof.
  apply (Safety.core_never_panics (OL := always_laws) at3.1 at3.2 slice_event);
    [apply at3_safe|vm_compute; intuition congruence|split; vm_compute; congruence].
Defined.

Lemma packets_fit_witness : Forall LinkSafety.fits (wire at3.2).
Proof. apply (Safety.packets_fit (OL := always_laws) at3.1 at3.2). apply at3_safe. Defined.

Lemma packets_typed_witness :
  Forall (fun p => proto_wf (sent_packet p) /\
    forall rest, deserialize (serialize (sent_packet p) ++ rest) = (Ok (sent_packet p), rest)) (wire at3.2).
Proof. apply (Safety.packets_typed (OL := always_laws) at3.1 at3.2). apply at3_safe. Defined.

(** Both sides were given a link; each has asked for the other's epoch. *)
Definition first_request : Sent := default (mk_sent 0 0 Ping) (head (wire at1.2)).

Lemma add_link_step peer :
  Pairs.side_step (O := always) peer (states_new, world_new) (at1.1, at1.2).
Proof.
  apply (Pairs.side_local (O := always) peer states_new world_new (EvCtrl (Command (@AddLink always true))));
    [exact I|reflexivity|split; vm_compute; exact I || reflexivity|].
  apply next_Ret. vm_compute. reflexivity.
Qed.

Lemma pair_linked : Pairs.pair_run (O1 := always) (O2 := always) (at1.1, at1.2) (at1.1, at1.2).
Proof.
  eapply Pairs.pair_right; [eapply Pairs.pair_left; [apply Pairs.pair_init|]|]; apply add_link_step.
Qed.

Lemma peers_never_panic_witness :
  exists s' w', handle at1.1 (EvLink 0 (sent_packet first_request)) at1.2 = Ret (s', w').
Proof.
  apply (Pairs.peers_never_panic (OL1 := always_laws) (OL2 := always_laws) at1.1 at1.2 at1.1 at1.2 0 first_request).
  - apply pair_linked.
  - vm_compute. left.
  - split; vm_compute; exact I || reflexivity.
Defined.

(** ** The task of the core *)

(** A command is sent and taken. *)
Definition core1 : CoreTask.Core := (CoreTask.send_ctrl (O := always) CoreTask.new (Command Connect)).2.
Definition core2 : CoreTask.Core := match CoreTask.on_ctrl core1 with Ready c => c | Pending => core1 end.

Lemma core2_reachable : CoreTask.reachable core2.
Proof.
  apply (CoreTask.reach_step core1); [apply (CoreTask.reach_step CoreTask.new); [apply CoreTask.reach_new|]|].
  - apply (CoreTask.step_send CoreTask.new (Command Connect) (Ok tt)); [simpl; lia|reflexivity].
  - apply CoreTask.step_ctrl; reflexivity.
Qed.

Lemma commands_in_order_witness :
  exists evs, run evs (CoreTask.state core2) (CoreTask.world core2) /\
    CoreTask.commands evs `prefix_of` CoreTask.accepted core2 /\
    (CoreTask.status core2 = CoreTask.Running ->
     CoreTask.accepted core2 = CoreTask.commands evs ++ Channel.queue (CoreTask.ctrl core2)).
Proof. apply (CoreTask.commands_in_order core2). apply core2_reachable. Defined.

Lemma terminated_iff_panicked_witness :
  (CoreTask.is_terminated core2 = true <-> CoreTask.status core2 = CoreTask.Panicked) /\
  CoreTask.status core2 <> CoreTask.Returned.
Proof. apply (CoreTask.terminated_iff_panicked core2). apply core2_reachable. Defined.

Lemma snapshot_answered_witness :
  exists c2 snap, rtc CoreTask.debug_step (CoreTask.snapshot (O := always) CoreTask.new_debug).2 c2 /\
    CoreTask.await_snapshot c2 0 = Ready (Ok snap) /\ ds_state_name snap = get_name (CoreTask.state c2).
Proof.
  apply (CoreTask.snapshot_answered (O := always) CoreTask.new_debug 0); reflexivity.
Defined.

Lemma link_ids_distinct_witness :
  NoDup (LinkSafety.ids (Safety.links_of at3.1)) /\
  Forall (fun i => i < next_link_id (common at3.2)) (LinkSafety.ids (Safety.links_of at3.1)).
Proof. apply (Safety.link_ids_distinct (OL := always_laws) at3.1 at3.2). apply at3_safe. Defined.

(** ** Handlers *)

(** The state in which the epoch is being settled, and the connected one. *)
Definition mismatched : EpochMismatchState :=
  match at1.1 with
  | EpochMismatch s => s
  | _ => mk_epoch_mismatch ∅ ∅ [] [] None 0
  end.

Definition connected : ConnectedState :=
  match at3.1 with
  | Connected s => s
  | _ => mk_connected ∅ ∅ [] (MessageManager.new ONE) ONE 0
  end.

(** What a computation that returns returns. *)
Definition value {A} (m : M A) (w : World) (d : A) : A * World :=
  match m w with Ret r => r | _ => (d, w) end.

Lemma value_Ret {A} (m : M A) w d :
  match m w with Ret _ => true | _ => false end = true -> m w = Ret ((value m w d).1, (value m w d).2).
Proof. unfold value. by destruct (m w) as [[a w']| |]. Qed.

Definition reset_result : States * World :=
  value (handle_link_msg (EpochMismatch mismatched) 0 (Reset (Some epoch5) true)) at1.2 states_new.

Lemma reset_refines_peer_witness :
  (Wire.has_usable (em_links mismatched) at1.2 ->
     Handshake.peer_of reset_result.1 = Some (Handshake.Joined epoch5) /\
     Handshake.resets reset_result.2 = Handshake.resets at1.2 ++ [(Some epoch5, false)]) /\
  (Wire.no_usable (em_links mismatched) at1.2 ->
     Handshake.resets reset_result.2 = Handshake.resets at1.2 /\
     (Handshake.peer_of reset_result.1 = Some (Handshake.Joined epoch5) \/
      true = true /\ (exists e, Handshake.Negotiating None = Handshake.Joined e /\ Some epoch5 = Some e) /\
      Handshake.peer_of reset_result.1 = None)).
Proof.
  apply (Handshake.reset_refines_peer (EpochMismatch mismatched) (Handshake.Negotiating None) 0
    (Some epoch5) true at1.2 reset_result.1 reset_result.2); [vm_compute; reflexivity|].
  exact (value_Ret (handle_link_msg (EpochMismatch mismatched) 0 (Reset (Some epoch5) true)) at1.2
    states_new ltac:(vm_compute; reflexivity)).
Defined.

(** The link is usable there. *)
Example reset_answered : Wire.has_usable (em_links mismatched) at1.2.
Proof.
  assert (match usable (em_links mismatched) at1.2 with Ret (_ :: _, _) => true | _ => false end = true) as H
    by (vm_compute; reflexivity).
  destruct (usable (em_links mismatched) at1.2) as [[[|e rest] w1]| |] eqn:E; try done. by exists e, rest, w1.
Qed.

(** Two new peers.  [B] gets the request of [A], and then its answer, before the
    request is repeated: the old request makes it start again. *)
Definition pair0 : Handshake.Pair := Handshake.start None None.
Definition pair1 : Handshake.Pair :=
  Handshake.mk_pair (Handshake.Negotiating None) (Handshake.Negotiating None) [] [(None, true)].
Definition pair2 : Handshake.Pair :=
  Handshake.mk_pair (Handshake.Negotiating None) (Handshake.Joined ONE) [(Some ONE, false)] [(None, true)].
Definition pair3 : Handshake.Pair :=
  Handshake.mk_pair (Handshake.Negotiating None) (Handshake.Negotiating (Some (increment ONE)))
    [(Some ONE, false); (Some (increment ONE), true)] [(None, true)].

Lemma pair3_reached : rtc (Handshake.step true) pair0 pair3.
Proof.
  apply (rtc_l _ _ pair1). { apply (Handshake.step_a true pair0 _ [(None, true)]), Handshake.act_timer. }
  apply (rtc_l _ _ pair2).
  { apply (Handshake.step_b true pair1 (Handshake.Joined ONE) [(Some ONE, false)]).
    apply (Handshake.act_deliver true (Handshake.Negotiating None) [(None, true)] None true). left. }
  apply rtc_once. apply (Handshake.step_b true pair2 (Handshake.Negotiating (Some (increment ONE))) [(Some (increment ONE), true)]).
  apply (Handshake.act_deliver true (Handshake.Joined ONE) [(None, true)] None true). left.
Qed.

Lemma peers_agree_witness :
  (forall x y, Handshake.peer_a pair3 = Handshake.Joined x -> Handshake.peer_b pair3 = Handshake.Joined y -> x = y) /\
  (exists st', rtc (Handshake.step false) pair3 st' /\ Handshake.joined st').
Proof. apply (Handshake.peers_agree None None pair3). apply pair3_reached. Defined.

Definition slice_handler : M States := connected_link_msg connected 0 (MsgSlice (to_int ONE) 0 2 0 [x01; x02]).
Definition connected_after : ConnectedState :=
  match (value slice_handler at3.2 states_new).1 with Connected s => s | _ => connected end.

Lemma slice_handler_Ret :
  slice_handler at3.2 = Ret (Connected connected_after, (value slice_handler at3.2 states_new).2).
Proof.
  assert (match slice_handler at3.2 with Ret (Connected _, _) => true | _ => false end = true) as H
    by (vm_compute; reflexivity).
  unfold connected_after, value. by destruct (slice_handler at3.2) as [[[] w]| |].
Qed.

Lemma connected_slice_refines_witness :
  exists ack msgs,
    Transfer.on_slice ONE (cn_msg_mgr connected) (MsgSlice (to_int ONE) 0 2 0 [x01; x02]) =
      Ret (ack, msgs, cn_msg_mgr connected_after) /\
    to_ctrl (value slice_handler at3.2 states_new).2 =
      to_ctrl at3.2 ++ ((fun m => Received m ONE) <$> msgs).
Proof.
  apply (Session.connected_slice_refines connected 0 0 2 0 [x01; x02]). apply slice_handler_Ret.
Defined.

Definition with_queue : EpochMismatchState :=
  mk_epoch_mismatch ∅ ∅ (em_links mismatched) [[x01]; [x02]] None 0.
Definition joined : ConnectedState * World :=
  value (connected_from_epoch_mismatch with_queue ONE) at1.2 connected.

Lemma queued_messages_numbered_witness :
  (forall i msg, 0 <= i -> atZ [[x01]; [x02]] i = Some msg ->
    MessageManager.get_outgoing_slice (cn_msg_mgr joined.1) i = Some (SliceManager.from_vec ONE i msg)) /\
  exists groups, Wire.packets joined.2 = Wire.packets at1.2 ++ concat groups /\ (length groups <= 2)%nat /\
    (cn_links joined.1 <> [] -> length groups = 2%nat) /\
    (forall i msg ps, [[x01]; [x02]] !! i = Some msg -> groups !! i = Some ps ->
      Wire.transmitted (SliceManager.from_vec ONE (Z.of_nat i) msg) ps).
Proof.
  apply (Session.queued_messages_numbered with_queue ONE at1.2 joined.1 joined.2).
  - repeat constructor; vm_compute; congruence.
  - vm_compute. congruence.
  - exact (value_Ret (connected_from_epoch_mismatch with_queue ONE) at1.2 connected
      ltac:(vm_compute; reflexivity)).
Defined.

(** A link is left there. *)
Example queued_sent : cn_links joined.1 <> [].
Proof.
  assert (bool_decide (cn_links joined.1 = []) = false) as H by (vm_compute; reflexivity).
  by apply bool_decide_eq_false in H.
Qed.

Lemma evict_unknown_succeeds_witness :
  connected_debug connected (EvictLink 7) at3.2 =
    Ret (Connected connected, set_replies at3.2 (replies at3.2 ++ [EvictReply true])).
Proof.
  apply (Findings.evict_unknown_succeeds connected 7 at3.2). vm_compute. intros H.
  inversion H as [|? ? ? H']; inversion H'.
Defined.

Definition timer_after : ConnectedState :=
  match (value (connected_timer_handler connected) at3.2 states_new).1 with
  | Connected s => s
  | _ => connected
  end.

Lemma last_ping_never_updated_witness : cn_last_ping timer_after = cn_last_ping connected.
Proof.
  apply (Findings.last_ping_never_updated connected at3.2 timer_after
    (value (connected_timer_handler connected) at3.2 states_new).2).
  assert (match connected_timer_handler connected at3.2 with Ret (Connected _, _) => true | _ => false end = true)
    as H by (vm_compute; reflexivity).
  unfold timer_after, value. by destruct (connected_timer_handler connected at3.2) as [[[] w]| |].
Defined.

(** Connecting, with the default timeout of a minute. *)
Definition connecting_at : States * World := after at0 (EvCtrl (Command Connect)).
Definition connecting : ConnectingState :=
  match connecting_at.1 with
  | Connecting s => s
  | _ => mk_connecting (ConnectorManager.start ∅ ∅) [] None
  end.
Definition found : EpochMismatchState * World :=
  value (epoch_mismatch_from_connecting connecting (entry_new (O := always) true 0)) connecting_at.2 mismatched.

Lemma mismatch_deadline_kept_witness :
  Deadline.deadline (timer (common found.2)) = Some (from_secs 60).
Proof.
  apply (Findings.mismatch_deadline_kept connecting (entry_new (O := always) true 0) connecting_at.2
    found.1 found.2); [vm_compute; reflexivity|].
  exact (value_Ret (epoch_mismatch_from_connecting connecting (entry_new (O := always) true 0))
    connecting_at.2 mismatched ltac:(vm_compute; reflexivity)).
Defined.

(** ** The wire format *)

Definition a_slice : LinkProtocol := MsgSlice 1 2 3 0 [x07; x08].

Lemma a_slice_wf : proto_wf a_slice.
Proof. vm_compute. intuition discriminate. Qed.

Lemma deserialize_serialize_witness : deserialize (serialize a_slice ++ [x09]) = (Ok a_slice, [x09]).
Proof. apply (Protocol.deserialize_serialize a_slice [x09]). apply a_slice_wf. Defined.

(** A request whose flag byte is neither 0 nor 1. *)
Definition odd_reset : bytes := [x00; x00; x00; x00; x00; x00; x00; x00; x05; x02; x0a].

Lemma deserialize_sound_witness :
  proto_wf (Reset (Some epoch5) true) /\ Protocol.encodes odd_reset (Reset (Some epoch5) true) [x0a].
Proof.
  apply (Protocol.deserialize_sound odd_reset (Reset (Some epoch5) true) [x0a]);
    [vm_compute; discriminate|vm_compute; reflexivity].
Defined.

Lemma deserialize_truncated_witness :
  fst (deserialize (take 42 (serialize a_slice))) = Err DeserializeEOF.
Proof. apply (Protocol.deserialize_truncated a_slice 42); [apply a_slice_wf|vm_compute; lia]. Defined.

(** ** Slices and messages *)

Lemma transfer_roundtrip_witness :
  (ps ← SliceManager.get_slices (SliceManager.from_vec ONE 3 [x01; x02; x03]) 2;
   m ← SliceManager.new ONE 3 3;
   m ← Segments.recv_all m ps;
   SliceManager.data m) = Ret (Some [x01; x02; x03]).
Proof.
  apply (Segments.transfer_roundtrip ONE 3 [x01; x02; x03] 2);
    [vm_compute; discriminate|vm_compute; discriminate|lia].
Defined.

Definition one_sent : MessageManager.MessageManager :=
  match MessageManager.insert_msg (MessageManager.new ONE) [x01; x02] with
  | Ret (_, mm) => mm
  | _ => MessageManager.new ONE
  end.

Lemma manager_total_witness :
  exists mm', MessageManager.insert_msg one_sent [x03] = Ret (1, mm') /\
    MessageManager.get_outgoing_slice mm' 1 = Some (SliceManager.from_vec ONE 1 [x03]).
Proof.
  apply (Session.manager_total ONE one_sent); [|vm_compute; discriminate|vm_compute; reflexivity].
  eapply (Session.used_insert ONE (MessageManager.new ONE) [x01; x02] 0);
    [apply Session.used_new|vm_compute; discriminate|vm_compute; reflexivity|vm_compute; reflexivity].
Defined.

Lemma retransmission_exact_witness :
  exists m ps, SliceManager.ack (SliceManager.from_vec ONE 0 [x01; x02; x03; x04; x05]) ONE 0 1 = Ret m /\
    SliceManager.get_slices m 2 = Ret ps /\
    Segments.contiguous (to_int ONE) 0 5 2 ps [x03; x04; x05] /\
    Forall (fun p => Segments.slice_size p <= 2) ps.
Proof.
  apply (Session.retransmission_exact ONE 0 [x01; x02; x03; x04; x05] 1 2);
    [vm_compute; split; congruence|vm_compute; discriminate|lia].
Defined.

(** Five bytes, the first two of which are there. *)
Definition two_of_five : SliceManager.SliceManager :=
  SliceManager.mk_slice_manager ONE 0 [x01; x02; x00; x00; x00] [(0, 1)].

Lemma add_slice_union_witness :
  exists slices',
    SliceManager.add_slice two_of_five 2 3 = Ret (SliceManager.set_slices two_of_five slices') /\
    SliceSets.separated 0 5 slices' /\
    forall i, SliceSets.covers slices' i <-> SliceSets.covers [(0, 1)] i \/ 2 <= i <= 3.
Proof.
  apply (SliceSets.add_slice_union two_of_five 2 3); [|lia|vm_compute; reflexivity|].
  - constructor; [|vm_compute; discriminate]. vm_compute. intuition discriminate.
  - intros i Hi. change (3 < i <= 3) in Hi. lia.
Defined.

Lemma add_slice_swallows_gap_witness :
  SliceManager.add_slice (SliceManager.mk_slice_manager ONE 0 [x01; x02; x03; x04; x05] [(4, 4)]) 0 1 =
    Ret (SliceManager.mk_slice_manager ONE 0 [x01; x02; x03; x04; x05] [(0, 4)]).
Proof.
  apply (Findings.add_slice_swallows_gap (SliceManager.mk_slice_manager ONE 0 [x01; x02; x03; x04; x05] [(4, 4)]) 0 1 4 4);
    [reflexivity|lia..].
Defined.

Lemma recv_zero_length_panics_witness :
  MessageManager.recv one_sent 1 0 0 [x01] = Panic.
Proof.
  apply (MessageInvariant.recv_zero_length_panics one_sent 1 0 [x01]);
    [reflexivity|vm_compute; reflexivity|lia|vm_compute; discriminate|vm_compute; discriminate].
Defined.

(** ** Addresses *)

(** [t:ab] *)
Definition an_address : Address.Address := Address.mk_address [x74] (Address.String [x61; x62]).

Lemma an_address_plain : Address.plain_scheme (Address.scheme an_address).
Proof. by repeat constructor. Qed.

Lemma from_bytes_to_bytes_witness : Address.from_bytes (Address.to_bytes an_address) = Ret (Ok an_address).
Proof.
  apply (Address.from_bytes_to_bytes an_address); [vm_compute; reflexivity|apply an_address_plain].
Defined.

Lemma from_str_display_witness :
  @Address.from_str Base64Codec.url_safe (@Address.display Base64Codec.url_safe an_address) = Some an_address.
Proof. apply (@Address.from_str_display Base64Codec.url_safe Base64Codec.url_safe_laws an_address). apply an_address_plain. Defined.

(** ** Connection attempts *)

Definition once : ConnectorManager.ConnectorManagerAddress :=
  ConnectorManager.add_count (ConnectorManager.new an_address) 1.
Definition spent : ConnectorManager.ConnectorManagerAddress := ConnectorManager.new an_address.
Definition resting : @ConnectorManager.Task always := ConnectorManager.mk_task [x74] ConnectorManager.Sleeping.

Lemma once_run :
  ConnectorManager.task_run once (ConnectorManager.create_task (O := always) [x74]) 1 spent resting.
Proof.
  eapply (ConnectorManager.run_finish _ _ 0 spent
    (ConnectorManager.mk_task (O := always) [x74] (ConnectorManager.Attempting true)) (Err Closed) true);
    [|reflexivity|reflexivity].
  eapply ConnectorManager.run_begin; [apply ConnectorManager.run_refl|reflexivity].
Qed.

(** The attempt is under way when the manager is stopped. *)
Definition addrs1 : ConnectorManager.AddressSet := {[ an_address := once ]}.
Definition conns1 : gmap Str (@connector always) := {[ ([x74] : Str) := ([x74] : Str) ]}.
Definition under_way : @ConnectorManager.ConnectorManager always :=
  ConnectorManager.mk_connector_manager (O := always) conns1
    (<[an_address := (spent, Some (ConnectorManager.mk_task (O := always) [x74] (ConnectorManager.Attempting true)))]>
       (ConnectorManager.handles (ConnectorManager.start addrs1 conns1))).

Lemma under_way_run :
  ConnectorManager.cm_run (ConnectorManager.start addrs1 conns1)
    (fun k => if decide (k = an_address) then 0 + 0 else 0) under_way.
Proof.
  apply (ConnectorManager.cm_run_step (O := always) (ConnectorManager.start addrs1 conns1) (fun _ => 0)
    (ConnectorManager.start addrs1 conns1) an_address once
    (ConnectorManager.create_task (O := always) [x74]) spent
    (ConnectorManager.mk_task (O := always) [x74] (ConnectorManager.Attempting true))).
  - apply ConnectorManager.cm_run_refl.
  - simpl. unfold addrs1. rewrite map_fmap_singleton, lookup_singleton_eq. reflexivity.
  - apply ConnectorManager.step_begin. reflexivity.
Qed.

Lemma cancel_after_attempts_witness :
  (ConnectorManager.cancel under_way).1 = conns1 /\ dom (ConnectorManager.cancel under_way).2 = dom addrs1 /\
  forall k a a', addrs1 !! k = Some a -> (ConnectorManager.cancel under_way).2 !! k = Some a' ->
    ConnectorManager.cma_addr a' = k /\ ConnectorManager.cma_repeat a' = ConnectorManager.cma_repeat a /\
    0 <= ConnectorManager.cma_count a' <= ConnectorManager.cma_count a /\
    ConnectorManager.cma_count a' =
      if ConnectorManager.cma_repeat a then ConnectorManager.cma_count a
      else ConnectorManager.cma_count a - (if decide (k = an_address) then 0 + 0 else 0).
Proof.
  apply (ConnectorManager.cancel_after_attempts (O := always) addrs1 conns1
    (fun k => if decide (k = an_address) then 0 + 0 else 0) under_way).
  - apply map_Forall_singleton. split; [reflexivity|vm_compute; split; discriminate].
  - apply under_way_run.
Defined.

Lemma attempts_bounded_witness :
  1 + ConnectorManager.budget spent (Some resting) = ConnectorManager.cma_count once /\
  0 <= 1 <= ConnectorManager.cma_count once.
Proof.
  apply (ConnectorManager.attempts_bounded (O := always) once [x74] 1 spent resting);
    [reflexivity|vm_compute; discriminate|apply once_run].
Defined.

Lemma try_addr_once_witness : 0 <= 1 <= 1.
Proof.
  apply (Controller.try_addr_once (O := always) an_address [x74] 1 spent resting once);
    [reflexivity|apply once_run].
Defined.
End Witnesses.
