(* ===== verification/LinkWitnesses.v ===== *)
(** * The properties of links on concrete inputs

    For every property of the TCP link, the pipe link and the serializer with
    hypotheses, an input at which they hold. *)

From S2P Require Import Prelude Bytes Errors Epochs Proto Clock Address Outside Channels.
From S2P Require Import Tcp TcpTheory EntryReader Pipe PipeTheory UnitTests Controller Serde.

Module LinkWitnesses.
Import Protocol.

(** ** A TCP link that carries one packet *)

Definition packet : bytes := serialize Ping.

Definition sender1 : Tcp.TcpLink := (Tcp.send None None (Tcp.from_socket []) packet).2.
Definition task1 : Tcp.Task := TcpTheory.push_read (TcpTheory.task TcpTheory.init) (Ok (Tcp.socket_writer sender1)).
Definition task2 : Tcp.Task := (Tcp.task_step false task1).2.
Definition task3 : Tcp.Task := (Tcp.task_step false task2).2.
Definition task4 : Tcp.Task := TcpTheory.set_chan task3 (Tcp.reader_read (Tcp.tk_chan task3)).2.

Definition tcp1 := TcpTheory.mk_system sender1 [packet] [packet] (Tcp.socket_writer sender1) false false (TcpTheory.task TcpTheory.init) [].
Definition tcp2 := TcpTheory.mk_system sender1 [packet] [packet] [] false false task1 [].
Definition tcp3 := TcpTheory.mk_system sender1 [packet] [packet] [] false false task2 [].
Definition tcp4 := TcpTheory.mk_system sender1 [packet] [packet] [] false false task3 [].
Definition tcp5 := TcpTheory.mk_system sender1 [packet] [packet] [] false false task4 [packet].

Lemma tcp2_reachable : TcpTheory.reachable tcp2.
Proof.
  apply (rtc_l _ _ tcp1).
  { apply (TcpTheory.step_send TcpTheory.init packet None None (Ok tt) sender1); [vm_compute; discriminate|reflexivity]. }
  apply (rtc_l _ _ tcp2); [|apply rtc_refl].
  apply (TcpTheory.step_arrive tcp1 (Tcp.socket_writer sender1) []); [reflexivity|reflexivity|].
  vm_compute. split; discriminate.
Qed.

Lemma tcp5_reachable : TcpTheory.reachable tcp5.
Proof.
  unfold TcpTheory.reachable. etrans; [apply tcp2_reachable|].
  apply (rtc_l _ _ tcp3). { apply (TcpTheory.step_task tcp2 false task2). reflexivity. }
  apply (rtc_l _ _ tcp4). { apply (TcpTheory.step_task tcp3 false task3). reflexivity. }
  apply rtc_once. apply (TcpTheory.step_read tcp4 packet (Tcp.reader_read (Tcp.tk_chan task3)).2). reflexivity.
Qed.

(** A second packet is cut off by a failing write, and a third one follows. *)
Definition sender2 : Tcp.TcpLink := (Tcp.send None (Some (0%nat, Tcp.ConnectionReset)) sender1 packet).2.
Definition sender3 : Tcp.TcpLink := (Tcp.send None None sender2 packet).2.
Definition tcp6 := TcpTheory.mk_system sender2 [packet; packet] [packet]
  (dropZ (len (Tcp.socket_writer sender1)) (Tcp.socket_writer sender2)) false false task4 [packet].
Definition tcp7 := TcpTheory.mk_system sender3 [packet; packet; packet] [packet]
  (dropZ (len (Tcp.socket_writer sender1)) (Tcp.socket_writer sender3)) false false task4 [packet].

Lemma tcp7_reachable : TcpTheory.reachable tcp7.
Proof.
  unfold TcpTheory.reachable. etrans; [apply tcp5_reachable|].
  apply (rtc_l _ _ tcp6).
  { apply (TcpTheory.step_send tcp5 packet None (Some (0%nat, Tcp.ConnectionReset)) (Err (Tcp.Io Tcp.ConnectionReset)) sender2);
      [vm_compute; discriminate|reflexivity]. }
  apply rtc_once. apply (TcpTheory.step_send tcp6 packet None None (Ok tt) sender3); [vm_compute; discriminate|reflexivity].
Qed.

Lemma chunks_preserved_witness :
  TcpTheory.good tcp7 `prefix_of` TcpTheory.sent tcp7 /\
  (Tcp.is_closed (TcpTheory.sender tcp7) = false -> TcpTheory.good tcp7 = TcpTheory.sent tcp7) /\
  (TcpTheory.out tcp7 `prefix_of` TcpTheory.good tcp7 \/ TcpTheory.good tcp7 `prefix_of` TcpTheory.out tcp7) /\
  ((length (TcpTheory.sent tcp7) <= S (length (TcpTheory.good tcp7)))%nat ->
   TcpTheory.out tcp7 `prefix_of` TcpTheory.sent tcp7).
Proof. apply (TcpTheory.chunks_preserved tcp7). apply tcp7_reachable. Defined.

(** What is sent after a failed write is cut up wrongly: the reader takes the
    bytes after the torn frame's header for its chunk. *)
Definition task8 : Tcp.Task := TcpTheory.push_read task4 (Ok (TcpTheory.flight tcp7)).
Definition task9 : Tcp.Task := (Tcp.task_step false task8).2.
Definition task10 : Tcp.Task := (Tcp.task_step false task9).2.
Definition task11 : Tcp.Task := TcpTheory.set_chan task10 (Tcp.reader_read (Tcp.tk_chan task10)).2.
Definition torn (t : Tcp.Task) (out : list bytes) : TcpTheory.System :=
  TcpTheory.mk_system sender3 [packet; packet; packet] [packet] [] false false t out.

Lemma send_after_failure_corrupts :
  TcpTheory.reachable (torn task11 [packet; [x00]]) /\ packet <> [x00].
Proof.
  split; [|by vm_compute]. unfold TcpTheory.reachable. etrans; [apply tcp7_reachable|].
  apply (rtc_l _ _ (torn task8 [packet])).
  { apply (TcpTheory.step_arrive tcp7 (TcpTheory.flight tcp7) []); [reflexivity|by rewrite app_nil_r|].
    vm_compute. split; discriminate. }
  apply (rtc_l _ _ (torn task9 [packet])). { apply (TcpTheory.step_task (torn task8 [packet]) false task9). reflexivity. }
  apply (rtc_l _ _ (torn task10 [packet])). { apply (TcpTheory.step_task (torn task9 [packet]) false task10). reflexivity. }
  apply rtc_once. apply (TcpTheory.step_read (torn task10 [packet]) [x00] (Tcp.reader_read (Tcp.tk_chan task10)).2).
  reflexivity.
Qed.

Lemma chunks_delivered_witness :
  exists s', rtc TcpTheory.step tcp2 s' /\ TcpTheory.sent s' = [packet] /\ TcpTheory.out s' = [packet].
Proof.
  apply (TcpTheory.chunks_delivered tcp2); [apply tcp2_reachable|reflexivity|reflexivity].
Defined.

(** The length arrives in two parts. *)
Lemma recv_chunk_resumable_witness :
  ([] : list Tcp.Read) = [] /\
  Tcp.recv_chunk (Tcp.mk_read_state None []) ([Ok [x00; x00]] ++ [Ok [x00; x01; x41]]) =
    Tcp.recv_chunk (Tcp.mk_read_state None [x00; x00]) [Ok [x00; x01; x41]].
Proof.
  apply (TcpTheory.recv_chunk_resumable (Tcp.mk_read_state None []) [Ok [x00; x00]] [Ok [x00; x01; x41]]
    (Tcp.mk_read_state None [x00; x00]) []). reflexivity.
Defined.

(** The packet is read, decoded and taken from the stream. *)
Definition entry1 : EntryReader.ReaderTask := EntryReader.on_read (EntryReader.spawn 3) (Ok packet).
Definition entry2 : EntryReader.ReaderTask := EntryReader.on_send entry1.

Lemma packets_over_tcp_witness :
  ([(3, Ping)] `prefix_of` (pair 3 <$> [Ping]) \/ (pair 3 <$> [Ping]) `prefix_of` [(3, Ping)]) /\
  ((3 <= 2)%nat -> [(3, Ping)] `prefix_of` (pair 3 <$> [Ping; Ping; Ping])).
Proof.
  apply (EntryReader.packets_over_tcp 3 tcp7 [Ping; Ping; Ping]
    (EntryReader.mk_task 3 EntryReader.Reading (Channel.recv (EntryReader.rt_chan entry2)).2));
    [apply tcp7_reachable|reflexivity|by repeat constructor|].
  apply (EntryReader.run_next 3 _ entry2 [] (3, Ping)); [|reflexivity].
  apply EntryReader.run_send, (EntryReader.run_read 3 [] (EntryReader.spawn 3)); [apply EntryReader.run_spawn|reflexivity].
Defined.

(** ** A pipe *)

#[local] Instance reliable : Rand := UnitTests.always.

Lemma reliable_laws : RandLaws.
Proof. constructor; [by exists tt|done]. Qed.

Abbreviation pipe0 := (PipeTheory.init Deadline.new None).
Definition chan1 : Pipe.Pipe := (Channel.send (PipeTheory.pipe pipe0) ([x41], 5)).2.
Definition pipe1 : PipeTheory.System :=
  PipeTheory.mk_system chan1 (PipeTheory.reader pipe0) (PipeTheory.canceled pipe0) None [[x41]] [] false.
Definition pipe2 : PipeTheory.System :=
  PipeTheory.mk_system (Channel.recv chan1).2 (PipeTheory.reader pipe0) (PipeTheory.canceled pipe0) None [[x41]] [[x41]] false.

Lemma pipe2_steps : rtc PipeTheory.step pipe0 pipe2.
Proof.
  apply (rtc_l _ _ pipe1). { apply (PipeTheory.step_send pipe0 [x41] 5 chan1). reflexivity. }
  apply rtc_once.
  apply (PipeTheory.step_begin pipe1 false 7 (Pipe.Done (Ok [x41])) (PipeTheory.reader pipe0) (Channel.recv chan1).2
    (PipeTheory.canceled pipe0)); reflexivity.
Qed.

Lemma pipe_in_order_witness :
  sublist (PipeTheory.out pipe2) (PipeTheory.accepted pipe2) /\
  (PipeTheory.gap pipe2 = false -> PipeTheory.out pipe2 `prefix_of` PipeTheory.accepted pipe2).
Proof. apply (PipeTheory.pipe_in_order Deadline.new None pipe2). apply pipe2_steps. Defined.

(** Somebody listens at the address and a connection is made. *)
Definition hub0 : Pipe.PipeLinkHub := Pipe.hub_new Pipe.builder_new.
Definition listened : outcome (Z * Pipe.PipeLinkHub * Pipe.Heap) := Pipe.listen hub0 [x61] Pipe.heap_new.
Definition hub1 : Pipe.PipeLinkHub := match listened with Ret (_, hub, _) => hub | _ => hub0 end.
Definition heap1 : Pipe.Heap := match listened with Ret (_, _, h) => h | _ => Pipe.heap_new end.
Definition link_a : Pipe.PipeLink :=
  Pipe.mk_link (R := reliable) 7 1 (Some (Pipe.mk_reader 7 2 None Deadline.new None 3)) U32_MAX (Pipe.mk_canceler 3 4) tt.
Definition heap2 : Pipe.Heap :=
  match Pipe.connect hub1 [x61] 7 8 0 0 heap1 with Ret (_, _, h) => h | _ => heap1 end.

Lemma hub_connects_witness :
  exists i c link2 h1 link2' h2,
    Pipe.listeners hub1 !! ([x61] : Str) = Some i /\ Pipe.listening heap1 !! i = Some c /\
    Pipe.listening heap2 !! i = Some (Channel.set_queue c (Channel.queue c ++ [link2])) /\
    Pipe.send 0 0 link_a [x01] heap2 = Ret (Ready (Ok tt), h1) /\
    Pipe.recv false false 0 link2 h1 = Ret (Ready (Ok [x01]), link2', h2).
Proof.
  apply (PipeTheory.hub_connects (RL := reliable_laws) hub1 [x61] 7 8 0 0 heap1 link_a hub1 heap2 0 0 0 [x01]);
    vm_compute; reflexivity.
Defined.

(** ** A serializer of booleans *)

#[local] Instance bool_bincode : Bincode bool := {|
  EncodeError := unit;
  DecodeError := string;
  OtherString := fun s => s;
  show_encode := fun _ => ""%string;
  show_decode := fun s => s;
  encode_to_vec := fun x : bool => Ok [if x then x01 else x00];
  decode_from_slice := fun b =>
    match b with
    | x00 :: _ => Ok (false, 1)
    | x01 :: _ => Ok (true, 1)
    | _ => Err "InvalidBooleanValue"%string
    end;
|}.

Lemma bool_bincode_laws : BincodeLaws bool.
Proof. intros [] b rest [= <-]; reflexivity. Qed.

Lemma serde_roundtrip_witness :
  Serde.from_bytes (T := bool) [x01] = Ok true /\
  ([x02] <> [] -> Serde.from_bytes (T := bool) ([x01] ++ [x02]) =
    Err (Serde.Decode (OtherString "Deserialization finished, but there are more bytes"%string))).
Proof. apply (Serde.serde_roundtrip (BincodeLaws0 := bool_bincode_laws) true [x01] [x02]). reflexivity. Defined.
End LinkWitnesses.
